(** * Connection planning of the GXF executor

    A shallow embedding of the graph lowering and connection-resolution code of
    [GXFExecutor] (gxf_executor.cpp) and of [Fragment::add_flow]
    (fragment.cpp): port creation, queue-size resolution, lowering of
    inter-fragment connections, the worklist traversal of
    [initialize_fragment], broadcast insertion and the thread-pool check.

    Operators are heap objects reached through [std::shared_ptr]; a node of
    the flow graph is the address of an operator, and the operators live in a
    heap that the executor mutates.  Exceptions, [return false] and
    dereferences of null handles are results of the [outcome] type. *)

From Stdlib Require Import ZArith List String Ascii Bool Lia Permutation.
From Stdlib Require Import DecimalString Relations.
From Stdlib Require DecimalZ.
Import ListNotations.

Open Scope string_scope.
Open Scope Z_scope.

(** ** Results of fallible code *)

Inductive outcome (A : Type) : Type :=
| Ok (a : A)            (* normal completion (for a bool function: true) *)
| Throw (msg : string)  (* an exception leaves the function, with its text *)
| ReturnFalse           (* the function logs an error and returns false *)
| Undefined             (* a null handle is dereferenced *)
| OutOfFuel.            (* the loop bound of the model was reached *)

Arguments Ok {A} a.
Arguments Throw {A} msg.
Arguments ReturnFalse {A}.
Arguments Undefined {A}.
Arguments OutOfFuel {A}.

Definition bind {A B : Type} (m : outcome A) (k : A -> outcome B) : outcome B :=
  match m with
  | Ok a => k a
  | Throw msg => Throw msg
  | ReturnFalse => ReturnFalse
  | Undefined => Undefined
  | OutOfFuel => OutOfFuel
  end.

Notation "x <- m ;; k" := (bind m (fun x => k))
  (at level 61, m at next level, right associativity).

Definition is_ok {A : Type} (m : outcome A) : bool :=
  match m with Ok _ => true | _ => false end.

(** ** Formatting *)

Definition string_of_Z (z : Z) : string := NilZero.string_of_int (Z.to_int z).
Definition string_of_nat (n : nat) : string := string_of_Z (Z.of_nat n).

(** [fmt::join(labels, ", ")] *)
Fixpoint join (sep : string) (l : list string) : string :=
  match l with
  | nil => ""
  | x :: nil => x
  | x :: rest => x ++ sep ++ join sep rest
  end.

(** [haystack.find(needle) != npos] *)
Fixpoint contains (needle haystack : string) : bool :=
  if String.prefix needle haystack then true
  else match haystack with
       | EmptyString => false
       | String _ rest => contains needle rest
       end.

(** ** Enumerations *)

Inductive IOType := kInput | kOutput.
Inductive ConnectorType := kDefault | kDoubleBuffer | kUCX.
Inductive OperatorType := kNative | kGXF | kVirtual.
Inductive MetadataPolicy := kReject | kInplaceUpdate | kUpdate | kRaise | kDefaultPolicy.

Inductive ConditionType :=
| kNone
| kMessageAvailable
| kDownstreamMessageAffordable
| kExpiringMessageAvailable
| kMultiMessageAvailable
| kMultiMessageAvailableTimeout
| kOtherCondition (tag : nat).   (* the remaining enumerators *)

Definition IOType_eqb (a b : IOType) : bool :=
  match a, b with kInput, kInput | kOutput, kOutput => true | _, _ => false end.

Definition ConnectorType_eqb (a b : ConnectorType) : bool :=
  match a, b with
  | kDefault, kDefault | kDoubleBuffer, kDoubleBuffer | kUCX, kUCX => true
  | _, _ => false
  end.

Definition OperatorType_eqb (a b : OperatorType) : bool :=
  match a, b with
  | kNative, kNative | kGXF, kGXF | kVirtual, kVirtual => true
  | _, _ => false
  end.

Definition MetadataPolicy_eqb (a b : MetadataPolicy) : bool :=
  match a, b with
  | kReject, kReject | kInplaceUpdate, kInplaceUpdate | kUpdate, kUpdate
  | kRaise, kRaise | kDefaultPolicy, kDefaultPolicy => true
  | _, _ => false
  end.

Definition ConditionType_eqb (a b : ConditionType) : bool :=
  match a, b with
  | kNone, kNone | kMessageAvailable, kMessageAvailable
  | kDownstreamMessageAffordable, kDownstreamMessageAffordable
  | kExpiringMessageAvailable, kExpiringMessageAvailable
  | kMultiMessageAvailable, kMultiMessageAvailable
  | kMultiMessageAvailableTimeout, kMultiMessageAvailableTimeout => true
  | kOtherCondition m, kOtherCondition n => Nat.eqb m n
  | _, _ => false
  end.

(** ** Arguments, conditions, connectors and ports *)

Inductive ArgValue := ArgStr (s : string) | ArgInt (z : Z).
Definition Arg := (string * ArgValue)%type.
Definition ArgList := list Arg.

(** A scheduling condition attached to a port; [min_size] is the parameter of
    MessageAvailableCondition and DownstreamMessageAffordableCondition. *)
Record Condition := mkCondition {
  cond_name : string;
  min_size : Z
}.

Inductive ConnectorClass :=
| DoubleBufferReceiver | DoubleBufferTransmitter | UcxReceiver | UcxTransmitter.

(** A receiver or transmitter resource. [gxf_cptr] tells whether the GXF
    component exists already ([gxf_cptr() != nullptr]). *)
Record Connector := mkConnector {
  conn_class : ConnectorClass;
  conn_name : string;
  capacity_ : Z;
  policy_ : Z;
  conn_args : ArgList;
  gxf_cptr : bool
}.

Record IOSpec := mkIOSpec {
  io_name : string;
  io_type : IOType;
  queue_size : Z;                       (* int64_t, with the sentinels below *)
  connector_type : ConnectorType;
  connector : option Connector;
  queue_policy : option Z;
  conditions : list (ConditionType * option Condition)
}.

Definition set_connector (io : IOSpec) (c : option Connector) : IOSpec :=
  mkIOSpec (io_name io) (io_type io) (queue_size io) (connector_type io) c
           (queue_policy io) (conditions io).

Definition set_connector_type (io : IOSpec) (t : ConnectorType) : IOSpec :=
  mkIOSpec (io_name io) (io_type io) (queue_size io) t (connector io)
           (queue_policy io) (conditions io).

Definition set_queue_size (io : IOSpec) (n : Z) : IOSpec :=
  mkIOSpec (io_name io) (io_type io) n (connector_type io) (connector io)
           (queue_policy io) (conditions io).

Definition set_conditions (io : IOSpec)
  (cs : list (ConditionType * option Condition)) : IOSpec :=
  mkIOSpec (io_name io) (io_type io) (queue_size io) (connector_type io)
           (connector io) (queue_policy io) cs.

(** The comment in [create_input_port] gives kPrecedingCount as 0; kSizeOne
    is the queue size 1. *)
Definition kPrecedingCount : Z := 0.
Definition kSizeOne : Z := 1.

(** Modelled from the spec: [IOSpec::condition(type, args...)] (io_spec.hpp is
    not among the sources) appends a condition of the given kind to the port's
    ordered list of (condition-kind, condition-instance) pairs; for kNone the
    instance is null. *)
Definition add_condition (io : IOSpec) (t : ConditionType) (c : option Condition) : IOSpec :=
  set_conditions io (conditions io ++ [(t, c)]).

(** [std::find(names.begin(), names.end(), x) != names.end()] *)
Definition mem_string (x : string) (l : list string) : bool :=
  existsb (String.eqb x) l.

(** Association lists stand for the (unordered) maps keyed by port names. *)
Fixpoint lookup {A : Type} (k : string) (m : list (string * A)) : option A :=
  match m with
  | nil => None
  | (k', v) :: rest => if String.eqb k k' then Some v else lookup k rest
  end.

Fixpoint update {A : Type} (k : string) (v : A) (m : list (string * A)) : list (string * A) :=
  match m with
  | nil => nil
  | (k', v') :: rest =>
      if String.eqb k k' then (k', v) :: rest else (k', v') :: update k v rest
  end.

Fixpoint erase {A : Type} (k : string) (m : list (string * A)) : list (string * A) :=
  match m with
  | nil => nil
  | (k', v') :: rest =>
      if String.eqb k k' then erase k rest else (k', v') :: erase k rest
  end.

(** ** Operators *)

(** A parameter of the operator spec; [iospec_vector] is the value of a
    parameter of type [std::vector<holoscan::IOSpec*>] (the labels of the
    ports it points to), [None] when the parameter holds no value yet. *)
Record ParamInfo := mkParamInfo {
  is_iospec_vector : bool;
  iospec_vector : option (list string)
}.

Record Operator := mkOperator {
  op_name : string;
  operator_type : OperatorType;
  id : Z;                                     (* -1 until initialized *)
  is_initialized_ : bool;
  inputs : list (string * IOSpec);
  outputs : list (string * IOSpec);
  params : list (string * ParamInfo);
  input_exec_spec : option string;            (* points into [inputs] *)
  output_exec_spec : option string;           (* points into [outputs] *)
  metadata_policy : MetadataPolicy;
  multi_port_conditions : list (ConditionType * list string);
  or_combiner_port_names : list (list string);
  non_default_input_ports : list string;
  non_default_output_ports : list string;
  virt_port_name : string;                    (* VirtualOperator::port_name() *)
  virt_io_type : IOType;                      (* VirtualOperator::io_type() *)
  virt_arg_list : ArgList;                    (* VirtualOperator::arg_list() *)
  gxf_device_id : option Z                    (* device of the GPU-bound resources *)
}.

Definition set_inputs (op : Operator) (ins : list (string * IOSpec)) : Operator :=
  mkOperator (op_name op) (operator_type op) (id op) (is_initialized_ op) ins
    (outputs op) (params op) (input_exec_spec op) (output_exec_spec op)
    (metadata_policy op) (multi_port_conditions op) (or_combiner_port_names op)
    (non_default_input_ports op) (non_default_output_ports op)
    (virt_port_name op) (virt_io_type op) (virt_arg_list op) (gxf_device_id op).

Definition set_outputs (op : Operator) (outs : list (string * IOSpec)) : Operator :=
  mkOperator (op_name op) (operator_type op) (id op) (is_initialized_ op) (inputs op)
    outs (params op) (input_exec_spec op) (output_exec_spec op)
    (metadata_policy op) (multi_port_conditions op) (or_combiner_port_names op)
    (non_default_input_ports op) (non_default_output_ports op)
    (virt_port_name op) (virt_io_type op) (virt_arg_list op) (gxf_device_id op).

Definition set_params (op : Operator) (ps : list (string * ParamInfo)) : Operator :=
  mkOperator (op_name op) (operator_type op) (id op) (is_initialized_ op) (inputs op)
    (outputs op) ps (input_exec_spec op) (output_exec_spec op)
    (metadata_policy op) (multi_port_conditions op) (or_combiner_port_names op)
    (non_default_input_ports op) (non_default_output_ports op)
    (virt_port_name op) (virt_io_type op) (virt_arg_list op) (gxf_device_id op).

Definition set_id (op : Operator) (i : Z) : Operator :=
  mkOperator (op_name op) (operator_type op) i (is_initialized_ op) (inputs op)
    (outputs op) (params op) (input_exec_spec op) (output_exec_spec op)
    (metadata_policy op) (multi_port_conditions op) (or_combiner_port_names op)
    (non_default_input_ports op) (non_default_output_ports op)
    (virt_port_name op) (virt_io_type op) (virt_arg_list op) (gxf_device_id op).

Definition set_is_initialized (op : Operator) (b : bool) : Operator :=
  mkOperator (op_name op) (operator_type op) (id op) b (inputs op)
    (outputs op) (params op) (input_exec_spec op) (output_exec_spec op)
    (metadata_policy op) (multi_port_conditions op) (or_combiner_port_names op)
    (non_default_input_ports op) (non_default_output_ports op)
    (virt_port_name op) (virt_io_type op) (virt_arg_list op) (gxf_device_id op).

Definition set_metadata_policy (op : Operator) (p : MetadataPolicy) : Operator :=
  mkOperator (op_name op) (operator_type op) (id op) (is_initialized_ op) (inputs op)
    (outputs op) (params op) (input_exec_spec op) (output_exec_spec op)
    p (multi_port_conditions op) (or_combiner_port_names op)
    (non_default_input_ports op) (non_default_output_ports op)
    (virt_port_name op) (virt_io_type op) (virt_arg_list op) (gxf_device_id op).

Definition set_input_exec_spec (op : Operator) (s : option string) : Operator :=
  mkOperator (op_name op) (operator_type op) (id op) (is_initialized_ op) (inputs op)
    (outputs op) (params op) s (output_exec_spec op)
    (metadata_policy op) (multi_port_conditions op) (or_combiner_port_names op)
    (non_default_input_ports op) (non_default_output_ports op)
    (virt_port_name op) (virt_io_type op) (virt_arg_list op) (gxf_device_id op).

Definition set_output_exec_spec (op : Operator) (s : option string) : Operator :=
  mkOperator (op_name op) (operator_type op) (id op) (is_initialized_ op) (inputs op)
    (outputs op) (params op) (input_exec_spec op) s
    (metadata_policy op) (multi_port_conditions op) (or_combiner_port_names op)
    (non_default_input_ports op) (non_default_output_ports op)
    (virt_port_name op) (virt_io_type op) (virt_arg_list op) (gxf_device_id op).

(** ** The flow graph *)

Abbreviation NodeType := nat.

(** [OperatorEdgeDataElementType]: source port name to the set of target
    port names. *)
Definition PortMap := list (string * list string).

(** [target_ports.count(name)] on a [std::set<std::string>] *)
Definition set_count (name : string) (target_ports : list string) : Z :=
  if mem_string name target_ports then 1 else 0.

(** Modelled from the spec: the FlowGraph class (flow_graph.hpp and
    flow_graph.cpp are not among the sources).  The graph model holds the
    nodes in insertion order and one edge per ordered pair of connected nodes;
    the edge carries a shared port map. *)
Record FlowGraph := mkFlowGraph {
  ordered_nodes : list NodeType;
  succ_ : list (NodeType * NodeType)
}.

Definition edge_eqb (e1 e2 : NodeType * NodeType) : bool :=
  Nat.eqb (fst e1) (fst e2) && Nat.eqb (snd e1) (snd e2).

Definition has_edge (g : FlowGraph) (u v : NodeType) : bool :=
  existsb (edge_eqb (u, v)) (succ_ g).

Definition get_nodes (g : FlowGraph) : list NodeType := ordered_nodes g.

Definition get_previous_nodes (g : FlowGraph) (v : NodeType) : list NodeType :=
  map fst (filter (fun e => Nat.eqb (snd e) v) (succ_ g)).

Definition get_next_nodes (g : FlowGraph) (u : NodeType) : list NodeType :=
  map snd (filter (fun e => Nat.eqb (fst e) u) (succ_ g)).

(** ** Fragments *)

Record ThreadPool := mkThreadPool {
  pool_name : string;
  pool_operators : list NodeType
}.

(** The fragment owns the graph; [op_heap] holds the operators the nodes
    point to and [edge_data] the port-map objects the edges point to. *)
Record Fragment := mkFragment {
  frag_name : string;
  graph : FlowGraph;
  op_heap : NodeType -> Operator;
  edge_data : NodeType -> NodeType -> PortMap;
  next_node : NodeType;                       (* next free operator address *)
  frag_metadata_policy : MetadataPolicy;
  thread_pools_ : list ThreadPool
}.

Definition get_port_map (f : Fragment) (u v : NodeType) : option PortMap :=
  if has_edge (graph f) u v then Some (edge_data f u v) else None.

Definition find_node (f : Fragment) (name : string) : option NodeType :=
  find (fun n => String.eqb (op_name (op_heap f n)) name) (ordered_nodes (graph f)).

Definition upd {A : Type} (h : NodeType -> A) (n : NodeType) (a : A) : NodeType -> A :=
  fun m => if Nat.eqb m n then a else h m.

Definition upd2 {A : Type} (h : NodeType -> NodeType -> A) (u v : NodeType) (a : A)
  : NodeType -> NodeType -> A :=
  fun x y => if edge_eqb (x, y) (u, v) then a else h x y.

Definition set_op (f : Fragment) (n : NodeType) (op : Operator) : Fragment :=
  mkFragment (frag_name f) (graph f) (upd (op_heap f) n op) (edge_data f)
             (next_node f) (frag_metadata_policy f) (thread_pools_ f).

Definition set_edge_data (f : Fragment) (u v : NodeType) (pm : PortMap) : Fragment :=
  mkFragment (frag_name f) (graph f) (op_heap f) (upd2 (edge_data f) u v pm)
             (next_node f) (frag_metadata_policy f) (thread_pools_ f).

(** ** Port creation (create_input_port, create_output_port) *)

(** What the code takes from outside the sources: the value of
    [IOSpec::kAnySize] (io_spec.hpp), the default queue policy
    ([holoscan::gxf::get_default_queue_policy()]) and the default capacity of
    a connector, the GXF lookups of the receiver and transmitter of a wrapped
    codelet ([bind_input_port], [bind_output_port]), the names of the
    execution ports (operator.hpp), [Operator::parse_port_name],
    [CLIOptions::parse_address], the value of the environment variable
    HOLOSCAN_UCX_SOURCE_ADDRESS, the key at [begin()] of an unordered map
    of ports that holds the given keys (the order of a [std::unordered_map]
    is not specified) and the integer value of an enumerator of
    [ConditionType] (condition.hpp). *)
Record Environment := mkEnvironment {
  env_kAnySize : Z;
  env_default_queue_policy : Z;
  env_default_tx_capacity : Z;
  env_bind_existing_receiver : Operator -> IOSpec -> outcome IOSpec;
  env_bind_existing_transmitter : Operator -> IOSpec -> outcome IOSpec;
  env_kInputExecPortName : string;
  env_kOutputExecPortName : string;
  env_parse_port_name : string -> string * string;
  env_parse_address : string -> string -> string -> string * string;
  env_HOLOSCAN_UCX_SOURCE_ADDRESS : option string;
  env_unordered_begin : list string -> option string;
  env_condition_type_value : ConditionType -> Z
}.

(** The text of the error thrown for a kind that is not a multi-message
    condition: the kind is printed as its integer value. *)
Definition unsupported_multi_message_condition_msg (env : Environment)
  (kind : ConditionType) : string :=
  "Condition type " ++ string_of_Z (env_condition_type_value env kind)
  ++ " is not a supported multi-message condition".

(** What is known of [begin()]: an unordered map that is not empty starts
    with one of its keys. *)
Definition begin_is_a_key (env : Environment) : Prop :=
  forall keys : list string,
    keys <> nil -> exists k, env_unordered_begin env keys = Some k /\ In k keys.

Section PortResolver.

Variable env : Environment.

Local Abbreviation kAnySize := (env_kAnySize env).
Local Abbreviation default_queue_policy := (env_default_queue_policy env).
Local Abbreviation default_tx_capacity := (env_default_tx_capacity env).
Local Abbreviation bind_existing_receiver := (env_bind_existing_receiver env).
Local Abbreviation bind_existing_transmitter := (env_bind_existing_transmitter env).

Definition bind_input_port (io_spec : IOSpec) (rx_name : string)
  (rx_type : ConnectorType) (op : Operator) : outcome IOSpec :=
  if negb (ConnectorType_eqb rx_type kDefault) then
    Throw ("Unable to support types other than ConnectorType::kDefault (rx_name: '"
           ++ rx_name ++ "')")
  else if queue_size io_spec =? kAnySize then Ok io_spec
  else bind_existing_receiver op io_spec.

Definition bind_output_port (io_spec : IOSpec) (tx_name : string)
  (tx_type : ConnectorType) (op : Operator) : outcome IOSpec :=
  if negb (ConnectorType_eqb tx_type kDefault) then
    Throw ("Unable to support types other than ConnectorType::kDefault (tx_name: '"
           ++ tx_name ++ "')")
  else bind_existing_transmitter op io_spec.

(** The inner loop of the kPrecedingCount branch: the connections of one
    port map that end at [rx_name]. *)
Definition count_in_port_map (rx_name : string) (port_map : PortMap) : Z :=
  fold_left (fun acc entry => acc + set_count rx_name (snd entry)) port_map 0.

(** The outer loop over the previous nodes. *)
Definition preceding_connection_count (fragment : Fragment) (node : NodeType)
  (rx_name : string) : Z :=
  fold_left
    (fun connection_count prev_node =>
       match get_port_map fragment prev_node node with
       | Some port_map_val => connection_count + count_in_port_map rx_name port_map_val
       | None => connection_count
       end)
    (get_previous_nodes (graph fragment) node) 0.

(** The queue size [create_input_port] works with: [None] when no receiver
    is created for the port (kAnySize). *)
Definition resolve_queue_size (fragment : Fragment) (io_spec : IOSpec) (op : Operator)
  : outcome (option Z) :=
  let queue_size := queue_size io_spec in
  if queue_size =? kAnySize then Ok None
  else if queue_size =? kPrecedingCount then
    match find_node fragment (op_name op) with
    | Some node => Ok (Some (preceding_connection_count fragment node (io_name io_spec)))
    | None => Throw ("Failed to find node for operator '" ++ op_name op ++ "'")
    end
  else Ok (Some queue_size).

Definition invalid_queue_size_msg (queue_size : Z) (op_nm rx_name : string) : string :=
  "Invalid queue size: " ++ string_of_Z queue_size ++ " (op: '" ++ op_nm
  ++ "', input port: '" ++ rx_name ++ "')".

(** [std::dynamic_pointer_cast<Receiver>] and [<Transmitter>] *)
Definition as_receiver (c : option Connector) : option Connector :=
  match c with
  | Some r => match conn_class r with
              | DoubleBufferReceiver | UcxReceiver => Some r
              | _ => None
              end
  | None => None
  end.

Definition as_transmitter (c : option Connector) : option Connector :=
  match c with
  | Some r => match conn_class r with
              | DoubleBufferTransmitter | UcxTransmitter => Some r
              | _ => None
              end
  | None => None
  end.

(** [rx_resource->name(rx_name); ...; rx_resource->add_to_graph_entity(op)] *)
Definition add_to_graph_entity (c : Connector) (name : string) : Connector :=
  mkConnector (conn_class c) name (capacity_ c) (policy_ c) (conn_args c) true.

Definition has_component (c : option Connector) : bool :=
  match c with Some r => gxf_cptr r | None => false end.

(** The receiver of an input port: an existing component is kept, otherwise
    one is created according to the connector type. *)
Definition create_receiver (io_spec : IOSpec) (queue_size : Z) : outcome IOSpec :=
  let rx_name := io_name io_spec in
  if has_component (as_receiver (connector io_spec)) then Ok io_spec
  else
    rx_resource <-
      match connector_type io_spec with
      | kDefault =>
          Ok (mkConnector DoubleBufferReceiver "" queue_size
                (match queue_policy io_spec with
                 | Some p => p
                 | None => default_queue_policy
                 end) nil false)
      | kDoubleBuffer | kUCX =>
          match as_receiver (connector io_spec) with
          | Some r => Ok r
          | None => Undefined
          end
      end ;;
    Ok (set_connector io_spec (Some (add_to_graph_entity rx_resource rx_name))).

Definition port_has_multi_port_condition (op : Operator) (rx_name : string) : bool :=
  existsb (fun condition_info => mem_string rx_name (snd condition_info))
          (multi_port_conditions op).

(** "Set the default scheduling term for this input" *)
Definition default_input_condition (io_spec : IOSpec) (queue_size : Z) (op : Operator)
  : IOSpec :=
  match conditions io_spec with
  | nil =>
      let rx_name := io_name io_spec in
      let port_has_user_supplied_condition :=
        mem_string rx_name (non_default_input_ports op) in
      if negb (port_has_multi_port_condition op rx_name)
         && negb port_has_user_supplied_condition
      then add_condition io_spec kMessageAvailable (Some (mkCondition "" queue_size))
      else io_spec
  | _ :: _ => io_spec
  end.

Definition rename_condition (c : option Condition) (name : string)
  : outcome (option Condition) :=
  match c with
  | Some cd => Ok (Some (mkCondition name (min_size cd)))
  | None => Undefined
  end.

(** "Initialize conditions for this input" *)
Fixpoint initialize_input_conditions (op_nm rx_name : string) (condition_index : nat)
  (cs : list (ConditionType * option Condition))
  : outcome (list (ConditionType * option Condition)) :=
  match cs with
  | nil => Ok nil
  | (condition_type, condition) :: rest =>
      let condition_index := S condition_index in
      let prefix := "__" ++ op_nm ++ "_" ++ rx_name in
      c <- match condition_type with
           | kMessageAvailable =>
               rename_condition condition
                 (prefix ++ "_message_available" ++ string_of_nat condition_index)
           | kExpiringMessageAvailable =>
               rename_condition condition
                 (prefix ++ "_expiring_message" ++ string_of_nat condition_index)
           | kMultiMessageAvailableTimeout =>
               rename_condition condition
                 (prefix ++ "_message_timeout" ++ string_of_nat condition_index)
           | kNone => Ok condition
           | _ => Throw "Unsupported condition type"
           end ;;
      rest' <- initialize_input_conditions op_nm rx_name condition_index rest ;;
      Ok ((condition_type, c) :: rest')
  end.

Definition create_input_port (fragment : Fragment) (io_spec : IOSpec) (bind_port : bool)
  (op : Operator) : outcome IOSpec :=
  let rx_name := io_name io_spec in
  let rx_type := connector_type io_spec in
  if bind_port then bind_input_port io_spec rx_name rx_type op
  else
    resolved <- resolve_queue_size fragment io_spec op ;;
    match resolved with
    | None => Ok io_spec
    | Some queue_size =>
        if queue_size <? 1 then
          Throw (invalid_queue_size_msg queue_size (op_name op) rx_name)
        else
          io1 <- create_receiver io_spec queue_size ;;
          let io2 := default_input_condition io1 queue_size op in
          cs <- initialize_input_conditions (op_name op) rx_name 0 (conditions io2) ;;
          Ok (set_conditions io2 cs)
    end.

(** The transmitter of an output port. *)
Definition create_transmitter (io_spec : IOSpec) : outcome IOSpec :=
  let tx_name := io_name io_spec in
  if has_component (as_transmitter (connector io_spec)) then Ok io_spec
  else
    tx_resource <-
      match connector_type io_spec with
      | kDefault =>
          Ok (mkConnector DoubleBufferTransmitter "" default_tx_capacity
                (match queue_policy io_spec with
                 | Some p => p
                 | None => default_queue_policy
                 end) nil false)
      | kDoubleBuffer | kUCX =>
          match as_transmitter (connector io_spec) with
          | Some t => Ok t
          | None => Undefined
          end
      end ;;
    Ok (set_connector io_spec (Some (add_to_graph_entity tx_resource tx_name))).

(** "Set the default scheduling term for this output" *)
Definition default_output_condition (io_spec : IOSpec) (op : Operator) : IOSpec :=
  match conditions io_spec with
  | nil =>
      if negb (ConnectorType_eqb (connector_type io_spec) kUCX) then
        let port_has_user_supplied_condition :=
          mem_string (io_name io_spec) (non_default_output_ports op) in
        if negb port_has_user_supplied_condition
        then add_condition io_spec kDownstreamMessageAffordable (Some (mkCondition "" 1))
        else io_spec
      else io_spec
  | _ :: _ => io_spec
  end.

(** "Initialize conditions for this output" *)
Fixpoint initialize_output_conditions (op_nm tx_name : string) (condition_index : nat)
  (cs : list (ConditionType * option Condition))
  : outcome (list (ConditionType * option Condition)) :=
  match cs with
  | nil => Ok nil
  | (condition_type, condition) :: rest =>
      let condition_index := S condition_index in
      c <- match condition_type with
           | kDownstreamMessageAffordable =>
               rename_condition condition
                 ("__" ++ op_nm ++ "_" ++ tx_name ++ "_cond_"
                  ++ string_of_nat condition_index)
           | kNone => Ok condition
           | _ => Throw "Unsupported condition type"
           end ;;
      rest' <- initialize_output_conditions op_nm tx_name condition_index rest ;;
      Ok ((condition_type, c) :: rest')
  end.

Definition create_output_port (fragment : Fragment) (io_spec : IOSpec) (bind_port : bool)
  (op : Operator) : outcome IOSpec :=
  let tx_name := io_name io_spec in
  let tx_type := connector_type io_spec in
  if bind_port then bind_output_port io_spec tx_name tx_type op
  else
    io1 <- create_transmitter io_spec ;;
    let io2 := default_output_condition io1 op in
    cs <- initialize_output_conditions (op_name op) tx_name 0 (conditions io2) ;;
    Ok (set_conditions io2 cs).

(** ** Operator initialization (initialize_operator) *)

(** The executor members [initialize_operator] reads: the entity and codelet
    ids of a wrapped codelet (0 in a Holoscan application) and the next free
    GXF component id. *)
Record ExecutorIds := mkExecutorIds {
  op_eid_ : Z;
  op_cid_ : Z
}.

Fixpoint create_ports
  (create : IOSpec -> outcome IOSpec) (ports : list (string * IOSpec))
  : outcome (list (string * IOSpec)) :=
  match ports with
  | nil => Ok nil
  | (name, io_spec) :: rest =>
      io' <- create io_spec ;;
      rest' <- create_ports create rest ;;
      Ok ((name, io') :: rest')
  end.

(** "Add any multi-message conditions": the loop stops at the first port
    that is not found and throws on a kind that is not a multi-message
    condition. *)
Fixpoint add_multi_port_conditions (ins : list (string * IOSpec))
  (infos : list (ConditionType * list string)) : outcome unit :=
  match infos with
  | nil => Ok tt
  | (kind, port_names) :: rest =>
      if forallb (fun n => match lookup n ins with Some _ => true | None => false end)
                 port_names
      then match kind with
           | kMultiMessageAvailable | kMultiMessageAvailableTimeout =>
               add_multi_port_conditions ins rest
           | _ => Throw (unsupported_multi_message_condition_msg env kind)
           end
      else Ok tt
  end.

(** "Add any needed OrConditionCombiner components" *)
Fixpoint add_or_combiners (ins : list (string * IOSpec)) (groups : list (list string))
  : outcome unit :=
  match groups with
  | nil => Ok tt
  | port_names :: rest =>
      match find (fun n => match lookup n ins with Some _ => false | None => true end)
                 port_names with
      | Some port_name =>
          Throw ("Input port '" ++ port_name
                 ++ "' requested by an OrConditionCombiner was not found")
      | None => add_or_combiners ins rest
      end
  end.

(** [initialize_operator] runs from [initialize_fragment], after
    [initialize_gxf_graph] has set [is_gxf_graph_initialized_], so its first
    guard does not fire; [fresh_cid] is the id of the codelet component GXF
    creates for the operator. The result is the operator and the value the
    function returns. *)
Definition initialize_operator (ids : ExecutorIds) (fragment : Fragment)
  (fresh_cid : positive) (op : Operator) : outcome Operator :=
  if is_initialized_ op then Ok op
  else
    let codelet_cid := if op_cid_ ids =? 0 then Zpos fresh_cid else op_cid_ ids in
    let op := set_id op codelet_cid in
    let op :=
      if MetadataPolicy_eqb (metadata_policy op) kDefaultPolicy
      then set_metadata_policy op (frag_metadata_policy fragment)
      else op in
    let bind_port := negb (op_eid_ ids =? 0) in
    ins <- create_ports (fun io => create_input_port fragment io bind_port op)
                        (inputs op) ;;
    let op := set_inputs op ins in
    outs <- create_ports (fun io => create_output_port fragment io bind_port op)
                         (outputs op) ;;
    let op := set_outputs op outs in
    _ <- add_multi_port_conditions (inputs op) (multi_port_conditions op) ;;
    _ <- add_or_combiners (inputs op) (or_combiner_port_names op) ;;
    Ok (set_is_initialized op true).

(** Modelled from the spec: [Operator::initialize] and
    [VirtualOperator::initialize] (operator.cpp and virtual_operator.cpp are
    not among the sources).  Initializing an operator is the external
    operator-initialization boundary call, which for a real operator comes
    back to the executor's [initialize_operator]; a virtual node is a
    stand-in for the remote end of an edge and creates no components. *)
Definition op_initialize (ids : ExecutorIds) (fragment : Fragment)
  (fresh_cid : positive) (op : Operator) : outcome Operator :=
  match operator_type op with
  | kVirtual => Ok op
  | _ => initialize_operator ids fragment fresh_cid op
  end.

End PortResolver.

(** ** The executor state *)

(** GXF component ids.  A connector component is identified by the operator
    and port it belongs to; the components of a broadcast entity by the
    entity (operator and source port) or by the counter of their name. *)
Inductive Cid :=
| cid_port (op : NodeType) (dir : IOType) (port : string)
| cid_broadcast_rx (op : NodeType) (source_cname : string)
| cid_btx (btx_count : nat)
| cid_unset.                       (* a resource without a GXF component *)

Definition Cid_eqb (a b : Cid) : bool :=
  match a, b with
  | cid_port n d p, cid_port n' d' p' =>
      Nat.eqb n n' && IOType_eqb d d' && String.eqb p p'
  | cid_broadcast_rx n p, cid_broadcast_rx n' p' => Nat.eqb n n' && String.eqb p p'
  | cid_btx i, cid_btx j => Nat.eqb i j
  | cid_unset, cid_unset => true
  | _, _ => false
  end.

(** A transmitter added to a broadcast entity, with the min_size of its
    DownstreamReceptiveSchedulingTerm when one is attached. *)
Record BroadcastTransmitter := mkBroadcastTransmitter {
  btx_name : string;
  btx_class : ConnectorClass;
  btx_capacity : Z;
  btx_policy : Z;
  btx_args : ArgList;
  btx_term_min_size : option Z
}.

(** A broadcast entity: the Broadcast codelet, its "source" receiver as
    configured by [configReceiver], and its transmitters. *)
Record BroadcastEntity := mkBroadcastEntity {
  be_name : string;
  be_codelet_name : string;
  be_rx_capacity : Z;
  be_rx_policy : Z;
  be_rx_min_size : Z;
  be_transmitters : list BroadcastTransmitter
}.

Definition TargetPort := (NodeType * string)%type.

(** [TargetsInfo]: source connector name, connector type, set of targets. *)
Definition TargetsInfo := (string * ConnectorType * list TargetPort)%type.
Definition TargetConnectionsMapType := list (Cid * TargetsInfo).

(** [broadcast_entities] of [initialize_fragment], keyed by operator and
    source port; the same entities are listed in
    [implicit_broadcast_entities_]. *)
Definition BroadcastEntityMapType := list ((NodeType * string) * BroadcastEntity).

Record Executor := mkExecutor {
  fragment_ : Fragment;
  entity_prefix_ : string;
  executor_ids : ExecutorIds;
  connections_entity_ : list (Cid * Cid);     (* Connection components, in order *)
  broadcast_entities : BroadcastEntityMapType;
  btx_count : nat;                            (* the static counter *)
  next_cid : positive
}.

Definition set_fragment (ex : Executor) (f : Fragment) : Executor :=
  mkExecutor f (entity_prefix_ ex) (executor_ids ex) (connections_entity_ ex)
             (broadcast_entities ex) (btx_count ex) (next_cid ex).

Definition set_broadcast_entities (ex : Executor) (b : BroadcastEntityMapType) : Executor :=
  mkExecutor (fragment_ ex) (entity_prefix_ ex) (executor_ids ex) (connections_entity_ ex)
             b (btx_count ex) (next_cid ex).

Definition set_btx_count (ex : Executor) (n : nat) : Executor :=
  mkExecutor (fragment_ ex) (entity_prefix_ ex) (executor_ids ex) (connections_entity_ ex)
             (broadcast_entities ex) n (next_cid ex).

Definition set_next_cid (ex : Executor) (p : positive) : Executor :=
  mkExecutor (fragment_ ex) (entity_prefix_ ex) (executor_ids ex) (connections_entity_ ex)
             (broadcast_entities ex) (btx_count ex) p.

(** [GXFExecutor::add_connection]: a Connection component from the source
    to the target is added to the connections entity. *)
Definition add_connection (ex : Executor) (source_cid target_cid : Cid) : Executor :=
  mkExecutor (fragment_ ex) (entity_prefix_ ex) (executor_ids ex)
             (connections_entity_ ex ++ [(source_cid, target_cid)])%list
             (broadcast_entities ex) (btx_count ex) (next_cid ex).

Definition the_op (ex : Executor) (n : NodeType) : Operator := op_heap (fragment_ ex) n.

Fixpoint foldM {A S : Type} (f : S -> A -> outcome S) (l : list A) (s : S) : outcome S :=
  match l with
  | nil => Ok s
  | a :: rest => s' <- f s a ;; foldM f rest s'
  end.

(** [resource->gxf_cid()] of the connector of a port; the port entry and
    the connector are dereferenced. *)
Definition gxf_cid (n : NodeType) (dir : IOType) (port : string)
  (ports : list (string * IOSpec)) : outcome Cid :=
  match lookup port ports with
  | None => Undefined
  | Some io_spec =>
      match connector io_spec with
      | None => Undefined
      | Some c => Ok (if gxf_cptr c then cid_port n dir port else cid_unset)
      end
  end.

(** The first DownstreamMessageAffordable condition of a port. *)
Definition find_downstream_condition (io_spec : IOSpec) : option (option Condition) :=
  option_map snd
    (find (fun tc => ConditionType_eqb (fst tc) kDownstreamMessageAffordable)
          (conditions io_spec)).

(** ** Broadcast insertion and wiring *)

Section Planner.

Variable env : Environment.

Local Abbreviation kAnySize := (env_kAnySize env).
Local Abbreviation default_queue_policy := (env_default_queue_policy env).
Local Abbreviation default_tx_capacity := (env_default_tx_capacity env).
Local Abbreviation kInputExecPortName := (env_kInputExecPortName env).
Local Abbreviation kOutputExecPortName := (env_kOutputExecPortName env).
Local Abbreviation parse_port_name := (env_parse_port_name env).
Local Abbreviation parse_address := (env_parse_address env).
Local Abbreviation HOLOSCAN_UCX_SOURCE_ADDRESS := (env_HOLOSCAN_UCX_SOURCE_ADDRESS env).

Definition key_eqb (a b : NodeType * string) : bool :=
  Nat.eqb (fst a) (fst b) && String.eqb (snd a) (snd b).

Definition has_broadcast (b : BroadcastEntityMapType) (n : NodeType) : bool :=
  existsb (fun e => Nat.eqb (fst (fst e)) n) b.

Definition broadcast_ports_of (b : BroadcastEntityMapType) (n : NodeType) : list string :=
  map (fun e => snd (fst e)) (filter (fun e => Nat.eqb (fst (fst e)) n) b).

Definition add_transmitter (be : BroadcastEntity) (t : BroadcastTransmitter)
  : BroadcastEntity :=
  mkBroadcastEntity (be_name be) (be_codelet_name be) (be_rx_capacity be)
    (be_rx_policy be) (be_rx_min_size be) (be_transmitters be ++ [t]).

Definition add_broadcast_transmitter (b : BroadcastEntityMapType)
  (key : NodeType * string) (t : BroadcastTransmitter) : BroadcastEntityMapType :=
  map (fun e => if key_eqb (fst e) key then (fst e, add_transmitter (snd e) t) else e) b.

(** Capacity and policy of a connector of the given class, or the defaults
    (capacity 1, default queue policy) when the cast fails. *)
Definition capacity_and_policy (cls : ConnectorClass) (c : option Connector) : Z * Z :=
  match c with
  | Some r =>
      match cls, conn_class r with
      | DoubleBufferTransmitter, DoubleBufferTransmitter => (capacity_ r, policy_ r)
      | _, _ => (1, default_queue_policy)
      end
  | None => (1, default_queue_policy)
  end.

(** The body of the loop over the target ports in
    [connect_broadcast_to_previous_op]: one transmitter is created in the
    broadcast entity of [prev_op]'s port [port_name] for the input port
    [target_port] of [op]. *)
Definition broadcast_to_target (op_n prev_n : NodeType) (port_name : string)
  (ex : Executor) (target_port : string) : outcome Executor :=
  let op := the_op ex op_n in
  let prev_op := the_op ex prev_n in
  match lookup port_name (outputs prev_op) with
  | None => Undefined
  | Some prev_op_io_spec =>
      let prev_connector := connector prev_op_io_spec in
      let prev_connector_type :=
        match connector_type prev_op_io_spec with
        | kDefault =>
            if OperatorType_eqb (operator_type op) kVirtual then kUCX else kDoubleBuffer
        | t => t
        end in
      match prev_connector_type with
      | kDoubleBuffer =>
          let (prev_connector_capacity, prev_connector_policy) :=
            capacity_and_policy DoubleBufferTransmitter prev_connector in
          let n := btx_count ex in
          let btx_name := "btx_" ++ string_of_nat n in
          let term :=
            match find_downstream_condition prev_op_io_spec with
            | Some (Some prev_condition) => Some (min_size prev_condition)
            | _ => None
            end in
          let btx := mkBroadcastTransmitter btx_name DoubleBufferTransmitter
                       prev_connector_capacity prev_connector_policy nil term in
          let ex := set_btx_count ex (S n) in
          let ex := set_broadcast_entities ex
                      (add_broadcast_transmitter (broadcast_entities ex)
                                                 (prev_n, port_name) btx) in
          target_cid <- gxf_cid op_n kInput target_port (inputs op) ;;
          Ok (add_connection ex (cid_btx n) target_cid)
      | kUCX =>
          transmitter <-
            (if OperatorType_eqb (operator_type op) kVirtual then
               Ok (mkBroadcastTransmitter "" UcxTransmitter 1 default_queue_policy
                     (virt_arg_list op) None)
             else
               match prev_connector with
               | Some c =>
                   match conn_class c with
                   | UcxTransmitter =>
                       Ok (mkBroadcastTransmitter "" UcxTransmitter (capacity_ c)
                             (policy_ c) (conn_args c) None)
                   | _ => Throw "failed to cast connector to UcxTransmitter"
                   end
               | None => Throw "failed to cast connector to UcxTransmitter"
               end) ;;
          let broadcast_out_port_name := op_name op ++ "_" ++ port_name in
          let t := mkBroadcastTransmitter broadcast_out_port_name (btx_class transmitter)
                     (btx_capacity transmitter) (btx_policy transmitter)
                     (btx_args transmitter) None in
          Ok (set_broadcast_entities ex
                (add_broadcast_transmitter (broadcast_entities ex) (prev_n, port_name) t))
      | kDefault => Ok ex
      end
  end.

(** One broadcast entity of [prev_op]: when its source port is in the port
    map of the edge, the targets are connected and the key is erased from
    the (shared) port map. *)
Definition connect_broadcast_port (op_n prev_n : NodeType) (ex : Executor)
  (port_name : string) : outcome Executor :=
  let port_map_val := edge_data (fragment_ ex) prev_n op_n in
  match lookup port_name port_map_val with
  | None => Ok ex
  | Some target_ports =>
      ex <- foldM (broadcast_to_target op_n prev_n port_name) target_ports ex ;;
      Ok (set_fragment ex
            (set_edge_data (fragment_ ex) prev_n op_n
               (erase port_name (edge_data (fragment_ ex) prev_n op_n))))
  end.

(** [connect_broadcast_to_previous_op]; [port_map_val] is the port map of
    the edge from [prev_op] to [op]. *)
Definition connect_broadcast_to_previous_op (ex : Executor) (op_n prev_n : NodeType)
  : outcome Executor :=
  foldM (connect_broadcast_port op_n prev_n)
        (broadcast_ports_of (broadcast_entities ex) prev_n) ex.

(** The body of the loop of [create_broadcast_components]. *)
Definition create_broadcast_component (op_n : NodeType) (ex : Executor)
  (connection : Cid * TargetsInfo) : outcome Executor :=
  let '(source_cid, (source_cname, _, target_ports)) := connection in
  let op := the_op ex op_n in
  match target_ports with
  | nil => Ok ex
  | _ :: nil => Ok ex
  | _ :: _ :: _ =>
      match lookup source_cname (outputs op) with
      | None => Undefined
      | Some op_io_spec =>
          let curr_min_size :=
            match find_downstream_condition op_io_spec with
            | Some (Some curr_condition) => min_size curr_condition
            | _ => 1
            end in
          let (curr_connector_capacity, curr_connector_policy) :=
            capacity_and_policy DoubleBufferTransmitter
              (if has_component (connector op_io_spec) then connector op_io_spec
               else None) in
          let broadcast_entity :=
            mkBroadcastEntity
              (entity_prefix_ ex ++ "_broadcast_" ++ op_name op ++ "_" ++ source_cname)
              (entity_prefix_ ex ++ "_broadcast_component_" ++ op_name op ++ "_"
               ++ source_cname)
              curr_connector_capacity curr_connector_policy curr_min_size nil in
          let ex := set_broadcast_entities ex
                      (filter (fun e => negb (key_eqb (fst e) (op_n, source_cname)))
                              (broadcast_entities ex)
                       ++ [((op_n, source_cname), broadcast_entity)])%list in
          Ok (add_connection ex source_cid (cid_broadcast_rx op_n source_cname))
      end
  end.

Definition create_broadcast_components (ex : Executor) (op_n : NodeType)
  (connections : TargetConnectionsMapType) : outcome Executor :=
  foldM (create_broadcast_component op_n) connections ex.

(** ** The traversal of initialize_fragment *)

(** The local scheduling state of [initialize_fragment]: the worklist
    deque, the indegree map and the set of visited nodes; [visited_nodes]
    lists the visited nodes, the last visited first. *)
Record Worklist := mkWorklist {
  worklist : list NodeType;
  indegrees : NodeType -> Z;
  visited_nodes : list NodeType
}.

Definition mem_node (n : NodeType) (l : list NodeType) : bool := existsb (Nat.eqb n) l.

(** The order in which the operators were initialized. *)
Definition initialization_order (w : Worklist) : list NodeType := rev (visited_nodes w).

(** "Initialize the indegrees of all nodes in the graph and add root
    operators to the worklist." *)
Definition init_worklist (g : FlowGraph) : Worklist :=
  fold_left
    (fun w node =>
       let d := Z.of_nat (List.length (get_previous_nodes g node)) in
       mkWorklist (if d =? 0 then worklist w ++ [node] else worklist w)%list
                  (upd (indegrees w) node d) (visited_nodes w))
    (get_nodes g) (mkWorklist nil (fun _ => 0) nil).

(** The fallback for a worklist that is empty before all nodes are
    visited: every node whose indegree is still nonzero is enqueued with
    indegree zero. *)
Definition break_cycles (operators : list NodeType) (w : Worklist) : Worklist :=
  fold_left
    (fun w node =>
       if negb (indegrees w node =? 0)
       then mkWorklist (worklist w ++ [node])%list (upd (indegrees w) node 0)
                       (visited_nodes w)
       else w)
    operators w.

(** The scan of the previous operators: (cycle_detected, self_cycle). *)
Fixpoint detect_cycle (op_n : NodeType) (visited : list NodeType)
  (prev_operators : list NodeType) (cycle_detected : bool) : bool * bool :=
  match prev_operators with
  | nil => (cycle_detected, false)
  | prev_op :: rest =>
      if Nat.eqb prev_op op_n then (true, true)
      else detect_cycle op_n visited rest
             (cycle_detected || negb (mem_node prev_op visited))
  end.

Definition modify_port (name : string) (f : IOSpec -> IOSpec)
  (ports : list (string * IOSpec)) : list (string * IOSpec) :=
  match lookup name ports with
  | Some io_spec => update name (f io_spec) ports
  | None => ports
  end.

(** The cycle mitigation at the head of the loop body, for an operator
    with an input execution port. *)
Definition mitigate_cycle (g : FlowGraph) (visited : list NodeType) (op_n : NodeType)
  (op : Operator) : outcome Operator :=
  match input_exec_spec op with
  | None => Ok op
  | Some input_exec =>
      let (cycle_detected, self_cycle) :=
        detect_cycle op_n visited (get_previous_nodes g op_n) false in
      if cycle_detected then
        let op := set_inputs op
                    (modify_port input_exec (fun io => set_queue_size io kSizeOne)
                                 (inputs op)) in
        let op := set_metadata_policy op kUpdate in
        if self_cycle then
          match output_exec_spec op with
          | None => Undefined
          | Some output_exec =>
              Ok (set_outputs op
                    (modify_port output_exec (fun io => add_condition io kNone None)
                                 (outputs op)))
          end
        else Ok op
      else Ok op
  end.

(** The direct connections of one entry of the port map of the edge from
    [prev_op] to [op]. *)
Definition connect_direct (op_n prev_n : NodeType) (ex : Executor)
  (entry : string * list string) : outcome Executor :=
  let (source_port, target_ports) := entry in
  let op := the_op ex op_n in
  let prev_op := the_op ex prev_n in
  let prev_initialized := negb (id prev_op =? -1) in
  source_cid <- (if prev_initialized
                 then gxf_cid prev_n kOutput source_port (outputs prev_op)
                 else Ok cid_unset) ;;
  match lookup source_port (outputs prev_op) with
  | None => Undefined
  | Some source_io_spec =>
      if negb (ConnectorType_eqb (connector_type source_io_spec) kUCX) then
        foldM
          (fun ex target_port =>
             match lookup target_port (inputs op) with
             | None => Undefined
             | Some _ =>
                 if prev_initialized then
                   target_cid <- gxf_cid op_n kInput target_port (inputs op) ;;
                   Ok (add_connection ex source_cid target_cid)
                 else Ok ex
             end)
          target_ports ex
      else if (1 <? Z.of_nat (List.length target_ports)) then ReturnFalse
      else Ok ex
  end.

(** The body of the loop "Connecting earlier operators". *)
Definition connect_previous_op (op_n : NodeType) (ex : Executor) (prev_n : NodeType)
  : outcome Executor :=
  if Nat.eqb prev_n op_n then Ok ex
  else
    match get_port_map (fragment_ ex) prev_n op_n with
    | None => ReturnFalse
    | Some _ =>
        ex <- (if has_broadcast (broadcast_entities ex) prev_n
               then connect_broadcast_to_previous_op ex op_n prev_n
               else Ok ex) ;;
        let port_map_val := edge_data (fragment_ ex) prev_n op_n in
        match port_map_val with
        | nil => Ok ex
        | _ :: _ =>
            if OperatorType_eqb (operator_type (the_op ex prev_n)) kVirtual
               || OperatorType_eqb (operator_type (the_op ex op_n)) kVirtual
            then Ok ex
            else foldM (connect_direct op_n prev_n) port_map_val ex
        end
    end.

Definition TargetPort_eqb (a b : TargetPort) : bool :=
  Nat.eqb (fst a) (fst b) && String.eqb (snd a) (snd b).

(** Insertion into the [std::set<TargetPort>] of a source port. *)
Definition insert_target (t : TargetPort) (s : list TargetPort) : list TargetPort :=
  if existsb (TargetPort_eqb t) s then s else (s ++ [t])%list.

Fixpoint add_target (connections : TargetConnectionsMapType) (source_cid : Cid)
  (source_cname : string) (conn_type : ConnectorType) (t : TargetPort)
  : TargetConnectionsMapType :=
  match connections with
  | nil => [(source_cid, (source_cname, conn_type, [t]))]
  | (cid, (cname, ct, targets)) :: rest =>
      if Cid_eqb cid source_cid
      then (cid, (cname, ct, insert_target t targets)) :: rest
      else (cid, (cname, ct, targets)) :: add_target rest source_cid source_cname conn_type t
  end.

(** The collection of the downstream connections of [op] ("Checking next
    operators"), without the indegree updates interleaved with it. *)
Definition collect_connections (ex : Executor) (op_n : NodeType)
  : outcome TargetConnectionsMapType :=
  let op := the_op ex op_n in
  foldM
    (fun connections next_op =>
       match get_port_map (fragment_ ex) op_n next_op with
       | None => Ok connections
       | Some port_map =>
           foldM
             (fun connections entry =>
                foldM
                  (fun connections target_port =>
                     if negb (OperatorType_eqb (operator_type op) kVirtual) then
                       match lookup (fst entry) (outputs op) with
                       | None => Undefined
                       | Some source_io_spec =>
                           match connector source_io_spec with
                           | None => Undefined
                           | Some source_gxf_resource =>
                               source_cid <- gxf_cid op_n kOutput (fst entry) (outputs op) ;;
                               Ok (add_target connections source_cid
                                     (conn_name source_gxf_resource)
                                     (connector_type source_io_spec)
                                     (next_op, target_port))
                           end
                       end
                     else Ok connections)
                  (snd entry) connections)
             port_map connections
       end)
    (get_next_nodes (graph (fragment_ ex)) op_n) nil.

(** The indegree updates of the same loop: the indegree of every next
    operator is decremented, and the operator is enqueued when it reaches
    zero. *)
Definition release_next_nodes (g : FlowGraph) (op_n : NodeType) (w : Worklist) : Worklist :=
  fold_left
    (fun w next_op =>
       if has_edge g op_n next_op then
         let d := indegrees w next_op - 1 in
         mkWorklist (if d =? 0 then worklist w ++ [next_op] else worklist w)%list
                    (upd (indegrees w) next_op d) (visited_nodes w)
       else w)
    (get_next_nodes g op_n) w.

(** "Iterate through downstream connections and find the direct ones to
    connect, only if downstream operator is already initialized."  The
    boolean is [target_op_has_ucx_connector]. *)
Definition connect_initialized_targets (acc : Executor * bool)
  (connection : Cid * TargetsInfo) : outcome (Executor * bool) :=
  let '(source_cid, (_, conn_type, target_ports)) := connection in
  if ConnectorType_eqb conn_type kUCX then Ok (fst acc, true)
  else
    ex <- foldM
            (fun ex (target : TargetPort) =>
               let (tmp_next_op, target_port_name) := target in
               if negb (id (the_op ex tmp_next_op) =? -1) then
                 target_cid <- gxf_cid tmp_next_op kInput target_port_name
                                       (inputs (the_op ex tmp_next_op)) ;;
                 Ok (add_connection ex source_cid target_cid)
               else Ok ex)
            target_ports (fst acc) ;;
    Ok (ex, snd acc).

(** The tail of the loop body: the downstream connections of [op] and the
    broadcast components, which are created only when a target of [op] has
    a UCX connector. *)
Definition connect_next_ops (ex : Executor) (op_n : NodeType)
  (connections : TargetConnectionsMapType) : outcome Executor :=
  let next_nodes := get_next_nodes (graph (fragment_ ex)) op_n in
  acc <- foldM connect_initialized_targets connections (ex, false) ;;
  let (ex, ucx) := acc : Executor * bool in
  let target_op_has_ucx_connector :=
    ucx || existsb (fun next_op =>
                      OperatorType_eqb (operator_type (the_op ex next_op)) kVirtual)
                   next_nodes in
  if target_op_has_ucx_connector then
    ex <- create_broadcast_components ex op_n connections ;;
    if negb (OperatorType_eqb (operator_type (the_op ex op_n)) kVirtual) then
      foldM
        (fun ex next_op =>
           if negb (id (the_op ex next_op) =? -1)
              && negb (OperatorType_eqb (operator_type (the_op ex next_op)) kVirtual)
           then
             match get_port_map (fragment_ ex) op_n next_op with
             | None => ReturnFalse
             | Some _ =>
                 if has_broadcast (broadcast_entities ex) op_n
                 then connect_broadcast_to_previous_op ex next_op op_n
                 else Ok ex
             end
           else Ok ex)
        next_nodes ex
    else Ok ex
  else Ok ex.

(** The planning part of one iteration of the loop, for the operator [op]
    taken from the worklist; [visited] already contains [op].  First the
    cycle mitigation and the initialization of the operator, then the
    wiring. *)
Definition initialize_visited_operator (ex : Executor) (visited : list NodeType)
  (op_n : NodeType) : outcome Executor :=
  let g := graph (fragment_ ex) in
  op <- mitigate_cycle g visited op_n (the_op ex op_n) ;;
  let ex := set_fragment ex (set_op (fragment_ ex) op_n op) in
  op <- op_initialize env (executor_ids ex) (fragment_ ex) (next_cid ex) op ;;
  Ok (set_next_cid (set_fragment ex (set_op (fragment_ ex) op_n op))
                   (Pos.succ (next_cid ex))).

Definition visit_operator (ex : Executor) (visited : list NodeType) (op_n : NodeType)
  : outcome Executor :=
  let prev_operators := get_previous_nodes (graph (fragment_ ex)) op_n in
  ex <- initialize_visited_operator ex visited op_n ;;
  ex <- foldM (connect_previous_op op_n) prev_operators ex ;;
  connections <- collect_connections ex op_n ;;
  connect_next_ops ex op_n connections.

Definition is_nil {A : Type} (l : list A) : bool :=
  match l with nil => true | _ :: _ => false end.

(** The [while (true)] loop of [initialize_fragment]; one unit of fuel is
    one iteration. *)
Fixpoint initialize_loop (fuel : nat) (operators : list NodeType) (w : Worklist)
  (ex : Executor) : outcome (Worklist * Executor) :=
  match fuel with
  | O => OutOfFuel
  | S fuel =>
      if is_nil (worklist w)
         && Nat.eqb (List.length (visited_nodes w)) (List.length operators)
      then Ok (w, ex)
      else
        let w := if is_nil (worklist w) then break_cycles operators w else w in
        match worklist w with
        | nil => Undefined                (* worklist.front() of an empty deque *)
        | op_n :: rest =>
            let w := mkWorklist rest (indegrees w) (visited_nodes w) in
            if mem_node op_n (visited_nodes w) then initialize_loop fuel operators w ex
            else
              let w := mkWorklist (worklist w) (indegrees w) (op_n :: visited_nodes w) in
              ex' <- visit_operator ex (visited_nodes w) op_n ;;
              let w := release_next_nodes (graph (fragment_ ex)) op_n w in
              initialize_loop fuel operators w ex'
        end
  end.

(** "Finish initialization of any thread pools": the device check of one
    pool.  The accumulator is [gpu_device]. *)
Definition thread_pool_error (pool_nm op_nm : string) (current_dev_id gpu_device : Z)
  : string :=
  "All operators in thread pool '" ++ pool_nm
  ++ "' must be using the same GPU device. Operator '" ++ op_nm
  ++ "' has a component using a GPUDevice with CUDA device id "
  ++ string_of_Z current_dev_id
  ++ " but a prior operator in the pool was using a component with device id "
  ++ string_of_Z gpu_device
  ++ ". Please use separate thread pools for operators on different devices.".

Definition check_pool_operator (f : Fragment) (pool : ThreadPool) (gpu_device : Z)
  (op_n : NodeType) : outcome Z :=
  let op := op_heap f op_n in
  match gxf_device_id op with
  | Some current_dev_id =>
      if gpu_device =? -1 then Ok current_dev_id
      else if negb (gpu_device =? current_dev_id) then
        Throw (thread_pool_error (pool_name pool) (op_name op) current_dev_id gpu_device)
      else Ok gpu_device
  | None => Ok gpu_device
  end.

Definition configure_thread_pool (f : Fragment) (_ : unit) (pool : ThreadPool)
  : outcome unit :=
  _ <- foldM (check_pool_operator f pool) (pool_operators pool) (-1) ;;
  Ok tt.

Definition configure_thread_pools (f : Fragment) : outcome unit :=
  foldM (configure_thread_pool f) (thread_pools_ f) tt.

(** ** Fragment::add_flow *)

Definition insert_string (x : string) (s : list string) : list string :=
  if mem_string x s then s else (s ++ [x])%list.

Definition add_node (g : FlowGraph) (n : NodeType) : FlowGraph :=
  if mem_node n (ordered_nodes g) then g
  else mkFlowGraph (ordered_nodes g ++ [n]) (succ_ g).

(** The union of two port maps: the target sets of a shared source port
    accumulate. *)
Fixpoint merge_port_map (old new : PortMap) : PortMap :=
  match new with
  | nil => old
  | (key, targets) :: rest =>
      merge_port_map
        (match lookup key old with
         | Some s => update key (fold_left (fun acc t => insert_string t acc) targets s) old
         | None => (old ++ [(key, targets)])%list
         end) rest
  end.

(** Modelled from the spec: [FlowGraph::add_flow] (flow_graph.cpp is not
    among the sources) registers both nodes and adds the port map to the edge
    between them; port pairs that share a source port accumulate into a
    fan-out set for that port. *)
Definition graph_add_flow (f : Fragment) (u v : NodeType) (port_map : PortMap) : Fragment :=
  let g := add_node (add_node (graph f) u) v in
  if has_edge g u v then
    mkFragment (frag_name f) g (op_heap f)
               (upd2 (edge_data f) u v (merge_port_map (edge_data f u v) port_map))
               (next_node f) (frag_metadata_policy f) (thread_pools_ f)
  else
    mkFragment (frag_name f) (mkFlowGraph (ordered_nodes g) (succ_ g ++ [(u, v)]))
               (op_heap f) (upd2 (edge_data f) u v (merge_port_map nil port_map))
               (next_node f) (frag_metadata_policy f) (thread_pools_ f).

(** Modelled from the spec: [OperatorSpec::input] and [OperatorSpec::output]
    (operator_spec.hpp is not among the sources) declare a port with the
    default connector and no condition. *)
Definition new_port (name : string) (dir : IOType) (size : Z) : IOSpec :=
  mkIOSpec name dir size kDefault None None nil.

Definition first_key {A : Type} (m : list (string * A)) : option string :=
  match m with
  | nil => None
  | (k, _) :: _ => Some k
  end.

(** [outputs().begin()->second] and [inputs().begin()->second]: the port
    at the start of the unordered map of ports, whichever it is. *)
Definition begin_port {A : Type} (m : list (string * A)) : option string :=
  env_unordered_begin env (map fst m).

(** [GXFExecutor::add_control_flow]: the execution specs are taken from
    [begin()] of the port maps after the execution ports are declared. *)
Definition add_control_flow (f : Fragment) (u v : NodeType) : Fragment :=
  let upstream_op := op_heap f u in
  let f :=
    match output_exec_spec upstream_op with
    | Some _ => f
    | None =>
        let outs := (kOutputExecPortName, new_port kOutputExecPortName kOutput kSizeOne)
                    :: outputs upstream_op in
        set_op f u (set_output_exec_spec (set_outputs upstream_op outs) (begin_port outs))
    end in
  let downstream_op := op_heap f v in
  match input_exec_spec downstream_op with
  | Some _ => f
  | None =>
      let ins := (kInputExecPortName, new_port kInputExecPortName kInput kPrecedingCount)
                 :: inputs downstream_op in
      set_op f v (set_input_exec_spec (set_inputs downstream_op ins) (begin_port ins))
  end.

(** "Convert port pairs to port map"; the second component is
    [output_labels]. *)
Fixpoint to_port_map (port_pairs : list (string * string)) (port_map : PortMap)
  (output_labels : list string) : PortMap * list string :=
  match port_pairs with
  | nil => (port_map, output_labels)
  | (key, value) :: rest =>
      match lookup key port_map with
      | None => to_port_map rest (port_map ++ [(key, [value])])%list
                            (output_labels ++ [key])%list
      | Some s => to_port_map rest (update key (insert_string value s) port_map)
                              output_labels
      end
  end.

Definition native_or_gxf (t : OperatorType) : string :=
  match t with kNative => "Native" | _ => "GXF" end.

(** The first loop over [output_labels]: the labels must be output ports
    of the upstream operator; a single empty label is replaced by the only
    output port. *)
Fixpoint check_output_labels (upstream_op : Operator) (all_labels : list string)
  (labels : list string) (port_map : PortMap) : string + (PortMap * list string) :=
  match labels with
  | nil => inr (port_map, all_labels)
  | output_label :: rest =>
      let op_outputs := outputs upstream_op in
      match lookup output_label op_outputs with
      | Some _ => check_output_labels upstream_op all_labels rest port_map
      | None =>
          match op_outputs, all_labels with
          | (first, _) :: nil, _ :: nil =>
              if String.eqb output_label "" then
                let targets := match lookup output_label port_map with
                               | Some s => s
                               | None => nil
                               end in
                inr ((erase output_label port_map ++ [(first, targets)])%list, [first])
              else
                inl ("The upstream operator(" ++ op_name upstream_op
                     ++ ") does not have an output port with label '" ++ output_label
                     ++ "'. It should be one of (" ++ join ", " (map fst op_outputs) ++ ")")
          | nil, _ =>
              inl ("The upstream operator(" ++ op_name upstream_op
                   ++ ") does not have any output port but '" ++ output_label
                   ++ "' was specified in port_map")
          | _, _ =>
              inl ("The upstream operator(" ++ op_name upstream_op
                   ++ ") does not have an output port with label '" ++ output_label
                   ++ "'. It should be one of (" ++ join ", " (map fst op_outputs) ++ ")")
          end
      end
  end.

(** [GXFExecutor::add_receivers]: a new input port named
    "<receivers>:<index>" is declared on the downstream operator and
    recorded in the parameter. *)
Definition add_receivers (f : Fragment) (v : NodeType) (receivers_name : string)
  (p : ParamInfo) : Fragment * string :=
  let downstream_op := op_heap f v in
  let vec := match iospec_vector p with Some l => l | None => nil end in
  let new_input_label := receivers_name ++ ":" ++ string_of_nat (List.length vec) in
  let ins := (new_input_label, new_port new_input_label kInput kSizeOne)
             :: inputs downstream_op in
  let ps := update receivers_name (mkParamInfo true (Some (vec ++ [new_input_label])%list))
                   (params downstream_op) in
  (set_op f v (set_params (set_inputs downstream_op ins) ps), new_input_label).

(** The loop over the input labels of one output label; the result is an
    error message or [new_input_labels]. *)
Fixpoint map_input_labels (v : NodeType) (n_input_labels : nat) (labels : list string)
  (f : Fragment) (new_input_labels : list string) : Fragment * (string + list string) :=
  match labels with
  | nil => (f, inr new_input_labels)
  | input_label :: rest =>
      let downstream_op := op_heap f v in
      let op_inputs := inputs downstream_op in
      let found := lookup input_label op_inputs in
      let is_receivers :=
        match found with Some io => queue_size io =? kAnySize | None => false end in
      if is_receivers || match found with None => true | Some _ => false end then
        let default_label :=
          if negb is_receivers && Nat.eqb (List.length op_inputs) 1
             && Nat.eqb n_input_labels 1 && String.eqb input_label ""
          then match op_inputs with
               | (first, io) :: _ => Some (first, negb (queue_size io =? kAnySize))
               | nil => None
               end
          else None in
        match default_label with
        | Some (first, true) => (f, inr (new_input_labels ++ [first])%list)
        | _ =>
            let input_receivers_label :=
              match default_label with Some (first, _) => first | None => input_label end in
            match lookup input_receivers_label (params downstream_op) with
            | Some (mkParamInfo true vec) =>
                let (f, new_label) :=
                  add_receivers f v input_receivers_label (mkParamInfo true vec) in
                map_input_labels v n_input_labels rest f (new_input_labels ++ [new_label])%list
            | _ =>
                match op_inputs with
                | nil =>
                    (f, inl ("The downstream operator(" ++ op_name downstream_op
                             ++ ") does not have any input port but '"
                             ++ input_receivers_label
                             ++ "' was specified in the port_map"))
                | _ :: _ =>
                    (f, inl ("The downstream operator(" ++ op_name downstream_op
                             ++ ") does not have an input port with label '"
                             ++ input_receivers_label ++ "'. It should be one of ("
                             ++ join ", " (map fst op_inputs) ++ ")"))
                end
            end
        end
      else map_input_labels v n_input_labels rest f (new_input_labels ++ [input_label])%list
  end.

(** The second loop over [output_labels]: the input labels of every
    output label are resolved against the downstream operator. *)
Fixpoint map_output_labels (v : NodeType) (labels : list string) (f : Fragment)
  (port_map : PortMap) : Fragment * (string + PortMap) :=
  match labels with
  | nil => (f, inr port_map)
  | output_label :: rest =>
      let input_labels :=
        match lookup output_label port_map with Some s => s | None => nil end in
      let downstream_op := op_heap f v in
      let op_inputs := inputs downstream_op in
      if Nat.eqb (List.length op_inputs) 1 && negb (Nat.eqb (List.length input_labels) 1)
      then
        (f, inl ("The downstream operator(" ++ op_name downstream_op
                 ++ ") has only one port with label '"
                 ++ match first_key op_inputs with Some k => k | None => "" end
                 ++ "' but port_map specifies "
                 ++ string_of_nat (List.length input_labels) ++ " labels("
                 ++ join ", " input_labels
                 ++ ") to the downstream operator's input port"))
      else
        match map_input_labels v (List.length input_labels) input_labels f nil with
        | (f, inl err) => (f, inl err)
        | (f, inr new_input_labels) =>
            map_output_labels v rest f
              (update output_label
                 (fold_left (fun acc t => insert_string t acc) new_input_labels nil)
                 port_map)
        end
  end.

(** The part of [add_flow] after the defaulting of empty port pairs. *)
Definition add_flow_mapped (f : Fragment) (u v : NodeType)
  (port_pairs : list (string * string)) : Fragment * list string :=
  let upstream_op := op_heap f u in
  let op_outputs := outputs upstream_op in
  let (port_map, output_labels) := to_port_map port_pairs nil nil in
  if Nat.eqb (List.length op_outputs) 1 && negb (Nat.eqb (List.length output_labels) 1)
  then
    (f, ["The upstream operator(" ++ op_name upstream_op
         ++ ") has only one port with label '"
         ++ match first_key op_outputs with Some k => k | None => "" end
         ++ "' but port_map specifies " ++ string_of_nat (List.length output_labels)
         ++ " labels(" ++ join ", " output_labels
         ++ ") to the upstream operator's output port"])
  else
    match check_output_labels upstream_op output_labels output_labels port_map with
    | inl err => (f, [err])
    | inr (port_map, output_labels) =>
        match map_output_labels v output_labels f port_map with
        | (f, inl err) => (f, [err])
        | (f, inr port_map) => (graph_add_flow f u v port_map, nil)
        end
    end.

(** [Fragment::add_flow(upstream_op, downstream_op, port_pairs)].  The
    function returns [void] and reports a rejected flow by logging an error
    and returning: the result is the fragment and the errors logged. *)
Definition add_flow (f : Fragment) (u v : NodeType) (port_pairs : list (string * string))
  : outcome (Fragment * list string) :=
  let upstream_op := op_heap f u in
  let downstream_op := op_heap f v in
  let op_outputs := outputs upstream_op in
  let op_inputs := inputs downstream_op in
  match port_pairs with
  | nil =>
      if is_nil op_inputs
         || match input_exec_spec downstream_op with Some _ => true | None => false end
      then
        if negb (OperatorType_eqb (operator_type upstream_op) kNative)
           || negb (OperatorType_eqb (operator_type downstream_op) kNative)
        then
          Ok (f, ["Both upstream ('" ++ op_name upstream_op ++ "', type: "
                  ++ native_or_gxf (operator_type upstream_op) ++ ") and downstream ('"
                  ++ op_name downstream_op ++ "', type: "
                  ++ native_or_gxf (operator_type downstream_op)
                  ++ ") operators should be native operators to connect execution ports. "
                  ++ "Please check the operator types. Ignoring the control flow addition."])
        else
          Ok (add_control_flow
                (graph_add_flow f u v [(kOutputExecPortName, [kInputExecPortName])]) u v,
              nil)
      else if (1 <? Z.of_nat (List.length op_outputs)) then
        Ok (f, ["The upstream operator has more than one output port ("
                ++ join ", " (map fst op_outputs)
                ++ ") so mapping should be specified explicitly!"])
      else if (1 <? Z.of_nat (List.length op_inputs)) then
        Ok (f, ["The downstream operator has more than one input port ("
                ++ join ", " (map fst op_inputs)
                ++ ") so mapping should be specified explicitly!"])
      else Ok (add_flow_mapped f u v [("", "")])
  | _ :: _ => Ok (add_flow_mapped f u v port_pairs)
  end.

(** ** Lowering of the inter-fragment connections *)

(** A connection of this fragment to another fragment, as handed to the
    executor: the name is "<operator>.<port>". *)
Record ConnectionItem := mkConnectionItem {
  ci_name : string;
  ci_io_type : IOType;
  ci_args : ArgList
}.

(** The keys are the operators [name_to_op] gives for the names of the
    items: the null pointer ([None]) for a name no operator of the graph
    has. *)
Definition ConnectionMapType :=
  list (option NodeType * list (string * list ConnectionItem)).

Definition same_operator (a b : option NodeType) : bool :=
  match a, b with
  | Some m, Some n => Nat.eqb m n
  | None, None => true
  | _, _ => false
  end.

(** [name_to_op[operator_name]]: the last operator of the graph with the
    name. *)
Definition name_to_op (f : Fragment) (operator_name : string) : option NodeType :=
  find (fun n => String.eqb (op_name (op_heap f n)) operator_name)
       (rev (get_nodes (graph f))).

Fixpoint add_connection_item (m : ConnectionMapType) (op : option NodeType)
  (port_name : string) (item : ConnectionItem) : ConnectionMapType :=
  match m with
  | nil => [(op, [(port_name, [item])])]
  | (op', port_map) :: rest =>
      if same_operator op' op then
        (op', match lookup port_name port_map with
              | Some items => update port_name (items ++ [item])%list port_map
              | None => (port_map ++ [(port_name, [item])])%list
              end) :: rest
      else (op', port_map) :: add_connection_item rest op port_name item
  end.

Definition generate_connection_map (f : Fragment) (connection_items : list ConnectionItem)
  : ConnectionMapType :=
  fold_left
    (fun connection_map connection_item =>
       let (operator_name, port_name) := parse_port_name (ci_name connection_item) in
       let op := name_to_op f operator_name in
       add_connection_item connection_map op port_name connection_item)
    connection_items nil.

(** Modelled from the spec: [IOSpec::connector(type, args)] (io_spec.hpp is
    not among the sources) records the connector kind of the port and, for an
    explicit kind, the connector built from the arguments. *)
Definition set_connector_of_type (io : IOSpec) (t : ConnectorType) (args : ArgList) : IOSpec :=
  let io := set_connector_type io t in
  match t, io_type io with
  | kDefault, _ => io
  | kDoubleBuffer, kInput =>
      set_connector io (Some (mkConnector DoubleBufferReceiver "" default_tx_capacity
                                default_queue_policy args false))
  | kDoubleBuffer, kOutput =>
      set_connector io (Some (mkConnector DoubleBufferTransmitter "" default_tx_capacity
                                default_queue_policy args false))
  | kUCX, kInput =>
      set_connector io (Some (mkConnector UcxReceiver "" default_tx_capacity
                                default_queue_policy args false))
  | kUCX, kOutput =>
      set_connector io (Some (mkConnector UcxTransmitter "" default_tx_capacity
                                default_queue_policy args false))
  end.

(** Modelled from the spec: the virtual operators and the forward operator
    (virtual_operator.hpp and forward_op.hpp are not among the sources).  A
    virtual node stands for the remote end of an edge and carries the
    transport parameters; it has the one port the lowering connects, an
    input for a transmitter and an output for a receiver.  The forward node
    re-exposes the received message: input "in", output "out". *)
Definition make_virtual_op (name port_name : string) (dir : IOType) (args : ArgList)
  : Operator :=
  mkOperator name kVirtual (-1) false
    (match dir with kOutput => [(port_name, new_port port_name kInput kSizeOne)]
                  | kInput => nil end)
    (match dir with kInput => [(port_name, new_port port_name kOutput kSizeOne)]
                  | kOutput => nil end)
    nil None None kDefaultPolicy nil nil nil nil port_name dir args None.

Definition make_forward_op (name : string) : Operator :=
  mkOperator name kNative (-1) false
    [("in", new_port "in" kInput kSizeOne)]
    [("out", new_port "out" kOutput kSizeOne)]
    nil None None kDefaultPolicy nil nil nil nil "" kInput nil None.

(** A new operator object: its address is the next free one. *)
Definition alloc_op (f : Fragment) (op : Operator) : Fragment * NodeType :=
  (mkFragment (frag_name f) (graph f) (upd (op_heap f) (next_node f) op) (edge_data f)
              (S (next_node f)) (frag_metadata_policy f) (thread_pools_ f),
   next_node f).

Definition source_ip : string :=
  match HOLOSCAN_UCX_SOURCE_ADDRESS with
  | Some source_address =>
      if String.eqb source_address "" then "0.0.0.0"
      else fst (parse_address source_address "0.0.0.0" "0")
  | None => "0.0.0.0"
  end.

(** The state threaded through the lowering: the fragment, [virtual_ops]
    and the errors logged by [add_flow]. *)
Local Abbreviation Lowering := (Fragment * list NodeType * list string)%type.

(** The body of the innermost loop of
    [create_virtual_operators_and_connections].  The operator of the entry
    is dereferenced for the name of the virtual operator: a null operator is
    undefined behaviour there.  A port of an input connection that is neither
    an input of the operator nor a parameter of type
    [std::vector<IOSpec*>] ends in [std::bad_any_cast]. *)
Definition create_virtual_operator_of (op : NodeType) (port_name : string)
  (acc : Lowering * nat) (connection : ConnectionItem) : outcome (Lowering * nat) :=
  let '((f, virtual_ops, log), connection_index) := acc in
  let io_type := ci_io_type connection in
  let args := match io_type with
              | kOutput => (ci_args connection ++ [("local_address", ArgStr source_ip)])%list
              | kInput => ci_args connection
              end in
  let name := "virtual_" ++ op_name (op_heap f op) ++ "_" ++ port_name ++ "_"
              ++ string_of_nat connection_index in
  let (f, virtual_op) := alloc_op f (make_virtual_op name port_name io_type args) in
  let virtual_ops := (virtual_ops ++ [virtual_op])%list in
  match io_type with
  | kOutput =>
      r <- add_flow f op virtual_op [(port_name, port_name)] ;;
      Ok ((fst r, virtual_ops, log ++ snd r)%list, S connection_index)
  | kInput =>
      let the_operator := op_heap f op in
      param_index <-
        (if match lookup port_name (inputs the_operator) with
            | None => true
            | Some io => queue_size io =? kAnySize
            end
         then match lookup port_name (params the_operator) with
              | Some (mkParamInfo true vec) =>
                  Ok (Some (match vec with Some l => List.length l | None => O end))
              | _ => Throw "bad any_cast"
              end
         else Ok None) ;;
      let forward_op_name :=
        match param_index with
        | None => "forward_" ++ op_name the_operator ++ "_" ++ port_name
        | Some i => "forward_" ++ op_name the_operator ++ "_" ++ port_name ++ ":"
                    ++ string_of_nat i
        end in
      let fwd := make_forward_op forward_op_name in
      let fwd := set_inputs fwd
                   (modify_port "in" (fun io => set_connector_of_type io kUCX args)
                                (inputs fwd)) in
      let (f, forward_op) := alloc_op f fwd in
      r1 <- add_flow f virtual_op forward_op [(port_name, "in")] ;;
      r2 <- add_flow (fst r1) forward_op op [("out", port_name)] ;;
      Ok ((fst r2, virtual_ops, log ++ snd r1 ++ snd r2)%list, S connection_index)
  end.

Definition create_virtual_operator (op : option NodeType) (port_name : string)
  (acc : Lowering * nat) (connection : ConnectionItem) : outcome (Lowering * nat) :=
  match op with
  | Some op => create_virtual_operator_of op port_name acc connection
  | None => Undefined
  end.

Definition create_virtual_operators_and_connections (f : Fragment)
  (connection_map : ConnectionMapType) : outcome Lowering :=
  foldM
    (fun (st : Lowering)
         (entry : option NodeType * list (string * list ConnectionItem)) =>
       foldM
         (fun (st : Lowering) (port_entry : string * list ConnectionItem) =>
            r <- foldM (create_virtual_operator (fst entry) (fst port_entry))
                       (snd port_entry) (st, O) ;;
            Ok (fst r))
         (snd entry) st)
    connection_map (f, nil, nil).

(** "Count connections from <operator name>.<port name>": the port maps of
    the outgoing edges that have the port as a key. *)
Definition connection_count (f : Fragment) (last_transmitter_op : NodeType)
  (port_name : string) : Z :=
  fold_left
    (fun count op =>
       match get_port_map f last_transmitter_op op with
       | Some port_map_val =>
           count + (match lookup port_name port_map_val with Some _ => 1 | None => 0 end)
       | None => count
       end)
    (get_next_nodes (graph f) last_transmitter_op) 0.

Definition connect_ucx_transmitter (f : Fragment) (virtual_op : NodeType)
  : outcome Fragment :=
  let vop := op_heap f virtual_op in
  match virt_io_type vop with
  | kOutput =>
      match get_previous_nodes (graph f) virtual_op with
      | nil => Undefined
      | last_transmitter_op :: _ =>
          let port_name := virt_port_name vop in
          if connection_count f last_transmitter_op port_name =? 1 then
            let last := op_heap f last_transmitter_op in
            match lookup port_name (outputs last) with
            | None => Undefined
            | Some _ =>
                Ok (set_op f last_transmitter_op
                      (set_outputs last
                         (modify_port port_name
                            (fun io => set_connector_of_type io kUCX (virt_arg_list vop))
                            (outputs last))))
            end
          else Ok f
      end
  | kInput => Ok f
  end.

Definition connect_ucx_transmitters_to_virtual_ops (f : Fragment)
  (virtual_ops : list NodeType) : outcome Fragment :=
  foldM connect_ucx_transmitter virtual_ops f.

(** ** initialize_fragment *)

(** The first part of [initialize_fragment], for the connections to other
    fragments: the virtual operators are added to the graph and the UCX
    transmitters are set. *)
Definition lower_connections (f : Fragment) (connection_items_ : list ConnectionItem)
  : outcome (Fragment * list string) :=
  let connection_map := generate_connection_map f connection_items_ in
  lowered <- create_virtual_operators_and_connections f connection_map ;;
  let '(f, virtual_ops, log) := lowered in
  f <- connect_ucx_transmitters_to_virtual_ops f virtual_ops ;;
  Ok (f, log).

(** The result is the final scheduling state, the executor and the errors
    logged while the virtual operators were connected. *)
Definition initialize_fragment (fuel : nat) (ex : Executor)
  (connection_items_ : list ConnectionItem)
  : outcome (Worklist * Executor * list string) :=
  lowered <- lower_connections (fragment_ ex) connection_items_ ;;
  let (f, log) := lowered : Fragment * list string in
  let ex := set_fragment ex f in
  let operators := get_nodes (graph f) in
  r <- initialize_loop (fuel) operators (init_worklist (graph f)) ex ;;
  _ <- configure_thread_pools (fragment_ (snd r)) ;;
  Ok (r, log).

End Planner.

(** ** Specification-side notions *)

(** The visits of the operators [l], one after the other, from the executor
    state [ex]; [visited] lists the operators visited before, the last
    first. *)
Fixpoint visit_in_order (env : Environment) (ex : Executor) (visited l : list NodeType)
  : outcome Executor :=
  match l with
  | nil => Ok ex
  | op_n :: rest =>
      ex' <- visit_operator env ex (op_n :: visited) op_n ;;
      visit_in_order env ex' (op_n :: visited) rest
  end.

(** A call fails, and its caller ends with the same failure. *)
Inductive failed_as {A B : Type} : outcome A -> outcome B -> Prop :=
| failed_as_Throw (msg : string) : failed_as (Throw msg) (Throw msg)
| failed_as_ReturnFalse : failed_as ReturnFalse ReturnFalse
| failed_as_Undefined : failed_as Undefined Undefined
| failed_as_OutOfFuel : failed_as OutOfFuel OutOfFuel.

(** The traversal from [ex] has the result [r] because a visit failed: the
    operators [l] were visited in this order, and then the visit of the
    operator [n], which was not visited before, failed with [r]. *)
Definition visit_fails_after {A : Type} (env : Environment) (operators : list NodeType)
  (ex : Executor) (visited : list NodeType) (r : outcome A) : Prop :=
  exists (l : list NodeType) (n : NodeType) (ex0 : Executor),
    visit_in_order env ex visited l = Ok ex0
    /\ In n operators
    /\ ~ In n (rev l ++ visited)
    /\ failed_as (visit_operator env ex0 (n :: rev l ++ visited) n) r.

(** The GXF lookups of the environment are calls, not loops of the model:
    they return or fail. *)
Definition env_returns (env : Environment) : Prop :=
  forall (op : Operator) (io : IOSpec),
    env_bind_existing_receiver env op io <> OutOfFuel
    /\ env_bind_existing_transmitter env op io <> OutOfFuel.


(** The port-level edges of the graph: (source node, source port, target
    node, target port). *)
Abbreviation PortEdge := (NodeType * string * NodeType * string)%type.

Definition port_edges (f : Fragment) : list PortEdge :=
  flat_map
    (fun e =>
       flat_map (fun entry => map (fun t => (fst e, fst entry, snd e, t)) (snd entry))
                (edge_data f (fst e) (snd e)))
    (succ_ (graph f)).

Definition terminates_at (node : NodeType) (rx_name : string) (e : PortEdge) : bool :=
  let '(_, _, v, t) := e in Nat.eqb v node && String.eqb rx_name t.

(** The edges that terminate at exactly the port [rx_name] of [node]. *)
Definition edges_terminating_at (f : Fragment) (node : NodeType) (rx_name : string)
  : list PortEdge :=
  filter (terminates_at node rx_name) (port_edges f).

(** A port map is a map (distinct keys) to sets (distinct elements). *)
Definition wf_port_map (pm : PortMap) : Prop :=
  NoDup (map fst pm) /\ Forall (fun entry => NoDup (snd entry)) pm.

(** The graph has at most one edge per pair of nodes, its edges join
    nodes of the graph, and the port maps are well formed. *)
Record wf_fragment (f : Fragment) : Prop := mk_wf_fragment {
  wf_nodes : NoDup (ordered_nodes (graph f));
  wf_succ : NoDup (succ_ (graph f));
  wf_endpoints : forall u v, In (u, v) (succ_ (graph f)) ->
                             In u (ordered_nodes (graph f))
                             /\ In v (ordered_nodes (graph f));
  wf_port_maps : forall u v, In (u, v) (succ_ (graph f)) -> wf_port_map (edge_data f u v)
}.

(** [edge g u v]: there is an edge from [u] to [v]. *)
Definition edge (g : FlowGraph) (u v : NodeType) : Prop := In (u, v) (succ_ g).

(** The graph is acyclic: no node reaches itself along one or more edges. *)
Definition acyclic (g : FlowGraph) : Prop :=
  forall v, ~ clos_trans NodeType (edge g) v v.

(** [before l u v]: [u] occurs in [l] strictly before some occurrence of
    [v]. *)
Definition before (l : list NodeType) (u v : NodeType) : Prop :=
  exists l1 l2 l3, l = (l1 ++ u :: l2 ++ v :: l3)%list.


(** The number of broadcast entities registered for a source port. *)
Definition count_broadcast (b : BroadcastEntityMapType) (key : NodeType * string) : nat :=
  List.length (filter (fun e => key_eqb (fst e) key) b).

(** The wiring steps of the planner leave the graph, the operators and
    the executor's codelet ids as they are: they add connections (here: all
    of them with the property [P]) and broadcast components and erase keys
    of port maps. *)
Definition wiring_step_with (P : Cid * Cid -> Prop) (ex ex' : Executor) : Prop :=
  graph (fragment_ ex') = graph (fragment_ ex)
  /\ op_heap (fragment_ ex') = op_heap (fragment_ ex)
  /\ executor_ids ex' = executor_ids ex
  /\ exists added,
       connections_entity_ ex' = (connections_entity_ ex ++ added)%list
       /\ Forall P added.

Definition wiring_step : Executor -> Executor -> Prop := wiring_step_with (fun _ => True).


(** A target of the operator uses a UCX connector: one of the collected
    source ports has the connector type kUCX, or a next operator is
    virtual. *)
Definition is_ucx_connection (c : Cid * TargetsInfo) : bool :=
  ConnectorType_eqb (snd (fst (snd c))) kUCX.

Definition has_remote_target (ex : Executor) (op_n : NodeType)
  (connections : TargetConnectionsMapType) : bool :=
  existsb is_ucx_connection connections
  || existsb (fun next_op => OperatorType_eqb (operator_type (the_op ex next_op)) kVirtual)
             (get_next_nodes (graph (fragment_ ex)) op_n).

(** The input of a broadcast entity replicates the source output [io]: the
    capacity and the policy of its double-buffer transmitter, and the
    min_size of its downstream-affordable condition (1 without one). *)
Definition receiver_replicates (io : IOSpec) (be : BroadcastEntity) : Prop :=
  (forall c, connector io = Some c -> conn_class c = DoubleBufferTransmitter ->
             gxf_cptr c = true ->
             be_rx_capacity be = capacity_ c /\ be_rx_policy be = policy_ c)
  /\ (forall cond, find_downstream_condition io = Some (Some cond) ->
                   be_rx_min_size be = min_size cond)
  /\ (find_downstream_condition io = None -> be_rx_min_size be = 1).

(** An output of a broadcast entity towards a double-buffer destination
    replicates the source output [io]: capacity, policy, and a scheduling
    term with the min_size of the downstream-affordable condition, when the
    source has one. *)
Definition transmitter_replicates (io : IOSpec) (t : BroadcastTransmitter) : Prop :=
  btx_class t = DoubleBufferTransmitter
  /\ (forall c, connector io = Some c -> conn_class c = DoubleBufferTransmitter ->
                btx_capacity t = capacity_ c /\ btx_policy t = policy_ c)
  /\ (forall cond, find_downstream_condition io = Some (Some cond) ->
                   btx_term_min_size t = Some (min_size cond))
  /\ (find_downstream_condition io = None -> btx_term_min_size t = None).

(** Exactly one broadcast entity is registered for the source port [key],
    and it has the property [P]. *)
Definition one_broadcast_entity (P : BroadcastEntity -> Prop) (b : BroadcastEntityMapType)
  (key : NodeType * string) : Prop :=
  count_broadcast b key = 1%nat
  /\ forall e, In e b -> key_eqb (fst e) key = true -> P (snd e).

(** The operators of the fragment and the ends of its edges are
    allocated: the next operator object is a new node of the graph. *)
Definition allocated (f : Fragment) : Prop :=
  (forall n, In n (ordered_nodes (graph f)) -> (n < next_node f)%nat)
  /\ (forall u v, In (u, v) (succ_ (graph f)) ->
                  (u < next_node f)%nat /\ (v < next_node f)%nat).

(** The predecessors of [v] that are not among the visited nodes. *)
Definition unvisited_preds (g : FlowGraph) (visited : list NodeType) (v : NodeType)
  : list NodeType :=
  filter (fun u => negb (mem_node u visited)) (get_previous_nodes g v).

(** In the list of visited nodes (last visited first), every predecessor
    of a node was visited before the node. *)
Definition preds_first (g : FlowGraph) (visited : list NodeType) : Prop :=
  forall l1 v l2, visited = (l1 ++ v :: l2)%list -> forall u, edge g u v -> In u l2.

(** The invariant of the traversal of an acyclic graph: the worklist holds
    exactly the unvisited nodes whose predecessors are all visited, and the
    indegree of an unvisited node counts its unvisited predecessors. *)
Record sched_inv (g : FlowGraph) (w : Worklist) : Prop := mk_sched_inv {
  inv_nodup : NoDup (visited_nodes w ++ worklist w);
  inv_nodes : forall n, In n (visited_nodes w ++ worklist w) -> In n (ordered_nodes g);
  inv_indegree : forall v, In v (ordered_nodes g) -> ~ In v (visited_nodes w) ->
                           indegrees w v =
                           Z.of_nat (List.length (unvisited_preds g (visited_nodes w) v));
  inv_ready : forall v, In v (ordered_nodes g) -> ~ In v (visited_nodes w) ->
                        (indegrees w v = 0 <-> In v (worklist w));
  inv_topo : preds_first g (visited_nodes w)
}.

(** * Further code of the executor and the fragment *)

(** The names of the scheduling terms of a port: of its conditions other
    than kNone. *)
Definition scheduling_term_names (cs : list (ConditionType * option Condition))
  : list string :=
  flat_map (fun tc => match tc with
                      | (kNone, _) => nil
                      | (_, Some c) => [cond_name c]
                      | (_, None) => nil
                      end) cs.

(** The state of the traversal once the cycles were broken: every node of
    the graph is visited or in the worklist, once, and no count of
    predecessors is positive any more. *)
Record broken_inv (g : FlowGraph) (w : Worklist) : Prop := mk_broken_inv {
  broken_nodup : NoDup (visited_nodes w ++ worklist w);
  broken_nodes : forall n, In n (visited_nodes w ++ worklist w) <-> In n (ordered_nodes g);
  broken_indegree : forall v, In v (ordered_nodes g) -> indegrees w v <= 0
}.

(** The executor with more Connection components. *)
Definition add_connections (ex : Executor) (added : list (Cid * Cid)) : Executor :=
  mkExecutor (fragment_ ex) (entity_prefix_ ex) (executor_ids ex)
             (connections_entity_ ex ++ added)%list
             (broadcast_entities ex) (btx_count ex) (next_cid ex).

(** The Connection component that a port-level edge of the graph asks
    for: from the transmitter of the source port to the receiver of the
    target port. *)
Definition connection_of (e : PortEdge) : Cid * Cid :=
  let '(u, s, v, t) := e in (cid_port u kOutput s, cid_port v kInput t).

(** An operator of a fragment without connections to other fragments,
    before its initialization: it is not a virtual operator, it has no id
    yet, no output port has a UCX connector and a multi-receiver port
    (queue size kAnySize) has no connector of its own. *)
Record local_operator (env : Environment) (op : Operator) : Prop := mk_local_operator {
  local_type : operator_type op <> kVirtual;
  local_id : id op = -1;
  local_uninitialized : is_initialized_ op = false;
  local_outputs : forall p io, In (p, io) (outputs op) -> connector_type io <> kUCX;
  local_receivers : forall p io, In (p, io) (inputs op) ->
                                 queue_size io = env_kAnySize env -> connector io = None
}.

(** Every connector of the ports has its GXF component. *)
Definition ports_ready (ports : list (string * IOSpec)) : Prop :=
  forall p io c, In (p, io) ports -> connector io = Some c -> gxf_cptr c = true.

(** An operator after its initialization. *)
Record wired_operator (op : Operator) : Prop := mk_wired_operator {
  wired_id : id op <> -1;
  wired_type : operator_type op <> kVirtual;
  wired_outputs : forall p io, In (p, io) (outputs op) -> connector_type io <> kUCX;
  wired_rx : ports_ready (inputs op);
  wired_tx : ports_ready (outputs op)
}.

(** The state of the executor when the operators [visited] were visited,
    for a fragment [f0] of local operators: the operators visited are
    initialized, the others are as they were. *)
Record planned_inv (f0 : Fragment) (ex : Executor) (visited : list NodeType) : Prop :=
  mk_planned_inv {
  planned_graph : graph (fragment_ ex) = graph f0;
  planned_edge_data : edge_data (fragment_ ex) = edge_data f0;
  planned_ids : executor_ids ex = mkExecutorIds 0 0;
  planned_broadcast : broadcast_entities ex = nil;
  planned_unvisited : forall n, ~ In n visited -> the_op ex n = op_heap f0 n;
  planned_visited : forall n, In n visited -> wired_operator (the_op ex n)
}.

(** The Connection components are those of the port-level edges between
    visited operators, one for each. *)
Record wired_inv (f0 : Fragment) (ex : Executor) (visited : list NodeType) : Prop :=
  mk_wired_inv {
  wired_plan : planned_inv f0 ex visited;
  wired_nodup : NoDup (connections_entity_ ex);
  wired_connections :
    forall c, In c (connections_entity_ ex) <->
              exists u s v t, In (u, s, v, t) (port_edges f0)
                              /\ In u visited /\ In v visited
                              /\ c = connection_of (u, s, v, t)
}.

(** The targets recorded in the connections of an operator, with their
    source. *)
Definition targets_of (connections : TargetConnectionsMapType) : list (Cid * TargetPort) :=
  flat_map (fun c => map (fun t => (fst c, t)) (snd (snd c))) connections.

(** The connections that the port map of the edge from [u] to [v] asks
    for, in the order of the port map. *)
Definition edge_connections (u v : NodeType) (pm : PortMap) : list (Cid * Cid) :=
  flat_map (fun entry => map (fun t => (cid_port u kOutput (fst entry),
                                        cid_port v kInput t)) (snd entry)) pm.

(** The connections of an operator are a map (distinct source ports) to
    sets of targets, and none is a UCX connection. *)
Definition wf_connections (connections : TargetConnectionsMapType) : Prop :=
  NoDup (map fst connections)
  /\ forall c, In c connections -> snd (fst (snd c)) <> kUCX /\ NoDup (snd (snd c)).

(** The connection to the target of a source port. *)
Definition connection_to (x : Cid * TargetPort) : Cid * Cid :=
  (fst x, cid_port (fst (snd x)) kInput (snd (snd x))).

(** Whether the target operator of a collected connection is initialized
    (its id is not -1). *)
Definition target_is_initialized (f : Fragment) (x : Cid * TargetPort) : bool :=
  negb (id (op_heap f (fst (snd x))) =? -1).

(** [v] is on a cycle of the graph or reached from one. *)
Definition downstream_of_cycle (g : FlowGraph) (v : NodeType) : Prop :=
  exists c, clos_trans NodeType (edge g) c c
            /\ (c = v \/ clos_trans NodeType (edge g) c v).

(** The visited operators that are not downstream of a cycle were visited
    after all their predecessors. *)
Definition cycle_free_preds_first (g : FlowGraph) (visited : list NodeType) : Prop :=
  forall l1 v l2, visited = (l1 ++ v :: l2)%list -> ~ downstream_of_cycle g v ->
                  forall u, edge g u v -> In u l2.

(** ** Components handed to a graph entity (add_*_to_graph_entity) *)

(** A [nvidia::gxf::GraphEntity], reached through [std::shared_ptr]. *)
Record GraphEntity := mkGraphEntity {
  ge_eid : Z;
  ge_name : string
}.

(** What the [std::any] of an [Arg] holds, by the element type and the
    container type of the argument: a condition, a resource or an IOSpec
    (a pointer, which may be null), a vector of them, such an element in
    another container, or a value of another type. *)
Inductive ComponentArg :=
| ArgCondition (condition : option nat)
| ArgResource (resource : option nat)
| ArgIOSpec (io_spec : option nat)
| ArgConditions (conditions : list (option nat))
| ArgResources (resources : list (option nat))
| ArgIOSpecs (io_specs : list (option nat))
| ArgOtherContainer
| ArgOtherElement.

(** A [Condition] or [Resource] object: whether it is a GXF component
    ([std::dynamic_pointer_cast] to GXFCondition or GXFResource succeeds),
    its entity id, its graph entity and its arguments. *)
Record Component := mkComponent {
  comp_name : string;
  comp_is_gxf : bool;
  gxf_eid_ : Z;
  gxf_graph_entity_ : option GraphEntity;
  comp_args : list ComponentArg
}.

(** The connector and the conditions of an [IOSpec] object. *)
Record IOSpecRefs := mkIOSpecRefs {
  ior_connector : option nat;
  ior_conditions : list (option nat)
}.

(** The objects the arguments point to: conditions, resources and
    IOSpecs, by address. *)
Record ComponentStore := mkComponentStore {
  store_conditions : nat -> Component;
  store_resources : nat -> Component;
  store_io_specs : nat -> IOSpecRefs
}.

Definition set_graph_entity (c : Component) (ge : GraphEntity) : Component :=
  mkComponent (comp_name c) (comp_is_gxf c) (ge_eid ge) (Some ge) (comp_args c).

Definition set_condition (st : ComponentStore) (p : nat) (c : Component) : ComponentStore :=
  mkComponentStore (upd (store_conditions st) p c) (store_resources st) (store_io_specs st).

Definition set_resource (st : ComponentStore) (p : nat) (c : Component) : ComponentStore :=
  mkComponentStore (store_conditions st) (upd (store_resources st) p c) (store_io_specs st).

Definition has_graph_entity (c : Component) : bool :=
  match gxf_graph_entity_ c with Some _ => true | None => false end.

(** The four functions call each other through the arguments of the
    components; [fuel] bounds the depth of the calls.  The result is the
    store and the value returned ([add_component_args_to_graph_entity]
    returns nothing: [true]). *)
Fixpoint add_condition_to_graph_entity (fuel : nat) (condition : option nat)
  (graph_entity : option GraphEntity) (st : ComponentStore)
  : outcome (ComponentStore * bool) :=
  match fuel with
  | O => OutOfFuel
  | S fuel =>
      match condition, graph_entity with
      | Some p, Some ge =>
          r <- add_component_args_to_graph_entity fuel (comp_args (store_conditions st p))
                 graph_entity st ;;
          let st := fst r in
          let gxf_condition := store_conditions st p in
          if negb (comp_is_gxf gxf_condition) then Ok (st, false)
          else if negb (has_graph_entity gxf_condition)
          then Ok (set_condition st p (set_graph_entity gxf_condition ge), true)
          else Ok (st, false)
      | _, _ => Ok (st, false)
      end
  end

with add_resource_to_graph_entity (fuel : nat) (resource : option nat)
  (graph_entity : option GraphEntity) (st : ComponentStore)
  : outcome (ComponentStore * bool) :=
  match fuel with
  | O => OutOfFuel
  | S fuel =>
      match resource, graph_entity with
      | Some p, Some ge =>
          r <- add_component_args_to_graph_entity fuel (comp_args (store_resources st p))
                 graph_entity st ;;
          let st := fst r in
          let gxf_resource := store_resources st p in
          if comp_is_gxf gxf_resource && negb (has_graph_entity gxf_resource)
          then Ok (set_resource st p (set_graph_entity gxf_resource ge), true)
          else Ok (st, false)
      | _, _ => Ok (st, false)
      end
  end

with add_iospec_to_graph_entity (fuel : nat) (io_spec : option nat)
  (graph_entity : option GraphEntity) (st : ComponentStore)
  : outcome (ComponentStore * bool) :=
  match fuel with
  | O => OutOfFuel
  | S fuel =>
      match io_spec, graph_entity with
      | Some p, Some _ =>
          match ior_connector (store_io_specs st p) with
          | None => Ok (st, false)
          | Some resource =>
              r <- add_resource_to_graph_entity fuel (Some resource) graph_entity st ;;
              foldM
                (fun (acc : ComponentStore * bool) (condition : option nat) =>
                   r <- add_condition_to_graph_entity fuel condition graph_entity (fst acc) ;;
                   let condition_status := snd r in
                   (* the error that is logged names the condition *)
                   _ <- (if condition_status then Ok tt
                         else match condition with
                              | Some _ => Ok tt
                              | None => Undefined
                              end) ;;
                   Ok (fst r, snd acc && condition_status))
                (ior_conditions (store_io_specs st p)) r
          end
      | _, _ => Ok (st, false)
      end
  end

with add_component_args_to_graph_entity (fuel : nat) (args : list ComponentArg)
  (graph_entity : option GraphEntity) (st : ComponentStore)
  : outcome (ComponentStore * bool) :=
  match fuel with
  | O => OutOfFuel
  | S fuel =>
      let each (add : nat -> option nat -> option GraphEntity -> ComponentStore
                      -> outcome (ComponentStore * bool))
               (st : ComponentStore) (ptr : option nat) : outcome ComponentStore :=
        r <- add fuel ptr graph_entity st ;; Ok (fst r) in
      st <- foldM
              (fun (st : ComponentStore) (arg : ComponentArg) =>
                 match arg with
                 | ArgOtherElement | ArgOtherContainer => Ok st
                 | ArgCondition condition =>
                     each add_condition_to_graph_entity st condition
                 | ArgResource resource => each add_resource_to_graph_entity st resource
                 | ArgIOSpec io_spec => each add_iospec_to_graph_entity st io_spec
                 | ArgConditions conditions =>
                     foldM (each add_condition_to_graph_entity) conditions st
                 | ArgResources resources =>
                     foldM (each add_resource_to_graph_entity) resources st
                 | ArgIOSpecs io_specs =>
                     foldM (each add_iospec_to_graph_entity) io_specs st
                 end)
              args st ;;
      Ok (st, true)
  end.

(** A call of one of the four functions. *)
Inductive EntityCall :=
| CallCondition (condition : option nat)
| CallResource (resource : option nat)
| CallIOSpec (io_spec : option nat)
| CallArgs (args : list ComponentArg).

Definition graph_entity_call (fuel : nat) (call : EntityCall)
  (graph_entity : option GraphEntity) (st : ComponentStore)
  : outcome (ComponentStore * bool) :=
  match call with
  | CallCondition condition => add_condition_to_graph_entity fuel condition graph_entity st
  | CallResource resource => add_resource_to_graph_entity fuel resource graph_entity st
  | CallIOSpec io_spec => add_iospec_to_graph_entity fuel io_spec graph_entity st
  | CallArgs args => add_component_args_to_graph_entity fuel args graph_entity st
  end.

(** A component is as it was, or it had no graph entity, is a GXF
    component and was given the graph entity [ge]. *)
Definition entity_kept (ge : option GraphEntity) (c c' : Component) : Prop :=
  c' = c
  \/ (gxf_graph_entity_ c = None /\ comp_is_gxf c = true
      /\ exists e, ge = Some e /\ c' = set_graph_entity c e).

Definition store_kept (ge : option GraphEntity) (st st' : ComponentStore) : Prop :=
  (forall p, entity_kept ge (store_conditions st p) (store_conditions st' p))
  /\ (forall p, entity_kept ge (store_resources st p) (store_resources st' p))
  /\ store_io_specs st' = store_io_specs st.

(** ** Fragment::from_config: the parts of a key *)

(** [std::string::find_first_of(c, pos)]: the first position from [pos]
    that holds [c]; [None] is [npos]. *)
Fixpoint find_first_of (s : string) (c : ascii) (pos : nat) : option nat :=
  match s with
  | EmptyString => None
  | String a rest =>
      match pos with
      | O => if Ascii.eqb a c then Some O else option_map S (find_first_of rest c O)
      | S pos' => option_map S (find_first_of rest c pos')
      end
  end.

(** [std::string::substr(pos, len)]: [std::out_of_range] when [pos] is
    past the end, a shorter string when [len] is. *)
Definition substr (s : string) (pos len : nat) : outcome string :=
  if (String.length s <? pos)%nat then Throw "basic_string::substr"
  else Ok (String.substring pos len s).

(** [std::string::substr(pos)]: to the end of the string. *)
Definition substr_from (s : string) (pos : nat) : outcome string :=
  substr s pos (String.length s - pos).

(** The loop that cuts the key at its dots: the position after the last
    dot and the parts before it.  [pos] never is [npos], the loop is left
    by its [break]. *)
Fixpoint key_parts_loop (fuel : nat) (key : string) (pos : nat) (key_parts : list string)
  : outcome (nat * list string) :=
  match fuel with
  | O => OutOfFuel
  | S fuel =>
      match find_first_of key "."%char pos with
      | None => Ok (pos, key_parts)
      | Some next_pos =>
          part <- substr key pos (next_pos - pos) ;;
          key_parts_loop fuel key (next_pos + 1) (key_parts ++ [part])%list
      end
  end.

(** [key_parts] of [Fragment::from_config(key)]. *)
Definition from_config_key_parts (key : string) : outcome (list string) :=
  r <- key_parts_loop (S (String.length key)) key 0 nil ;;
  part <- substr_from key (fst r) ;;
  Ok (snd r ++ [part])%list.

(** Whether a string holds the character. *)
Fixpoint has_char (c : ascii) (s : string) : bool :=
  match s with
  | EmptyString => false
  | String a rest => Ascii.eqb a c || has_char c rest
  end.

Fixpoint count_char (c : ascii) (s : string) : nat :=
  match s with
  | EmptyString => O
  | String a rest => ((if Ascii.eqb a c then 1 else 0) + count_char c rest)%nat
  end.

(** ** GPU devices for the operators with a UCX port (initialize_gxf_graph) *)

(** A [GPUDevice] resource: its name, the [dev_id] argument and the
    entity it was added to. *)
Record GPUDevice := mkGPUDevice {
  gpu_name : string;
  gpu_dev_id : Z;
  gpu_eid : Z
}.

(** What the loop asks of the GXF context and of the operators: the
    graph entity of an operator (its entity id, when it has one),
    [gxf_device_id] of an entity (which may depend on the devices added
    so far), [gxf_entity_group_name] of an entity, and the value of
    HOLOSCAN_UCX_DEVICE_ID (0 when it is not set). *)
Record GxfContext := mkGxfContext {
  ctx_graph_entity : NodeType -> option Z;
  ctx_gxf_device_id : list GPUDevice -> Z -> option Z;
  ctx_gxf_entity_group_name : Z -> string;
  ctx_HOLOSCAN_UCX_DEVICE_ID : Z
}.

(** [add_gpu_device_to_graph_entity(device_name, graph_entity)], without
    a device id. *)
Definition add_gpu_device_to_graph_entity (ctx : GxfContext) (device_name : string)
  (graph_entity : Z) : GPUDevice :=
  let gpu_id := ctx_HOLOSCAN_UCX_DEVICE_ID ctx in
  mkGPUDevice device_name gpu_id graph_entity.

(** An input port with a UCX connector, or else an output port. *)
Definition has_ucx_port (op : Operator) : bool :=
  existsb (fun p => ConnectorType_eqb (connector_type (snd p)) kUCX) (inputs op)
  || existsb (fun p => ConnectorType_eqb (connector_type (snd p)) kUCX) (outputs op).

(** The variables of the loop, and the devices it has created. *)
Record DeviceLoop := mkDeviceLoop {
  generated_device_entity_count : nat;
  groups_with_device : list string;          (* a set *)
  generated_devices : list GPUDevice
}.

Definition group_has_device (name : string) (groups : list string) : bool :=
  existsb (String.eqb name) groups.

(** One iteration of the loop over the nodes of the graph. *)
Definition add_ucx_device (ctx : GxfContext) (ex : Executor) (st : DeviceLoop)
  (node : NodeType) : DeviceLoop :=
  let op := op_heap (fragment_ ex) node in
  if OperatorType_eqb (operator_type op) kVirtual then st
  else if negb (has_ucx_port op) then st
  else
    match ctx_graph_entity ctx node with
    | None => st                                (* an error is logged *)
    | Some op_eid =>
        let maybe_device_id := ctx_gxf_device_id ctx (generated_devices st) op_eid in
        let entity_group_name := ctx_gxf_entity_group_name ctx op_eid in
        if group_has_device entity_group_name (groups_with_device st) then st
        else
          match maybe_device_id with
          | Some _ =>
              mkDeviceLoop (generated_device_entity_count st)
                (groups_with_device st ++ [entity_group_name]) (generated_devices st)
          | None =>
              let device_name :=
                entity_prefix_ ex ++ "gpu_device_entity"
                ++ string_of_nat (generated_device_entity_count st) in
              let gpu_device := add_gpu_device_to_graph_entity ctx device_name op_eid in
              mkDeviceLoop (S (generated_device_entity_count st))
                (groups_with_device st ++ [entity_group_name])
                (generated_devices st ++ [gpu_device])
          end
    end.

Definition add_ucx_devices (ctx : GxfContext) (ex : Executor) : DeviceLoop :=
  fold_left (add_ucx_device ctx ex) (get_nodes (graph (fragment_ ex)))
    (mkDeviceLoop 0 nil nil).

(** The name of the entity of the GPU device of the network context. *)
Definition network_device_name (ex : Executor) : string :=
  entity_prefix_ ex ++ "gpu_device_entity".

(** An operator the loop looks at: not virtual, with a UCX port and a
    graph entity. *)
Definition ucx_operator (ctx : GxfContext) (ex : Executor) (node : NodeType) (eid : Z)
  : Prop :=
  operator_type (op_heap (fragment_ ex) node) <> kVirtual
  /\ has_ucx_port (op_heap (fragment_ ex) node) = true
  /\ ctx_graph_entity ctx node = Some eid.

(** What holds of the variables of the loop after every iteration. *)
Record device_inv (ctx : GxfContext) (ex : Executor) (nodes : list NodeType)
  (st : DeviceLoop) : Prop := {
  inv_count : generated_device_entity_count st = List.length (generated_devices st);
  inv_names : forall i d, nth_error (generated_devices st) i = Some d ->
                gpu_name d = (entity_prefix_ ex ++ "gpu_device_entity" ++ string_of_nat i)%string;
  inv_groups : forall d, In d (generated_devices st) ->
                 In (ctx_gxf_entity_group_name ctx (gpu_eid d)) (groups_with_device st);
  inv_nodup_groups : NoDup (groups_with_device st);
  inv_one_per_group : NoDup (map (fun d => ctx_gxf_entity_group_name ctx (gpu_eid d))
                               (generated_devices st));
  inv_from_nodes : forall d, In d (generated_devices st) ->
                     exists node, In node nodes /\ ucx_operator ctx ex node (gpu_eid d);
  inv_covered : forall node eid, In node nodes -> ucx_operator ctx ex node eid ->
                  In (ctx_gxf_entity_group_name ctx eid) (groups_with_device st)
}.

(** ** The multi-message conditions an operator gets (initialize_operator) *)

(** The loop "Add any multi-message conditions" of [initialize_operator],
    with the names of the conditions it creates and adds to the operator,
    in order.  The loop is left at the first condition that names an input
    port the operator does not have. *)
Fixpoint created_multi_port_conditions (env : Environment) (op_nm : string)
  (ins : list (string * IOSpec))
  (infos : list (ConditionType * list string)) (multi_port_condition_index : nat)
  : outcome (list string) :=
  match infos with
  | nil => Ok nil
  | (kind, port_names) :: rest =>
      if forallb (fun n => match lookup n ins with Some _ => true | None => false end)
                 port_names
      then
        condition_name <-
          match kind with
          | kMultiMessageAvailable =>
              Ok ("__" ++ op_nm ++ "_multi_message"
                  ++ string_of_nat multi_port_condition_index)
          | kMultiMessageAvailableTimeout =>
              Ok ("__" ++ op_nm ++ "_multi_message_timeout"
                  ++ string_of_nat multi_port_condition_index)
          | _ => Throw (unsupported_multi_message_condition_msg env kind)
          end ;;
        created <- created_multi_port_conditions env op_nm ins rest
                     (S multi_port_condition_index) ;;
        Ok (condition_name :: created)
      else Ok nil
  end.

(** An outcome that is an exception or undefined behaviour. *)
Definition fails {A : Type} (r : outcome A) : Prop :=
  r = Undefined \/ exists msg, r = Throw msg.

(** Every entry of a connection map has a port, every port an item, and
    every item satisfies [P] with the key of its entry. *)
Definition filled (P : ConnectionItem -> option NodeType -> Prop) (m : ConnectionMapType)
  : Prop :=
  forall k pm, In (k, pm) m ->
    pm <> nil
    /\ forall q its, In (q, its) pm -> its <> nil /\ forall x, In x its -> P x k.

(** The same connection map iterated in another order: its entries are
    permuted, and so are the ports of each entry (both are unordered
    maps). *)
Definition reordered (m m' : ConnectionMapType) : Prop :=
  exists m1,
    Permutation m m1
    /\ Forall2 (fun e e' => fst e = fst e' /\ Permutation (snd e) (snd e')) m1 m'.


(** ** The broadcast entities of a source port in the plan *)

(** The broadcast entities registered for a source port. *)
Definition entities_at (b : BroadcastEntityMapType) (key : NodeType * string)
  : list BroadcastEntity :=
  map snd (filter (fun e => key_eqb (fst e) key) b).

(** The destinations of the output port [s] of [u] in the operator [v]:
    the target ports that the port map of the edge from [u] to [v] gives
    for [s]. *)
Definition targets_in (f : Fragment) (u : NodeType) (s : string) (v : NodeType)
  : list TargetPort :=
  if has_edge (graph f) u v then
    match lookup s (edge_data f u v) with
    | Some target_ports => map (fun t => (v, t)) target_ports
    | None => nil
    end
  else nil.

(** The destinations of the output port [s] of [u] in the operators [l],
    in the order of [l]. *)
Definition destinations (f : Fragment) (u : NodeType) (s : string) (l : list NodeType)
  : list TargetPort :=
  flat_map (targets_in f u s) l.

(** A target of the operator [u] uses a UCX connector: a next operator is
    virtual, or a connected output port of [u] has the connector type
    kUCX. *)
Definition has_ucx_target (f : Fragment) (u : NodeType) : Prop :=
  (exists v, edge (graph f) u v /\ operator_type (op_heap f v) = kVirtual)
  \/ (exists p io v, targets_in f u p v <> nil
                     /\ lookup p (outputs (op_heap f u)) = Some io
                     /\ connector_type io = kUCX).

(** An operator as it is declared, before the planning: it has no id and
    is not initialized, its output ports are registered under their names
    and their connectors have no GXF component yet. *)
Record declared_operator (op : Operator) : Prop := mk_declared_operator {
  declared_id : id op = -1;
  declared_uninitialized : is_initialized_ op = false;
  declared_outputs : forall p io, In (p, io) (outputs op) ->
                                  io_name io = p /\ has_component (connector io) = false
}.

(** The output [tx] of the broadcast entity of the source output [io]
    (port [s]) serves the destination [d]: towards an operator of the
    fragment it replicates the source output, is named by the counter of
    the transmitters and is connected to the receiver of the destination
    port; towards a virtual operator it is a UCX transmitter with the
    arguments of the virtual operator. *)
Definition serves (ex : Executor) (io : IOSpec) (s : string) (tx : BroadcastTransmitter)
  (d : TargetPort) : Prop :=
  (operator_type (the_op ex (fst d)) <> kVirtual -> connector_type io <> kUCX ->
   transmitter_replicates io tx
   /\ exists k target_cid,
        btx_name tx = "btx_" ++ string_of_nat k
        /\ gxf_cid (fst d) kInput (snd d) (inputs (the_op ex (fst d))) = Ok target_cid
        /\ In (cid_btx k, target_cid) (connections_entity_ ex))
  /\ (operator_type (the_op ex (fst d)) = kVirtual -> connector_type io = kDefault ->
      btx_class tx = UcxTransmitter
      /\ btx_name tx = op_name (the_op ex (fst d)) ++ "_" ++ s
      /\ btx_args tx = virt_arg_list (the_op ex (fst d))).

(** A connection from the output port [s] of [u] ends at the receiver of
    the broadcast entity of that port. *)
Definition only_to_broadcast (u : NodeType) (s : string) (c : Cid * Cid) : Prop :=
  fst c = cid_port u kOutput s -> snd c = cid_broadcast_rx u s.

(** A wiring step that leaves the output port [s] of [u] alone: it adds no
    connection from the port but to its broadcast entity, keeps the targets
    of the port in the port maps and keeps its broadcast entities. *)
Definition keeps (u : NodeType) (s : string) (ex ex' : Executor) : Prop :=
  wiring_step_with (only_to_broadcast u s) ex ex'
  /\ (forall b, lookup s (edge_data (fragment_ ex') u b)
                = lookup s (edge_data (fragment_ ex) u b))
  /\ entities_at (broadcast_entities ex') (u, s)
     = entities_at (broadcast_entities ex) (u, s).

(** A wiring step that feeds the operator [v] from the broadcast entities
    of the output port [s] of [u]: every entity gets the outputs [txs], one
    for each of the target ports [o] of the port in the edge to [v], and
    the port is erased from the port map of that edge. *)
Definition fed (u : NodeType) (s : string) (v : NodeType) (o : option (list string))
  (ex ex' : Executor) : Prop :=
  wiring_step_with (only_to_broadcast u s) ex ex'
  /\ (forall b, b <> v -> lookup s (edge_data (fragment_ ex') u b)
                          = lookup s (edge_data (fragment_ ex) u b))
  /\ lookup s (edge_data (fragment_ ex') u v) = None
  /\ exists txs,
       entities_at (broadcast_entities ex') (u, s)
       = map (fun be => fold_left add_transmitter txs be)
             (entities_at (broadcast_entities ex) (u, s))
       /\ forall io, lookup s (outputs (the_op ex u)) = Some io ->
                     Forall2 (serves ex' io s) txs
                       (map (fun t => (v, t))
                            (match o with Some target_ports => target_ports | None => nil end)).

(** The targets recorded for a source port in the connections of an
    operator. *)
Definition has_target (connections : TargetConnectionsMapType) (k : Cid) (t : TargetPort)
  : Prop :=
  exists cn ct tg, In (k, (cn, ct, tg)) connections /\ In t tg.

(** The connections collected for the operator [op_n]: one entry for a
    source port, registered under the name of the port with its connector
    type, and targets among the next operators [nexts]. *)
Definition collected (ex : Executor) (op_n : NodeType)
  (connections : TargetConnectionsMapType) : Prop :=
  NoDup (map fst connections)
  /\ forall k cn ct tg,
       In (k, (cn, ct, tg)) connections ->
       (exists io, k = cid_port op_n kOutput cn
                   /\ lookup cn (outputs (the_op ex op_n)) = Some io
                   /\ ct = connector_type io)
       /\ forall t, In t tg -> In (fst t) (get_next_nodes (graph (fragment_ ex)) op_n).

(** The output ports of an initialized operator: every connector has its
    GXF component and the name of its port. *)
Definition outputs_named (op : Operator) : Prop :=
  forall p io, lookup p (outputs op) = Some io ->
               exists c, connector io = Some c /\ conn_name c = p /\ gxf_cptr c = true.

(** The visit of an operator other than [u]: it is fed from the
    broadcast entities of the output port [s] of [u] when there is an edge
    from [u] to it, and leaves the port alone otherwise. *)
Definition visit_feeds (u : NodeType) (s : string) (v : NodeType) (ex ex' : Executor)
  : Prop :=
  graph (fragment_ ex') = graph (fragment_ ex)
  /\ (forall m, m <> v -> the_op ex' m = the_op ex m)
  /\ (forall m, operator_type (the_op ex' m) = operator_type (the_op ex m))
  /\ executor_ids ex' = executor_ids ex
  /\ (exists added, connections_entity_ ex' = (connections_entity_ ex ++ added)%list
                    /\ Forall (only_to_broadcast u s) added)
  /\ (forall b, b <> v -> lookup s (edge_data (fragment_ ex') u b)
                          = lookup s (edge_data (fragment_ ex) u b))
  /\ exists txs,
       entities_at (broadcast_entities ex') (u, s)
       = map (fun be => fold_left add_transmitter txs be)
             (entities_at (broadcast_entities ex) (u, s))
       /\ forall io, lookup s (outputs (the_op ex u)) = Some io ->
                     Forall2 (serves ex' io s) txs (targets_in (fragment_ ex) u s v).

(** ** Example fragments *)

Module Examples.

(** "<operator>.<port>" is split at the first dot. *)
Definition parse_port_name (s : string) : string * string :=
  match index 0 "." s with
  | Some i => (substring 0 i s, substring (S i) (String.length s) s)
  | None => (s, "")
  end.

(** The integer values of the kinds of condition in the examples. *)
Definition condition_type_value (kind : ConditionType) : Z :=
  match kind with
  | kNone => 0
  | kMessageAvailable => 1
  | kDownstreamMessageAffordable => 2
  | kExpiringMessageAvailable => 3
  | kMultiMessageAvailable => 4
  | kMultiMessageAvailableTimeout => 5
  | kOtherCondition tag => 6 + Z.of_nat tag
  end.

(** A Holoscan application: kAnySize is -1, the default queue policy is 2
    and the default capacity 1, no codelet is wrapped, the environment
    variable is not set and an unordered map of ports starts with the port
    declared last. *)
Definition env : Environment :=
  mkEnvironment (-1) 2 1 (fun _ _ => Undefined) (fun _ _ => Undefined)
    "__input_exec__" "__output_exec__" parse_port_name
    (fun address _ port => (address, port)) None
    (fun keys => hd_error keys) condition_type_value.

(** The same application where an unordered map of ports starts with the
    port declared first. *)
Definition env_first_declared : Environment :=
  mkEnvironment (-1) 2 1 (fun _ _ => Undefined) (fun _ _ => Undefined)
    "__input_exec__" "__output_exec__" parse_port_name
    (fun address _ port => (address, port)) None
    (fun keys => hd_error (rev keys)) condition_type_value.

Definition native (name : string) (ins outs : list (string * IOSpec)) : Operator :=
  mkOperator name kNative (-1) false ins outs nil None None kDefaultPolicy
    nil nil nil nil "" kInput nil None.


Definition in_port (name : string) (size : Z) : string * IOSpec :=
  (name, new_port name kInput size).

Definition out_port (name : string) : string * IOSpec :=
  (name, new_port name kOutput kSizeOne).

(** A fragment with the given operators at the addresses 0, 1, ... and
    the given edges; every edge has the given port map. *)
Definition fragment_of (ops : list Operator) (edges : list (NodeType * NodeType))
  (port_maps : NodeType -> NodeType -> PortMap) (pools : list ThreadPool) : Fragment :=
  mkFragment "fragment" (mkFlowGraph (seq 0 (List.length ops)) edges)
    (fun n => nth n ops (native "" nil nil)) port_maps (List.length ops) kRaise pools.

Definition executor_of (f : Fragment) : Executor :=
  mkExecutor f "" (mkExecutorIds 0 0) nil nil 0 1.

(** Two transmitters feed the input "in" of a receiver whose queue size is
    kPrecedingCount. *)
Definition fan_in : Fragment :=
  fragment_of
    [native "tx1" nil [out_port "out"]; native "tx2" nil [out_port "out"];
     native "rx" [in_port "in" kPrecedingCount] nil]
    [(0, 2); (1, 2)]%nat (fun _ _ => [("out", ["in"])]) nil.

(** A receiver whose kPrecedingCount input has no incoming edge. *)
Definition lone_rx : Fragment :=
  fragment_of [native "rx" [in_port "in" kPrecedingCount] nil] nil (fun _ _ => nil) nil.

(** One output connected to the inputs of two operators of the same
    fragment. *)
Definition fan_out : Fragment :=
  fragment_of
    [native "tx" nil [out_port "out"]; native "rx1" [in_port "in" 1] nil;
     native "rx2" [in_port "in" 1] nil]
    [(0, 1); (0, 2)]%nat (fun _ _ => [("out", ["in"])]) nil.

(** Two operators in a data-flow cycle; the input of the first has the
    fixed queue size 4. *)
Definition data_cycle : Fragment :=
  fragment_of
    [native "a" [in_port "in" 4] [out_port "out"];
     native "b" [in_port "in" 1] [out_port "out"]]
    [(0, 1); (1, 0)]%nat (fun _ _ => [("out", ["in"])]) nil.

(** An operator with two outputs and an operator with one input. *)
Definition two_outputs : Fragment :=
  fragment_of
    [native "src" nil [out_port "out1"; out_port "out2"];
     native "dst" [in_port "in" 1] nil]
    nil (fun _ _ => nil) nil.


(** An operator alone in its fragment. *)
Definition single (op : Operator) : Fragment :=
  fragment_of [op] nil (fun _ _ => nil) nil.

(** An operator with a control-flow edge to itself, as [add_flow] without
    port pairs declares it. *)
Definition self_loop : Fragment :=
  match add_flow env (single (native "b" nil nil)) 0%nat 0%nat nil with
  | Ok (f, _) => f
  | _ => single (native "b" nil nil)
  end.

(** The transport parameters of a connection to another fragment. *)
Definition ucx_args : ArgList := [("port", ArgInt 13337)].

(** One output connected to an input of the same fragment and, by the
    connection item, to an operator of another fragment. *)
Definition local_and_remote : Fragment :=
  let f := fragment_of [native "tx" nil [out_port "out"]; native "rx" [in_port "in" 1] nil]
             [(0, 1)]%nat (fun _ _ => [("out", ["in"])]) nil in
  match lower_connections env f [mkConnectionItem "tx.out" kOutput ucx_args] with
  | Ok (f', _) => f'
  | _ => f
  end.

(** The executor when the operator "tx" of [local_and_remote] has been
    initialized, the downstream connections collected for it, and the
    executor when they have been processed. *)
Definition local_and_remote_initialized : Executor :=
  match initialize_visited_operator env (executor_of local_and_remote) [0%nat] 0%nat with
  | Ok ex => ex
  | _ => executor_of local_and_remote
  end.

Definition local_and_remote_connections : TargetConnectionsMapType :=
  match collect_connections local_and_remote_initialized 0%nat with
  | Ok connections => connections
  | _ => nil
  end.

Definition local_and_remote_wired : Executor :=
  match connect_next_ops env local_and_remote_initialized 0%nat
          local_and_remote_connections with
  | Ok ex => ex
  | _ => local_and_remote_initialized
  end.

(** The executor when "rx" has been initialized after that, and when the
    transmitter of the broadcast entity towards its input was created. *)
Definition local_and_remote_target : Executor :=
  match initialize_visited_operator env local_and_remote_wired [1; 0]%nat 1%nat with
  | Ok ex => ex
  | _ => local_and_remote_wired
  end.

Definition local_and_remote_transmitter : Executor :=
  match broadcast_to_target env 1%nat 0%nat "out" local_and_remote_target "in" with
  | Ok ex => ex
  | _ => local_and_remote_target
  end.

(** An operator whose output is connected to another fragment only, and
    an operator whose input is. *)
Definition sender : Fragment :=
  fragment_of [native "tx" nil [out_port "out"]] nil (fun _ _ => nil) nil.

Definition receiver : Fragment :=
  fragment_of [native "rx" [in_port "in" 1] nil] nil (fun _ _ => nil) nil.

Definition lowered (f : Fragment) (item : ConnectionItem) : Fragment :=
  match lower_connections env f [item] with
  | Ok (f', _) => f'
  | _ => f
  end.

(** The executor when "tx" of the lowered [sender] has been initialized,
    its downstream connections, and the executor when they have been
    processed. *)
Definition sender_initialized : Executor :=
  let ex := executor_of (lowered sender (mkConnectionItem "tx.out" kOutput ucx_args)) in
  match initialize_visited_operator env ex [0%nat] 0%nat with
  | Ok ex' => ex'
  | _ => ex
  end.

Definition sender_connections : TargetConnectionsMapType :=
  match collect_connections sender_initialized 0%nat with
  | Ok connections => connections
  | _ => nil
  end.

Definition sender_wired : Executor :=
  match connect_next_ops env sender_initialized 0%nat sender_connections with
  | Ok ex => ex
  | _ => sender_initialized
  end.





(** An operator with one output and an operator with one input, not yet
    connected. *)
Definition one_to_one : Fragment :=
  fragment_of
    [native "tx" nil [out_port "out"]; native "rx" [in_port "in" 1] nil]
    nil (fun _ _ => nil) nil.

Definition with_param (op : Operator) (name : string) (p : ParamInfo) : Operator :=
  mkOperator (op_name op) (operator_type op) (id op) (is_initialized_ op) (inputs op)
    (outputs op) ((name, p) :: params op) (input_exec_spec op) (output_exec_spec op)
    (metadata_policy op) (multi_port_conditions op) (or_combiner_port_names op)
    (non_default_input_ports op) (non_default_output_ports op)
    (virt_port_name op) (virt_io_type op) (virt_arg_list op) (gxf_device_id op).

(** Two transmitters and an operator with the multi-receiver parameter
    "receivers", not yet connected. *)
Definition to_receivers : Fragment :=
  fragment_of
    [native "tx1" nil [out_port "out"]; native "tx2" nil [out_port "out"];
     with_param (native "rx" nil nil) "receivers" (mkParamInfo true None)]
    nil (fun _ _ => nil) nil.

(** An operator with one input and one output. *)
Definition filter_op : Operator := native "op" [in_port "in" 1] [out_port "out"].

(** An input port that was given a condition of its own. *)
Definition expiring_input : IOSpec :=
  mkIOSpec "in" kInput 1 kDefault None None
    [(kExpiringMessageAvailable, Some (mkCondition "" 1));
     (kMessageAvailable, Some (mkCondition "" 1))].

(** A source that feeds a sink, beside two operators in a cycle. *)
Definition cycle_beside_chain : Fragment :=
  fragment_of
    [native "src" nil [out_port "out"];
     native "a" [in_port "in" 1] [out_port "out"];
     native "b" [in_port "in" 1] [out_port "out"];
     native "sink" [in_port "in" 1] nil]
    [(0, 3); (1, 2); (2, 1)]%nat (fun _ _ => [("out", ["in"])]) nil.


(** An allocator used by two operators: resource 0 is the allocator,
    resource 1 holds it as an argument; the IOSpecs have the allocator as
    their connector and one condition. *)
Definition shared_allocator : ComponentStore :=
  mkComponentStore
    (fun _ => mkComponent "condition" true 0 None [])
    (fun p => mkComponent "allocator" true 0 None
                (match p with
                 | 1%nat => [ArgResource (Some 0%nat)]
                 | _ => []
                 end))
    (fun _ => mkIOSpecRefs (Some 0%nat) [Some 0%nat]).

(** Components without arguments; the second condition of IOSpec 0 is
    null. *)
Definition null_condition : ComponentStore :=
  mkComponentStore
    (fun _ => mkComponent "condition" true 0 None [])
    (fun _ => mkComponent "connector" true 0 None [])
    (fun p => mkIOSpecRefs (Some 0%nat)
                (match p with
                 | 0%nat => [Some 0%nat; None]
                 | _ => [Some 0%nat]
                 end)).

Definition first_entity : GraphEntity := mkGraphEntity 7 "first".
Definition second_entity : GraphEntity := mkGraphEntity 8 "second".


(** An operator with the inputs "a" and "b" whose multi-message
    condition names "a" and an input "c" that it does not have. *)
Definition bad_multi_port : Operator :=
  mkOperator "op" kNative (-1) false [in_port "a" 1; in_port "b" 1] nil nil None None
    kDefaultPolicy [(kMultiMessageAvailable, ["a"; "c"]); (kMultiMessageAvailable, ["b"])]
    nil nil nil "" kInput nil None.

(** An operator whose output is connected to its own input, and to another
    fragment once the connection item "a.out" is lowered. *)
Definition self_fed : Fragment :=
  fragment_of [native "a" [in_port "in" 1] [out_port "out"]] [(0, 0)%nat]
    (fun u v => if Nat.eqb u 0 && Nat.eqb v 0 then [("out", ["in"])] else nil) nil.

(** A control flow from an operator with a data output to itself, where
    an unordered map of ports starts with the port declared first. *)
Definition self_loop_with_output : Fragment :=
  match add_flow env_first_declared (single (native "b" nil [out_port "out"]))
          0%nat 0%nat nil with
  | Ok (f, _) => f
  | _ => single (native "b" nil [out_port "out"])
  end.

End Examples.

(** ** General facts *)

Lemma bind_Ok {A B : Type} (m : outcome A) (k : A -> outcome B) (b : B) :
  bind m k = Ok b -> exists a, m = Ok a /\ k a = Ok b.
Proof.
  destruct m; simpl; intros H; try discriminate.
  exists a; split; [reflexivity | exact H].
Qed.

Lemma bind_not_ok {A B : Type} (m : outcome A) (k : A -> outcome B) :
  is_ok m = false -> is_ok (bind m k) = false.
Proof. destruct m; simpl; intros H; congruence. Qed.

Lemma foldM_invariant {A S : Type} (P : S -> Prop) (f : S -> A -> outcome S) :
  (forall s a s', P s -> f s a = Ok s' -> P s') ->
  forall l s s', P s -> foldM f l s = Ok s' -> P s'.
Proof.
  intros Hstep l; induction l as [|a l IH]; simpl; intros s s' Hs H.
  - inversion H; subst; exact Hs.
  - apply bind_Ok in H; destruct H as [s1 [H1 H2]].
    eapply IH; [eapply Hstep; eassumption | exact H2].
Qed.

(** One visit, with its steps in a row. *)
Lemma visit_operator_unfold (env : Environment) (ex : Executor) (visited : list NodeType)
  (op_n : NodeType) :
  visit_operator env ex visited op_n =
  (let g := graph (fragment_ ex) in
   let prev_operators := get_previous_nodes g op_n in
   op <- mitigate_cycle g visited op_n (the_op ex op_n) ;;
   let ex := set_fragment ex (set_op (fragment_ ex) op_n op) in
   op <- op_initialize env (executor_ids ex) (fragment_ ex) (next_cid ex) op ;;
   let ex := set_next_cid (set_fragment ex (set_op (fragment_ ex) op_n op))
                          (Pos.succ (next_cid ex)) in
   ex <- foldM (connect_previous_op env op_n) prev_operators ex ;;
   connections <- collect_connections ex op_n ;;
   connect_next_ops env ex op_n connections).
Proof.
  unfold visit_operator, initialize_visited_operator; cbv zeta.
  destruct (mitigate_cycle _ visited op_n (the_op ex op_n)) as [op| | | |];
    try reflexivity.
  cbn [bind].
  destruct (op_initialize env _ _ _ op); reflexivity.
Qed.

(** The same, for a relation between the state before and after. *)
Lemma foldM_relation {A S : Type} (R : S -> S -> Prop) (f : S -> A -> outcome S) :
  (forall s, R s s) ->
  (forall s1 s2 s3, R s1 s2 -> R s2 s3 -> R s1 s3) ->
  (forall s a s', f s a = Ok s' -> R s s') ->
  forall l s s', foldM f l s = Ok s' -> R s s'.
Proof.
  intros Hrefl Htrans Hstep l s s' H.
  apply (foldM_invariant (R s) f) with (l := l) (s := s); auto.
  intros s1 a s2 H1 H2; eapply Htrans; [exact H1 | eapply Hstep; exact H2].
Qed.

Lemma fold_left_add {A : Type} (h : A -> Z) (l : list A) (a : Z) :
  fold_left (fun acc x => acc + h x) l a = a + fold_left (fun acc x => acc + h x) l 0.
Proof.
  revert a; induction l as [|x l IH]; simpl; intros a; [lia|].
  rewrite IH, (IH (h x)); lia.
Qed.

Lemma edge_eqb_eq (e1 e2 : NodeType * NodeType) : edge_eqb e1 e2 = true <-> e1 = e2.
Proof.
  destruct e1 as [a b], e2 as [c d]; unfold edge_eqb; simpl.
  rewrite andb_true_iff, !Nat.eqb_eq; split.
  - intros [-> ->]; reflexivity.
  - intros H; inversion H; auto.
Qed.

Lemma has_edge_In (g : FlowGraph) (u v : NodeType) :
  has_edge g u v = true <-> In (u, v) (succ_ g).
Proof.
  unfold has_edge; rewrite existsb_exists; split.
  - intros [e [Hin He]]; apply edge_eqb_eq in He; subst; exact Hin.
  - intros H; exists (u, v); split; [exact H | apply edge_eqb_eq; reflexivity].
Qed.

Lemma mem_node_In (n : NodeType) (l : list NodeType) : mem_node n l = true <-> In n l.
Proof.
  unfold mem_node; rewrite existsb_exists; split.
  - intros [x [Hin Hx]]; apply Nat.eqb_eq in Hx; subst; exact Hin.
  - intros H; exists n; split; [exact H | apply Nat.eqb_refl].
Qed.

Lemma mem_node_false (n : NodeType) (l : list NodeType) :
  mem_node n l = false <-> ~ In n l.
Proof.
  rewrite <- mem_node_In; destruct (mem_node n l); split; intros; congruence.
Qed.

Lemma In_get_previous_nodes (g : FlowGraph) (u v : NodeType) :
  In u (get_previous_nodes g v) <-> In (u, v) (succ_ g).
Proof.
  unfold get_previous_nodes; rewrite in_map_iff; split.
  - intros [[a b] [Ha Hin]]; simpl in Ha; subst.
    apply filter_In in Hin; destruct Hin as [Hin Hb]; simpl in Hb.
    apply Nat.eqb_eq in Hb; subst; exact Hin.
  - intros H; exists (u, v); split; [reflexivity|].
    apply filter_In; split; [exact H | simpl; apply Nat.eqb_refl].
Qed.

Lemma In_get_next_nodes (g : FlowGraph) (u v : NodeType) :
  In v (get_next_nodes g u) <-> In (u, v) (succ_ g).
Proof.
  unfold get_next_nodes; rewrite in_map_iff; split.
  - intros [[a b] [Hb Hin]]; simpl in Hb; subst.
    apply filter_In in Hin; destruct Hin as [Hin Ha]; simpl in Ha.
    apply Nat.eqb_eq in Ha; subst; exact Hin.
  - intros H; exists (u, v); split; [reflexivity|].
    apply filter_In; split; [exact H | simpl; apply Nat.eqb_refl].
Qed.

(** ** Queue-size resolution (C4) *)

Section QueueSize.

Variable env : Environment.

Lemma filter_none (rx : string) (ts : list string) :
  ~ In rx ts -> filter (String.eqb rx) ts = nil.
Proof.
  induction ts as [|t ts IH]; simpl; intros H; [reflexivity|].
  destruct (String.eqb rx t) eqn:E.
  - apply String.eqb_eq in E; subst; exfalso; apply H; left; reflexivity.
  - apply IH; intros Hin; apply H; right; exact Hin.
Qed.

Lemma set_count_length (rx : string) (ts : list string) :
  NoDup ts -> set_count rx ts = Z.of_nat (List.length (filter (String.eqb rx) ts)).
Proof.
  unfold set_count, mem_string.
  induction ts as [|t ts IH]; simpl; intros Hnd; [reflexivity|].
  inversion Hnd as [|? ? Hnotin Hnd']; subst.
  destruct (String.eqb rx t) eqn:E; simpl.
  - apply String.eqb_eq in E; subst.
    rewrite filter_none by exact Hnotin; reflexivity.
  - apply IH; exact Hnd'.
Qed.

Lemma count_in_port_map_length (rx : string) (pm : PortMap) :
  Forall (fun entry => NoDup (snd entry)) pm ->
  count_in_port_map rx pm =
  Z.of_nat (List.length (flat_map (fun entry => filter (String.eqb rx) (snd entry)) pm)).
Proof.
  unfold count_in_port_map.
  induction pm as [|entry pm IH]; simpl; intros H; [reflexivity|].
  inversion H as [|? ? Hentry Hrest]; subst.
  rewrite fold_left_add, IH by exact Hrest.
  rewrite set_count_length by exact Hentry.
  rewrite List.length_app; lia.
Qed.

Lemma edge_port_edges_length (u v node : NodeType) (rx : string) (pm : PortMap) :
  List.length
    (filter (terminates_at node rx)
       (flat_map (fun entry => map (fun t => (u, fst entry, v, t)) (snd entry)) pm)) =
  if Nat.eqb v node
  then List.length (flat_map (fun entry => filter (String.eqb rx) (snd entry)) pm)
  else O.
Proof.
  induction pm as [|entry pm IH]; cbn [flat_map].
  - destruct (Nat.eqb v node); reflexivity.
  - rewrite filter_app, List.length_app, IH, filter_map_swap, List.length_map.
    unfold terminates_at; destruct (Nat.eqb v node); cbn [andb].
    + rewrite List.length_app; reflexivity.
    + assert (E : filter (fun _ : string => false) (snd entry) = nil)
        by (clear; induction (snd entry); simpl; auto).
      rewrite E; reflexivity.
Qed.

Lemma preceding_count_on (f : Fragment) (node : NodeType) (rx : string)
  (l : list (NodeType * NodeType)) (a : Z) :
  incl l (succ_ (graph f)) ->
  (forall u v, In (u, v) (succ_ (graph f)) -> wf_port_map (edge_data f u v)) ->
  fold_left
    (fun connection_count prev_node =>
       match get_port_map f prev_node node with
       | Some port_map_val => connection_count + count_in_port_map rx port_map_val
       | None => connection_count
       end)
    (map fst (filter (fun e => Nat.eqb (snd e) node) l)) a =
  a + Z.of_nat
        (List.length
           (filter (terminates_at node rx)
              (flat_map
                 (fun e =>
                    flat_map
                      (fun entry => map (fun t => (fst e, fst entry, snd e, t)) (snd entry))
                      (edge_data f (fst e) (snd e))) l))).
Proof.
  intros Hincl Hwf; revert a.
  induction l as [|[u v] l IH]; intros a; [simpl; lia|].
  assert (Hl : incl l (succ_ (graph f))) by (intros x Hx; apply Hincl; right; exact Hx).
  assert (Huv : In (u, v) (succ_ (graph f))) by (apply Hincl; left; reflexivity).
  cbn [filter flat_map fst snd].
  rewrite filter_app, List.length_app, edge_port_edges_length.
  destruct (Nat.eqb v node) eqn:E; cbn [map fold_left fst].
  - apply Nat.eqb_eq in E; subst v.
    assert (Hedge : has_edge (graph f) u node = true) by (apply has_edge_In; exact Huv).
    assert (Hpm : get_port_map f u node = Some (edge_data f u node))
      by (unfold get_port_map; rewrite Hedge; reflexivity).
    rewrite Hpm, IH by exact Hl.
    rewrite count_in_port_map_length by (apply (Hwf u node Huv)).
    lia.
  - rewrite IH by exact Hl; lia.
Qed.

Lemma NoDup_flat_map {A B : Type} (g : A -> list B) (l : list A) :
  NoDup l ->
  (forall x, In x l -> NoDup (g x)) ->
  (forall x y b, In x l -> In y l -> In b (g x) -> In b (g y) -> x = y) ->
  NoDup (flat_map g l).
Proof.
  induction l as [|x l IH]; simpl; intros Hnd Hg Hdisj; [constructor|].
  inversion Hnd as [|? ? Hnotin Hnd']; subst.
  apply NoDup_app.
  - apply Hg; left; reflexivity.
  - apply IH; auto.
    intros a b c Ha Hb; apply Hdisj; right; assumption.
  - intros b Hb Hb'.
    apply in_flat_map in Hb'; destruct Hb' as [y [Hy Hby]].
    assert (x = y)
      by (apply (Hdisj x y b); [left; reflexivity | right; exact Hy | exact Hb | exact Hby]).
    subst; contradiction.
Qed.

Lemma NoDup_port_edges (f : Fragment) : wf_fragment f -> NoDup (port_edges f).
Proof.
  intros Hwf; unfold port_edges.
  apply NoDup_flat_map.
  - apply (wf_succ f Hwf).
  - intros [u v] Huv; simpl.
    destruct (wf_port_maps f Hwf u v Huv) as [Hkeys Hsets].
    induction (edge_data f u v) as [|entry pm IH]; simpl; [constructor|].
    inversion Hkeys as [|? ? Hk Hkeys']; inversion Hsets as [|? ? Hs Hsets']; subst.
    apply NoDup_app.
    + apply Finite.Injective_map_NoDup; [|exact Hs].
      intros a b Hab; inversion Hab; reflexivity.
    + apply IH; assumption.
    + intros b Hb Hb'.
      apply in_map_iff in Hb; destruct Hb as [t [Ht _]]; subst b.
      apply in_flat_map in Hb'; destruct Hb' as [entry' [He' Hb']].
      apply in_map_iff in Hb'; destruct Hb' as [t' [Ht' _]].
      inversion Ht'; subst.
      apply Hk; apply in_map_iff; exists entry'; split; auto.
  - intros [u v] [u' v'] b _ _ Hb Hb'; simpl in *.
    apply in_flat_map in Hb; destruct Hb as [e [_ Hb]].
    apply in_map_iff in Hb; destruct Hb as [t [Ht _]]; subst b.
    apply in_flat_map in Hb'; destruct Hb' as [e' [_ Hb']].
    apply in_map_iff in Hb'; destruct Hb' as [t' [Ht' _]].
    inversion Ht'; subst; reflexivity.
Qed.

(** C4. For an input port whose queue size is kPrecedingCount, the queue
    size that [create_input_port] resolves is the number of the distinct
    port-level edges of the graph that terminate at exactly this port of the
    operator's node, counted over the port maps of all its predecessors. *)
Theorem preceding_count_is_number_of_edges
  (f : Fragment) (io_spec : IOSpec) (op : Operator) (node : NodeType) :
  wf_fragment f ->
  queue_size io_spec = kPrecedingCount ->
  env_kAnySize env <> kPrecedingCount ->
  find_node f (op_name op) = Some node ->
  resolve_queue_size env f io_spec op =
    Ok (Some (Z.of_nat (List.length (edges_terminating_at f node (io_name io_spec)))))
  /\ preceding_connection_count f node (io_name io_spec) =
     Z.of_nat (List.length (edges_terminating_at f node (io_name io_spec)))
  /\ NoDup (edges_terminating_at f node (io_name io_spec)).
Proof.
  intros Hwf Hq Hany Hnode.
  assert (Hcount : preceding_connection_count f node (io_name io_spec) =
                   Z.of_nat (List.length (edges_terminating_at f node (io_name io_spec)))).
  { unfold preceding_connection_count, get_previous_nodes,
      edges_terminating_at, port_edges.
    rewrite preceding_count_on.
    - lia.
    - apply incl_refl.
    - apply (wf_port_maps f Hwf). }
  split; [|split].
  - unfold resolve_queue_size.
    rewrite Hq.
    destruct (kPrecedingCount =? env_kAnySize env) eqn:E.
    + apply Z.eqb_eq in E; congruence.
    + rewrite Z.eqb_refl, Hnode, Hcount; reflexivity.
  - exact Hcount.
  - apply NoDup_filter, NoDup_port_edges; exact Hwf.
Qed.

End QueueSize.

(** ** Invalid queue sizes (C5) and default conditions (C6) *)

Section PortCreation.

Variable env : Environment.

Lemma prefix_append (x b : string) : String.prefix x (x ++ b) = true.
Proof.
  induction x as [|c x IH]; simpl.
  - destruct b; reflexivity.
  - destruct (ascii_dec c c) as [_|n]; [exact IH | exfalso; apply n; reflexivity].
Qed.

Lemma contains_here (x b : string) : contains x (x ++ b) = true.
Proof.
  pose proof (prefix_append x b) as P.
  destruct (x ++ b); cbn [contains]; rewrite P; reflexivity.
Qed.

Lemma contains_append (x a b : string) : contains x b = true -> contains x (a ++ b) = true.
Proof.
  intros H; induction a as [|c a IH]; [exact H|].
  cbn [append contains].
  rewrite IH; destruct (String.prefix x (String c (a ++ b))); reflexivity.
Qed.

Lemma prefix_append_r (x a b : string) :
  String.prefix x a = true -> String.prefix x (a ++ b) = true.
Proof.
  revert a; induction x as [|c x IH]; intros a H; [destruct (a ++ b); reflexivity|].
  destruct a as [|d a]; [discriminate|].
  cbn [append String.prefix] in *.
  destruct (ascii_dec c d); [apply IH; exact H | discriminate].
Qed.

Lemma contains_prefix (x a : string) : String.prefix x a = true -> contains x a = true.
Proof. intros H; destruct a; cbn [contains]; rewrite H; reflexivity. Qed.

Lemma contains_append_r (x a b : string) :
  contains x a = true -> contains x (a ++ b) = true.
Proof.
  induction a as [|c a IH]; cbn [contains]; intros H.
  - destruct (String.prefix x "") eqn:E; [|discriminate].
    apply contains_prefix, (prefix_append_r x "" b E).
  - destruct (String.prefix x (String c a)) eqn:E.
    + apply contains_prefix, (prefix_append_r x (String c a) b E).
    + cbn [append contains]; rewrite (IH H).
      destruct (String.prefix x (String c (a ++ b))); reflexivity.
Qed.

Lemma find_ext_in {A : Type} (p q : A -> bool) (l : list A) :
  (forall x, p x = q x) -> find p l = find q l.
Proof.
  intros H; induction l as [|x l IH]; simpl; [reflexivity|].
  rewrite H, IH; reflexivity.
Qed.

Lemma fold_left_pointwise {A B : Type} (g h : A -> B -> A) (l : list B) (a : A) :
  (forall x y, g x y = h x y) -> fold_left g l a = fold_left h l a.
Proof.
  intros H; revert a; induction l as [|y l IH]; simpl; intros a; [reflexivity|].
  rewrite H; apply IH.
Qed.

(** The resolved queue size depends on the fragment through the graph,
    the port maps and the names of the operators only. *)
Lemma resolve_queue_size_ext (f f' : Fragment) (io_spec : IOSpec) (op op' : Operator) :
  graph f' = graph f ->
  (forall u v, edge_data f' u v = edge_data f u v) ->
  (forall n, op_name (op_heap f' n) = op_name (op_heap f n)) ->
  op_name op' = op_name op ->
  resolve_queue_size env f' io_spec op' = resolve_queue_size env f io_spec op.
Proof.
  intros Hg He Hn Hop; unfold resolve_queue_size, find_node, preceding_connection_count.
  rewrite Hg, Hop.
  rewrite (find_ext_in
             (fun n => String.eqb (op_name (op_heap f' n)) (op_name op))
             (fun n => String.eqb (op_name (op_heap f n)) (op_name op)))
    by (intros n; rewrite Hn; reflexivity).
  destruct (queue_size io_spec =? env_kAnySize env); [reflexivity|].
  destruct (queue_size io_spec =? kPrecedingCount); [|reflexivity].
  destruct (find _ _) as [node|]; [|reflexivity].
  do 2 f_equal.
  apply fold_left_pointwise; intros a prev.
  unfold get_port_map; rewrite Hg, He; reflexivity.
Qed.

Lemma create_ports_not_ok (create : IOSpec -> outcome IOSpec)
  (ports : list (string * IOSpec)) (name : string) (io_spec : IOSpec) :
  In (name, io_spec) ports -> is_ok (create io_spec) = false ->
  is_ok (create_ports create ports) = false.
Proof.
  induction ports as [|[n io] ports IH]; simpl; intros Hin Hc; [contradiction|].
  destruct Hin as [Heq | Hin].
  - inversion Heq; subst; apply bind_not_ok; exact Hc.
  - destruct (create io); simpl; try reflexivity.
    apply bind_not_ok, IH; assumption.
Qed.

(** One iteration of the loop that takes an unvisited operator from the
    worklist. *)
Lemma initialize_loop_visit (fuel : nat) (operators : list NodeType) (w : Worklist)
  (ex : Executor) (op_n : NodeType) (rest : list NodeType) :
  worklist w = op_n :: rest ->
  mem_node op_n (visited_nodes w) = false ->
  initialize_loop env (S fuel) operators w ex =
  (ex' <- visit_operator env ex (op_n :: visited_nodes w) op_n ;;
   initialize_loop env fuel operators
     (release_next_nodes (graph (fragment_ ex)) op_n
        (mkWorklist rest (indegrees w) (op_n :: visited_nodes w))) ex').
Proof.
  intros Hw Hvis.
  cbn [initialize_loop].
  rewrite Hw; cbv zeta; cbn [is_nil andb worklist visited_nodes indegrees].
  rewrite Hw, Hvis; reflexivity.
Qed.

Lemma create_input_port_invalid (f : Fragment) (io_spec : IOSpec) (op : Operator) (q : Z) :
  resolve_queue_size env f io_spec op = Ok (Some q) -> q < 1 ->
  create_input_port env f io_spec false op =
    Throw (invalid_queue_size_msg q (op_name op) (io_name io_spec)).
Proof.
  intros Hres Hq; unfold create_input_port; rewrite Hres; simpl.
  destruct (q <? 1) eqn:E; [reflexivity | apply Z.ltb_ge in E; lia].
Qed.

(** C5. When the resolved queue size of an input port is less than 1,
    creating the port throws an error whose message names the operator and
    the input port; the error leaves [initialize_operator], and the
    iteration of [initialize_fragment] that initializes the operator does
    not complete. *)
Theorem invalid_queue_size_is_fatal
  (f : Fragment) (io_spec : IOSpec) (op : Operator) (q : Z) :
  resolve_queue_size env f io_spec op = Ok (Some q) ->
  q < 1 ->
  let msg := invalid_queue_size_msg q (op_name op) (io_name io_spec) in
  create_input_port env f io_spec false op = Throw msg
  /\ contains (op_name op) msg = true
  /\ contains (io_name io_spec) msg = true
  /\ (forall ids fresh_cid name,
        op_eid_ ids = 0 -> is_initialized_ op = false ->
        In (name, io_spec) (inputs op) ->
        is_ok (initialize_operator env ids f fresh_cid op) = false)
  /\ (forall ex fuel operators w op_n rest name,
        fragment_ ex = f -> op_heap f op_n = op ->
        op_eid_ (executor_ids ex) = 0 -> is_initialized_ op = false ->
        operator_type op <> kVirtual -> input_exec_spec op = None ->
        In (name, io_spec) (inputs op) ->
        worklist w = op_n :: rest -> ~ In op_n (visited_nodes w) ->
        is_ok (initialize_loop env (S fuel) operators w ex) = false).
Proof.
  intros Hres Hq msg.
  assert (Hinit : forall ids fresh_cid name (f' : Fragment),
             graph f' = graph f ->
             (forall u v, edge_data f' u v = edge_data f u v) ->
             (forall n, op_name (op_heap f' n) = op_name (op_heap f n)) ->
             op_eid_ ids = 0 -> is_initialized_ op = false ->
             In (name, io_spec) (inputs op) ->
             is_ok (initialize_operator env ids f' fresh_cid op) = false).
  { intros ids fresh_cid name f' Hg He Hn Heid Hini Hin.
    assert (Hc : forall op', op_name op' = op_name op ->
                 is_ok (create_input_port env f' io_spec false op') = false).
    { intros op' Hop'.
      erewrite create_input_port_invalid; [reflexivity | | exact Hq].
      rewrite <- Hres; apply resolve_queue_size_ext; auto. }
    unfold initialize_operator; rewrite Hini, Heid.
    change (0 =? 0) with true; cbv zeta; cbn [negb].
    match goal with
    | |- context [MetadataPolicy_eqb ?a ?b] => destruct (MetadataPolicy_eqb a b)
    end;
      apply bind_not_ok;
      apply (create_ports_not_ok _ _ name io_spec);
      solve [exact Hin | apply Hc; reflexivity]. }
  repeat split.
  - apply create_input_port_invalid; assumption.
  - unfold msg, invalid_queue_size_msg.
    apply contains_append, contains_append, contains_append, contains_here.
  - unfold msg, invalid_queue_size_msg.
    do 5 apply contains_append; apply contains_here.
  - intros ids fresh_cid name Heid Hini Hin.
    apply (Hinit ids fresh_cid name f); auto.
  - intros ex fuel operators w op_n rest name Hf Hop Heid Hini Hvirt Hexec Hin Hw Hvis.
    apply mem_node_false in Hvis.
    rewrite (initialize_loop_visit _ _ _ _ op_n rest Hw Hvis).
    apply bind_not_ok.
    rewrite visit_operator_unfold; unfold the_op.
    rewrite Hf, Hop; unfold mitigate_cycle; rewrite Hexec; cbn [bind].
    apply bind_not_ok.
    unfold op_initialize.
    assert (Hnames : forall n, op_name (upd (op_heap f) op_n op n) = op_name (op_heap f n)).
    { intros n; unfold upd; destruct (Nat.eqb n op_n) eqn:E; [|reflexivity].
      apply Nat.eqb_eq in E; subst n; rewrite Hop; reflexivity. }
    destruct (operator_type op) eqn:Et; try congruence;
      (apply (Hinit _ _ name);
       [reflexivity | reflexivity | exact Hnames | exact Heid | exact Hini | exact Hin]).
Qed.

Lemma create_receiver_ok (io_spec : IOSpec) (q : Z) :
  connector_type io_spec = kDefault \/ as_receiver (connector io_spec) <> None ->
  exists io1, create_receiver env io_spec q = Ok io1
              /\ conditions io1 = conditions io_spec
              /\ io_name io1 = io_name io_spec.
Proof.
  intros H; unfold create_receiver.
  destruct (has_component (as_receiver (connector io_spec))).
  - exists io_spec; auto.
  - destruct H as [H | H].
    + rewrite H; cbn [bind]; eexists; split; [reflexivity | split; reflexivity].
    + destruct (as_receiver (connector io_spec)) as [r|]; [|congruence].
      destruct (connector_type io_spec); cbn [bind];
        eexists; (split; [reflexivity | split; reflexivity]).
Qed.

Lemma create_transmitter_ok (io_spec : IOSpec) :
  connector_type io_spec = kDefault \/ as_transmitter (connector io_spec) <> None ->
  exists io1, create_transmitter env io_spec = Ok io1
              /\ conditions io1 = conditions io_spec
              /\ io_name io1 = io_name io_spec
              /\ connector_type io1 = connector_type io_spec.
Proof.
  intros H; unfold create_transmitter.
  destruct (has_component (as_transmitter (connector io_spec))).
  - exists io_spec; auto.
  - destruct H as [H | H].
    + destruct (connector_type io_spec) eqn:E; try discriminate.
      cbn [bind]; eexists; split; [reflexivity | repeat split; simpl; auto].
    + destruct (as_transmitter (connector io_spec)) as [r|]; [|congruence].
      destruct (connector_type io_spec) eqn:E; cbn [bind];
        eexists; (split; [reflexivity | repeat split; simpl; auto]).
Qed.

(** C6. Default conditions.  An input port without a condition of its
    own, without a user-supplied condition and outside every multi-port
    condition gets a message-available condition whose min_size is the
    resolved queue size; an output port without a condition of its own and
    without a user-supplied condition gets a downstream-affordable condition
    with min_size 1 unless its connector type is UCX; an output port with a
    UCX connector gets no default condition. *)
Theorem default_conditions (f : Fragment) (op : Operator) :
  (forall io_spec q,
      resolve_queue_size env f io_spec op = Ok (Some q) -> 1 <= q ->
      conditions io_spec = nil ->
      mem_string (io_name io_spec) (non_default_input_ports op) = false ->
      port_has_multi_port_condition op (io_name io_spec) = false ->
      connector_type io_spec = kDefault \/ as_receiver (connector io_spec) <> None ->
      exists io',
        create_input_port env f io_spec false op = Ok io'
        /\ conditions io' =
           [(kMessageAvailable,
             Some (mkCondition (("__" ++ op_name op ++ "_" ++ io_name io_spec)
                                ++ "_message_available1") q))])
  /\ (forall io_spec,
         conditions io_spec = nil ->
         mem_string (io_name io_spec) (non_default_output_ports op) = false ->
         connector_type io_spec <> kUCX ->
         connector_type io_spec = kDefault \/ as_transmitter (connector io_spec) <> None ->
         exists io',
           create_output_port env f io_spec false op = Ok io'
           /\ conditions io' =
              [(kDownstreamMessageAffordable,
                Some (mkCondition ("__" ++ op_name op ++ "_" ++ io_name io_spec
                                   ++ "_cond_1") 1))])
  /\ (forall io_spec,
         conditions io_spec = nil ->
         connector_type io_spec = kUCX ->
         as_transmitter (connector io_spec) <> None ->
         exists io',
           create_output_port env f io_spec false op = Ok io'
           /\ conditions io' = nil).
Proof.
  split; [|split].
  - intros io_spec q Hres Hq Hc Hnd Hmp Hconn.
    destruct (create_receiver_ok io_spec q Hconn) as [io1 [H1 [Hc1 Hn1]]].
    unfold create_input_port; rewrite Hres; cbn [bind].
    destruct (q <? 1) eqn:E; [apply Z.ltb_lt in E; lia|].
    rewrite H1; cbn [bind].
    unfold default_input_condition.
    rewrite Hc1, Hc, Hn1, Hmp, Hnd; cbn [negb andb].
    unfold add_condition; rewrite Hc1, Hc.
    eexists; split; reflexivity.
  - intros io_spec Hc Hnd Hucx Hconn.
    destruct (create_transmitter_ok io_spec Hconn) as [io1 [H1 [Hc1 [Hn1 Ht1]]]].
    unfold create_output_port; rewrite H1; cbn [bind].
    unfold default_output_condition.
    rewrite Hc1, Hc, Hn1, Ht1, Hnd.
    destruct (connector_type io_spec) eqn:Et; try congruence;
      cbn [negb ConnectorType_eqb];
      unfold add_condition; rewrite Hc1, Hc;
      eexists; split; reflexivity.
  - intros io_spec Hc Hucx Hconn.
    destruct (create_transmitter_ok io_spec (or_intror Hconn)) as [io1 [H1 [Hc1 [Hn1 Ht1]]]].
    unfold create_output_port; rewrite H1; cbn [bind].
    unfold default_output_condition.
    rewrite Hc1, Hc, Ht1, Hucx; cbn [negb ConnectorType_eqb].
    rewrite Hc1, Hc.
    eexists; split; reflexivity.
Qed.

End PortCreation.

(** ** Thread pools (C9) *)

Section ThreadPools.

Variable f : Fragment.
Variable pool : ThreadPool.

Let dev (n : NodeType) : option Z := gxf_device_id (op_heap f n).








End ThreadPools.

(** ** Ambiguous default port mapping (C8) *)

Section AddFlow.

Variable env : Environment.

Lemma contains_join (name : string) (l : list string) :
  In name l -> contains name (join ", " l) = true.
Proof.
  induction l as [|x l IH]; intros Hin; [contradiction|].
  destruct l as [|y l].
  - destruct Hin as [-> | []].
    cbn [join]; rewrite <- (contains_here name ""); f_equal.
    clear; induction name as [|c s IHs]; simpl; [reflexivity | rewrite <- IHs; reflexivity].
  - cbn [join]; destruct Hin as [-> | Hin].
    + apply contains_here.
    + apply contains_append, contains_append, IH; exact Hin.
Qed.

(** C8, as the code has it. With empty port pairs, a downstream operator
    that has an input port and no input execution port, and more than one
    candidate port on either side, [add_flow] logs an error that names the
    candidate ports and returns: the flow is not added, the fragment is
    unchanged and nothing is thrown to the caller. *)
Theorem ambiguous_mapping_is_logged (f : Fragment) (u v : NodeType) :
  inputs (op_heap f v) <> nil ->
  input_exec_spec (op_heap f v) = None ->
  (1 < List.length (outputs (op_heap f u)))%nat
  \/ (1 < List.length (inputs (op_heap f v)))%nat ->
  exists msg candidates,
    add_flow env f u v nil = Ok (f, [msg])
    /\ (candidates = map fst (outputs (op_heap f u))
        \/ candidates = map fst (inputs (op_heap f v)))
    /\ (1 < List.length candidates)%nat
    /\ forall name, In name candidates -> contains name msg = true.
Proof.
  intros Hin Hexec Hamb; unfold add_flow.
  rewrite Hexec.
  destruct (inputs (op_heap f v)) as [|i ins] eqn:Ei; [congruence|].
  cbn [is_nil orb].
  destruct (1 <? Z.of_nat (List.length (outputs (op_heap f u)))) eqn:E1.
  - eexists; exists (map fst (outputs (op_heap f u))); split; [reflexivity|].
    split; [left; reflexivity|].
    split; [rewrite List.length_map; apply Z.ltb_lt in E1; lia|].
    intros name Hname; apply contains_append, contains_append_r, contains_join; exact Hname.
  - apply Z.ltb_ge in E1.
    destruct Hamb as [Hamb | Hamb]; [lia|].
    destruct (1 <? Z.of_nat (List.length (i :: ins))) eqn:E2;
      [|apply Z.ltb_ge in E2; lia].
    eexists; exists (map fst (i :: ins)); split; [reflexivity|].
    split; [right; reflexivity|].
    split; [rewrite List.length_map; exact Hamb|].
    intros name Hname; apply contains_append, contains_append_r, contains_join; exact Hname.
Qed.

End AddFlow.

(** ** Instances of C4, C5, C6, C8 and C9 *)

Ltac solve_NoDup :=
  repeat (constructor; [simpl; intuition (try discriminate; try congruence; try lia) |]);
  constructor.

Lemma wf_fan_in : wf_fragment Examples.fan_in.
Proof.
  constructor.
  - simpl; solve_NoDup.
  - simpl; solve_NoDup.
  - intros u v H; simpl in H.
    destruct H as [H | [H | []]]; inversion H; subst; simpl; auto.
  - intros u v _; split; simpl; [solve_NoDup|].
    repeat constructor; simpl; intuition.
Defined.

(** The receiver of [Examples.fan_in] resolves its kPrecedingCount input to
    the queue size 2. *)
Lemma preceding_count_is_number_of_edges_witness :
  let io_spec := new_port "in" kInput kPrecedingCount in
  let op := op_heap Examples.fan_in 2%nat in
  resolve_queue_size Examples.env Examples.fan_in io_spec op = Ok (Some 2)
  /\ List.length (edges_terminating_at Examples.fan_in 2%nat "in") = 2%nat.
Proof.
  intros io_spec op.
  destruct (preceding_count_is_number_of_edges Examples.env Examples.fan_in io_spec op
              2%nat wf_fan_in eq_refl) as [H _].
  - simpl; discriminate.
  - reflexivity.
  - split; [exact H | reflexivity].
Defined.

(** The receiver of [Examples.lone_rx] has no incoming edge: its input
    resolves to 0 and the creation of the port throws. *)
Lemma invalid_queue_size_is_fatal_witness :
  let io_spec := new_port "in" kInput kPrecedingCount in
  let op := op_heap Examples.lone_rx 0%nat in
  create_input_port Examples.env Examples.lone_rx io_spec false op =
    Throw "Invalid queue size: 0 (op: 'rx', input port: 'in')"
  /\ is_ok (initialize_loop Examples.env 2 [0%nat]
              (init_worklist (graph Examples.lone_rx))
              (Examples.executor_of Examples.lone_rx)) = false.
Proof.
  intros io_spec op.
  destruct (invalid_queue_size_is_fatal Examples.env Examples.lone_rx io_spec op 0)
    as [H1 [_ [_ [_ H5]]]].
  - reflexivity.
  - lia.
  - split; [exact H1|].
    apply (H5 (Examples.executor_of Examples.lone_rx) 1%nat [0%nat]
              (init_worklist (graph Examples.lone_rx)) 0%nat nil "in");
      try reflexivity.
    + discriminate.
    + left; reflexivity.
    + simpl; tauto.
Defined.

(** Default conditions of the ports of an operator "op": an input of
    queue size 3, an output with the default connector and an output with
    a UCX transmitter. *)
Lemma default_conditions_witness :
  let f := Examples.single (Examples.native "op" nil nil) in
  let op := Examples.native "op" nil nil in
  let ucx := mkIOSpec "out" kOutput 1 kUCX
               (Some (mkConnector UcxTransmitter "" 1 2 nil false)) None nil in
  (exists io', create_input_port Examples.env f (new_port "in" kInput 3) false op = Ok io'
               /\ conditions io' =
                  [(kMessageAvailable, Some (mkCondition "__op_in_message_available1" 3))])
  /\ (exists io', create_output_port Examples.env f (new_port "out" kOutput 1) false op
                  = Ok io'
                  /\ conditions io' =
                     [(kDownstreamMessageAffordable, Some (mkCondition "__op_out_cond_1" 1))])
  /\ (exists io', create_output_port Examples.env f ucx false op = Ok io'
                  /\ conditions io' = nil).
Proof.
  intros f op ucx.
  destruct (default_conditions Examples.env f op) as [H1 [H2 H3]].
  split; [|split].
  - apply (H1 (new_port "in" kInput 3) 3); try reflexivity; [lia | left; reflexivity].
  - apply (H2 (new_port "out" kOutput 1)); try reflexivity;
      [discriminate | left; reflexivity].
  - apply (H3 ucx); try reflexivity; simpl; discriminate.
Defined.

(** C8 as stated fails: the flow from an operator with two outputs,
    declared without port pairs, is not surfaced to the caller.  [add_flow]
    returns with the fragment unchanged and the error only logged, and the
    fragment is then initialized without the edge. *)
Lemma ambiguous_mapping_not_surfaced :
  add_flow Examples.env Examples.two_outputs 0%nat 1%nat nil =
    Ok (Examples.two_outputs,
        ["The upstream operator has more than one output port (out1, out2) so mapping should be specified explicitly!"])
  /\ match initialize_fragment Examples.env 10
             (Examples.executor_of Examples.two_outputs) nil with
     | Ok (w, ex, _) =>
         initialization_order w = [0%nat; 1%nat]
         /\ succ_ (graph (fragment_ ex)) = nil /\ connections_entity_ ex = nil
     | _ => False
     end.
Proof. split; [reflexivity | vm_compute; auto]. Qed.

Lemma ambiguous_mapping_is_logged_witness :
  exists msg candidates,
    add_flow Examples.env Examples.two_outputs 0%nat 1%nat nil =
      Ok (Examples.two_outputs, [msg])
    /\ (candidates = ["out1"; "out2"] \/ candidates = ["in"])
    /\ (1 < List.length candidates)%nat
    /\ forall name, In name candidates -> contains name msg = true.
Proof.
  apply (ambiguous_mapping_is_logged Examples.env Examples.two_outputs 0%nat 1%nat).
  - simpl; discriminate.
  - reflexivity.
  - left; simpl; lia.
Defined.



(** ** The wiring steps do not touch the graph or the operators *)

Section WiringWith.

Variable env : Environment.

(** The property of the added connections: it holds of the connections
    from a transmitter of a broadcast entity and of those with an end that
    has no GXF component. *)
Variable P : Cid * Cid -> Prop.
Hypothesis P_btx : forall n t, P (cid_btx n, t).
Hypothesis P_unset_source : forall t, P (cid_unset, t).
Hypothesis P_unset_target : forall s, P (s, cid_unset).

Lemma wiring_step_with_refl (ex : Executor) : wiring_step_with P ex ex.
Proof.
  repeat split; exists nil; split; [symmetry; apply app_nil_r | constructor].
Qed.

Lemma wiring_step_with_trans (ex1 ex2 ex3 : Executor) :
  wiring_step_with P ex1 ex2 -> wiring_step_with P ex2 ex3 -> wiring_step_with P ex1 ex3.
Proof.
  intros [A [B [C [l [D E]]]]] [A' [B' [C' [l' [D' E']]]]].
  repeat split; try congruence.
  exists (l ++ l')%list; split; [rewrite D', D, app_assoc; reflexivity|].
  apply Forall_app; auto.
Qed.

Lemma wiring_step_with_connection (ex : Executor) (s t : Cid) :
  P (s, t) -> wiring_step_with P ex (add_connection ex s t).
Proof.
  intros H; repeat split; exists [(s, t)]; split; [reflexivity | repeat constructor; exact H].
Qed.

(** A change of the executor that keeps the fragment's graph and
    operators, the ids and the connections. *)
Lemma wiring_step_with_same (ex ex' : Executor) :
  graph (fragment_ ex') = graph (fragment_ ex) ->
  op_heap (fragment_ ex') = op_heap (fragment_ ex) ->
  executor_ids ex' = executor_ids ex ->
  connections_entity_ ex' = connections_entity_ ex ->
  wiring_step_with P ex ex'.
Proof.
  intros A B C D; repeat split; auto.
  exists nil; split; [rewrite D; symmetry; apply app_nil_r | constructor].
Qed.

Lemma gxf_cid_cases (n : NodeType) (dir : IOType) (port : string)
  (ports : list (string * IOSpec)) (c : Cid) :
  gxf_cid n dir port ports = Ok c -> c = cid_port n dir port \/ c = cid_unset.
Proof.
  unfold gxf_cid; destruct (lookup port ports) as [io|]; [|discriminate].
  destruct (connector io) as [r|]; [|discriminate].
  intros H; inversion H; destruct (gxf_cptr r); auto.
Qed.

Ltac foldM_wiring :=
  apply foldM_relation; [apply wiring_step_with_refl | apply wiring_step_with_trans |].

Lemma broadcast_to_target_wiring (op_n prev_n : NodeType) (port_name : string)
  (ex ex' : Executor) (target_port : string) :
  broadcast_to_target env op_n prev_n port_name ex target_port = Ok ex' ->
  wiring_step_with P ex ex'.
Proof.
  unfold broadcast_to_target; intros H.
  destruct (lookup port_name (outputs (the_op ex prev_n))) as [io|]; [|discriminate].
  destruct (match connector_type io with
            | kDefault =>
                if OperatorType_eqb (operator_type (the_op ex op_n)) kVirtual
                then kUCX else kDoubleBuffer
            | t => t
            end).
  - inversion H; subst; apply wiring_step_with_refl.
  - destruct (capacity_and_policy env DoubleBufferTransmitter (connector io)) as [c p].
    apply bind_Ok in H; destruct H as [cid [_ H]].
    inversion H; subst.
    eapply wiring_step_with_trans; [|apply wiring_step_with_connection, P_btx].
    apply wiring_step_with_same; reflexivity.
  - apply bind_Ok in H; destruct H as [t [_ H]].
    inversion H; subst; apply wiring_step_with_same; reflexivity.
Qed.

Lemma connect_broadcast_port_wiring (op_n prev_n : NodeType) (ex ex' : Executor)
  (port_name : string) :
  connect_broadcast_port env op_n prev_n ex port_name = Ok ex' ->
  wiring_step_with P ex ex'.
Proof.
  unfold connect_broadcast_port; intros H.
  destruct (lookup port_name (edge_data (fragment_ ex) prev_n op_n)) as [targets|].
  - apply bind_Ok in H; destruct H as [ex1 [H1 H]].
    inversion H; subst.
    apply (wiring_step_with_trans _ ex1).
    + revert H1; foldM_wiring.
      intros s a s'; apply broadcast_to_target_wiring.
    + apply wiring_step_with_same; reflexivity.
  - inversion H; subst; apply wiring_step_with_refl.
Qed.

Lemma connect_broadcast_to_previous_op_wiring (ex ex' : Executor) (op_n prev_n : NodeType) :
  connect_broadcast_to_previous_op env ex op_n prev_n = Ok ex' ->
  wiring_step_with P ex ex'.
Proof.
  unfold connect_broadcast_to_previous_op; foldM_wiring.
  intros s a s'; apply connect_broadcast_port_wiring.
Qed.

Lemma connect_direct_wiring (op_n prev_n : NodeType) (ex ex' : Executor)
  (entry : string * list string) :
  (forall sp tp, P (cid_port prev_n kOutput sp, cid_port op_n kInput tp)) ->
  connect_direct op_n prev_n ex entry = Ok ex' -> wiring_step_with P ex ex'.
Proof.
  intros HP; unfold connect_direct; destruct entry as [source_port target_ports]; intros H.
  apply bind_Ok in H; destruct H as [source_cid [Hs H]].
  assert (Hsource : source_cid = cid_port prev_n kOutput source_port
                    \/ source_cid = cid_unset).
  { destruct (negb (id (the_op ex prev_n) =? -1)).
    - eapply gxf_cid_cases; exact Hs.
    - inversion Hs; auto. }
  destruct (lookup source_port (outputs (the_op ex prev_n))) as [io|]; [|discriminate].
  destruct (negb (ConnectorType_eqb (connector_type io) kUCX)).
  - revert H; foldM_wiring.
    intros s a s' H.
    destruct (lookup a (inputs (the_op ex op_n))); [|discriminate].
    destruct (negb (id (the_op ex prev_n) =? -1)).
    + apply bind_Ok in H; destruct H as [tc [Ht H]]; inversion H; subst.
      apply wiring_step_with_connection.
      apply gxf_cid_cases in Ht.
      destruct Ht as [-> | ->]; [|apply P_unset_target].
      destruct Hsource as [-> | ->]; [apply HP | apply P_unset_source].
    + inversion H; subst; apply wiring_step_with_refl.
  - destruct (1 <? Z.of_nat (List.length target_ports)); [discriminate|].
    inversion H; subst; apply wiring_step_with_refl.
Qed.

Lemma connect_previous_op_wiring (op_n : NodeType) (ex ex' : Executor) (prev_n : NodeType) :
  (prev_n <> op_n ->
   forall sp tp, P (cid_port prev_n kOutput sp, cid_port op_n kInput tp)) ->
  connect_previous_op env op_n ex prev_n = Ok ex' -> wiring_step_with P ex ex'.
Proof.
  intros HP; unfold connect_previous_op; intros H.
  destruct (Nat.eqb prev_n op_n) eqn:Ene;
    [inversion H; subst; apply wiring_step_with_refl|].
  apply Nat.eqb_neq in Ene.
  destruct (get_port_map (fragment_ ex) prev_n op_n); [|discriminate].
  apply bind_Ok in H; destruct H as [ex1 [H1 H]].
  assert (W1 : wiring_step_with P ex ex1).
  { destruct (has_broadcast (broadcast_entities ex) prev_n).
    - eapply connect_broadcast_to_previous_op_wiring; exact H1.
    - inversion H1; subst; apply wiring_step_with_refl. }
  apply (wiring_step_with_trans _ ex1); [exact W1|].
  destruct (edge_data (fragment_ ex1) prev_n op_n) as [|e pm] eqn:E.
  - inversion H; subst; apply wiring_step_with_refl.
  - destruct (_ || _).
    + inversion H; subst; apply wiring_step_with_refl.
    + revert H; foldM_wiring.
      intros s a s'; apply connect_direct_wiring, HP, Ene.
Qed.

End WiringWith.

Section Wiring.

Variable env : Environment.

Lemma wiring_step_refl (ex : Executor) : wiring_step ex ex.
Proof. apply wiring_step_with_refl. Qed.

Lemma wiring_step_trans (ex1 ex2 ex3 : Executor) :
  wiring_step ex1 ex2 -> wiring_step ex2 ex3 -> wiring_step ex1 ex3.
Proof. apply wiring_step_with_trans. Qed.

Lemma wiring_step_connection (ex : Executor) (s t : Cid) :
  wiring_step ex (add_connection ex s t).
Proof. apply wiring_step_with_connection; exact I. Qed.

Lemma create_broadcast_components_wiring (ex ex' : Executor) (op_n : NodeType)
  (connections : TargetConnectionsMapType) :
  create_broadcast_components env ex op_n connections = Ok ex' -> wiring_step ex ex'.
Proof.
  unfold create_broadcast_components.
  apply foldM_relation; [apply wiring_step_refl | apply wiring_step_trans |].
  intros s [cid [[cname ct] targets]] s' H; unfold create_broadcast_component in H.
  destruct targets as [|t1 [|t2 targets]];
    try (inversion H; subst; apply wiring_step_refl).
  destruct (lookup cname (outputs (the_op s op_n))) as [io|]; [|discriminate].
  destruct (capacity_and_policy env DoubleBufferTransmitter _) as [c p].
  inversion H; subst.
  eapply wiring_step_trans; [|apply wiring_step_connection].
  apply wiring_step_with_same; reflexivity.
Qed.

Lemma connect_initialized_targets_wiring (acc acc' : Executor * bool)
  (connection : Cid * TargetsInfo) :
  connect_initialized_targets acc connection = Ok acc' ->
  wiring_step (fst acc) (fst acc').
Proof.
  destruct acc as [s b], acc' as [s' b'], connection as [cid [[cname ct] targets]].
  unfold connect_initialized_targets; cbn [fst snd]; intros Hs.
  destruct (ConnectorType_eqb ct kUCX).
  - inversion Hs; subst; apply wiring_step_refl.
  - apply bind_Ok in Hs; destruct Hs as [s1 [Hs1 Hs]]; inversion Hs; subst.
    revert Hs1; apply foldM_relation; [apply wiring_step_refl | apply wiring_step_trans |].
    intros x [tn tp] x' Hx.
    destruct (negb (id (the_op x tn) =? -1)).
    + apply bind_Ok in Hx; destruct Hx as [tc [_ Hx]]; inversion Hx; subst.
      apply wiring_step_connection.
    + inversion Hx; subst; apply wiring_step_refl.
Qed.

Lemma connect_next_ops_wiring (ex ex' : Executor) (op_n : NodeType)
  (connections : TargetConnectionsMapType) :
  connect_next_ops env ex op_n connections = Ok ex' -> wiring_step ex ex'.
Proof.
  unfold connect_next_ops; intros H.
  apply bind_Ok in H; destruct H as [[ex1 ucx] [H1 H]].
  assert (W1 : wiring_step ex ex1).
  { change ex with (fst (ex, false)); change ex1 with (fst (ex1, ucx)).
    revert H1.
    apply (foldM_relation (fun a b : Executor * bool => wiring_step (fst a) (fst b)));
      [intros; apply wiring_step_refl | intros ? ? ?; apply wiring_step_trans |].
    intros a c a'; apply connect_initialized_targets_wiring. }
  apply (wiring_step_trans _ ex1); [exact W1|].
  destruct (_ || _).
  - apply bind_Ok in H; destruct H as [ex2 [H2 H]].
    apply (wiring_step_trans _ ex2);
      [eapply create_broadcast_components_wiring; exact H2|].
    destruct (negb _).
    + revert H; apply foldM_relation; [apply wiring_step_refl | apply wiring_step_trans |].
      intros s a s' Hs.
      destruct (_ && _).
      * destruct (get_port_map (fragment_ s) op_n a); [|discriminate].
        destruct (has_broadcast (broadcast_entities s) op_n).
        -- eapply (connect_broadcast_to_previous_op_wiring env (fun _ => True));
             try exact Hs; intros; exact I.
        -- inversion Hs; subst; apply wiring_step_refl.
      * inversion Hs; subst; apply wiring_step_refl.
    + inversion H; subst; apply wiring_step_refl.
  - inversion H; subst; apply wiring_step_refl.
Qed.

(** The wiring of one visit, after the operator is initialized. *)
Lemma visit_wiring (ex ex' : Executor) (op_n : NodeType) (prev_operators : list NodeType) :
  (ex1 <- foldM (connect_previous_op env op_n) prev_operators ex ;;
   connections <- collect_connections ex1 op_n ;;
   connect_next_ops env ex1 op_n connections) = Ok ex' ->
  wiring_step ex ex'.
Proof.
  intros H.
  apply bind_Ok in H; destruct H as [ex1 [H1 H]].
  apply bind_Ok in H; destruct H as [conns [_ H]].
  apply (wiring_step_trans _ ex1).
  - revert H1; apply foldM_relation; [apply wiring_step_refl | apply wiring_step_trans |].
    intros s a s'.
    apply (connect_previous_op_wiring env (fun _ => True)); intros; exact I.
  - eapply connect_next_ops_wiring; exact H.
Qed.

(** A visit keeps the graph. *)
Lemma visit_operator_graph (ex ex' : Executor) (visited : list NodeType) (op_n : NodeType) :
  visit_operator env ex visited op_n = Ok ex' ->
  graph (fragment_ ex') = graph (fragment_ ex).
Proof.
  rewrite visit_operator_unfold; intros H.
  apply bind_Ok in H; destruct H as [op1 [_ H]].
  apply bind_Ok in H; destruct H as [op2 [_ H]].
  apply visit_wiring in H; destruct H as [Hg _].
  rewrite Hg; reflexivity.
Qed.

End Wiring.

(** ** The traversal of an acyclic graph (C3) *)

Section Scheduling.

Variable g : FlowGraph.
Hypothesis Hnodes : NoDup (ordered_nodes g).
Hypothesis Hsucc : NoDup (succ_ g).
Hypothesis Hend : forall u v, In (u, v) (succ_ g) ->
                              In u (ordered_nodes g) /\ In v (ordered_nodes g).

Lemma NoDup_get_next_nodes (u : NodeType) : NoDup (get_next_nodes g u).
Proof.
  unfold get_next_nodes; revert Hsucc; generalize (succ_ g) as l.
  induction l as [|[a b] l IH]; intros Hnd; [constructor|].
  inversion Hnd as [|? ? Hnotin Hnd']; subst.
  cbn [filter fst]; destruct (Nat.eqb a u) eqn:E; [|apply IH; exact Hnd'].
  apply Nat.eqb_eq in E; subst a; cbn [map snd]; constructor; [|apply IH; exact Hnd'].
  intros Hin; apply in_map_iff in Hin; destruct Hin as [[a' b'] [Hb Hin]].
  cbn [snd] in Hb; subst b'.
  apply filter_In in Hin; destruct Hin as [Hin Ha]; cbn [fst] in Ha.
  apply Nat.eqb_eq in Ha; subst a'; contradiction.
Qed.

Lemma NoDup_get_previous_nodes (v : NodeType) : NoDup (get_previous_nodes g v).
Proof.
  unfold get_previous_nodes; revert Hsucc; generalize (succ_ g) as l.
  induction l as [|[a b] l IH]; intros Hnd; [constructor|].
  inversion Hnd as [|? ? Hnotin Hnd']; subst.
  cbn [filter snd]; destruct (Nat.eqb b v) eqn:E; [|apply IH; exact Hnd'].
  apply Nat.eqb_eq in E; subst b; cbn [map fst]; constructor; [|apply IH; exact Hnd'].
  intros Hin; apply in_map_iff in Hin; destruct Hin as [[a' b'] [Ha Hin]].
  cbn [fst] in Ha; subst a'.
  apply filter_In in Hin; destruct Hin as [Hin Hb]; cbn [snd] in Hb.
  apply Nat.eqb_eq in Hb; subst b'; contradiction.
Qed.

(** The state built by the first loop of [initialize_fragment]. *)
Lemma init_worklist_fold (l : list NodeType) (w : Worklist) :
  let w' :=
    fold_left
      (fun w node =>
         let d := Z.of_nat (List.length (get_previous_nodes g node)) in
         mkWorklist (if d =? 0 then worklist w ++ [node] else worklist w)%list
                    (upd (indegrees w) node d) (visited_nodes w))
      l w in
  worklist w' =
    (worklist w
     ++ filter (fun n => Z.of_nat (List.length (get_previous_nodes g n)) =? 0) l)%list
  /\ visited_nodes w' = visited_nodes w
  /\ forall v, indegrees w' v =
               if mem_node v l then Z.of_nat (List.length (get_previous_nodes g v))
               else indegrees w v.
Proof.
  revert w; induction l as [|n l IH]; intros w; cbn [fold_left].
  - cbn [filter mem_node existsb]; rewrite app_nil_r; auto.
  - specialize (IH (mkWorklist
                      (if Z.of_nat (List.length (get_previous_nodes g n)) =? 0
                       then worklist w ++ [n] else worklist w)%list
                      (upd (indegrees w) n (Z.of_nat (List.length (get_previous_nodes g n))))
                      (visited_nodes w))).
    cbv zeta in IH; cbn [worklist indegrees visited_nodes] in IH.
    destruct IH as [Hw [Hv Hd]]; cbv zeta.
    split; [|split].
    + rewrite Hw; cbn [filter].
      destruct (Z.of_nat (List.length (get_previous_nodes g n)) =? 0);
        [rewrite <- app_assoc|]; reflexivity.
    + exact Hv.
    + intros v; rewrite Hd; unfold mem_node; cbn [existsb]; fold (mem_node v l).
      unfold upd; destruct (mem_node v l); [rewrite orb_true_r; reflexivity|].
      rewrite orb_false_r; destruct (Nat.eqb v n) eqn:E; [|reflexivity].
      apply Nat.eqb_eq in E; subst; reflexivity.
Qed.

(** The state after the indegrees of the next operators are decremented. *)
Lemma release_next_nodes_fold (op_n : NodeType) (l : list NodeType) (w : Worklist) :
  NoDup l -> (forall v, In v l -> has_edge g op_n v = true) ->
  let w' :=
    fold_left
      (fun w next_op =>
         if has_edge g op_n next_op then
           let d := indegrees w next_op - 1 in
           mkWorklist (if d =? 0 then worklist w ++ [next_op] else worklist w)%list
                      (upd (indegrees w) next_op d) (visited_nodes w)
         else w)
      l w in
  worklist w' = (worklist w ++ filter (fun v => indegrees w v - 1 =? 0) l)%list
  /\ visited_nodes w' = visited_nodes w
  /\ forall v, indegrees w' v =
               if mem_node v l then indegrees w v - 1 else indegrees w v.
Proof.
  revert w; induction l as [|n l IH]; intros w Hnd Hedge; cbn [fold_left].
  - cbn [filter mem_node existsb]; rewrite app_nil_r; auto.
  - inversion Hnd as [|? ? Hnotin Hnd']; subst.
    rewrite (Hedge n (or_introl eq_refl)).
    specialize (IH (mkWorklist
                      (if indegrees w n - 1 =? 0 then worklist w ++ [n] else worklist w)%list
                      (upd (indegrees w) n (indegrees w n - 1)) (visited_nodes w))
                   Hnd' (fun v Hv => Hedge v (or_intror Hv))).
    cbv zeta in IH; cbn [worklist indegrees visited_nodes] in IH.
    destruct IH as [Hw [Hv Hd]]; cbv zeta.
    assert (Hext : filter (fun v => upd (indegrees w) n (indegrees w n - 1) v - 1 =? 0) l
                   = filter (fun v => indegrees w v - 1 =? 0) l).
    { apply filter_ext_in; intros v Hin; unfold upd.
      destruct (Nat.eqb v n) eqn:E; [|reflexivity].
      apply Nat.eqb_eq in E; subst; contradiction. }
    split; [|split].
    + rewrite Hw, Hext; cbn [filter].
      destruct (indegrees w n - 1 =? 0); [rewrite <- app_assoc|]; reflexivity.
    + exact Hv.
    + intros v; rewrite Hd; unfold mem_node; cbn [existsb]; fold (mem_node v l).
      unfold upd; destruct (Nat.eqb v n) eqn:E; cbn [orb].
      * apply Nat.eqb_eq in E; subst v.
        assert (Hm : mem_node n l = false) by (apply mem_node_false; exact Hnotin).
        rewrite Hm; reflexivity.
      * reflexivity.
Qed.

(** Removing one more node from the counted predecessors. *)
Lemma filter_remove_one (p : NodeType -> bool) (x : NodeType) (l : list NodeType) :
  NoDup l -> p x = true ->
  List.length (filter p l) =
  ((if mem_node x l then 1 else 0)
   + List.length (filter (fun u => negb (Nat.eqb u x || negb (p u))) l))%nat.
Proof.
  intros Hnd Hp; induction l as [|y l IH]; [reflexivity|].
  inversion Hnd as [|? ? Hnotin Hnd']; subst.
  specialize (IH Hnd').
  unfold mem_node in *; cbn [filter existsb].
  destruct (Nat.eqb y x) eqn:E.
  - apply Nat.eqb_eq in E; subst y.
    rewrite Nat.eqb_refl, Hp; cbn [orb negb List.length].
    assert (Hm : existsb (Nat.eqb x) l = false)
      by (apply mem_node_false; exact Hnotin).
    rewrite Hm in IH; rewrite IH; reflexivity.
  - rewrite (Nat.eqb_sym x y), E; cbn [orb].
    destruct (p y); cbn [negb List.length]; rewrite IH; lia.
Qed.

Lemma unvisited_preds_cons (op_n v : NodeType) (visited : list NodeType) :
  ~ In op_n visited ->
  List.length (unvisited_preds g visited v) =
  ((if mem_node v (get_next_nodes g op_n) then 1 else 0)
   + List.length (unvisited_preds g (op_n :: visited) v))%nat.
Proof.
  intros Hnot; unfold unvisited_preds.
  rewrite (filter_remove_one (fun u => negb (mem_node u visited)) op_n)
    by (try apply NoDup_get_previous_nodes;
        rewrite (proj2 (mem_node_false op_n visited) Hnot); reflexivity).
  f_equal.
  - destruct (mem_node op_n (get_previous_nodes g v)) eqn:E1;
      destruct (mem_node v (get_next_nodes g op_n)) eqn:E2; try reflexivity; exfalso.
    + apply mem_node_In, In_get_previous_nodes, In_get_next_nodes, mem_node_In in E1.
      congruence.
    + apply mem_node_In, In_get_next_nodes, In_get_previous_nodes, mem_node_In in E2.
      congruence.
  - f_equal; apply filter_ext; intros u.
    unfold mem_node; cbn [existsb]; rewrite negb_involutive; reflexivity.
Qed.

Hypothesis Hacyclic : acyclic g.

(** In an acyclic graph every nonempty finite set of nodes has a node
    without a predecessor in the set. *)
Lemma minimal_node_below (n : nat) :
  forall (U : list NodeType) (v : NodeType),
    (List.length U <= n)%nat -> In v U ->
    exists m, In m U /\ (m = v \/ clos_trans NodeType (edge g) m v)
              /\ forall u, In u U -> ~ edge g u m.
Proof.
  induction n as [|n IH]; intros U v Hlen Hv.
  - destruct U; [contradiction | simpl in Hlen; lia].
  - destruct (existsb (fun u => has_edge g u v) U) eqn:E.
    + apply existsb_exists in E; destruct E as [u [Hu Huv]].
      apply has_edge_In in Huv.
      assert (Hne : u <> v).
      { intros ->; apply (Hacyclic v); apply t_step; exact Huv. }
      assert (Hlen' : (List.length (remove Nat.eq_dec v U) <= n)%nat).
      { pose proof (remove_length_lt Nat.eq_dec U v Hv); lia. }
      destruct (IH (remove Nat.eq_dec v U) u Hlen' (in_in_remove Nat.eq_dec U Hne Hu))
        as [m [Hm [Hreach Hmin]]].
      assert (Hmv : clos_trans NodeType (edge g) m v).
      { destruct Hreach as [-> | Hreach]; [apply t_step; exact Huv|].
        eapply t_trans; [exact Hreach | apply t_step; exact Huv]. }
      exists m; split; [apply (in_remove Nat.eq_dec U m v Hm)|].
      split; [right; exact Hmv|].
      intros x Hx Hxm.
      destruct (Nat.eq_dec x v) as [-> | Hxv].
      * apply (Hacyclic v); eapply t_trans; [apply t_step; exact Hxm | exact Hmv].
      * apply (Hmin x); [apply in_in_remove; assumption | exact Hxm].
    + exists v; split; [exact Hv|]; split; [left; reflexivity|].
      intros u Hu Huv.
      assert (Ht : existsb (fun u => has_edge g u v) U = true).
      { apply existsb_exists; exists u; split; [exact Hu | apply has_edge_In; exact Huv]. }
      congruence.
Qed.

Lemma sched_inv_init : sched_inv g (init_worklist g).
Proof.
  unfold init_worklist, get_nodes.
  destruct (init_worklist_fold (ordered_nodes g) (mkWorklist nil (fun _ => 0) nil))
    as [Hw [Hv Hd]].
  cbv zeta in Hw, Hv, Hd; cbn [worklist visited_nodes indegrees app] in Hw, Hv, Hd.
  constructor.
  - rewrite Hv, Hw; cbn [app]; apply NoDup_filter; exact Hnodes.
  - intros n; rewrite Hv, Hw; cbn [app]; intros Hin.
    apply filter_In in Hin; tauto.
  - intros v Hin _; rewrite Hd, Hv.
    rewrite (proj2 (mem_node_In v _) Hin).
    unfold unvisited_preds; f_equal; f_equal.
    symmetry; apply forallb_filter_id, forallb_forall; reflexivity.
  - intros v Hin _; rewrite Hd, Hw, (proj2 (mem_node_In v _) Hin).
    rewrite filter_In, Z.eqb_eq; tauto.
  - rewrite Hv; intros l1 v l2 Heq; destruct l1; discriminate.
Qed.

(** One visit keeps the invariant. *)
Lemma sched_inv_step (w : Worklist) (op_n : NodeType) (rest : list NodeType) :
  sched_inv g w -> worklist w = op_n :: rest ->
  sched_inv g (release_next_nodes g op_n
                 (mkWorklist rest (indegrees w) (op_n :: visited_nodes w))).
Proof.
  intros Hinv Hw.
  destruct Hinv as [Hnd Hin Hdeg Hready Htopo].
  rewrite Hw in Hnd, Hin, Hready.
  assert (Hop_nodes : In op_n (ordered_nodes g))
    by (apply Hin, in_app_iff; right; left; reflexivity).
  assert (Hop_vis : ~ In op_n (visited_nodes w)).
  { intros Hc; apply NoDup_remove_2 in Hnd; apply Hnd, in_app_iff; left; exact Hc. }
  assert (Hop_rest : ~ In op_n rest).
  { intros Hc; apply NoDup_remove_2 in Hnd; apply Hnd, in_app_iff; right; exact Hc. }
  assert (Hop_deg : indegrees w op_n = 0)
    by (apply (Hready op_n Hop_nodes Hop_vis); left; reflexivity).
  assert (Hop_preds : forall u, edge g u op_n -> In u (visited_nodes w)).
  { intros u Hu.
    rewrite (Hdeg op_n Hop_nodes Hop_vis) in Hop_deg.
    destruct (unvisited_preds g (visited_nodes w) op_n) as [|x l] eqn:E;
      [|simpl in Hop_deg; lia].
    destruct (mem_node u (visited_nodes w)) eqn:Em; [apply mem_node_In; exact Em|].
    assert (Hx : In u (unvisited_preds g (visited_nodes w) op_n)).
    { apply filter_In; split; [apply In_get_previous_nodes; exact Hu|].
      rewrite Em; reflexivity. }
    rewrite E in Hx; contradiction. }
  (* the next nodes are unvisited, differ from op and are not in the worklist *)
  assert (Hnext : forall v, In v (get_next_nodes g op_n) ->
                  In v (ordered_nodes g) /\ ~ In v (visited_nodes w)
                  /\ v <> op_n /\ ~ In v rest /\ indegrees w v <> 0).
  { intros v Hv; apply In_get_next_nodes in Hv.
    assert (Hvn : In v (ordered_nodes g)) by (apply (Hend op_n v Hv)).
    assert (Hvv : ~ In v (visited_nodes w)).
    { intros Hc; apply in_split in Hc; destruct Hc as [l1 [l2 Heq]].
      apply Hop_vis; rewrite Heq; apply in_app_iff; right; right.
      apply (Htopo l1 v l2 Heq op_n Hv). }
    assert (Hd : indegrees w v <> 0).
    { rewrite (Hdeg v Hvn Hvv).
      assert (Hx : In op_n (unvisited_preds g (visited_nodes w) v)).
      { apply filter_In; split; [apply In_get_previous_nodes; exact Hv|].
        rewrite (proj2 (mem_node_false _ _) Hop_vis); reflexivity. }
      destruct (unvisited_preds g (visited_nodes w) v); [contradiction | simpl; lia]. }
    assert (Hw' : ~ In v (op_n :: rest))
      by (intros Hc; apply Hd, (Hready v Hvn Hvv); exact Hc).
    repeat split; auto; intros Hc; apply Hw'; [left; congruence | right; exact Hc]. }
  unfold release_next_nodes.
  destruct (release_next_nodes_fold op_n (get_next_nodes g op_n)
              (mkWorklist rest (indegrees w) (op_n :: visited_nodes w))
              (NoDup_get_next_nodes op_n)
              (fun v Hv => proj2 (has_edge_In g op_n v)
                                 (proj1 (In_get_next_nodes g op_n v) Hv)))
    as [Ew [Ev Ed]].
  cbv zeta in Ew, Ev, Ed; cbn [worklist visited_nodes indegrees] in Ew, Ev, Ed.
  constructor; rewrite ?Ev, ?Ew.
  - (* no duplicates *)
    cbn [app]; constructor.
    + rewrite !in_app_iff; intros [Hc | [Hc | Hc]]; auto.
      apply filter_In in Hc; destruct Hc as [Hc _].
      destruct (Hnext op_n Hc) as [_ [_ [Hne _]]]; apply Hne; reflexivity.
    + apply NoDup_remove_1 in Hnd.
      rewrite app_assoc; apply NoDup_app.
      * exact Hnd.
      * apply NoDup_filter, NoDup_get_next_nodes.
      * intros a Ha Hf; apply filter_In in Hf; destruct Hf as [Hf _].
        destruct (Hnext a Hf) as [_ [Hv [_ [Hr _]]]].
        apply in_app_iff in Ha; tauto.
  - (* all are nodes of the graph *)
    intros n Hn; cbn [app] in Hn.
    destruct Hn as [<- | Hn]; [exact Hop_nodes|].
    rewrite !in_app_iff in Hn; destruct Hn as [Hn | [Hn | Hn]].
    + apply Hin, in_app_iff; left; exact Hn.
    + apply Hin, in_app_iff; right; right; exact Hn.
    + apply filter_In in Hn; apply (Hnext n (proj1 Hn)).
  - (* the indegrees count the unvisited predecessors *)
    intros v Hv Hvis.
    assert (Hvis' : ~ In v (visited_nodes w)) by (intros Hc; apply Hvis; right; exact Hc).
    rewrite Ed.
    pose proof (unvisited_preds_cons op_n v (visited_nodes w) Hop_vis) as Hc.
    rewrite (Hdeg v Hv Hvis').
    destruct (mem_node v (get_next_nodes g op_n)); lia.
  - (* the worklist holds the ready nodes *)
    intros v Hv Hvis.
    assert (Hvis' : ~ In v (visited_nodes w)) by (intros Hc; apply Hvis; right; exact Hc).
    assert (Hvop : v <> op_n) by (intros ->; apply Hvis; left; reflexivity).
    rewrite Ed, in_app_iff, filter_In.
    destruct (mem_node v (get_next_nodes g op_n)) eqn:Em.
    + apply mem_node_In in Em.
      destruct (Hnext v Em) as [_ [_ [_ [Hr _]]]].
      rewrite Z.eqb_eq; tauto.
    + apply mem_node_false in Em.
      pose proof (Hready v Hv Hvis') as Hr; cbn [In] in Hr.
      split; [intros H0; left; apply Hr in H0; destruct H0; [congruence | assumption]|].
      intros [Hr' | [Hn _]]; [apply Hr; right; exact Hr' | contradiction].
  - (* predecessors first *)
    intros l1 v l2 Heq u Hu.
    destruct l1 as [|x l1]; cbn [app] in Heq; inversion Heq as [[Hx Hl]].
    + subst; apply Hop_preds; exact Hu.
    + apply (Htopo l1 v l2 Hl u Hu).
Qed.

(** With an empty worklist, all nodes of an acyclic graph are visited. *)
Lemma sched_inv_done (w : Worklist) :
  sched_inv g w -> worklist w = nil ->
  List.length (visited_nodes w) = List.length (ordered_nodes g).
Proof.
  intros [Hnd Hin Hdeg Hready Htopo] Hw.
  rewrite Hw, app_nil_r in Hnd, Hin; rewrite Hw in Hready.
  apply Nat.le_antisymm; [apply NoDup_incl_length; [exact Hnd | exact Hin]|].
  apply NoDup_incl_length; [exact Hnodes|].
  intros v Hv.
  destruct (mem_node v (visited_nodes w)) eqn:Em; [apply mem_node_In; exact Em|].
  exfalso.
  set (U := filter (fun n => negb (mem_node n (visited_nodes w))) (ordered_nodes g)).
  assert (HvU : In v U) by (apply filter_In; split; [exact Hv | rewrite Em; reflexivity]).
  destruct (minimal_node_below (List.length U) U v (Nat.le_refl _) HvU)
    as [m [Hm [_ Hmin]]].
  apply filter_In in Hm; destruct Hm as [Hmn Hmv].
  apply negb_true_iff, mem_node_false in Hmv.
  assert (Hd : indegrees w m <> 0)
    by (intros Hc; apply (Hready m Hmn Hmv) in Hc; contradiction).
  rewrite (Hdeg m Hmn Hmv) in Hd.
  destruct (unvisited_preds g (visited_nodes w) m) as [|u l] eqn:E;
    [apply Hd; reflexivity|].
  assert (Hu : In u (unvisited_preds g (visited_nodes w) m)) by (rewrite E; left; reflexivity).
  apply filter_In in Hu; destruct Hu as [Hu1 Hu2].
  apply In_get_previous_nodes in Hu1.
  apply (Hmin u); [|exact Hu1].
  apply filter_In; split; [apply (Hend u m Hu1) | exact Hu2].
Qed.

End Scheduling.

(** ** The visit of an operator returns or fails *)

Section VisitReturns.

Variable env : Environment.

Hypothesis Hreturns : env_returns env.

Lemma bind_returns {A B : Type} (m : outcome A) (k : A -> outcome B) :
  m <> OutOfFuel -> (forall a, k a <> OutOfFuel) -> bind m k <> OutOfFuel.
Proof. destruct m; cbn [bind]; intros Hm Hk; try discriminate; auto. Qed.

Lemma foldM_returns {A S : Type} (f : S -> A -> outcome S) (l : list A) :
  (forall s a, f s a <> OutOfFuel) -> forall s, foldM f l s <> OutOfFuel.
Proof.
  intros Hf; induction l as [|a l IH]; intros s; cbn [foldM]; [discriminate|].
  apply bind_returns; [apply Hf | exact IH].
Qed.

Ltac returns_step :=
  match goal with
  | |- Ok _ <> OutOfFuel => discriminate
  | |- Throw _ <> OutOfFuel => discriminate
  | |- ReturnFalse <> OutOfFuel => discriminate
  | |- Undefined <> OutOfFuel => discriminate
  | H : forall x, _ <> OutOfFuel |- _ <> OutOfFuel => apply H
  | H : forall x y, _ <> OutOfFuel |- _ <> OutOfFuel => apply H
  | |- bind _ _ <> OutOfFuel => apply bind_returns; [|intros ?]
  | |- foldM _ _ _ <> OutOfFuel => apply foldM_returns; intros ? ?
  | |- (match ?x with _ => _ end) <> OutOfFuel => destruct x
  end.

Lemma gxf_cid_returns (n : NodeType) (dir : IOType) (port : string)
  (ports : list (string * IOSpec)) : gxf_cid n dir port ports <> OutOfFuel.
Proof. unfold gxf_cid; repeat returns_step. Qed.

Lemma broadcast_to_target_returns (op_n prev_n : NodeType) (port_name : string)
  (ex : Executor) (target_port : string) :
  broadcast_to_target env op_n prev_n port_name ex target_port <> OutOfFuel.
Proof.
  unfold broadcast_to_target; repeat (first [apply gxf_cid_returns | returns_step]).
Qed.

Lemma connect_broadcast_to_previous_op_returns (ex : Executor) (op_n prev_n : NodeType) :
  connect_broadcast_to_previous_op env ex op_n prev_n <> OutOfFuel.
Proof.
  unfold connect_broadcast_to_previous_op, connect_broadcast_port.
  repeat (first [apply broadcast_to_target_returns | returns_step]).
Qed.

Lemma connect_previous_op_returns (op_n : NodeType) (ex : Executor) (prev_n : NodeType) :
  connect_previous_op env op_n ex prev_n <> OutOfFuel.
Proof.
  unfold connect_previous_op, connect_direct.
  repeat (first [apply connect_broadcast_to_previous_op_returns | apply gxf_cid_returns
                | returns_step]).
Qed.

Lemma collect_connections_returns (ex : Executor) (op_n : NodeType) :
  collect_connections ex op_n <> OutOfFuel.
Proof.
  unfold collect_connections; repeat (first [apply gxf_cid_returns | returns_step]).
Qed.

Lemma connect_next_ops_returns (ex : Executor) (op_n : NodeType)
  (connections : TargetConnectionsMapType) :
  connect_next_ops env ex op_n connections <> OutOfFuel.
Proof.
  unfold connect_next_ops, connect_initialized_targets, create_broadcast_components,
    create_broadcast_component.
  repeat (first [apply connect_broadcast_to_previous_op_returns | apply gxf_cid_returns
                | returns_step]).
Qed.

Lemma mitigate_cycle_returns (g : FlowGraph) (visited : list NodeType) (op_n : NodeType)
  (op : Operator) : mitigate_cycle g visited op_n op <> OutOfFuel.
Proof. unfold mitigate_cycle; repeat returns_step. Qed.

Lemma initialize_input_conditions_returns (op_nm rx_name : string) :
  forall (cs : list (ConditionType * option Condition)) (condition_index : nat),
    initialize_input_conditions op_nm rx_name condition_index cs <> OutOfFuel.
Proof.
  induction cs as [|[t c] cs IH]; intros i; cbn [initialize_input_conditions];
    [discriminate|].
  unfold rename_condition; repeat (first [apply IH | returns_step]).
Qed.

Lemma initialize_output_conditions_returns (op_nm tx_name : string) :
  forall (cs : list (ConditionType * option Condition)) (condition_index : nat),
    initialize_output_conditions op_nm tx_name condition_index cs <> OutOfFuel.
Proof.
  induction cs as [|[t c] cs IH]; intros i; cbn [initialize_output_conditions];
    [discriminate|].
  unfold rename_condition; repeat (first [apply IH | returns_step]).
Qed.

Lemma create_input_port_returns (f : Fragment) (io : IOSpec) (bind_port : bool)
  (op : Operator) : create_input_port env f io bind_port op <> OutOfFuel.
Proof.
  unfold create_input_port, bind_input_port, resolve_queue_size, create_receiver.
  repeat (first [apply initialize_input_conditions_returns | apply (Hreturns op io)
                | returns_step]).
Qed.

Lemma create_output_port_returns (f : Fragment) (io : IOSpec) (bind_port : bool)
  (op : Operator) : create_output_port env f io bind_port op <> OutOfFuel.
Proof.
  unfold create_output_port, bind_output_port, create_transmitter.
  repeat (first [apply initialize_output_conditions_returns | apply (Hreturns op io)
                | returns_step]).
Qed.

Lemma create_ports_returns (create : IOSpec -> outcome IOSpec) :
  (forall io, create io <> OutOfFuel) ->
  forall ports, create_ports create ports <> OutOfFuel.
Proof.
  intros Hc; induction ports as [|[name io] ports IH]; cbn [create_ports];
    [discriminate|].
  repeat (first [apply IH | apply Hc | returns_step]).
Qed.

Lemma add_multi_port_conditions_returns (ins : list (string * IOSpec)) :
  forall infos, add_multi_port_conditions env ins infos <> OutOfFuel.
Proof.
  induction infos as [|[kind port_names] rest IH]; cbn [add_multi_port_conditions];
    [discriminate|].
  repeat (first [apply IH | returns_step]).
Qed.

Lemma add_or_combiners_returns (ins : list (string * IOSpec)) :
  forall groups, add_or_combiners ins groups <> OutOfFuel.
Proof.
  induction groups as [|port_names rest IH]; cbn [add_or_combiners]; [discriminate|].
  repeat (first [apply IH | returns_step]).
Qed.

Lemma op_initialize_returns (ids : ExecutorIds) (f : Fragment) (fresh_cid : positive)
  (op : Operator) : op_initialize env ids f fresh_cid op <> OutOfFuel.
Proof.
  assert (H : initialize_operator env ids f fresh_cid op <> OutOfFuel).
  { unfold initialize_operator.
    destruct (is_initialized_ op); [discriminate|]; cbv zeta.
    apply bind_returns;
      [apply create_ports_returns; intros io; apply create_input_port_returns|].
    intros ins; apply bind_returns;
      [apply create_ports_returns; intros io; apply create_output_port_returns|].
    intros outs; apply bind_returns; [apply add_multi_port_conditions_returns|].
    intros _; apply bind_returns; [apply add_or_combiners_returns|].
    intros _; discriminate. }
  unfold op_initialize; destruct (operator_type op); try exact H; discriminate.
Qed.

(** The visit of an operator returns or fails. *)
Lemma visit_operator_returns (ex : Executor) (visited : list NodeType) (op_n : NodeType) :
  visit_operator env ex visited op_n <> OutOfFuel.
Proof.
  rewrite visit_operator_unfold; cbv zeta.
  apply bind_returns; [apply mitigate_cycle_returns|]; intros op1.
  apply bind_returns; [apply op_initialize_returns|]; intros op2.
  apply bind_returns;
    [apply foldM_returns; intros s a; apply connect_previous_op_returns|]; intros ex1.
  apply bind_returns; [apply collect_connections_returns|]; intros conns.
  apply connect_next_ops_returns.
Qed.

(** A traversal that ends with the failure of a visit has not run out of
    iterations. *)
Lemma visit_fails_after_returns {A : Type} (operators : list NodeType) (ex : Executor)
  (visited : list NodeType) (r : outcome A) :
  visit_fails_after env operators ex visited r -> r <> OutOfFuel.
Proof.
  intros [l [n [ex0 [_ [_ [_ Hf]]]]]] ->.
  inversion Hf as [| | |Hv]; symmetry in Hv; exact (visit_operator_returns _ _ _ Hv).
Qed.

End VisitReturns.

Section AcyclicTraversal.

Variable env : Environment.

Lemma release_next_nodes_visited (g : FlowGraph) (op_n : NodeType) (w : Worklist) :
  visited_nodes (release_next_nodes g op_n w) = visited_nodes w.
Proof.
  unfold release_next_nodes; generalize (get_next_nodes g op_n) as l.
  intros l; revert w; induction l as [|n l IH]; intros w; [reflexivity|].
  cbn [fold_left]; rewrite IH.
  destruct (has_edge g op_n n); reflexivity.
Qed.

Lemma break_cycles_visited (operators : list NodeType) (w : Worklist) :
  visited_nodes (break_cycles operators w) = visited_nodes w.
Proof.
  unfold break_cycles; revert w; induction operators as [|n l IH]; intros w; [reflexivity|].
  cbn [fold_left]; rewrite IH.
  destruct (negb (indegrees w n =? 0)); reflexivity.
Qed.

(** The failure of the visit of the operator at the head of the
    traversal. *)
Lemma visit_fails_after_here {A : Type} (operators : list NodeType) (ex : Executor)
  (visited : list NodeType) (n : NodeType) (k : Executor -> outcome A) :
  In n operators -> ~ In n visited ->
  is_ok (visit_operator env ex (n :: visited) n) = false ->
  visit_fails_after env operators ex visited
    (bind (visit_operator env ex (n :: visited) n) k).
Proof.
  intros Hn Hnot Hfail; exists nil, n, ex; cbn [visit_in_order rev app].
  split; [reflexivity|]; split; [exact Hn|]; split; [exact Hnot|].
  destruct (visit_operator env ex (n :: visited) n); cbn [bind];
    [discriminate Hfail | constructor ..].
Qed.

(** A failure after one more visit. *)
Lemma visit_fails_after_step {A : Type} (operators : list NodeType) (ex ex1 : Executor)
  (visited : list NodeType) (n : NodeType) (r : outcome A) :
  visit_operator env ex (n :: visited) n = Ok ex1 ->
  visit_fails_after env operators ex1 (n :: visited) r ->
  visit_fails_after env operators ex visited r.
Proof.
  intros Hv [l [m [ex0 [Hl [Hm [Hnot Hf]]]]]].
  exists (n :: l), m, ex0; cbn [visit_in_order rev]; rewrite Hv; cbn [bind].
  rewrite <- app_assoc; cbn [app]; auto.
Qed.

(** The executor state the loop returns is the one reached by the visits
    of the operators it has visited, in the order of the visits. *)
Lemma initialize_loop_visits (operators : list NodeType) :
  forall (fuel : nat) (w : Worklist) (ex : Executor) (w' : Worklist) (ex' : Executor),
    initialize_loop env fuel operators w ex = Ok (w', ex') ->
    exists l, visited_nodes w' = (rev l ++ visited_nodes w)%list
              /\ visit_in_order env ex (visited_nodes w) l = Ok ex'.
Proof.
  induction fuel as [|fuel IH]; intros w ex w' ex' H; [discriminate|].
  cbn [initialize_loop] in H.
  destruct (is_nil (worklist w)
            && Nat.eqb (List.length (visited_nodes w)) (List.length operators));
    [inversion H; subst; exists nil; split; reflexivity|].
  cbv zeta in H.
  set (w1 := if is_nil (worklist w) then break_cycles operators w else w) in H.
  assert (Hv1 : visited_nodes w1 = visited_nodes w).
  { unfold w1; destruct (is_nil (worklist w)); [apply break_cycles_visited | reflexivity]. }
  destruct (worklist w1) as [|op_n rest]; [discriminate|].
  cbn [visited_nodes worklist indegrees] in H; rewrite Hv1 in H.
  destruct (mem_node op_n (visited_nodes w)) eqn:Em.
  - destruct (IH _ _ _ _ H) as [l [Hl Hrun]]; cbn [visited_nodes] in Hl, Hrun.
    exists l; auto.
  - apply bind_Ok in H; destruct H as [ex1 [Hvisit H]].
    destruct (IH _ _ _ _ H) as [l [Hl Hrun]].
    rewrite release_next_nodes_visited in Hl, Hrun; cbn [visited_nodes] in Hl, Hrun.
    exists (op_n :: l); cbn [rev visit_in_order]; rewrite Hvisit; cbn [bind].
    rewrite <- app_assoc; cbn [app]; auto.
Qed.

(** The cycle mitigation touches neither the type of the operator nor its
    initialization flag. *)
Lemma mitigate_cycle_keeps (g : FlowGraph) (visited : list NodeType) (op_n : NodeType)
  (op op' : Operator) :
  mitigate_cycle g visited op_n op = Ok op' ->
  is_initialized_ op' = is_initialized_ op /\ operator_type op' = operator_type op.
Proof.
  unfold mitigate_cycle; intros H.
  destruct (input_exec_spec op); [|inversion H; subst; auto].
  destruct (detect_cycle _ _ _ _) as [[] []];
    cbn [set_metadata_policy set_inputs output_exec_spec] in H;
    try (inversion H; subst; auto; fail).
  destruct (output_exec_spec op); [|discriminate].
  inversion H; subst; auto.
Qed.

(** An initialized operator has its flag set, unless it is virtual. *)
Lemma op_initialize_initializes (ids : ExecutorIds) (f : Fragment) (fresh_cid : positive)
  (op op' : Operator) :
  op_initialize env ids f fresh_cid op = Ok op' ->
  operator_type op' = operator_type op
  /\ (operator_type op <> kVirtual -> is_initialized_ op' = true)
  /\ (is_initialized_ op = true -> is_initialized_ op' = true).
Proof.
  unfold op_initialize; intros H.
  assert (Hinit : initialize_operator env ids f fresh_cid op = Ok op' ->
                  operator_type op' = operator_type op /\ is_initialized_ op' = true).
  { clear H; unfold initialize_operator; intros H.
    destruct (is_initialized_ op) eqn:E; [inversion H; subst; auto|].
    apply bind_Ok in H; destruct H as [ins [_ H]].
    apply bind_Ok in H; destruct H as [outs [_ H]].
    apply bind_Ok in H; destruct H as [u1 [_ H]].
    apply bind_Ok in H; destruct H as [u2 [_ H]].
    inversion H; subst; clear H; cbn.
    destruct (MetadataPolicy_eqb _ _); split; reflexivity. }
  destruct (operator_type op) eqn:Et;
    try (destruct (Hinit H) as [H1 H2]; rewrite H1; repeat split; auto; fail).
  inversion H; subst; split; [exact Et|]; split; [congruence | auto].
Qed.

(** A visit initializes its operator and leaves the others as they are. *)
Lemma visit_operator_initializes (ex ex' : Executor) (visited : list NodeType)
  (op_n : NodeType) :
  visit_operator env ex visited op_n = Ok ex' ->
  (forall n, operator_type (the_op ex' n) = operator_type (the_op ex n))
  /\ (operator_type (the_op ex op_n) <> kVirtual -> is_initialized_ (the_op ex' op_n) = true)
  /\ (forall n, is_initialized_ (the_op ex n) = true -> is_initialized_ (the_op ex' n) = true).
Proof.
  rewrite visit_operator_unfold; intros H.
  apply bind_Ok in H; destruct H as [op1 [Hmit H]].
  apply bind_Ok in H; destruct H as [op2 [Hinit H]].
  apply visit_wiring in H; destruct H as [_ [Hheap _]].
  destruct (mitigate_cycle_keeps _ _ _ _ _ Hmit) as [Hi1 Ht1].
  destruct (op_initialize_initializes _ _ _ _ _ Hinit) as [Ht2 [Hv2 Hi2]].
  assert (Hop : forall n, the_op ex' n = if Nat.eqb n op_n then op2 else the_op ex n).
  { intros n; unfold the_op; rewrite Hheap; cbn; unfold upd.
    destruct (Nat.eqb n op_n); reflexivity. }
  split; [|split].
  - intros n; rewrite Hop; destruct (Nat.eqb n op_n) eqn:E; [|reflexivity].
    apply Nat.eqb_eq in E; subst n; congruence.
  - intros Hv; rewrite Hop, Nat.eqb_refl; apply Hv2; congruence.
  - intros n Hn; rewrite Hop; destruct (Nat.eqb n op_n) eqn:E; [|exact Hn].
    apply Nat.eqb_eq in E; subst n; apply Hi2; congruence.
Qed.

(** The operators visited in a row are initialized at the end. *)
Lemma visit_in_order_initializes :
  forall (l visited : list NodeType) (ex ex' : Executor),
    visit_in_order env ex visited l = Ok ex' ->
    (forall n, operator_type (the_op ex' n) = operator_type (the_op ex n))
    /\ (forall n, In n l -> operator_type (the_op ex n) <> kVirtual ->
                  is_initialized_ (the_op ex' n) = true)
    /\ (forall n, is_initialized_ (the_op ex n) = true ->
                  is_initialized_ (the_op ex' n) = true).
Proof.
  induction l as [|m l IH]; intros visited ex ex' H; cbn [visit_in_order] in H.
  - inversion H; subst; repeat split; auto; intros n [].
  - apply bind_Ok in H; destruct H as [ex1 [Hvisit H]].
    destruct (visit_operator_initializes _ _ _ _ Hvisit) as [Ht1 [Hv1 Hi1]].
    destruct (IH _ _ _ H) as [Ht2 [Hv2 Hi2]].
    split; [intros n; rewrite Ht2; apply Ht1|]; split.
    + intros n [<- | Hn] Hty.
      * apply Hi2, Hv1; exact Hty.
      * apply Hv2; [exact Hn | rewrite Ht1; exact Hty].
    + intros n Hn; apply Hi2, Hi1; exact Hn.
Qed.

(** The loop on an acyclic graph, from a state that satisfies the
    invariant: with fuel for the unvisited nodes it ends with every node
    visited, or with the failure of the visit of an operator. *)
Lemma initialize_loop_acyclic (g : FlowGraph) :
  NoDup (ordered_nodes g) -> NoDup (succ_ g) ->
  (forall u v, In (u, v) (succ_ g) -> In u (ordered_nodes g) /\ In v (ordered_nodes g)) ->
  acyclic g ->
  forall (fuel : nat) (w : Worklist) (ex : Executor),
    sched_inv g w -> graph (fragment_ ex) = g ->
    (List.length (ordered_nodes g) - List.length (visited_nodes w) < fuel)%nat ->
    (exists w' ex',
        initialize_loop env fuel (ordered_nodes g) w ex = Ok (w', ex')
        /\ sched_inv g w' /\ worklist w' = nil /\ graph (fragment_ ex') = g)
    \/ visit_fails_after env (ordered_nodes g) ex (visited_nodes w)
         (initialize_loop env fuel (ordered_nodes g) w ex).
Proof.
  intros Hnodes Hsucc Hend Hacyclic.
  induction fuel as [|fuel IH]; intros w ex Hinv Hg Hfuel; [lia|].
  destruct (worklist w) as [|op_n rest] eqn:Ew.
  - left; exists w, ex.
    pose proof (sched_inv_done g Hnodes Hend Hacyclic w Hinv Ew) as Hlen.
    cbn [initialize_loop]; rewrite Ew, Hlen, Nat.eqb_refl; cbn [is_nil andb].
    auto.
  - assert (Hop : In op_n (ordered_nodes g)).
    { apply (inv_nodes g w Hinv); rewrite Ew; apply in_app_iff; right; left; reflexivity. }
    assert (Hvis : ~ In op_n (visited_nodes w)).
    { pose proof (inv_nodup g w Hinv) as Hnd; rewrite Ew in Hnd.
      apply NoDup_remove_2 in Hnd.
      intros Hc; apply Hnd, in_app_iff; left; exact Hc. }
    rewrite (initialize_loop_visit env fuel (ordered_nodes g) w ex op_n rest Ew
               (proj2 (mem_node_false _ _) Hvis)).
    destruct (visit_operator env ex (op_n :: visited_nodes w) op_n) as [ex1| | | |] eqn:Ev;
      try (right; rewrite <- Ev; apply visit_fails_after_here;
           [exact Hop | exact Hvis | rewrite Ev; reflexivity]).
    cbn [bind].
    assert (Hg1 : graph (fragment_ ex1) = g)
      by (rewrite (visit_operator_graph env _ _ _ _ Ev); exact Hg).
    rewrite Hg.
    destruct (IH (release_next_nodes g op_n
                    (mkWorklist rest (indegrees w) (op_n :: visited_nodes w))) ex1)
      as [Hok | Hfail];
      [apply sched_inv_step; assumption | exact Hg1 | | left; exact Hok |].
    + rewrite release_next_nodes_visited; cbn [visited_nodes List.length].
      assert (Hlt : (List.length (visited_nodes w) < List.length (ordered_nodes g))%nat).
      { pose proof (inv_nodup g w Hinv) as Hnd.
        apply NoDup_app_remove_r in Hnd.
        assert (Hnd' : NoDup (op_n :: visited_nodes w)) by (constructor; assumption).
        apply (NoDup_incl_length Hnd').
        intros x [<- | Hx]; [exact Hop|].
        apply (inv_nodes g w Hinv), in_app_iff; left; exact Hx. }
      lia.
    + right; rewrite release_next_nodes_visited in Hfail; cbn [visited_nodes] in Hfail.
      exact (visit_fails_after_step _ _ _ _ _ _ Ev Hfail).
Qed.

Lemma before_rev (visited : list NodeType) (u v : NodeType) (l1 l2 : list NodeType) :
  visited = (l1 ++ v :: l2)%list -> In u l2 -> before (rev visited) u v.
Proof.
  intros Heq Hu; apply in_split in Hu; destruct Hu as [a [b Hl2]]; subst.
  exists (rev b), (rev a), (rev l1).
  rewrite rev_app_distr; cbn [rev]; rewrite rev_app_distr; cbn [rev].
  rewrite <- !app_assoc; reflexivity.
Qed.

(** C3. On an acyclic operator graph the worklist traversal of
    [initialize_fragment] ends, with fuel for one iteration more than there
    are nodes: it returns, or it ends with the failure of the visit
    (initialization and wiring) of an operator, and it does not run out of
    iterations.  When it returns it has visited every node exactly once, the
    source of every edge before its destination; the executor state it
    returns is the one reached by these visits in this order, and in it
    every operator that is not virtual is initialized. *)
Theorem acyclic_graph_is_initialized_in_topological_order (ex : Executor) (fuel : nat) :
  let g := graph (fragment_ ex) in
  let r := initialize_loop env fuel (get_nodes g) (init_worklist g) ex in
  wf_fragment (fragment_ ex) ->
  acyclic g ->
  (List.length (get_nodes g) < fuel)%nat ->
  ((exists w' ex',
       r = Ok (w', ex')
       /\ Permutation (initialization_order w') (get_nodes g)
       /\ NoDup (initialization_order w')
       /\ (forall u v, edge g u v -> before (initialization_order w') u v)
       /\ visit_in_order env ex nil (initialization_order w') = Ok ex'
       /\ forall n, In n (get_nodes g) -> operator_type (the_op ex n) <> kVirtual ->
                    is_initialized_ (the_op ex' n) = true)
   \/ visit_fails_after env (get_nodes g) ex nil r)
  /\ (env_returns env -> r <> OutOfFuel).
Proof.
  intros g r Hwf Hacyclic Hfuel; unfold get_nodes in *.
  pose proof (wf_nodes _ Hwf) as Hnodes; pose proof (wf_succ _ Hwf) as Hsucc.
  pose proof (wf_endpoints _ Hwf) as Hend; fold g in Hnodes, Hsucc, Hend.
  pose proof (sched_inv_init g Hnodes) as Hinit.
  assert (Hvis0 : visited_nodes (init_worklist g) = nil).
  { unfold init_worklist.
    destruct (init_worklist_fold g (get_nodes g) (mkWorklist nil (fun _ => 0) nil))
      as [_ [Hv _]]; exact Hv. }
  assert (Hcases :
            (exists w' ex',
                r = Ok (w', ex')
                /\ Permutation (initialization_order w') (ordered_nodes g)
                /\ NoDup (initialization_order w')
                /\ (forall u v, edge g u v -> before (initialization_order w') u v)
                /\ visit_in_order env ex nil (initialization_order w') = Ok ex'
                /\ forall n, In n (ordered_nodes g) ->
                             operator_type (the_op ex n) <> kVirtual ->
                             is_initialized_ (the_op ex' n) = true)
            \/ visit_fails_after env (ordered_nodes g) ex nil r).
  { destruct (initialize_loop_acyclic g Hnodes Hsucc Hend Hacyclic fuel
                (init_worklist g) ex Hinit eq_refl) as [Hok | Hfail].
    - rewrite Hvis0; cbn [List.length]; lia.
    - left; destruct Hok as [w' [ex' [Hrun [Hinv [Hw _]]]]].
      exists w', ex'; split; [exact Hrun|].
      pose proof (inv_nodup g w' Hinv) as Hnd; rewrite Hw, app_nil_r in Hnd.
      assert (Hincl : incl (visited_nodes w') (ordered_nodes g)).
      { intros x Hx; apply (inv_nodes g w' Hinv), in_app_iff; left; exact Hx. }
      pose proof (sched_inv_done g Hnodes Hend Hacyclic w' Hinv Hw) as Hlen.
      assert (Hperm : Permutation (visited_nodes w') (ordered_nodes g)).
      { apply NoDup_Permutation_bis; [exact Hnd | lia | exact Hincl]. }
      assert (Hperm' : Permutation (initialization_order w') (ordered_nodes g)).
      { unfold initialization_order.
        eapply Permutation_trans; [apply Permutation_sym, Permutation_rev | exact Hperm]. }
      destruct (initialize_loop_visits _ _ _ _ _ _ Hrun) as [l [Hl Hvisits]].
      rewrite Hvis0, app_nil_r in Hl; rewrite Hvis0 in Hvisits.
      assert (Horder : initialization_order w' = l)
        by (unfold initialization_order; rewrite Hl; apply rev_involutive).
      split; [exact Hperm'|]; split; [|split; [|split]].
      + unfold initialization_order; apply NoDup_rev; exact Hnd.
      + intros u v Huv.
        assert (Hv : In v (visited_nodes w')).
        { apply (Permutation_in _ (Permutation_sym Hperm)), (Hend u v Huv). }
        apply in_split in Hv; destruct Hv as [l1 [l2 Heq]].
        apply (before_rev _ u v l1 l2 Heq), (inv_topo g w' Hinv l1 v l2 Heq u Huv).
      + rewrite Horder; exact Hvisits.
      + intros n Hn Hty.
        destruct (visit_in_order_initializes _ _ _ _ Hvisits) as [_ [Hinitialized _]].
        apply Hinitialized; [|exact Hty].
        rewrite <- Horder; apply (Permutation_in _ (Permutation_sym Hperm')); exact Hn.
    - right; rewrite Hvis0 in Hfail; exact Hfail. }
  split; [exact Hcases|].
  intros Hreturns; destruct Hcases as [[w' [ex' [-> _]]] | Hfail]; [discriminate|].
  exact (visit_fails_after_returns env Hreturns _ _ _ _ Hfail).
Qed.

(** A ranking of the nodes that increases along the edges shows that a
    graph is acyclic. *)
Lemma ranked_graph_is_acyclic (g : FlowGraph) (rank : NodeType -> nat) :
  (forall u v, edge g u v -> (rank u < rank v)%nat) -> acyclic g.
Proof.
  intros Hrank v Hcycle.
  assert (H : forall a b, clos_trans NodeType (edge g) a b -> (rank a < rank b)%nat).
  { intros a b Hab; induction Hab as [a b Hab | a b c _ IH1 _ IH2];
      [apply Hrank; exact Hab | lia]. }
  specialize (H v v Hcycle); lia.
Qed.

End AcyclicTraversal.

Lemma wf_fan_out : wf_fragment Examples.fan_out.
Proof.
  constructor.
  - simpl; solve_NoDup.
  - simpl; solve_NoDup.
  - intros u v H; simpl in H.
    destruct H as [H | [H | []]]; inversion H; subst; simpl; auto.
  - intros u v _; split; simpl; [solve_NoDup|].
    repeat constructor; simpl; intuition.
Defined.

(** The traversal of [Examples.fan_out] completes. *)
Lemma acyclic_graph_is_initialized_in_topological_order_witness :
  let ex := Examples.executor_of Examples.fan_out in
  let g := graph Examples.fan_out in
  exists w' ex',
    initialize_loop Examples.env 4 (get_nodes g) (init_worklist g) ex = Ok (w', ex')
    /\ Permutation (initialization_order w') (get_nodes g)
    /\ NoDup (initialization_order w')
    /\ (forall u v, edge g u v -> before (initialization_order w') u v)
    /\ visit_in_order Examples.env ex nil (initialization_order w') = Ok ex'
    /\ forall n, In n (get_nodes g) -> operator_type (the_op ex n) <> kVirtual ->
                 is_initialized_ (the_op ex' n) = true.
Proof.
  intros ex g.
  destruct (acyclic_graph_is_initialized_in_topological_order Examples.env ex 4 wf_fan_out)
    as [[Hok | Hfail] _].
  - apply (ranked_graph_is_acyclic _ (fun n => n)).
    intros u v H; simpl in H.
    destruct H as [H | [H | []]]; inversion H; subst; lia.
  - simpl; lia.
  - exact Hok.
  - exfalso; destruct Hfail as [l [n [ex0 [_ [_ [_ Hfail]]]]]].
    remember (initialize_loop Examples.env 4
                (get_nodes (graph (fragment_ ex)))
                (init_worklist (graph (fragment_ ex))) ex) as r eqn:Er.
    vm_compute in Er; subst r; inversion Hfail.
Defined.

(** ** Cycle mitigation (C2) *)

Section CycleMitigation.

Variable env : Environment.

Lemma lookup_update_same {A : Type} (k : string) (v : A) (m : list (string * A)) :
  lookup k m <> None -> lookup k (update k v m) = Some v.
Proof.
  induction m as [|[k' v'] m IH]; cbn [lookup update]; intros H; [congruence|].
  destruct (String.eqb k k') eqn:E; cbn [lookup]; rewrite E; [reflexivity | apply IH; exact H].
Qed.

Lemma lookup_modify_port (k : string) (h : IOSpec -> IOSpec) (ports : list (string * IOSpec))
  (io_spec : IOSpec) :
  lookup k ports = Some io_spec -> lookup k (modify_port k h ports) = Some (h io_spec).
Proof.
  intros H; unfold modify_port; rewrite H.
  apply lookup_update_same; congruence.
Qed.

Lemma detect_cycle_spec (op_n : NodeType) (visited prevs : list NodeType) (acc : bool) :
  detect_cycle op_n visited prevs acc =
  if mem_node op_n prevs then (true, true)
  else (acc || existsb (fun p => negb (mem_node p visited)) prevs, false).
Proof.
  revert acc; induction prevs as [|p prevs IH]; intros acc; cbn [detect_cycle].
  - cbn [mem_node existsb]; rewrite orb_false_r; reflexivity.
  - assert (Hm : mem_node op_n (p :: prevs) = Nat.eqb p op_n || mem_node op_n prevs)
      by (unfold mem_node; cbn [existsb]; rewrite (Nat.eqb_sym op_n p); reflexivity).
    rewrite Hm; cbn [existsb].
    destruct (Nat.eqb p op_n); cbn [orb]; [reflexivity|].
    rewrite IH; destruct (mem_node op_n prevs); [reflexivity|].
    rewrite orb_assoc; reflexivity.
Qed.

(** The mitigation of an operator with an input execution port that is
    visited on a feedback edge. *)
Lemma mitigate_cycle_feedback (g : FlowGraph) (visited : list NodeType) (op_n : NodeType)
  (op op' : Operator) (in_exec : string) (io_spec : IOSpec) :
  input_exec_spec op = Some in_exec ->
  lookup in_exec (inputs op) = Some io_spec ->
  (exists prev, In prev (get_previous_nodes g op_n)
                /\ (prev = op_n \/ ~ In prev visited)) ->
  mitigate_cycle g visited op_n op = Ok op' ->
  lookup in_exec (inputs op') = Some (set_queue_size io_spec kSizeOne)
  /\ metadata_policy op' = kUpdate
  /\ input_exec_spec op' = Some in_exec
  /\ (In op_n (get_previous_nodes g op_n) ->
      exists out_exec,
        output_exec_spec op = Some out_exec
        /\ forall io_out, lookup out_exec (outputs op) = Some io_out ->
                          lookup out_exec (outputs op') =
                          Some (add_condition io_out kNone None)).
Proof.
  intros Hexec Hio [prev [Hprev Hfb]] H.
  unfold mitigate_cycle in H; rewrite Hexec, detect_cycle_spec in H.
  destruct (mem_node op_n (get_previous_nodes g op_n)) eqn:Eself.
  - cbn [set_metadata_policy set_inputs output_exec_spec] in H.
    destruct (output_exec_spec op) as [out_exec|] eqn:Eout; [|discriminate].
    inversion H; subst; clear H; cbn.
    split; [apply (lookup_modify_port in_exec (fun io => set_queue_size io kSizeOne));
            exact Hio|].
    split; [reflexivity|]; split; [exact Hexec|].
    intros _; exists out_exec; split; [reflexivity|].
    intros io_out Hout.
    apply (lookup_modify_port out_exec (fun io => add_condition io kNone None)); exact Hout.
  - assert (Hdet : existsb (fun p => negb (mem_node p visited)) (get_previous_nodes g op_n)
                   = true).
    { apply existsb_exists; exists prev; split; [exact Hprev|].
      destruct Hfb as [-> | Hfb].
      - apply mem_node_In in Hprev; congruence.
      - rewrite (proj2 (mem_node_false _ _) Hfb); reflexivity. }
    rewrite Hdet in H; cbn [orb] in H.
    inversion H; subst; clear H; cbn.
    split; [apply (lookup_modify_port in_exec (fun io => set_queue_size io kSizeOne));
            exact Hio|].
    split; [reflexivity|]; split; [exact Hexec|].
    intros Hc; apply mem_node_In in Hc; congruence.
Qed.

Lemma create_input_port_queue_size (f : Fragment) (io_spec io' : IOSpec) (op : Operator) :
  create_input_port env f io_spec false op = Ok io' -> queue_size io' = queue_size io_spec.
Proof.
  unfold create_input_port; intros H.
  apply bind_Ok in H; destruct H as [resolved [_ H]].
  destruct resolved as [q|]; [|inversion H; reflexivity].
  destruct (q <? 1); [discriminate|].
  apply bind_Ok in H; destruct H as [io1 [H1 H]].
  apply bind_Ok in H; destruct H as [cs [_ H]].
  inversion H; subst; clear H; cbn [queue_size set_conditions].
  assert (E1 : queue_size io1 = queue_size io_spec).
  { unfold create_receiver in H1.
    destruct (has_component _); [inversion H1; reflexivity|].
    apply bind_Ok in H1; destruct H1 as [rx [_ H1]]; inversion H1; reflexivity. }
  rewrite <- E1; unfold default_input_condition.
  destruct (conditions io1); [|reflexivity].
  destruct (_ && _); reflexivity.
Qed.

Lemma initialize_output_conditions_kinds (op_nm tx_name : string) :
  forall (cs cs' : list (ConditionType * option Condition)) (condition_index : nat),
    initialize_output_conditions op_nm tx_name condition_index cs = Ok cs' ->
    map fst cs' = map fst cs.
Proof.
  induction cs as [|[t c] cs IH]; intros cs' idx H; cbn [initialize_output_conditions] in H.
  - inversion H; reflexivity.
  - apply bind_Ok in H; destruct H as [c' [_ H]].
    apply bind_Ok in H; destruct H as [rest' [Hrest H]].
    inversion H; subst; cbn [map fst]; f_equal; eapply IH; exact Hrest.
Qed.

Lemma create_output_port_kinds (f : Fragment) (io_spec io' : IOSpec) (op : Operator) :
  create_output_port env f io_spec false op = Ok io' ->
  conditions io_spec <> nil ->
  map fst (conditions io') = map fst (conditions io_spec).
Proof.
  unfold create_output_port; intros H Hne.
  apply bind_Ok in H; destruct H as [io1 [H1 H]].
  apply bind_Ok in H; destruct H as [cs [Hcs H]].
  inversion H; subst; clear H; cbn [conditions set_conditions].
  assert (E1 : conditions io1 = conditions io_spec).
  { unfold create_transmitter in H1.
    destruct (has_component _); [inversion H1; reflexivity|].
    apply bind_Ok in H1; destruct H1 as [tx [_ H1]]; inversion H1; reflexivity. }
  apply initialize_output_conditions_kinds in Hcs; rewrite Hcs.
  unfold default_output_condition; rewrite E1.
  destruct (conditions io_spec); [congruence | rewrite E1; reflexivity].
Qed.

Lemma create_ports_lookup (create : IOSpec -> outcome IOSpec) :
  forall (ports ports' : list (string * IOSpec)) (k : string) (io_spec : IOSpec),
    create_ports create ports = Ok ports' ->
    lookup k ports = Some io_spec ->
    exists io', lookup k ports' = Some io' /\ create io_spec = Ok io'.
Proof.
  induction ports as [|[name io] ports IH]; intros ports' k io_spec H Hk;
    cbn [create_ports lookup] in *; [discriminate|].
  apply bind_Ok in H; destruct H as [io1 [H1 H]].
  apply bind_Ok in H; destruct H as [rest' [Hrest H]].
  inversion H; subst; clear H; cbn [lookup].
  destruct (String.eqb k name).
  - inversion Hk; subst; exists io1; auto.
  - eapply IH; eassumption.
Qed.

(** What the initialization of an operator keeps: the metadata policy
    kUpdate, the input execution port, the queue sizes of the inputs and the
    kinds of the conditions of an output that has conditions. *)
Lemma op_initialize_keeps (ids : ExecutorIds) (f : Fragment) (fresh_cid : positive)
  (op op' : Operator) :
  op_eid_ ids = 0 ->
  op_initialize env ids f fresh_cid op = Ok op' ->
  metadata_policy op = kUpdate ->
  metadata_policy op' = kUpdate
  /\ (forall k io_spec, lookup k (inputs op) = Some io_spec ->
        exists io', lookup k (inputs op') = Some io'
                    /\ queue_size io' = queue_size io_spec)
  /\ (forall k io_spec, lookup k (outputs op) = Some io_spec ->
        conditions io_spec <> nil ->
        exists io', lookup k (outputs op') = Some io'
                    /\ map fst (conditions io') = map fst (conditions io_spec)).
Proof.
  intros Heid H Hmeta.
  assert (Hsame : op' = op ->
            metadata_policy op' = kUpdate
            /\ (forall k io_spec, lookup k (inputs op) = Some io_spec ->
                  exists io', lookup k (inputs op') = Some io'
                              /\ queue_size io' = queue_size io_spec)
            /\ (forall k io_spec, lookup k (outputs op) = Some io_spec ->
                  conditions io_spec <> nil ->
                  exists io', lookup k (outputs op') = Some io'
                              /\ map fst (conditions io') = map fst (conditions io_spec))).
  { intros ->; split; [exact Hmeta|]; split; intros k io Hk; eauto. }
  unfold op_initialize in H.
  assert (Hinit : initialize_operator env ids f fresh_cid op = Ok op' ->
            metadata_policy op' = kUpdate
            /\ (forall k io_spec, lookup k (inputs op) = Some io_spec ->
                  exists io', lookup k (inputs op') = Some io'
                              /\ queue_size io' = queue_size io_spec)
            /\ (forall k io_spec, lookup k (outputs op) = Some io_spec ->
                  conditions io_spec <> nil ->
                  exists io', lookup k (outputs op') = Some io'
                              /\ map fst (conditions io') = map fst (conditions io_spec))).
  { clear H; unfold initialize_operator; intros H.
    destruct (is_initialized_ op); [inversion H; subst; apply Hsame; reflexivity|].
    rewrite Heid in H; change (0 =? 0) with true in H; cbv zeta in H; cbn [negb] in H.
    cbn [metadata_policy set_id] in H; rewrite Hmeta in H.
    cbn [MetadataPolicy_eqb] in H.
    apply bind_Ok in H; destruct H as [ins [Hins H]].
    apply bind_Ok in H; destruct H as [outs [Houts H]].
    apply bind_Ok in H; destruct H as [u1 [_ H]].
    apply bind_Ok in H; destruct H as [u2 [_ H]].
    inversion H; subst; clear H; cbn.
    split; [exact Hmeta|]; split.
    - intros k io Hk.
      destruct (create_ports_lookup _ _ _ k io Hins Hk) as [io' [Hl Hc]].
      exists io'; split; [exact Hl|].
      eapply create_input_port_queue_size; exact Hc.
    - intros k io Hk Hne.
      destruct (create_ports_lookup _ _ _ k io Houts Hk) as [io' [Hl Hc]].
      exists io'; split; [exact Hl|].
      eapply create_output_port_kinds; [exact Hc | exact Hne]. }
  destruct (operator_type op); auto.
  inversion H; subst; apply Hsame; reflexivity.
Qed.

(** A visit changes no operator but the visited one. *)
Lemma visit_operator_other (ex ex' : Executor) (visited : list NodeType)
  (op_n n : NodeType) :
  visit_operator env ex visited op_n = Ok ex' -> n <> op_n ->
  the_op ex' n = the_op ex n.
Proof.
  rewrite visit_operator_unfold; intros H Hne.
  apply bind_Ok in H; destruct H as [op1 [_ H]].
  apply bind_Ok in H; destruct H as [op2 [_ H]].
  apply visit_wiring in H; destruct H as [_ [Hheap _]].
  unfold the_op; rewrite Hheap; cbn; unfold upd.
  apply Nat.eqb_neq in Hne; rewrite Hne; reflexivity.
Qed.

(** The loop changes no operator that is already visited. *)
Lemma initialize_loop_keeps_visited (operators : list NodeType) :
  forall (fuel : nat) (w : Worklist) (ex : Executor) (w' : Worklist) (ex' : Executor),
    initialize_loop env fuel operators w ex = Ok (w', ex') ->
    forall n, In n (visited_nodes w) -> the_op ex' n = the_op ex n.
Proof.
  induction fuel as [|fuel IH]; intros w ex w' ex' H n Hn; [discriminate|].
  cbn [initialize_loop] in H.
  destruct (is_nil (worklist w)
            && Nat.eqb (List.length (visited_nodes w)) (List.length operators));
    [inversion H; reflexivity|].
  cbv zeta in H.
  set (w1 := if is_nil (worklist w) then break_cycles operators w else w) in H.
  assert (Hv1 : visited_nodes w1 = visited_nodes w).
  { unfold w1; destruct (is_nil (worklist w)); [apply break_cycles_visited | reflexivity]. }
  destruct (worklist w1) as [|op_n rest]; [discriminate|].
  cbn [visited_nodes worklist indegrees] in H; rewrite Hv1 in H.
  destruct (mem_node op_n (visited_nodes w)) eqn:Em.
  - apply (IH _ _ _ _ H); exact Hn.
  - apply bind_Ok in H; destruct H as [ex1 [Hvisit H]].
    rewrite (IH _ _ _ _ H n)
      by (rewrite release_next_nodes_visited; right; exact Hn).
    apply (visit_operator_other _ _ _ _ _ Hvisit).
    intros ->; apply mem_node_false in Em; contradiction.
Qed.

(** An empty worklist before all nodes are visited: the iteration goes on
    with the state in which the cycles are broken. *)
Lemma initialize_loop_break_cycles (fuel : nat) (operators : list NodeType) (w : Worklist)
  (ex : Executor) (op_n : NodeType) (rest : list NodeType) :
  worklist w = nil ->
  List.length (visited_nodes w) <> List.length operators ->
  worklist (break_cycles operators w) = op_n :: rest ->
  initialize_loop env (S fuel) operators w ex =
  initialize_loop env (S fuel) operators (break_cycles operators w) ex.
Proof.
  intros Hw Hlen Hb.
  cbn [initialize_loop]; rewrite Hw, Hb; cbn [is_nil andb].
  rewrite (proj2 (Nat.eqb_neq _ _) Hlen); cbv zeta; rewrite Hb; reflexivity.
Qed.

(** What the initialization of an operator keeps of its declaration: the
    queue sizes of the inputs, the kinds of the conditions of an output
    that has conditions, and the metadata policy, but for the default
    policy, which is replaced by the policy of the fragment. *)
Lemma op_initialize_keeps_declared (ids : ExecutorIds) (f : Fragment) (fresh_cid : positive)
  (op op' : Operator) :
  op_eid_ ids = 0 ->
  op_initialize env ids f fresh_cid op = Ok op' ->
  (metadata_policy op' = metadata_policy op
   \/ (metadata_policy op = kDefaultPolicy
       /\ metadata_policy op' = frag_metadata_policy f))
  /\ (forall k io_spec, lookup k (inputs op) = Some io_spec ->
        exists io', lookup k (inputs op') = Some io'
                    /\ queue_size io' = queue_size io_spec)
  /\ (forall k io_spec, lookup k (outputs op) = Some io_spec ->
        conditions io_spec <> nil ->
        exists io', lookup k (outputs op') = Some io'
                    /\ map fst (conditions io') = map fst (conditions io_spec)).
Proof.
  intros Heid H.
  assert (Hsame : op' = op ->
            (metadata_policy op' = metadata_policy op
             \/ (metadata_policy op = kDefaultPolicy
                 /\ metadata_policy op' = frag_metadata_policy f))
            /\ (forall k io_spec, lookup k (inputs op) = Some io_spec ->
                  exists io', lookup k (inputs op') = Some io'
                              /\ queue_size io' = queue_size io_spec)
            /\ (forall k io_spec, lookup k (outputs op) = Some io_spec ->
                  conditions io_spec <> nil ->
                  exists io', lookup k (outputs op') = Some io'
                              /\ map fst (conditions io') = map fst (conditions io_spec))).
  { intros ->; split; [left; reflexivity|]; split; intros k io Hk; eauto. }
  unfold op_initialize in H.
  assert (Hinit : initialize_operator env ids f fresh_cid op = Ok op' ->
            (metadata_policy op' = metadata_policy op
             \/ (metadata_policy op = kDefaultPolicy
                 /\ metadata_policy op' = frag_metadata_policy f))
            /\ (forall k io_spec, lookup k (inputs op) = Some io_spec ->
                  exists io', lookup k (inputs op') = Some io'
                              /\ queue_size io' = queue_size io_spec)
            /\ (forall k io_spec, lookup k (outputs op) = Some io_spec ->
                  conditions io_spec <> nil ->
                  exists io', lookup k (outputs op') = Some io'
                              /\ map fst (conditions io') = map fst (conditions io_spec))).
  { clear H; unfold initialize_operator; intros H.
    destruct (is_initialized_ op); [inversion H; subst; apply Hsame; reflexivity|].
    rewrite Heid in H; change (0 =? 0) with true in H; cbv zeta in H; cbn [negb] in H.
    cbn [metadata_policy set_id] in H.
    assert (Hm : forall op2 : Operator,
               metadata_policy op2
               = metadata_policy
                   (if MetadataPolicy_eqb (metadata_policy op) kDefaultPolicy
                    then set_metadata_policy
                           (set_id op (if op_cid_ ids =? 0 then Z.pos fresh_cid
                                       else op_cid_ ids))
                           (frag_metadata_policy f)
                    else set_id op (if op_cid_ ids =? 0 then Z.pos fresh_cid
                                    else op_cid_ ids)) ->
               metadata_policy op2 = metadata_policy op
               \/ (metadata_policy op = kDefaultPolicy
                   /\ metadata_policy op2 = frag_metadata_policy f)).
    { intros op2 ->; destruct (metadata_policy op) eqn:Em; cbn; rewrite ?Em; auto. }
    destruct (MetadataPolicy_eqb (metadata_policy op) kDefaultPolicy).
    all: apply bind_Ok in H; destruct H as [ins [Hins H]].
    all: apply bind_Ok in H; destruct H as [outs [Houts H]].
    all: apply bind_Ok in H; destruct H as [u1 [_ H]].
    all: apply bind_Ok in H; destruct H as [u2 [_ H]].
    all: inversion H; subst; clear H.
    all: (split; [apply Hm; reflexivity|]; cbn; split).
    1, 3: intros k io Hk;
      destruct (create_ports_lookup _ _ _ k io Hins Hk) as [io' [Hl Hc]];
      exists io'; (split; [exact Hl|]);
      eapply create_input_port_queue_size; exact Hc.
    all: intros k io Hk Hne;
      destruct (create_ports_lookup _ _ _ k io Houts Hk) as [io' [Hl Hc]];
      exists io'; (split; [exact Hl|]);
      eapply create_output_port_kinds; [exact Hc | exact Hne]. }
  destruct (operator_type op); auto.
  inversion H; subst; apply Hsame; reflexivity.
Qed.

(** C2, as the code has it.  An operator that has an input execution port
    and is taken from the worklist while one of its predecessors (possibly
    itself) is not yet visited gets the queue size 1 on its input execution
    port, whatever size was declared, and the metadata policy kUpdate; on a
    self-edge a condition of kind kNone is added to the port that is
    recorded as its output execution spec (the port that
    [add_control_flow] found at [begin()] of the outputs).  All this still
    holds when the planning has completed.  An operator without an input
    execution port is left as declared: its visit does not depend on the
    operators visited before, and when the planning has completed its
    inputs have their declared queue sizes, its metadata policy is the
    declared one (the policy of the fragment for the default policy) and
    the conditions of its outputs have their declared kinds. *)
Theorem feedback_operator_with_execution_port_is_mitigated :
  (forall (fuel : nat) (operators : list NodeType) (w w' : Worklist) (ex ex' : Executor)
          (op_n : NodeType) (rest : list NodeType) (in_exec : string) (io_spec : IOSpec),
      env_kAnySize env <> kSizeOne ->
      op_eid_ (executor_ids ex) = 0 ->
      worklist w = op_n :: rest ->
      ~ In op_n (visited_nodes w) ->
      input_exec_spec (the_op ex op_n) = Some in_exec ->
      lookup in_exec (inputs (the_op ex op_n)) = Some io_spec ->
      (exists prev, In prev (get_previous_nodes (graph (fragment_ ex)) op_n)
                    /\ (prev = op_n \/ ~ In prev (visited_nodes w))) ->
      initialize_loop env (S fuel) operators w ex = Ok (w', ex') ->
      (exists io', lookup in_exec (inputs (the_op ex' op_n)) = Some io'
                   /\ queue_size io' = kSizeOne
                   /\ resolve_queue_size env (fragment_ ex') io' (the_op ex' op_n)
                      = Ok (Some 1))
      /\ metadata_policy (the_op ex' op_n) = kUpdate
      /\ (In op_n (get_previous_nodes (graph (fragment_ ex)) op_n) ->
          exists out_exec,
            output_exec_spec (the_op ex op_n) = Some out_exec
            /\ forall io_out,
                 lookup out_exec (outputs (the_op ex op_n)) = Some io_out ->
                 exists io_out',
                   lookup out_exec (outputs (the_op ex' op_n)) = Some io_out'
                   /\ map fst (conditions io_out')
                      = (map fst (conditions io_out) ++ [kNone])%list))
  /\ (forall (fuel : nat) (operators : list NodeType) (w w' : Worklist) (ex ex' : Executor)
             (op_n : NodeType) (rest : list NodeType),
        op_eid_ (executor_ids ex) = 0 ->
        worklist w = op_n :: rest ->
        ~ In op_n (visited_nodes w) ->
        input_exec_spec (the_op ex op_n) = None ->
        initialize_loop env (S fuel) operators w ex = Ok (w', ex') ->
        (forall visited,
            visit_operator env ex visited op_n
            = visit_operator env ex (op_n :: visited_nodes w) op_n)
        /\ (forall k io, lookup k (inputs (the_op ex op_n)) = Some io ->
              exists io', lookup k (inputs (the_op ex' op_n)) = Some io'
                          /\ queue_size io' = queue_size io)
        /\ (metadata_policy (the_op ex' op_n) = metadata_policy (the_op ex op_n)
            \/ (metadata_policy (the_op ex op_n) = kDefaultPolicy
                /\ metadata_policy (the_op ex' op_n)
                   = frag_metadata_policy (fragment_ ex)))
        /\ (forall k io, lookup k (outputs (the_op ex op_n)) = Some io ->
              conditions io <> nil ->
              exists io', lookup k (outputs (the_op ex' op_n)) = Some io'
                          /\ map fst (conditions io') = map fst (conditions io))).
Proof.
  split.
  - intros fuel operators w w' ex ex' op_n rest in_exec io_spec.
    intros Hany Heid Hw Hvis Hexec Hio [prev [Hprev Hfb]] H.
    rewrite (initialize_loop_visit env fuel operators w ex op_n rest Hw
               (proj2 (mem_node_false _ _) Hvis)) in H.
    apply bind_Ok in H; destruct H as [ex1 [Hvisit Hrest]].
    rewrite (initialize_loop_keeps_visited _ _ _ _ _ _ Hrest op_n)
      by (rewrite release_next_nodes_visited; left; reflexivity).
    clear Hrest.
    rewrite visit_operator_unfold in Hvisit.
    apply bind_Ok in Hvisit; destruct Hvisit as [op1 [Hmit Hvisit]].
    apply bind_Ok in Hvisit; destruct Hvisit as [op2 [Hinit Hvisit]].
    apply visit_wiring in Hvisit; destruct Hvisit as [_ [Hheap _]].
    assert (Hop2 : the_op ex1 op_n = op2).
    { unfold the_op; rewrite Hheap; cbn; unfold upd; rewrite Nat.eqb_refl; reflexivity. }
    rewrite Hop2; clear Hheap Hop2.
    assert (Hfb' : exists prev, In prev (get_previous_nodes (graph (fragment_ ex)) op_n)
                                /\ (prev = op_n \/ ~ In prev (op_n :: visited_nodes w))).
    { exists prev; split; [exact Hprev|].
      destruct (Nat.eq_dec prev op_n) as [E | E]; [left; exact E | right].
      destruct Hfb as [Hfb | Hfb]; [contradiction|].
      intros [Hc | Hc]; [apply E; symmetry; exact Hc | contradiction]. }
    destruct (mitigate_cycle_feedback _ _ _ _ _ _ _ Hexec Hio Hfb' Hmit)
      as [Hin1 [Hmeta1 [_ Hout1]]].
    cbn [fragment_ set_fragment executor_ids] in Hinit.
    destruct (op_initialize_keeps _ _ _ _ _ Heid Hinit Hmeta1) as [Hmeta2 [Hin2 Hout2]].
    split; [|split].
    + destruct (Hin2 _ _ Hin1) as [io' [Hl Hq]].
      exists io'; split; [exact Hl|].
      cbn [queue_size set_queue_size] in Hq.
      split; [exact Hq|].
      unfold resolve_queue_size; rewrite Hq.
      destruct (kSizeOne =? env_kAnySize env) eqn:E;
        [apply Z.eqb_eq in E; congruence | reflexivity].
    + exact Hmeta2.
    + intros Hself; destruct (Hout1 Hself) as [out_exec [Hoe Hmod]].
      exists out_exec; split; [exact Hoe|].
      intros io_out Hlk.
      destruct (Hout2 _ _ (Hmod io_out Hlk)) as [io' [Hl Hk]].
      * unfold add_condition; cbn [conditions set_conditions].
        destruct (conditions io_out); discriminate.
      * exists io'; split; [exact Hl|].
        rewrite Hk; unfold add_condition; cbn [conditions set_conditions].
        rewrite map_app; reflexivity.
  - intros fuel operators w w' ex ex' op_n rest Heid Hw Hvis Hnone H.
    split.
    { intros visited; rewrite !visit_operator_unfold; cbv zeta.
      unfold mitigate_cycle; rewrite Hnone; reflexivity. }
    rewrite (initialize_loop_visit env fuel operators w ex op_n rest Hw
               (proj2 (mem_node_false _ _) Hvis)) in H.
    apply bind_Ok in H; destruct H as [ex1 [Hvisit Hrest]].
    rewrite (initialize_loop_keeps_visited _ _ _ _ _ _ Hrest op_n)
      by (rewrite release_next_nodes_visited; left; reflexivity).
    clear Hrest.
    rewrite visit_operator_unfold in Hvisit.
    apply bind_Ok in Hvisit; destruct Hvisit as [op1 [Hmit Hvisit]].
    apply bind_Ok in Hvisit; destruct Hvisit as [op2 [Hinit Hvisit]].
    apply visit_wiring in Hvisit; destruct Hvisit as [_ [Hheap _]].
    assert (Hop2 : the_op ex1 op_n = op2).
    { unfold the_op; rewrite Hheap; cbn; unfold upd; rewrite Nat.eqb_refl; reflexivity. }
    rewrite Hop2; clear Hheap Hop2.
    unfold mitigate_cycle in Hmit; rewrite Hnone in Hmit; inversion Hmit; subst op1.
    cbn [fragment_ set_fragment executor_ids] in Hinit.
    destruct (op_initialize_keeps_declared _ _ _ _ _ Heid Hinit) as [Hmeta [Hin Hout]].
    cbn [frag_metadata_policy set_op] in Hmeta.
    split; [exact Hin|]; split; [exact Hmeta | exact Hout].
Qed.

End CycleMitigation.

(** C2 as stated fails: in the data-flow cycle of [Examples.data_cycle]
    the first operator is visited while its predecessor is not, and it has no
    input execution port; its input keeps the declared queue size 4 and the
    metadata policy is not switched to kUpdate. *)
Lemma feedback_data_port_keeps_its_queue_size :
  match initialize_fragment Examples.env 10
          (Examples.executor_of Examples.data_cycle) nil with
  | Ok (w, ex, _) =>
      initialization_order w = [0; 1]%nat
      /\ get_previous_nodes (graph (fragment_ ex)) 0%nat = [1%nat]
      /\ metadata_policy (the_op ex 0%nat) = kRaise
      /\ exists io', lookup "in" (inputs (the_op ex 0%nat)) = Some io'
                     /\ option_map capacity_ (connector io') = Some 4
                     /\ map (fun c => option_map min_size (snd c)) (conditions io')
                        = [Some 4]
  | _ => False
  end.
Proof. vm_compute; repeat split; eexists; repeat split. Qed.

(** The self-loop of [Examples.self_loop] is mitigated.  The operator has no
    output but the execution port, which is therefore the port recorded as
    its output execution spec. *)
Lemma feedback_operator_with_execution_port_is_mitigated_witness :
  exists w' ex',
    initialize_loop Examples.env 3 [0%nat] (init_worklist (graph Examples.self_loop))
      (Examples.executor_of Examples.self_loop) = Ok (w', ex')
    /\ (exists io', lookup "__input_exec__" (inputs (the_op ex' 0%nat)) = Some io'
                    /\ queue_size io' = kSizeOne)
    /\ metadata_policy (the_op ex' 0%nat) = kUpdate
    /\ (exists io', lookup "__output_exec__" (outputs (the_op ex' 0%nat)) = Some io'
                    /\ map fst (conditions io') = [kNone]).
Proof.
  pose (w0 := init_worklist (graph Examples.self_loop)).
  pose (ex0 := Examples.executor_of Examples.self_loop).
  assert (Hbreak : initialize_loop Examples.env 3 [0%nat] w0 ex0 =
                   initialize_loop Examples.env 3 [0%nat] (break_cycles [0%nat] w0) ex0).
  { apply (initialize_loop_break_cycles Examples.env 2 [0%nat] w0 ex0 0%nat nil).
    - reflexivity.
    - simpl; discriminate.
    - reflexivity. }
  destruct (initialize_loop Examples.env 3 [0%nat] (break_cycles [0%nat] w0) ex0)
    as [[w' ex']| | | |] eqn:Hrun;
    try (exfalso; vm_compute in Hrun; discriminate Hrun).
  exists w', ex'; split; [exact Hbreak|].
  destruct (proj1 (feedback_operator_with_execution_port_is_mitigated Examples.env)
              2%nat [0%nat] (break_cycles [0%nat] w0) w' ex0 ex' 0%nat nil
              "__input_exec__" (new_port "__input_exec__" kInput kPrecedingCount))
    as [[io' [Hl [Hq _]]] [Hmeta Hout]].
  - simpl; discriminate.
  - reflexivity.
  - reflexivity.
  - simpl; tauto.
  - reflexivity.
  - reflexivity.
  - exists 0%nat; split; [left; reflexivity | left; reflexivity].
  - exact Hrun.
  - split; [exists io'; auto|]; split; [exact Hmeta|].
    destruct (Hout (or_introl eq_refl)) as [out_exec [Hoe Hcond]].
    vm_compute in Hoe; inversion Hoe; subst out_exec.
    destruct (Hcond (new_port "__output_exec__" kOutput kSizeOne) eq_refl)
      as [io_out' [Hl' Hk]].
    exists io_out'; split; [exact Hl' | exact Hk].
Defined.

(** The same self-loop on an operator that has a data output "out", where
    the unordered map of the outputs starts with "out": the kNone condition
    is added to "out", and the output execution port gets the default
    condition. *)
Lemma self_edge_condition_on_the_first_output :
  output_exec_spec (op_heap Examples.self_loop_with_output 0%nat) = Some "out"
  /\ match initialize_fragment Examples.env_first_declared 10
             (Examples.executor_of Examples.self_loop_with_output) nil with
     | Ok (w, ex, _) =>
         (exists io, lookup "out" (outputs (the_op ex 0%nat)) = Some io
                     /\ map fst (conditions io) = [kNone])
         /\ (exists io, lookup "__output_exec__" (outputs (the_op ex 0%nat)) = Some io
                        /\ map fst (conditions io) = [kDownstreamMessageAffordable])
     | _ => False
     end.
Proof. vm_compute; split; [reflexivity|]; split; eexists; split; reflexivity. Qed.

(** ** Connections of an operator with itself (C10) *)

Section SelfConnections.

Variable env : Environment.

(** An element of the list is reached by the fold: what its step
    establishes, and the later steps keep, holds at the end. *)
Lemma foldM_reaches {A S : Type} (I Q : S -> Prop) (f : S -> A -> outcome S) (a : A) :
  (forall s b s', I s -> f s b = Ok s' -> I s') ->
  (forall s b s', I s -> f s b = Ok s' -> Q s -> Q s') ->
  (forall s s', I s -> f s a = Ok s' -> Q s') ->
  forall l s s', In a l -> I s -> foldM f l s = Ok s' -> Q s'.
Proof.
  intros HI HQ Ha l; induction l as [|b l IH]; intros s s' Hin Hs H; [destruct Hin|].
  cbn [foldM] in H; apply bind_Ok in H; destruct H as [s1 [H1 H2]].
  destruct Hin as [-> | Hin].
  - assert (HIQ : I s' /\ Q s').
    { apply (foldM_invariant (fun x => I x /\ Q x) f) with (l := l) (s := s1).
      - intros x b x' [Hx Hq] Hf; split; [eapply HI | eapply HQ]; eassumption.
      - split; [eapply HI | eapply Ha]; eassumption.
      - exact H2. }
    apply HIQ.
  - apply (IH s1 s' Hin); [eapply HI; eassumption | exact H2].
Qed.

Lemma wiring_step_In (ex ex' : Executor) (c : Cid * Cid) :
  wiring_step ex ex' -> In c (connections_entity_ ex) -> In c (connections_entity_ ex').
Proof.
  intros [_ [_ [_ [added [E _]]]]] H; rewrite E; apply in_or_app; left; exact H.
Qed.

Lemma wiring_step_the_op (ex ex' : Executor) (n : NodeType) :
  wiring_step ex ex' -> the_op ex' n = the_op ex n.
Proof. intros [_ [E _]]; unfold the_op; rewrite E; reflexivity. Qed.




End SelfConnections.


(** ** Broadcast entities (C1) *)

Section Broadcast.

Variable env : Environment.

Lemma key_eqb_eq (a b : NodeType * string) : key_eqb a b = true <-> a = b.
Proof.
  destruct a as [n p], b as [n' p']; unfold key_eqb; cbn [fst snd].
  rewrite andb_true_iff, Nat.eqb_eq, String.eqb_eq.
  split; [intros [-> ->]; reflexivity | intros H; inversion H; auto].
Qed.

Lemma count_add_broadcast_transmitter (b : BroadcastEntityMapType)
  (key key' : NodeType * string) (t : BroadcastTransmitter) :
  count_broadcast (add_broadcast_transmitter b key' t) key = count_broadcast b key.
Proof.
  unfold count_broadcast, add_broadcast_transmitter.
  induction b as [|e b IH]; [reflexivity|].
  cbn [map filter].
  assert (E : fst (if key_eqb (fst e) key' then (fst e, add_transmitter (snd e) t) else e)
              = fst e) by (destruct (key_eqb (fst e) key'); reflexivity).
  rewrite E; destruct (key_eqb (fst e) key); cbn [List.length]; rewrite IH; reflexivity.
Qed.

(** A new transmitter leaves the entities where they are, with their
    receivers. *)
Lemma one_broadcast_entity_add_transmitter (io : IOSpec) (b : BroadcastEntityMapType)
  (key key' : NodeType * string) (t : BroadcastTransmitter) :
  one_broadcast_entity (receiver_replicates io) b key ->
  one_broadcast_entity (receiver_replicates io) (add_broadcast_transmitter b key' t) key.
Proof.
  intros [Hc He]; split; [rewrite count_add_broadcast_transmitter; exact Hc|].
  intros e' Hin Hk; unfold add_broadcast_transmitter in Hin.
  apply in_map_iff in Hin; destruct Hin as [e [E Hin]].
  destruct (key_eqb (fst e) key') eqn:Ek; subst e'; cbn [fst snd] in *.
  - exact (He e Hin Hk).
  - exact (He e Hin Hk).
Qed.

(** The entities after one transmitter is created. *)
Lemma broadcast_to_target_entities (op_n prev_n : NodeType) (port_name : string)
  (ex ex' : Executor) (target_port : string) :
  broadcast_to_target env op_n prev_n port_name ex target_port = Ok ex' ->
  broadcast_entities ex' = broadcast_entities ex
  \/ exists t, broadcast_entities ex'
               = add_broadcast_transmitter (broadcast_entities ex) (prev_n, port_name) t.
Proof.
  unfold broadcast_to_target; intros H.
  destruct (lookup port_name (outputs (the_op ex prev_n))) as [io|]; [|discriminate].
  destruct (match connector_type io with
            | kDefault =>
                if OperatorType_eqb (operator_type (the_op ex op_n)) kVirtual
                then kUCX else kDoubleBuffer
            | t => t
            end).
  - inversion H; subst; left; reflexivity.
  - destruct (capacity_and_policy env DoubleBufferTransmitter (connector io)) as [c p].
    apply bind_Ok in H; destruct H as [cid [_ H]].
    inversion H; subst; right; eexists; reflexivity.
  - apply bind_Ok in H; destruct H as [t [_ H]].
    inversion H; subst; right; eexists; reflexivity.
Qed.

Lemma connect_broadcast_to_previous_op_entities (io : IOSpec) (key : NodeType * string)
  (ex ex' : Executor) (op_n prev_n : NodeType) :
  connect_broadcast_to_previous_op env ex op_n prev_n = Ok ex' ->
  one_broadcast_entity (receiver_replicates io) (broadcast_entities ex) key ->
  one_broadcast_entity (receiver_replicates io) (broadcast_entities ex') key.
Proof.
  unfold connect_broadcast_to_previous_op; intros H Hone; revert H.
  apply (foldM_invariant
           (fun s => one_broadcast_entity (receiver_replicates io) (broadcast_entities s) key));
    [|exact Hone].
  intros s port s' Hs Hf; unfold connect_broadcast_port in Hf.
  destruct (lookup port (edge_data (fragment_ s) prev_n op_n)) as [targets|].
  - apply bind_Ok in Hf; destruct Hf as [s1 [H1 Hf]]; inversion Hf; subst; cbn.
    revert H1.
    apply (foldM_invariant
             (fun s => one_broadcast_entity (receiver_replicates io)
                         (broadcast_entities s) key)); [|exact Hs].
    intros x tp x' Hx Hb.
    apply broadcast_to_target_entities in Hb; destruct Hb as [-> | [t ->]];
      [exact Hx | apply one_broadcast_entity_add_transmitter; exact Hx].
  - inversion Hf; subst; exact Hs.
Qed.

Lemma count_broadcast_app (b b' : BroadcastEntityMapType) (key : NodeType * string) :
  count_broadcast (b ++ b')%list key = (count_broadcast b key + count_broadcast b' key)%nat.
Proof. unfold count_broadcast; rewrite filter_app, length_app; reflexivity. Qed.

Lemma count_broadcast_removed (b : BroadcastEntityMapType) (key : NodeType * string) :
  count_broadcast (filter (fun e => negb (key_eqb (fst e) key)) b) key = 0%nat.
Proof.
  unfold count_broadcast; induction b as [|e b IH]; [reflexivity|].
  cbn [filter]; destruct (key_eqb (fst e) key) eqn:E; cbn [negb filter]; [exact IH|].
  rewrite E; exact IH.
Qed.

Lemma count_broadcast_other (b : BroadcastEntityMapType) (key key' : NodeType * string) :
  key' <> key ->
  count_broadcast (filter (fun e => negb (key_eqb (fst e) key')) b) key
  = count_broadcast b key.
Proof.
  intros Hne; unfold count_broadcast; induction b as [|e b IH]; [reflexivity|].
  cbn [filter]; destruct (key_eqb (fst e) key') eqn:E; cbn [negb filter].
  - apply key_eqb_eq in E.
    destruct (key_eqb (fst e) key) eqn:E'; [|exact IH].
    apply key_eqb_eq in E'; congruence.
  - destruct (key_eqb (fst e) key); cbn [List.length]; rewrite IH; reflexivity.
Qed.

(** The broadcast entity of a source port with two or more targets. *)
Lemma create_broadcast_component_creates (ex0 ex ex' : Executor) (op_n : NodeType)
  (source_cid : Cid) (source_cname : string) (conn_type : ConnectorType)
  (target_ports : list TargetPort) :
  the_op ex op_n = the_op ex0 op_n ->
  (2 <= List.length target_ports)%nat ->
  create_broadcast_component env op_n ex
    (source_cid, (source_cname, conn_type, target_ports)) = Ok ex' ->
  exists io,
    lookup source_cname (outputs (the_op ex0 op_n)) = Some io
    /\ one_broadcast_entity (receiver_replicates io) (broadcast_entities ex')
                            (op_n, source_cname)
    /\ In (source_cid, cid_broadcast_rx op_n source_cname) (connections_entity_ ex').
Proof.
  intros Hop Hlen H; unfold create_broadcast_component in H; rewrite Hop in H.
  destruct target_ports as [|t1 [|t2 targets]];
    [cbn in Hlen; lia | cbn in Hlen; lia |].
  destruct (lookup source_cname (outputs (the_op ex0 op_n))) as [io|]; [|discriminate].
  destruct (capacity_and_policy env DoubleBufferTransmitter _) as [c p] eqn:Ecp.
  inversion H; subst; clear H; cbn.
  exists io; split; [reflexivity|]; split; [split|].
  - rewrite count_broadcast_app, count_broadcast_removed.
    unfold count_broadcast; cbn [filter fst].
    assert (E : key_eqb (op_n, source_cname) (op_n, source_cname) = true)
      by (apply key_eqb_eq; reflexivity).
    rewrite E; reflexivity.
  - intros e Hin Hk; apply in_app_or in Hin; destruct Hin as [Hin | [<- | []]].
    + apply filter_In in Hin; destruct Hin as [_ Hn]; rewrite Hk in Hn; discriminate.
    + cbn [snd]; repeat split; cbn.
      * unfold capacity_and_policy in Ecp; rewrite H in Ecp; cbn [has_component] in Ecp.
        rewrite H1, H0 in Ecp; inversion Ecp; reflexivity.
      * unfold capacity_and_policy in Ecp; rewrite H in Ecp; cbn [has_component] in Ecp.
        rewrite H1, H0 in Ecp; inversion Ecp; reflexivity.
      * intros cond Hc; rewrite Hc; reflexivity.
      * intros Hc; rewrite Hc; reflexivity.
  - apply in_or_app; right; left; reflexivity.
Qed.

(** The entity of a source port is kept, or created again with the same
    receiver, when the components of the other source ports are
    created. *)
Lemma create_broadcast_component_keeps (ex0 ex ex' : Executor) (op_n : NodeType)
  (connection : Cid * TargetsInfo) (io : IOSpec) (source_cname : string) :
  the_op ex op_n = the_op ex0 op_n ->
  lookup source_cname (outputs (the_op ex0 op_n)) = Some io ->
  create_broadcast_component env op_n ex connection = Ok ex' ->
  one_broadcast_entity (receiver_replicates io) (broadcast_entities ex)
                       (op_n, source_cname) ->
  one_broadcast_entity (receiver_replicates io) (broadcast_entities ex')
                       (op_n, source_cname).
Proof.
  intros Hop Hio H Hone.
  destruct connection as [cid [[cname ct] targets]].
  destruct (String.eqb cname source_cname) eqn:E.
  - apply String.eqb_eq in E; subst cname.
    destruct targets as [|t1 [|t2 targets]];
      try (cbn in H; inversion H; subst; exact Hone).
    destruct (create_broadcast_component_creates ex0 ex ex' op_n cid source_cname ct
                (t1 :: t2 :: targets) Hop) as [io' [Hio' [H' _]]];
      [cbn; lia | exact H |].
    rewrite Hio in Hio'; inversion Hio'; subst io'; exact H'.
  - apply String.eqb_neq in E.
    unfold create_broadcast_component in H.
    destruct targets as [|t1 [|t2 targets]];
      try (inversion H; subst; exact Hone).
    destruct (lookup cname (outputs (the_op ex op_n))) as [io'|]; [|discriminate].
    destruct (capacity_and_policy env DoubleBufferTransmitter _) as [c p].
    inversion H; subst; clear H; cbn.
    destruct Hone as [Hc He].
    assert (Hne : (op_n, cname) <> (op_n, source_cname)) by congruence.
    split.
    + rewrite count_broadcast_app, (count_broadcast_other _ _ _ Hne), Hc.
      unfold count_broadcast; cbn [filter fst].
      destruct (key_eqb (op_n, cname) (op_n, source_cname)) eqn:Ek;
        [apply key_eqb_eq in Ek; contradiction | reflexivity].
    + intros e Hin Hk; apply in_app_or in Hin; destruct Hin as [Hin | [<- | []]].
      * apply filter_In in Hin; destruct Hin as [Hin _]; exact (He e Hin Hk).
      * cbn [fst] in Hk; apply key_eqb_eq in Hk; contradiction.
Qed.

(** The downstream connections of the initialized targets: the flag is
    set by the UCX source ports, and no broadcast entity is touched. *)
Lemma connect_initialized_targets_flag (connections : TargetConnectionsMapType)
  (ex ex' : Executor) (ucx ucx' : bool) :
  foldM connect_initialized_targets connections (ex, ucx) = Ok (ex', ucx') ->
  ucx' = ucx || existsb is_ucx_connection connections
  /\ broadcast_entities ex' = broadcast_entities ex
  /\ wiring_step ex ex'.
Proof.
  revert ex ucx; induction connections as [|c connections IH]; intros ex ucx H.
  - inversion H; subst; rewrite orb_false_r; repeat split; apply wiring_step_refl.
  - cbn [foldM] in H; apply bind_Ok in H; destruct H as [[ex1 ucx1] [H1 H2]].
    destruct (IH _ _ H2) as [Hflag [Hb Hw]].
    assert (Hw1 : wiring_step ex ex1)
      by exact (connect_initialized_targets_wiring _ _ _ H1).
    destruct c as [cid [[cname ct] targets]].
    unfold connect_initialized_targets in H1; cbn [fst snd] in H1.
    cbn [existsb]; unfold is_ucx_connection at 1; cbn [fst snd].
    destruct (ConnectorType_eqb ct kUCX).
    + inversion H1 as [[He Hu]]; clear H1.
      rewrite Hflag, Hb, <- Hu, <- He, orb_true_r; cbn [orb].
      split; [reflexivity|]; split; [reflexivity|].
      rewrite He; exact Hw.
    + apply bind_Ok in H1; destruct H1 as [ex2 [H1 H3]].
      inversion H3 as [[He Hu]]; clear H3.
      rewrite Hflag, Hb, <- Hu, <- He; cbn [orb]; split; [reflexivity|].
      split; [|eapply wiring_step_trans; eassumption].
      revert H1.
      apply (foldM_invariant (fun s => broadcast_entities s = broadcast_entities ex));
        [|reflexivity].
      intros s [tn tp] s' Hs Hf.
      destruct (negb (id (the_op s tn) =? -1)).
      * apply bind_Ok in Hf; destruct Hf as [tc [_ Hf]]; inversion Hf; subst; exact Hs.
      * inversion Hf; subst; exact Hs.
Qed.

(** The downstream pass of an operator.  Without a target with a UCX
    connector it creates no broadcast entity, whatever the fan-out.  With
    one, every source port with two or more distinct targets gets exactly
    one broadcast entity, connected to the source port, whose input
    replicates the capacity and the policy of the source's transmitter and
    the min_size of its downstream-affordable condition. *)
Lemma connect_next_ops_broadcast (ex ex' : Executor) (op_n : NodeType)
  (connections : TargetConnectionsMapType) :
  connect_next_ops env ex op_n connections = Ok ex' ->
  (has_remote_target ex op_n connections = false ->
   broadcast_entities ex' = broadcast_entities ex)
  /\ (has_remote_target ex op_n connections = true ->
      forall source_cid source_cname conn_type target_ports,
        In (source_cid, (source_cname, conn_type, target_ports)) connections ->
        (2 <= List.length target_ports)%nat ->
        exists io,
          lookup source_cname (outputs (the_op ex op_n)) = Some io
          /\ one_broadcast_entity (receiver_replicates io) (broadcast_entities ex')
                                  (op_n, source_cname)
          /\ In (source_cid, cid_broadcast_rx op_n source_cname)
                (connections_entity_ ex')).
Proof.
  intros H; unfold connect_next_ops in H.
  apply bind_Ok in H; destruct H as [[ex1 ucx] [H1 H2]].
  destruct (connect_initialized_targets_flag _ _ _ _ _ H1) as [Hflag [Hb W1]].
  cbn [orb] in Hflag.
  assert (Hop : forall n, the_op ex1 n = the_op ex n)
    by (intros n; apply wiring_step_the_op; exact W1).
  assert (Hremote : ucx || existsb (fun next_op =>
                                      OperatorType_eqb (operator_type (the_op ex1 next_op))
                                                       kVirtual)
                                   (get_next_nodes (graph (fragment_ ex)) op_n)
                    = has_remote_target ex op_n connections).
  { destruct W1 as [_ [Hheap _]].
    unfold has_remote_target, the_op; rewrite Hflag, Hheap; reflexivity. }
  rewrite Hremote in H2.
  destruct (has_remote_target ex op_n connections).
  - split; [discriminate|]; intros _ source_cid source_cname conn_type target_ports Hin Hlen.
    apply bind_Ok in H2; destruct H2 as [ex2 [H3 H4]].
    assert (Hcreated :
              wiring_step ex ex2
              /\ exists io,
                   lookup source_cname (outputs (the_op ex op_n)) = Some io
                   /\ one_broadcast_entity (receiver_replicates io) (broadcast_entities ex2)
                                           (op_n, source_cname)
                   /\ In (source_cid, cid_broadcast_rx op_n source_cname)
                         (connections_entity_ ex2)).
    { split;
        [eapply wiring_step_trans;
           [exact W1 | eapply create_broadcast_components_wiring; exact H3]|].
      revert H3; unfold create_broadcast_components.
      apply (foldM_reaches (fun s => wiring_step ex s)
               (fun s => exists io,
                           lookup source_cname (outputs (the_op ex op_n)) = Some io
                           /\ one_broadcast_entity (receiver_replicates io)
                                (broadcast_entities s) (op_n, source_cname)
                           /\ In (source_cid, cid_broadcast_rx op_n source_cname)
                                 (connections_entity_ s))
               _ (source_cid, (source_cname, conn_type, target_ports)));
        [| | | exact Hin | exact W1].
      - intros s c s' Hs Hf; eapply wiring_step_trans; [exact Hs|].
        apply (create_broadcast_components_wiring env s s' op_n [c]).
        unfold create_broadcast_components; cbn [foldM]; rewrite Hf; reflexivity.
      - intros s c s' Hs Hf [io [Hio [Hone Hc]]]; exists io; split; [exact Hio|]; split.
        + eapply create_broadcast_component_keeps;
            [apply wiring_step_the_op; exact Hs | exact Hio | exact Hf | exact Hone].
        + eapply wiring_step_In; [|exact Hc].
          apply (create_broadcast_components_wiring env s s' op_n [c]).
          unfold create_broadcast_components; cbn [foldM]; rewrite Hf; reflexivity.
      - intros s s' Hs Hf.
        eapply create_broadcast_component_creates;
          [apply wiring_step_the_op; exact Hs | exact Hlen | exact Hf]. }
    destruct Hcreated as [W2 [io [Hio [Hone Hc]]]].
    exists io; split; [exact Hio|].
    destruct (negb _); [|inversion H4; subst; auto].
    revert H4.
    apply (foldM_invariant
             (fun s => one_broadcast_entity (receiver_replicates io) (broadcast_entities s)
                         (op_n, source_cname)
                       /\ In (source_cid, cid_broadcast_rx op_n source_cname)
                             (connections_entity_ s))); [|auto].
    intros s next s' [Hs Hcs] Hf.
    destruct (_ && _); [|inversion Hf; subst; auto].
    destruct (get_port_map (fragment_ s) op_n next); [|discriminate].
    destruct (has_broadcast (broadcast_entities s) op_n); [|inversion Hf; subst; auto].
    split; [eapply connect_broadcast_to_previous_op_entities; eassumption|].
    eapply wiring_step_In; [|exact Hcs].
    eapply (connect_broadcast_to_previous_op_wiring env (fun _ => True));
      try exact Hf; intros; exact I.
  - split; [|discriminate]; intros _.
    inversion H2; subst; exact Hb.
Qed.

End Broadcast.

(** The plan of [Examples.fan_out], one output connected to two inputs of
    the same fragment: two direct connections and no broadcast entity. *)
Lemma fan_out_without_broadcast :
  match initialize_fragment Examples.env 10
          (Examples.executor_of Examples.fan_out) nil with
  | Ok (w, ex, _) =>
      initialization_order w = [0; 1; 2]%nat
      /\ connections_entity_ ex
         = [(cid_port 0 kOutput "out", cid_port 1 kInput "in");
            (cid_port 0 kOutput "out", cid_port 2 kInput "in")]
      /\ broadcast_entities ex = nil
  | _ => False
  end.
Proof. vm_compute; repeat split. Qed.

(** ** Lowering of a connection to another fragment (C7) *)

Section Lowering.

Variable env : Environment.

Hypothesis kAnySize_not_one : env_kAnySize env <> kSizeOne.

Lemma lookup_head {A : Type} (k : string) (v : A) (m : list (string * A)) :
  lookup k ((k, v) :: m) = Some v.
Proof. cbn [lookup]; rewrite String.eqb_refl; reflexivity. Qed.

Lemma update_head {A : Type} (k : string) (v v' : A) (m : list (string * A)) :
  update k v ((k, v') :: m) = (k, v) :: m.
Proof. cbn [update]; rewrite String.eqb_refl; reflexivity. Qed.

(** A flow with one port pair between an existing output and an existing
    input that is not a multi-receiver port. *)
Lemma add_flow_single (f : Fragment) (u v : NodeType) (a b : string) (io_u io_v : IOSpec) :
  lookup a (outputs (op_heap f u)) = Some io_u ->
  lookup b (inputs (op_heap f v)) = Some io_v ->
  queue_size io_v <> env_kAnySize env ->
  add_flow env f u v [(a, b)] = Ok (graph_add_flow f u v [(a, [b])], nil).
Proof.
  intros Hu Hv Hq.
  unfold add_flow, add_flow_mapped.
  cbn [to_port_map lookup app List.length Nat.eqb negb].
  rewrite andb_false_r.
  cbn [check_output_labels]; rewrite Hu.
  cbn [map_output_labels]; rewrite lookup_head.
  cbn [List.length Nat.eqb negb]; rewrite andb_false_r.
  cbn [map_input_labels]; rewrite Hv.
  apply Z.eqb_neq in Hq; rewrite Hq; cbn [orb app].
  rewrite update_head; reflexivity.
Qed.

Lemma succ_add_node (g : FlowGraph) (n : NodeType) : succ_ (add_node g n) = succ_ g.
Proof. unfold add_node; destruct (mem_node n (ordered_nodes g)); reflexivity. Qed.

Lemma add_node_old (g : FlowGraph) (n : NodeType) :
  In n (ordered_nodes g) -> add_node g n = g.
Proof. intros H; unfold add_node; apply mem_node_In in H; rewrite H; reflexivity. Qed.

Lemma add_node_new (g : FlowGraph) (n : NodeType) :
  ~ In n (ordered_nodes g) ->
  add_node g n = mkFlowGraph (ordered_nodes g ++ [n]) (succ_ g).
Proof. intros H; unfold add_node; apply mem_node_false in H; rewrite H; reflexivity. Qed.

(** The flow between two nodes that had no edge. *)
Lemma graph_add_flow_new (f : Fragment) (u v : NodeType) (a b : string) :
  ~ In (u, v) (succ_ (graph f)) ->
  graph_add_flow f u v [(a, [b])] =
  mkFragment (frag_name f)
    (mkFlowGraph (ordered_nodes (add_node (add_node (graph f) u) v))
                 (succ_ (graph f) ++ [(u, v)]))
    (op_heap f) (upd2 (edge_data f) u v [(a, [b])])
    (next_node f) (frag_metadata_policy f) (thread_pools_ f).
Proof.
  intros H; unfold graph_add_flow.
  assert (E : has_edge (add_node (add_node (graph f) u) v) u v = false).
  { destruct (has_edge _ u v) eqn:E; [|reflexivity].
    apply has_edge_In in E; rewrite !succ_add_node in E; contradiction. }
  rewrite E, !succ_add_node; reflexivity.
Qed.

Lemma upd_same {A : Type} (h : NodeType -> A) (n : NodeType) (a : A) : upd h n a n = a.
Proof. unfold upd; rewrite Nat.eqb_refl; reflexivity. Qed.

Lemma upd_other {A : Type} (h : NodeType -> A) (n m : NodeType) (a : A) :
  m <> n -> upd h n a m = h m.
Proof. intros H; unfold upd; apply Nat.eqb_neq in H; rewrite H; reflexivity. Qed.

Lemma upd2_same {A : Type} (h : NodeType -> NodeType -> A) (u v : NodeType) (a : A) :
  upd2 h u v a u v = a.
Proof. unfold upd2, edge_eqb; cbn [fst snd]; rewrite !Nat.eqb_refl; reflexivity. Qed.

Lemma upd2_other {A : Type} (h : NodeType -> NodeType -> A) (u v x y : NodeType) (a : A) :
  (x, y) <> (u, v) -> upd2 h u v a x y = h x y.
Proof.
  intros H; unfold upd2.
  destruct (edge_eqb (x, y) (u, v)) eqn:E; [|reflexivity].
  apply edge_eqb_eq in E; contradiction.
Qed.

Lemma filter_all_false {A : Type} (p : A -> bool) (l : list A) :
  (forall x, In x l -> p x = false) -> filter p l = nil.
Proof.
  induction l as [|x l IH]; intros H; [reflexivity|].
  cbn [filter]; rewrite (H x (or_introl eq_refl)); apply IH.
  intros y Hy; apply H; right; exact Hy.
Qed.

(** The virtual operator of an output connection, and its flow. *)
Lemma create_virtual_transmitter (f : Fragment) (op_n : NodeType) (p : string)
  (item : ConnectionItem) (io : IOSpec) (virtual_ops : list NodeType) (log : list string)
  (i : nat) :
  ci_io_type item = kOutput ->
  (op_n < next_node f)%nat ->
  lookup p (outputs (op_heap f op_n)) = Some io ->
  create_virtual_operator env (Some op_n) p ((f, virtual_ops, log), i) item =
  Ok ((graph_add_flow
         (fst (alloc_op f
                 (make_virtual_op
                    ("virtual_" ++ op_name (op_heap f op_n) ++ "_" ++ p ++ "_"
                     ++ string_of_nat i) p kOutput
                    (ci_args item ++ [("local_address", ArgStr (source_ip env))])%list)))
         op_n (next_node f) [(p, [p])],
       (virtual_ops ++ [next_node f])%list, (log ++ nil)%list), S i).
Proof.
  intros Hty Hlt Hio; unfold create_virtual_operator, create_virtual_operator_of.
  rewrite Hty.
  unfold alloc_op; cbn [fst snd].
  rewrite (add_flow_single _ _ _ p p io (new_port p kInput kSizeOne)).
  - reflexivity.
  - cbn [op_heap]; rewrite upd_other; [exact Hio | lia].
  - cbn [op_heap]; rewrite upd_same; cbn [make_virtual_op inputs]; apply lookup_head.
  - cbn [new_port queue_size]; congruence.
Qed.

Lemma fold_left_unchanged {A S : Type} (step : S -> A -> S) (l : list A) (s : S) :
  (forall s a, In a l -> step s a = s) -> fold_left step l s = s.
Proof.
  revert s; induction l as [|a l IH]; intros s H; [reflexivity|].
  cbn [fold_left]; rewrite (H s a (or_introl eq_refl)); apply IH.
  intros s' b Hb; apply H; right; exact Hb.
Qed.

Lemma name_to_op_In (f : Fragment) (name : string) (op_n : NodeType) :
  name_to_op f name = Some op_n -> In op_n (ordered_nodes (graph f)).
Proof.
  unfold name_to_op, get_nodes; intros H; apply find_some in H.
  destruct H as [H _]; apply in_rev in H; exact H.
Qed.

(** The sending side of a connection to another fragment: the virtual
    transmitter is a new next operator of the source, and the output port,
    which has this one connection, gets the UCX transmitter. *)
Lemma lower_sender (f : Fragment) (item : ConnectionItem) (name p : string)
  (op_n : NodeType) (io : IOSpec) :
  allocated f ->
  ci_io_type item = kOutput ->
  env_parse_port_name env (ci_name item) = (name, p) ->
  name_to_op f name = Some op_n ->
  lookup p (outputs (op_heap f op_n)) = Some io ->
  (forall n, In n (get_next_nodes (graph f) op_n) -> lookup p (edge_data f op_n n) = None) ->
  let v := next_node f in
  let args := (ci_args item ++ [("local_address", ArgStr (source_ip env))])%list in
  exists f',
    lower_connections env f [item] = Ok (f', nil)
    /\ get_nodes (graph f') = (get_nodes (graph f) ++ [v])%list
    /\ succ_ (graph f') = (succ_ (graph f) ++ [(op_n, v)])%list
    /\ op_heap f' v
       = make_virtual_op ("virtual_" ++ op_name (op_heap f op_n) ++ "_" ++ p ++ "_0")
                         p kOutput args
    /\ get_port_map f' op_n v = Some [(p, [p])]
    /\ connection_count f' op_n p = 1
    /\ lookup p (outputs (op_heap f' op_n)) = Some (set_connector_of_type env io kUCX args)
    /\ (forall n, n <> op_n -> n <> v -> op_heap f' n = op_heap f n).
Proof.
  intros [Hnodes Hedges] Hty Hparse Hname Hio Hlocal v args.
  assert (Hin : In op_n (ordered_nodes (graph f))) by (eapply name_to_op_In; exact Hname).
  assert (Hlt : (op_n < v)%nat) by (apply Hnodes; exact Hin).
  assert (Hnew : ~ In v (ordered_nodes (graph f)))
    by (intros H; apply Hnodes in H; unfold v in H; lia).
  assert (Hnoedge : forall a b, In (a, b) (succ_ (graph f)) -> a <> v /\ b <> v)
    by (intros a b H; apply Hedges in H; unfold v; lia).
  pose (vop := make_virtual_op ("virtual_" ++ op_name (op_heap f op_n) ++ "_" ++ p ++ "_0")
                               p kOutput args).
  pose (F2 := mkFragment (frag_name f)
                (mkFlowGraph (ordered_nodes (graph f) ++ [v])
                             (succ_ (graph f) ++ [(op_n, v)]))
                (upd (op_heap f) v vop) (upd2 (edge_data f) op_n v [(p, [p])])
                (S v) (frag_metadata_policy f) (thread_pools_ f)).
  assert (Hlower : create_virtual_operators_and_connections env f
                     [(Some op_n, [(p, [item])])]
                   = Ok (F2, [v], nil)).
  { unfold create_virtual_operators_and_connections; cbn [foldM fst snd].
    rewrite (create_virtual_transmitter f op_n p item io nil nil 0 Hty Hlt Hio).
    cbn [bind fst snd app].
    rewrite graph_add_flow_new
      by (unfold alloc_op; cbn [fst graph]; intros H; apply Hnoedge in H; tauto).
    unfold alloc_op; cbn [fst graph frag_name op_heap edge_data next_node
                          frag_metadata_policy thread_pools_].
    rewrite (add_node_old _ op_n Hin), (add_node_new _ (next_node f) Hnew).
    reflexivity. }
  assert (Hprev : get_previous_nodes (graph F2) v = [op_n]).
  { unfold get_previous_nodes; cbn [F2 graph succ_].
    rewrite filter_app, filter_all_false.
    - cbn [filter snd app]; rewrite Nat.eqb_refl; reflexivity.
    - intros [a b] H; cbn [snd]; apply Nat.eqb_neq; apply Hnoedge in H; tauto. }
  assert (Hmap : get_port_map F2 op_n v = Some [(p, [p])]).
  { unfold get_port_map.
    assert (E : has_edge (graph F2) op_n v = true)
      by (apply has_edge_In; cbn; apply in_or_app; right; left; reflexivity).
    rewrite E; cbn [F2 edge_data]; rewrite upd2_same; reflexivity. }
  assert (Hcount : connection_count F2 op_n p = 1).
  { unfold connection_count, get_next_nodes.
    replace (succ_ (graph F2)) with (succ_ (graph f) ++ [(op_n, v)])%list by reflexivity.
    rewrite filter_app, map_app, fold_left_app.
    cbn [filter fst]; rewrite Nat.eqb_refl; cbn [map snd fold_left].
    rewrite Hmap, lookup_head.
    rewrite fold_left_unchanged; [reflexivity|].
    intros c n Hn.
    assert (Hn' : In n (get_next_nodes (graph f) op_n)) by exact Hn.
    unfold get_port_map; destruct (has_edge (graph F2) op_n n); [|reflexivity].
    cbn [F2 edge_data].
    rewrite upd2_other.
    - rewrite (Hlocal n Hn'); lia.
    - apply In_get_next_nodes, Hnoedge in Hn'; intros E; inversion E; tauto. }
  assert (Hlast : op_heap F2 op_n = op_heap f op_n)
    by (cbn [F2 op_heap]; apply upd_other; lia).
  pose (f' := set_op F2 op_n
                (set_outputs (op_heap f op_n)
                   (modify_port p (fun io => set_connector_of_type env io kUCX args)
                                (outputs (op_heap f op_n))))).
  exists f'; split.
  - unfold lower_connections, generate_connection_map; cbn [fold_left].
    rewrite Hparse, Hname; cbn [add_connection_item].
    rewrite Hlower; cbn [bind].
    unfold connect_ucx_transmitters_to_virtual_ops; cbn [foldM].
    unfold connect_ucx_transmitter.
    replace (op_heap F2 v) with vop by (cbn [F2 op_heap]; rewrite upd_same; reflexivity).
    cbn [vop make_virtual_op virt_io_type virt_port_name virt_arg_list].
    rewrite Hprev, Hcount, Hlast, Hio; reflexivity.
  - split; [reflexivity|]; split; [reflexivity|]; split.
    + cbn [f' set_op op_heap F2].
      rewrite upd_other by lia; apply upd_same.
    + split; [exact Hmap|]; split; [exact Hcount|]; split.
      * cbn [f' set_op op_heap]; rewrite upd_same; cbn [set_outputs outputs].
        exact (lookup_modify_port p (fun io => set_connector_of_type env io kUCX args)
                 _ io Hio).
      * intros n Hn Hv; cbn [f' set_op op_heap F2]; rewrite !upd_other; auto.
Qed.

(** The receiving side of a connection to another fragment: a virtual
    receiver, a forward operator with the UCX receiver on its input, and the
    two flows from the virtual receiver to the forward operator and from
    there to the destination port. *)
Lemma lower_receiver (f : Fragment) (item : ConnectionItem) (name p : string)
  (op_n : NodeType) (io : IOSpec) :
  allocated f ->
  ci_io_type item = kInput ->
  env_parse_port_name env (ci_name item) = (name, p) ->
  name_to_op f name = Some op_n ->
  lookup p (inputs (op_heap f op_n)) = Some io ->
  queue_size io <> env_kAnySize env ->
  let v := next_node f in
  let fwd := S (next_node f) in
  exists f',
    lower_connections env f [item] = Ok (f', nil)
    /\ get_nodes (graph f') = (get_nodes (graph f) ++ [v; fwd])%list
    /\ succ_ (graph f') = (succ_ (graph f) ++ [(v, fwd); (fwd, op_n)])%list
    /\ op_heap f' v
       = make_virtual_op ("virtual_" ++ op_name (op_heap f op_n) ++ "_" ++ p ++ "_0")
                         p kInput (ci_args item)
    /\ op_heap f' fwd
       = set_inputs (make_forward_op ("forward_" ++ op_name (op_heap f op_n) ++ "_" ++ p))
           [("in", set_connector_of_type env (new_port "in" kInput kSizeOne) kUCX
                     (ci_args item))]
    /\ get_port_map f' v fwd = Some [(p, ["in"])]
    /\ get_port_map f' fwd op_n = Some [("out", [p])]
    /\ (forall n, n <> v -> n <> fwd -> op_heap f' n = op_heap f n).
Proof.
  intros [Hnodes Hedges] Hty Hparse Hname Hio Hq v fwd.
  assert (Hin : In op_n (ordered_nodes (graph f))) by (eapply name_to_op_In; exact Hname).
  assert (Hlt : (op_n < v)%nat) by (apply Hnodes; exact Hin).
  assert (Hnew : ~ In v (ordered_nodes (graph f)))
    by (intros H; apply Hnodes in H; unfold v in H; lia).
  assert (Hnew' : ~ In fwd (ordered_nodes (graph f)))
    by (intros H; apply Hnodes in H; unfold fwd in H; lia).
  assert (Hnoedge : forall a b, In (a, b) (succ_ (graph f)) ->
                                (a < v)%nat /\ (b < v)%nat)
    by (intros a b H; apply Hedges in H; exact H).
  pose (vop := make_virtual_op ("virtual_" ++ op_name (op_heap f op_n) ++ "_" ++ p ++ "_0")
                               p kInput (ci_args item)).
  pose (fop := set_inputs
                 (make_forward_op ("forward_" ++ op_name (op_heap f op_n) ++ "_" ++ p))
                 [("in", set_connector_of_type env (new_port "in" kInput kSizeOne) kUCX
                           (ci_args item))]).
  pose (F2 := mkFragment (frag_name f) (graph f) (upd (upd (op_heap f) v vop) fwd fop)
                (edge_data f) (S fwd) (frag_metadata_policy f) (thread_pools_ f)).
  pose (F3 := mkFragment (frag_name f)
                (mkFlowGraph ((ordered_nodes (graph f) ++ [v]) ++ [fwd])
                             (succ_ (graph f) ++ [(v, fwd)]))
                (op_heap F2) (upd2 (edge_data f) v fwd [(p, ["in"])])
                (S fwd) (frag_metadata_policy f) (thread_pools_ f)).
  pose (F4 := mkFragment (frag_name f)
                (mkFlowGraph ((ordered_nodes (graph f) ++ [v]) ++ [fwd])
                             ((succ_ (graph f) ++ [(v, fwd)]) ++ [(fwd, op_n)]))
                (op_heap F2) (upd2 (edge_data F3) fwd op_n [("out", [p])])
                (S fwd) (frag_metadata_policy f) (thread_pools_ f)).
  assert (Hop : op_heap F2 op_n = op_heap f op_n)
    by (cbn [F2 op_heap]; rewrite !upd_other by (unfold fwd; lia); reflexivity).
  assert (Hflow1 : add_flow env F2 v fwd [(p, "in")] = Ok (F3, nil)).
  { rewrite (add_flow_single F2 v fwd p "in" (new_port p kOutput kSizeOne)
               (set_connector_of_type env (new_port "in" kInput kSizeOne) kUCX
                  (ci_args item))).
    - rewrite graph_add_flow_new
        by (cbn [F2 graph]; intros H; apply Hnoedge in H; lia).
      cbn [F2 graph frag_name op_heap edge_data next_node frag_metadata_policy
           thread_pools_].
      rewrite (add_node_new _ v Hnew).
      rewrite add_node_new.
      + reflexivity.
      + cbn [ordered_nodes]; intros H; apply in_app_or in H.
        destruct H as [H | [H | []]]; [exact (Hnew' H) | unfold fwd in H; lia].
    - cbn [F2 op_heap]; rewrite upd_other by (unfold fwd; lia).
      rewrite upd_same; cbn [vop make_virtual_op outputs]; apply lookup_head.
    - cbn [F2 op_heap]; rewrite upd_same; reflexivity.
    - cbn; congruence. }
  assert (Hflow2 : add_flow env F3 fwd op_n [("out", p)] = Ok (F4, nil)).
  { rewrite (add_flow_single F3 fwd op_n "out" p (new_port "out" kOutput kSizeOne) io).
    - rewrite graph_add_flow_new.
      + cbn [F3 graph frag_name op_heap edge_data next_node frag_metadata_policy
             thread_pools_ ordered_nodes succ_].
        rewrite (add_node_old _ fwd)
          by (cbn [ordered_nodes]; apply in_or_app; right; left; reflexivity).
        rewrite (add_node_old _ op_n)
          by (cbn [ordered_nodes]; apply in_or_app; left; apply in_or_app; left;
              exact Hin).
        reflexivity.
      + cbn [F3 graph succ_]; intros H; apply in_app_or in H.
        destruct H as [H | [H | []]];
          [apply Hnoedge in H; unfold fwd in H; lia | inversion H; unfold fwd in *; lia].
    - cbn [F3 F2 op_heap]; rewrite upd_same; reflexivity.
    - change (op_heap F3 op_n) with (op_heap F2 op_n); rewrite Hop; exact Hio.
    - exact Hq. }
  exists F4; split.
  - unfold lower_connections, generate_connection_map; cbn [fold_left].
    rewrite Hparse, Hname; cbn [add_connection_item].
    unfold create_virtual_operators_and_connections; cbn [foldM fst snd].
    unfold create_virtual_operator, create_virtual_operator_of; rewrite Hty.
    unfold alloc_op; cbn [fst snd op_heap next_node frag_name graph edge_data
                          frag_metadata_policy thread_pools_].
    rewrite upd_other by lia.
    rewrite Hio.
    apply Z.eqb_neq in Hq; rewrite Hq; cbn [bind].
    match goal with
    | |- context [add_flow env ?F (next_node f) (S (next_node f)) [(p, "in")]] =>
        change (add_flow env F (next_node f) (S (next_node f)) [(p, "in")])
          with (add_flow env F2 v fwd [(p, "in")])
    end.
    rewrite Hflow1; cbn [bind fst snd].
    change (S (next_node f)) with fwd.
    rewrite Hflow2; cbn [bind fst snd app].
    unfold connect_ucx_transmitters_to_virtual_ops; cbn [foldM].
    unfold connect_ucx_transmitter.
    replace (op_heap F4 (next_node f)) with vop
      by (cbn [F4 F2 op_heap]; rewrite upd_other by (unfold fwd; lia);
          rewrite upd_same; reflexivity).
    reflexivity.
  - split; [cbn [F4 graph get_nodes ordered_nodes]; rewrite <- app_assoc; reflexivity|].
    split; [cbn [F4 graph succ_]; rewrite <- app_assoc; reflexivity|].
    split; [cbn [F4 F2 op_heap]; rewrite upd_other by (unfold fwd; lia); apply upd_same|].
    split; [cbn [F4 F2 op_heap]; apply upd_same|].
    split; [|split].
    + unfold get_port_map.
      assert (E : has_edge (graph F4) v fwd = true)
        by (apply has_edge_In; cbn; apply in_or_app; left; apply in_or_app; right;
            left; reflexivity).
      rewrite E; cbn [F4 F3 edge_data].
      rewrite upd2_other by (intros H; inversion H; unfold fwd in *; lia).
      rewrite upd2_same; reflexivity.
    + unfold get_port_map.
      assert (E : has_edge (graph F4) fwd op_n = true)
        by (apply has_edge_In; cbn; apply in_or_app; right; left; reflexivity).
      rewrite E; cbn [F4 edge_data]; rewrite upd2_same; reflexivity.
    + intros n Hv Hf; cbn [F4 F2 op_heap]; rewrite !upd_other; auto.
Qed.

Lemma add_broadcast_transmitter_keys (b : BroadcastEntityMapType)
  (key : NodeType * string) (t : BroadcastTransmitter) :
  map fst (add_broadcast_transmitter b key t) = map fst b.
Proof.
  unfold add_broadcast_transmitter; rewrite map_map; apply map_ext.
  intros e; destruct (key_eqb (fst e) key); reflexivity.
Qed.

(** No broadcast component for the source ports with one target. *)
Lemma create_broadcast_components_single (ex : Executor) (op_n : NodeType)
  (connections : TargetConnectionsMapType) :
  (forall c, In c connections -> (List.length (snd (snd c)) <= 1)%nat) ->
  create_broadcast_components env ex op_n connections = Ok ex.
Proof.
  unfold create_broadcast_components.
  induction connections as [|[cid [[cname ct] targets]] connections IH]; intros H;
    [reflexivity|].
  assert (Hlen : (List.length targets <= 1)%nat)
    by exact (H (cid, (cname, ct, targets)) (or_introl eq_refl)).
  assert (IH' : foldM (create_broadcast_component env op_n) connections ex = Ok ex)
    by (apply IH; intros c Hc; apply H; right; exact Hc).
  cbn [foldM]; unfold create_broadcast_component at 1.
  destruct targets as [|t1 [|t2 targets]]; cbn [bind]; try exact IH'.
  cbn in Hlen; lia.
Qed.

Lemma connect_broadcast_to_previous_op_keys (ex ex' : Executor) (op_n prev_n : NodeType) :
  connect_broadcast_to_previous_op env ex op_n prev_n = Ok ex' ->
  map fst (broadcast_entities ex') = map fst (broadcast_entities ex).
Proof.
  unfold connect_broadcast_to_previous_op.
  apply (foldM_invariant
           (fun s => map fst (broadcast_entities s) = map fst (broadcast_entities ex)));
    [|reflexivity].
  intros s port s' Hs Hf; unfold connect_broadcast_port in Hf.
  destruct (lookup port (edge_data (fragment_ s) prev_n op_n)) as [targets|].
  - apply bind_Ok in Hf; destruct Hf as [s1 [H1 Hf]]; inversion Hf; subst; cbn.
    revert H1.
    apply (foldM_invariant
             (fun s => map fst (broadcast_entities s) = map fst (broadcast_entities ex)));
      [|exact Hs].
    intros x tp x' Hx Hb.
    apply broadcast_to_target_entities in Hb; destruct Hb as [-> | [t ->]];
      [exact Hx | rewrite add_broadcast_transmitter_keys; exact Hx].
  - inversion Hf; subst; exact Hs.
Qed.

(** When every source port of the operator has one target, the downstream
    pass registers no broadcast entity. *)
Lemma connect_next_ops_single_targets (ex ex' : Executor) (op_n : NodeType)
  (connections : TargetConnectionsMapType) :
  connect_next_ops env ex op_n connections = Ok ex' ->
  (forall c, In c connections -> (List.length (snd (snd c)) <= 1)%nat) ->
  map fst (broadcast_entities ex') = map fst (broadcast_entities ex).
Proof.
  intros H Hsingle; unfold connect_next_ops in H.
  apply bind_Ok in H; destruct H as [[ex1 ucx] [H1 H2]].
  destruct (connect_initialized_targets_flag _ _ _ _ _ H1) as [_ [Hb _]].
  rewrite <- Hb.
  destruct (_ || _); [|inversion H2; subst; reflexivity].
  rewrite (create_broadcast_components_single ex1 op_n connections Hsingle) in H2.
  cbn [bind] in H2.
  destruct (negb _); [|inversion H2; subst; reflexivity].
  revert H2.
  apply (foldM_invariant
           (fun s => map fst (broadcast_entities s) = map fst (broadcast_entities ex1)));
    [|reflexivity].
  intros s next s' Hs Hf.
  destruct (_ && _); [|inversion Hf; subst; exact Hs].
  destruct (get_port_map (fragment_ s) op_n next); [|discriminate].
  destruct (has_broadcast (broadcast_entities s) op_n); [|inversion Hf; subst; exact Hs].
  rewrite (connect_broadcast_to_previous_op_keys _ _ _ _ Hf); exact Hs.
Qed.

(** C7.  A single connection to another fragment is lowered to the chain
    source operator, virtual transmitter on the sending side, and virtual
    receiver, forward operator, destination operator on the receiving side.
    On the sending side the virtual transmitter becomes a next operator of
    the source, over the port map from the port to itself; the port then has
    the connection count 1, and its connector is set to the UCX transmitter
    with the arguments of the connection.  On the receiving side a forward
    operator is created with the UCX receiver on its input "in", with the
    two flows from the virtual receiver to "in" and from "out" to the
    destination port.  An operator whose source ports have one target each
    gets no broadcast entity. *)
Theorem single_remote_connection_is_lowered_to_a_chain :
  (forall (f : Fragment) (item : ConnectionItem) (name p : string) (op_n : NodeType)
          (io : IOSpec),
     allocated f ->
     ci_io_type item = kOutput ->
     env_parse_port_name env (ci_name item) = (name, p) ->
     name_to_op f name = Some op_n ->
     lookup p (outputs (op_heap f op_n)) = Some io ->
     (forall n, In n (get_next_nodes (graph f) op_n) ->
                lookup p (edge_data f op_n n) = None) ->
     let v := next_node f in
     let args := (ci_args item ++ [("local_address", ArgStr (source_ip env))])%list in
     exists f',
       lower_connections env f [item] = Ok (f', nil)
       /\ get_nodes (graph f') = (get_nodes (graph f) ++ [v])%list
       /\ succ_ (graph f') = (succ_ (graph f) ++ [(op_n, v)])%list
       /\ op_heap f' v
          = make_virtual_op ("virtual_" ++ op_name (op_heap f op_n) ++ "_" ++ p ++ "_0")
                            p kOutput args
       /\ get_port_map f' op_n v = Some [(p, [p])]
       /\ connection_count f' op_n p = 1
       /\ lookup p (outputs (op_heap f' op_n))
          = Some (set_connector_of_type env io kUCX args)
       /\ (forall n, n <> op_n -> n <> v -> op_heap f' n = op_heap f n))
  /\ (forall (f : Fragment) (item : ConnectionItem) (name p : string) (op_n : NodeType)
             (io : IOSpec),
        allocated f ->
        ci_io_type item = kInput ->
        env_parse_port_name env (ci_name item) = (name, p) ->
        name_to_op f name = Some op_n ->
        lookup p (inputs (op_heap f op_n)) = Some io ->
        queue_size io <> env_kAnySize env ->
        let v := next_node f in
        let fwd := S (next_node f) in
        exists f',
          lower_connections env f [item] = Ok (f', nil)
          /\ get_nodes (graph f') = (get_nodes (graph f) ++ [v; fwd])%list
          /\ succ_ (graph f') = (succ_ (graph f) ++ [(v, fwd); (fwd, op_n)])%list
          /\ op_heap f' v
             = make_virtual_op
                 ("virtual_" ++ op_name (op_heap f op_n) ++ "_" ++ p ++ "_0")
                 p kInput (ci_args item)
          /\ op_heap f' fwd
             = set_inputs
                 (make_forward_op ("forward_" ++ op_name (op_heap f op_n) ++ "_" ++ p))
                 [("in", set_connector_of_type env (new_port "in" kInput kSizeOne) kUCX
                           (ci_args item))]
          /\ get_port_map f' v fwd = Some [(p, ["in"])]
          /\ get_port_map f' fwd op_n = Some [("out", [p])]
          /\ (forall n, n <> v -> n <> fwd -> op_heap f' n = op_heap f n))
  /\ (forall (ex ex' : Executor) (op_n : NodeType)
             (connections : TargetConnectionsMapType),
        connect_next_ops env ex op_n connections = Ok ex' ->
        (forall c, In c connections -> (List.length (snd (snd c)) <= 1)%nat) ->
        map fst (broadcast_entities ex') = map fst (broadcast_entities ex)).
Proof.
  split; [exact lower_sender|].
  split; [exact lower_receiver | exact connect_next_ops_single_targets].
Qed.

End Lowering.

(** The operators of the example fragments are allocated. *)
Lemma allocated_sender : allocated Examples.sender.
Proof.
  split.
  - intros n [<- | []]; cbn; lia.
  - intros u v [].
Defined.

Lemma allocated_receiver : allocated Examples.receiver.
Proof.
  split.
  - intros n [<- | []]; cbn; lia.
  - intros u v [].
Defined.

(** The connection "tx.out" of [Examples.sender] and the connection
    "rx.in" of [Examples.receiver] are lowered, and the plan of the sender
    has no broadcast entity. *)
Lemma single_remote_connection_is_lowered_to_a_chain_witness :
  (exists f',
     lower_connections Examples.env Examples.sender
       [mkConnectionItem "tx.out" kOutput Examples.ucx_args] = Ok (f', nil)
     /\ succ_ (graph f') = [(0, 1)]%nat
     /\ operator_type (op_heap f' 1%nat) = kVirtual
     /\ connection_count f' 0%nat "out" = 1
     /\ option_map connector_type (lookup "out" (outputs (op_heap f' 0%nat))) = Some kUCX)
  /\ (exists f',
        lower_connections Examples.env Examples.receiver
          [mkConnectionItem "rx.in" kInput Examples.ucx_args] = Ok (f', nil)
        /\ succ_ (graph f') = [(1, 2); (2, 0)]%nat
        /\ get_port_map f' 1%nat 2%nat = Some [("in", ["in"])]
        /\ get_port_map f' 2%nat 0%nat = Some [("out", ["in"])])
  /\ map fst (broadcast_entities Examples.sender_wired) = nil.
Proof.
  assert (Hany : env_kAnySize Examples.env <> kSizeOne) by (cbn; discriminate).
  destruct (single_remote_connection_is_lowered_to_a_chain Examples.env Hany)
    as [Hsend [Hrecv Hsingle]].
  split; [|split].
  - destruct (Hsend Examples.sender (mkConnectionItem "tx.out" kOutput Examples.ucx_args)
                "tx" "out" 0%nat (new_port "out" kOutput kSizeOne))
      as [f' [Hl [_ [Hs [Hv [_ [Hc [Ho _]]]]]]]].
    + exact allocated_sender.
    + reflexivity.
    + reflexivity.
    + reflexivity.
    + reflexivity.
    + intros n [].
    + exists f'; split; [exact Hl|]; split; [exact Hs|]; split; [|split].
      * change (next_node Examples.sender) with 1%nat in Hv; rewrite Hv; reflexivity.
      * exact Hc.
      * rewrite Ho; reflexivity.
  - destruct (Hrecv Examples.receiver (mkConnectionItem "rx.in" kInput Examples.ucx_args)
                "rx" "in" 0%nat (new_port "in" kInput 1))
      as [f' [Hl [_ [Hs [_ [_ [H1 [H2 _]]]]]]]].
    + exact allocated_receiver.
    + reflexivity.
    + reflexivity.
    + reflexivity.
    + reflexivity.
    + cbn; discriminate.
    + exists f'; split; [exact Hl|]; split; [exact Hs|]; split; [exact H1 | exact H2].
  - rewrite (Hsingle Examples.sender_initialized Examples.sender_wired 0%nat
               Examples.sender_connections).
    + vm_compute; reflexivity.
    + vm_compute; reflexivity.
    + intros c Hc; vm_compute in Hc.
      destruct Hc as [<- | []]; cbn; lia.
Defined.

(** * Further properties of the code *)

(** ** Fragment::add_flow: a rejected flow adds no edge *)

Section AddFlowFrame.

Variable env : Environment.

(** What [add_flow] may change without adding the edge: the operators (the
    ports created for a multi-receiver parameter), not the graph, the port
    maps or the allocation of operators. *)
Lemma add_receivers_graph (f : Fragment) (v : NodeType) (name : string) (p : ParamInfo) :
  graph (fst (add_receivers f v name p)) = graph f
  /\ edge_data (fst (add_receivers f v name p)) = edge_data f
  /\ next_node (fst (add_receivers f v name p)) = next_node f.
Proof. repeat split. Qed.

Lemma map_input_labels_graph (v : NodeType) (n : nat) (labels : list string) :
  forall (f : Fragment) (acc : list string),
    graph (fst (map_input_labels env v n labels f acc)) = graph f
    /\ edge_data (fst (map_input_labels env v n labels f acc)) = edge_data f
    /\ next_node (fst (map_input_labels env v n labels f acc)) = next_node f.
Proof.
  induction labels as [|l labels IH]; intros f acc; [repeat split|].
  cbn [map_input_labels].
  destruct (_ || _); [|apply IH].
  match goal with
  | |- context [match ?d with Some _ => _ | None => _ end] => destruct d as [[first [|]]|]
  end; try (repeat split; fail).
  - destruct (lookup first (params (op_heap f v))) as [[[|] vec]|];
      try (destruct (inputs (op_heap f v)); repeat split; fail).
    destruct (add_receivers f v first (mkParamInfo true vec)) as [f1 lbl] eqn:E.
    destruct (IH f1 (acc ++ [lbl])%list) as [A [B C]].
    rewrite A, B, C.
    replace f1 with (fst (add_receivers f v first (mkParamInfo true vec)))
      by (rewrite E; reflexivity).
    apply add_receivers_graph.
  - destruct (lookup l (params (op_heap f v))) as [[[|] vec]|];
      try (destruct (inputs (op_heap f v)); repeat split; fail).
    destruct (add_receivers f v l (mkParamInfo true vec)) as [f1 lbl] eqn:E.
    destruct (IH f1 (acc ++ [lbl])%list) as [A [B C]].
    rewrite A, B, C.
    replace f1 with (fst (add_receivers f v l (mkParamInfo true vec)))
      by (rewrite E; reflexivity).
    apply add_receivers_graph.
Qed.

Lemma map_output_labels_graph (v : NodeType) (labels : list string) :
  forall (f : Fragment) (port_map : PortMap),
    graph (fst (map_output_labels env v labels f port_map)) = graph f
    /\ edge_data (fst (map_output_labels env v labels f port_map)) = edge_data f
    /\ next_node (fst (map_output_labels env v labels f port_map)) = next_node f.
Proof.
  induction labels as [|l labels IH]; intros f port_map; [repeat split|].
  cbn [map_output_labels].
  destruct (_ && _); [repeat split|].
  match goal with
  | |- context [map_input_labels env v ?n ?ls f nil] =>
      pose proof (map_input_labels_graph v n ls f nil) as H;
      destruct (map_input_labels env v n ls f nil) as [f1 [err|new_labels]]
  end; cbn [fst] in H.
  - exact H.
  - destruct H as [A [B C]].
    destruct (IH f1 (update l (fold_left (fun acc t => insert_string t acc) new_labels nil)
                            port_map)) as [A' [B' C']].
    rewrite A', B', C'; auto.
Qed.

Lemma succ_graph_add_flow (f : Fragment) (u v : NodeType) (port_map : PortMap) :
  In (u, v) (succ_ (graph (graph_add_flow f u v port_map))).
Proof.
  unfold graph_add_flow.
  destruct (has_edge (add_node (add_node (graph f) u) v) u v) eqn:E; cbn [graph succ_].
  - apply has_edge_In; exact E.
  - apply in_or_app; right; left; reflexivity.
Qed.

(** X3.  [add_flow] logs at most one error.  When it logs one, the flow is
    rejected: the graph, the port maps of its edges and the allocation of
    operators are as before.  When it logs none, the edge from the upstream
    to the downstream operator is in the graph. *)
Theorem add_flow_rejects_without_adding_an_edge (f f' : Fragment) (u v : NodeType)
  (port_pairs : list (string * string)) (log : list string) :
  add_flow env f u v port_pairs = Ok (f', log) ->
  (log = nil /\ In (u, v) (succ_ (graph f')))
  \/ ((exists err, log = [err])
      /\ graph f' = graph f /\ edge_data f' = edge_data f /\ next_node f' = next_node f).
Proof.
  assert (Hmapped : forall pairs,
            add_flow_mapped env f u v pairs = (f', log) ->
            (log = nil /\ In (u, v) (succ_ (graph f')))
            \/ ((exists err, log = [err])
                /\ graph f' = graph f /\ edge_data f' = edge_data f
                /\ next_node f' = next_node f)).
  { intros pairs; unfold add_flow_mapped.
    destruct (to_port_map pairs nil nil) as [port_map output_labels].
    destruct (_ && _);
      [intros H; inversion H; subst; right; split; [eexists; reflexivity | auto]|].
    destruct (check_output_labels (op_heap f u) output_labels output_labels port_map)
      as [err|[port_map1 output_labels1]];
      [intros H; inversion H; subst; right; split; [eexists; reflexivity | auto]|].
    pose proof (map_output_labels_graph v output_labels1 f port_map1) as Hg.
    destruct (map_output_labels env v output_labels1 f port_map1) as [f1 [err|port_map2]];
      cbn [fst] in Hg; intros H; inversion H; subst.
    - right; split; [eexists; reflexivity | exact Hg].
    - left; split; [reflexivity | apply succ_graph_add_flow]. }
  unfold add_flow.
  destruct port_pairs as [|pair port_pairs];
    [|intros H; inversion H as [H1]; apply (Hmapped _ H1)].
  destruct (_ || _).
  - destruct (_ || _); intros H; inversion H; subst.
    + right; split; [eexists; reflexivity | auto].
    + left; split; [reflexivity|].
      unfold add_control_flow.
      repeat match goal with
             | |- context [match ?x with Some _ => _ | None => _ end] => destruct x
             end; cbn [set_op graph]; apply succ_graph_add_flow.
  - destruct (1 <? _);
      [intros H; inversion H; subst; right; split; [eexists; reflexivity | auto]|].
    destruct (1 <? _);
      [intros H; inversion H; subst; right; split; [eexists; reflexivity | auto]|].
    intros H; inversion H as [H1]; apply (Hmapped _ H1).
Qed.

End AddFlowFrame.

(** ** Fragment::add_flow: default port names *)

Section AddFlowDefaults.

Variable env : Environment.

(** X4.  Between an operator with one output port and an operator with one input
    port (not a multi-receiver port, and no execution port), a flow without
    port names is the flow between the two ports. *)
Theorem add_flow_without_port_names (f : Fragment) (u v : NodeType) (a b : string)
  (io_a io_b : IOSpec) :
  outputs (op_heap f u) = [(a, io_a)] ->
  inputs (op_heap f v) = [(b, io_b)] ->
  input_exec_spec (op_heap f v) = None ->
  a <> "" -> b <> "" ->
  queue_size io_b <> env_kAnySize env ->
  add_flow env f u v nil = add_flow env f u v [(a, b)]
  /\ add_flow env f u v nil = Ok (graph_add_flow f u v [(a, [b])], nil).
Proof.
  intros Hout Hin Hexec Ha Hb Hq.
  assert (Hnamed : add_flow env f u v [(a, b)] = Ok (graph_add_flow f u v [(a, [b])], nil)).
  { apply (add_flow_single env f u v a b io_a io_b).
    - rewrite Hout; apply lookup_head.
    - rewrite Hin; apply lookup_head.
    - exact Hq. }
  rewrite Hnamed.
  enough (Hdefault : add_flow env f u v nil = Ok (graph_add_flow f u v [(a, [b])], nil))
    by (split; exact Hdefault).
  assert (Ea : String.eqb "" a = false) by (apply String.eqb_neq; congruence).
  assert (Eb : String.eqb "" b = false) by (apply String.eqb_neq; congruence).
  apply Z.eqb_neq in Hq.
  unfold add_flow; rewrite Hin, Hout, Hexec.
  cbn [is_nil orb List.length Z.of_nat Pos.of_succ_nat Z.ltb Z.compare Pos.compare
       Pos.compare_cont].
  unfold add_flow_mapped; rewrite Hout.
  cbn [to_port_map lookup app List.length Nat.eqb negb andb].
  cbn [check_output_labels]; rewrite Hout.
  cbn [lookup]; rewrite Ea.
  cbn [String.eqb lookup erase app].
  cbn [map_output_labels]; rewrite lookup_head, Hin.
  cbn [List.length Nat.eqb negb andb].
  cbn [map_input_labels]; rewrite Hin.
  cbn [lookup]; rewrite Eb.
  cbn [orb negb andb List.length Nat.eqb String.eqb].
  rewrite Hq; cbn [negb app].
  rewrite update_head; reflexivity.
Qed.

End AddFlowDefaults.

(** ** Formatting of numbers *)

Lemma string_of_Z_inj (x y : Z) : string_of_Z x = string_of_Z y -> x = y.
Proof.
  unfold string_of_Z; intros H.
  assert (Hnil : forall z, Z.to_int z <> Decimal.Pos Decimal.Nil
                           /\ Z.to_int z <> Decimal.Neg Decimal.Nil).
  { intros z; split; intros E; pose proof (f_equal Z.of_int E) as E';
      rewrite DecimalZ.of_to in E'; cbn in E'; subst z; discriminate E. }
  apply DecimalZ.to_int_inj.
  assert (E : NilZero.int_of_string (NilZero.string_of_int (Z.to_int x))
              = NilZero.int_of_string (NilZero.string_of_int (Z.to_int y)))
    by (rewrite H; reflexivity).
  rewrite !NilZero.isi in E by apply Hnil.
  inversion E; reflexivity.
Qed.

Lemma string_of_nat_inj (m n : nat) : string_of_nat m = string_of_nat n -> m = n.
Proof. unfold string_of_nat; intros H; apply string_of_Z_inj in H; lia. Qed.

Lemma append_inj_l (s x y : string) : (s ++ x = s ++ y)%string -> x = y.
Proof.
  induction s as [|c s IH]; cbn [append]; intros H; [exact H|].
  inversion H; auto.
Qed.

Lemma append_not_self (s x : string) : x <> "" -> (s ++ x)%string <> s.
Proof.
  intros Hx H; apply Hx.
  apply (append_inj_l s).
  rewrite H; clear H; induction s as [|c s IH]; cbn [append]; [reflexivity|].
  rewrite <- IH; reflexivity.
Qed.

(** ** Fragment::add_flow: connections to a multi-receiver parameter *)

Section AddFlowReceivers.

Variable env : Environment.

(** One connection to the parameter [r] of the downstream operator, which
    is not the name of an input port. *)
Lemma add_flow_to_receivers (f : Fragment) (u v : NodeType) (a r : string)
  (io_a : IOSpec) (vec : option (list string)) :
  lookup a (outputs (op_heap f u)) = Some io_a ->
  lookup r (inputs (op_heap f v)) = None ->
  lookup r (params (op_heap f v)) = Some (mkParamInfo true vec) ->
  r <> "" ->
  add_flow env f u v [(a, r)]
  = Ok (graph_add_flow (fst (add_receivers f v r (mkParamInfo true vec))) u v
          [(a, [snd (add_receivers f v r (mkParamInfo true vec))])], nil).
Proof.
  intros Hu Hin Hparam Hr.
  assert (Er : String.eqb r "" = false) by (apply String.eqb_neq; exact Hr).
  unfold add_flow, add_flow_mapped.
  cbn [to_port_map lookup app List.length Nat.eqb negb].
  rewrite andb_false_r.
  cbn [check_output_labels]; rewrite Hu.
  cbn [map_output_labels]; rewrite lookup_head.
  cbn [List.length Nat.eqb negb]; rewrite andb_false_r.
  cbn [map_input_labels]; rewrite Hin, Er, !andb_false_r.
  cbn [orb]; rewrite Hparam.
  destruct (add_receivers f v r (mkParamInfo true vec)) as [f1 label].
  cbn [fst snd app fold_left insert_string mem_string existsb].
  rewrite update_head; reflexivity.
Qed.

Lemma succ_graph_add_flow_old (f : Fragment) (u v : NodeType) (port_map : PortMap)
  (e : NodeType * NodeType) :
  In e (succ_ (graph f)) -> In e (succ_ (graph (graph_add_flow f u v port_map))).
Proof.
  intros H; unfold graph_add_flow.
  destruct (has_edge (add_node (add_node (graph f) u) v) u v); cbn [graph succ_];
    rewrite !succ_add_node; [exact H | apply in_or_app; left; exact H].
Qed.

Lemma op_heap_graph_add_flow (f : Fragment) (u v : NodeType) (port_map : PortMap) :
  op_heap (graph_add_flow f u v port_map) = op_heap f.
Proof.
  unfold graph_add_flow.
  destruct (has_edge (add_node (add_node (graph f) u) v) u v); reflexivity.
Qed.

(** X5.  Every connection to a multi-receiver parameter gets a port of its own:
    two connections to the parameter [r], which holds [n] ports, are made to
    the new input ports "r:n" and "r:n+1", which differ, and the parameter
    then holds both after the ports it had. *)
Theorem connections_to_receivers_are_numbered (f : Fragment) (u1 u2 v : NodeType)
  (a1 a2 r : string) (io1 io2 : IOSpec) (vec : option (list string)) :
  lookup a1 (outputs (op_heap f u1)) = Some io1 ->
  lookup a2 (outputs (op_heap f u2)) = Some io2 ->
  lookup r (inputs (op_heap f v)) = None ->
  lookup r (params (op_heap f v)) = Some (mkParamInfo true vec) ->
  r <> "" ->
  let ports := match vec with Some l => l | None => nil end in
  let label1 := r ++ ":" ++ string_of_nat (List.length ports) in
  let label2 := r ++ ":" ++ string_of_nat (S (List.length ports)) in
  exists f1 f2,
    add_flow env f u1 v [(a1, r)] = Ok (f1, nil)
    /\ add_flow env f1 u2 v [(a2, r)] = Ok (f2, nil)
    /\ label1 <> label2
    /\ In (u1, v) (succ_ (graph f2))
    /\ In (u2, v) (succ_ (graph f2))
    /\ lookup label1 (inputs (op_heap f2 v)) = Some (new_port label1 kInput kSizeOne)
    /\ lookup label2 (inputs (op_heap f2 v)) = Some (new_port label2 kInput kSizeOne)
    /\ lookup r (params (op_heap f2 v))
       = Some (mkParamInfo true (Some (ports ++ [label1; label2])%list)).
Proof.
  intros H1 H2 Hin Hparam Hr ports label1 label2.
  assert (Hne : label1 <> label2).
  { unfold label1, label2; intros E.
    apply append_inj_l in E; cbn [append] in E; inversion E as [E'].
    apply string_of_nat_inj in E'; lia. }
  assert (Hr1 : String.eqb r label1 = false).
  { apply String.eqb_neq; intros E; symmetry in E; revert E.
    apply append_not_self; discriminate. }
  assert (Hr2 : String.eqb r label2 = false).
  { apply String.eqb_neq; intros E; symmetry in E; revert E.
    apply append_not_self; discriminate. }
  pose (F1 := fst (add_receivers f v r (mkParamInfo true vec))).
  pose (f1 := graph_add_flow F1 u1 v [(a1, [label1])]).
  assert (Hheap1 : op_heap f1 v
                   = set_params
                       (set_inputs (op_heap f v)
                          ((label1, new_port label1 kInput kSizeOne)
                           :: inputs (op_heap f v)))
                       (update r (mkParamInfo true (Some (ports ++ [label1])%list))
                               (params (op_heap f v)))).
  { unfold f1; rewrite op_heap_graph_add_flow; unfold F1, add_receivers.
    cbn [fst set_op op_heap iospec_vector]; apply upd_same. }
  assert (Hout1 : forall n, outputs (op_heap f1 n) = outputs (op_heap f n)).
  { intros n; unfold f1; rewrite op_heap_graph_add_flow; unfold F1, add_receivers.
    cbn [fst set_op op_heap]; unfold upd.
    destruct (Nat.eqb n v) eqn:E; [|reflexivity].
    apply Nat.eqb_eq in E; subst n; reflexivity. }
  assert (Hparam1 : lookup r (params (op_heap f1 v))
                    = Some (mkParamInfo true (Some (ports ++ [label1])%list))).
  { rewrite Hheap1; cbn [set_params params].
    apply lookup_update_same; congruence. }
  assert (Hin1 : lookup r (inputs (op_heap f1 v)) = None).
  { rewrite Hheap1; cbn [set_params set_inputs inputs lookup]; rewrite Hr1; exact Hin. }
  pose (F2 := fst (add_receivers f1 v r (mkParamInfo true (Some (ports ++ [label1])%list)))).
  pose (f2 := graph_add_flow F2 u2 v [(a2, [label2])]).
  assert (Hlabel2 : snd (add_receivers f1 v r
                           (mkParamInfo true (Some (ports ++ [label1])%list))) = label2).
  { unfold add_receivers; cbn [snd iospec_vector].
    rewrite length_app; cbn [List.length]; rewrite Nat.add_1_r; reflexivity. }
  assert (Hheap2 : op_heap f2 v
                   = set_params
                       (set_inputs (op_heap f1 v)
                          ((label2, new_port label2 kInput kSizeOne)
                           :: inputs (op_heap f1 v)))
                       (update r
                          (mkParamInfo true (Some ((ports ++ [label1]) ++ [label2])%list))
                          (params (op_heap f1 v)))).
  { unfold f2; rewrite op_heap_graph_add_flow; unfold F2.
    rewrite <- Hlabel2; unfold add_receivers.
    cbn [fst snd set_op op_heap iospec_vector]; apply upd_same. }
  exists f1, f2; split; [|split; [|split; [exact Hne|]]].
  - rewrite (add_flow_to_receivers f u1 v a1 r io1 vec H1 Hin Hparam Hr); reflexivity.
  - rewrite (add_flow_to_receivers f1 u2 v a2 r io2 (Some (ports ++ [label1])%list));
      [rewrite Hlabel2; reflexivity | rewrite Hout1; exact H2 | exact Hin1
       | exact Hparam1 | exact Hr].
  - split; [|split; [apply succ_graph_add_flow|]].
    + unfold f2; apply succ_graph_add_flow_old.
      unfold F2, add_receivers; cbn [fst set_op graph].
      apply succ_graph_add_flow.
    + rewrite Hheap2, Hheap1.
      cbn [set_params set_inputs inputs params].
      split; [|split].
      * cbn [lookup].
        assert (E : String.eqb label1 label2 = false) by (apply String.eqb_neq; exact Hne).
        rewrite E; apply lookup_head.
      * apply lookup_head.
      * rewrite <- app_assoc; apply lookup_update_same.
        rewrite lookup_update_same; congruence.
Qed.

End AddFlowReceivers.

(** ** GXFExecutor::add_control_flow *)

Section ControlFlow.

Variable env : Environment.

Hypothesis begin_key : begin_is_a_key env.

Lemma begin_port_cons {A : Type} (k : string) (a : A) (m : list (string * A)) :
  exists b, begin_port env ((k, a) :: m) = Some b /\ In b (map fst ((k, a) :: m)).
Proof. unfold begin_port; apply begin_key; cbn [map]; discriminate. Qed.

(** The upstream half of [add_control_flow]. *)
Lemma add_control_flow_upstream (f : Fragment) (u v : NodeType) :
  let f' := add_control_flow env f u v in
  let out_name := env_kOutputExecPortName env in
  match output_exec_spec (op_heap f u) with
  | Some k =>
      outputs (op_heap f' u) = outputs (op_heap f u)
      /\ output_exec_spec (op_heap f' u) = Some k
  | None =>
      outputs (op_heap f' u)
      = (out_name, new_port out_name kOutput kSizeOne) :: outputs (op_heap f u)
      /\ exists k, output_exec_spec (op_heap f' u) = Some k
                   /\ In k (map fst (outputs (op_heap f' u)))
  end.
Proof.
  unfold add_control_flow; cbv zeta.
  set (f1 := match output_exec_spec (op_heap f u) with
             | Some _ => f
             | None => _
             end).
  assert (H1 : match output_exec_spec (op_heap f u) with
               | Some k =>
                   outputs (op_heap f1 u) = outputs (op_heap f u)
                   /\ output_exec_spec (op_heap f1 u) = Some k
               | None =>
                   outputs (op_heap f1 u)
                   = (env_kOutputExecPortName env,
                      new_port (env_kOutputExecPortName env) kOutput kSizeOne)
                     :: outputs (op_heap f u)
                   /\ exists k, output_exec_spec (op_heap f1 u) = Some k
                                /\ In k (map fst (outputs (op_heap f1 u)))
               end).
  { unfold f1; destruct (output_exec_spec (op_heap f u)) eqn:E; [auto|].
    cbn [set_op op_heap]; rewrite upd_same.
    cbn [set_output_exec_spec set_outputs outputs output_exec_spec].
    split; [reflexivity | apply begin_port_cons]. }
  clearbody f1.
  assert (H2 : forall op ins s,
             outputs (set_input_exec_spec (set_inputs op ins) s) = outputs op
             /\ output_exec_spec (set_input_exec_spec (set_inputs op ins) s)
                = output_exec_spec op) by (intros; split; reflexivity).
  destruct (input_exec_spec (op_heap f1 v)); [exact H1|].
  cbn [set_op op_heap]; unfold upd.
  destruct (Nat.eqb u v) eqn:E; [|exact H1].
  apply Nat.eqb_eq in E; subst v.
  destruct (H2 (op_heap f1 u)
              ((env_kInputExecPortName env,
                new_port (env_kInputExecPortName env) kInput kPrecedingCount)
               :: inputs (op_heap f1 u))
              (begin_port env
                 ((env_kInputExecPortName env,
                   new_port (env_kInputExecPortName env) kInput kPrecedingCount)
                  :: inputs (op_heap f1 u)))) as [-> ->].
  exact H1.
Qed.

(** The downstream half of [add_control_flow]. *)
Lemma add_control_flow_downstream (f : Fragment) (u v : NodeType) :
  let f' := add_control_flow env f u v in
  let in_name := env_kInputExecPortName env in
  match input_exec_spec (op_heap f v) with
  | Some k =>
      inputs (op_heap f' v) = inputs (op_heap f v)
      /\ input_exec_spec (op_heap f' v) = Some k
  | None =>
      inputs (op_heap f' v)
      = (in_name, new_port in_name kInput kPrecedingCount) :: inputs (op_heap f v)
      /\ exists k, input_exec_spec (op_heap f' v) = Some k
                   /\ In k (map fst (inputs (op_heap f' v)))
  end.
Proof.
  unfold add_control_flow; cbv zeta.
  set (f1 := match output_exec_spec (op_heap f u) with
             | Some _ => f
             | None => _
             end).
  assert (H1 : inputs (op_heap f1 v) = inputs (op_heap f v)
               /\ input_exec_spec (op_heap f1 v) = input_exec_spec (op_heap f v)).
  { unfold f1; destruct (output_exec_spec (op_heap f u)); [auto|].
    cbn [set_op op_heap]; unfold upd.
    destruct (Nat.eqb v u) eqn:E; [|auto].
    apply Nat.eqb_eq in E; subst v; split; reflexivity. }
  clearbody f1; destruct H1 as [Hi He]; rewrite <- He.
  destruct (input_exec_spec (op_heap f1 v)) eqn:E.
  - rewrite E, Hi; auto.
  - cbn [set_op op_heap]; rewrite upd_same.
    cbn [set_input_exec_spec set_inputs inputs input_exec_spec]; rewrite Hi.
    split; [reflexivity|]; rewrite <- Hi; apply begin_port_cons.
Qed.

(** X6.  A control flow from [u] to [v] declares the output execution port
    of [u] (queue size 1) and the input execution port of [v] (queue size
    [kPrecedingCount]) when the execution spec of that side is not set, and
    records as the execution spec the port at [begin()] of the port map,
    which is one of the ports of the operator and need not be the new one.
    A side whose execution spec is set keeps its ports and its spec.  The
    other operators and the graph are untouched, and a second control flow
    between the same operators changes nothing. *)
Theorem add_control_flow_creates_the_execution_ports_once (f : Fragment)
  (u v : NodeType) :
  let f' := add_control_flow env f u v in
  let out_name := env_kOutputExecPortName env in
  let in_name := env_kInputExecPortName env in
  match output_exec_spec (op_heap f u) with
  | Some k =>
      outputs (op_heap f' u) = outputs (op_heap f u)
      /\ output_exec_spec (op_heap f' u) = Some k
  | None =>
      outputs (op_heap f' u)
      = (out_name, new_port out_name kOutput kSizeOne) :: outputs (op_heap f u)
      /\ exists k, output_exec_spec (op_heap f' u) = Some k
                   /\ In k (map fst (outputs (op_heap f' u)))
  end
  /\ match input_exec_spec (op_heap f v) with
     | Some k =>
         inputs (op_heap f' v) = inputs (op_heap f v)
         /\ input_exec_spec (op_heap f' v) = Some k
     | None =>
         inputs (op_heap f' v)
         = (in_name, new_port in_name kInput kPrecedingCount) :: inputs (op_heap f v)
         /\ exists k, input_exec_spec (op_heap f' v) = Some k
                      /\ In k (map fst (inputs (op_heap f' v)))
     end
  /\ (forall n, n <> u -> n <> v -> op_heap f' n = op_heap f n)
  /\ graph f' = graph f
  /\ add_control_flow env f' u v = f'.
Proof.
  intros f' out_name in_name.
  split; [exact (add_control_flow_upstream f u v)|].
  split; [exact (add_control_flow_downstream f u v)|].
  split; [|split].
  - intros n Hu Hv; unfold f', add_control_flow.
    destruct (output_exec_spec (op_heap f u));
      match goal with
      | |- context [input_exec_spec ?x] => destruct (input_exec_spec x)
      end; cbn [set_op op_heap]; rewrite ?upd_other by assumption; reflexivity.
  - unfold f', add_control_flow.
    destruct (output_exec_spec (op_heap f u));
      match goal with
      | |- context [input_exec_spec ?x] => destruct (input_exec_spec x)
      end; reflexivity.
  - pose proof (add_control_flow_upstream f u v) as Ho.
    pose proof (add_control_flow_downstream f u v) as Hi.
    cbv zeta in Ho, Hi; fold f' in Ho, Hi.
    assert (Ho' : output_exec_spec (op_heap f' u) <> None)
      by (destruct (output_exec_spec (op_heap f u));
          [destruct Ho as [_ ->] | destruct Ho as [_ [k [-> _]]]]; discriminate).
    assert (Hi' : input_exec_spec (op_heap f' v) <> None)
      by (destruct (input_exec_spec (op_heap f v));
          [destruct Hi as [_ ->] | destruct Hi as [_ [k [-> _]]]]; discriminate).
    clearbody f'; unfold add_control_flow.
    destruct (output_exec_spec (op_heap f' u)); [|congruence].
    destruct (input_exec_spec (op_heap f' v)); [reflexivity | congruence].
Qed.

End ControlFlow.

(** An unordered map that starts with the port declared first, or with the
    port declared last, has its [begin()] among its keys. *)
Lemma begin_is_a_key_last_declared : begin_is_a_key Examples.env.
Proof.
  intros [|k keys] Hne; [congruence|].
  exists k; split; [reflexivity | left; reflexivity].
Qed.

Lemma begin_is_a_key_first_declared : begin_is_a_key Examples.env_first_declared.
Proof.
  intros keys Hne; cbn [env_unordered_begin Examples.env_first_declared].
  destruct (rev keys) as [|k l] eqn:E.
  - exfalso; apply Hne; rewrite <- (rev_involutive keys), E; reflexivity.
  - exists k; split; [reflexivity|].
    apply in_rev; rewrite E; left; reflexivity.
Qed.

(** A control flow from an operator with the data output "out" to itself,
    where the unordered map of the outputs starts with "out": the output
    execution port is declared, and "out" is recorded as the output
    execution spec. *)
Lemma add_control_flow_creates_the_execution_ports_once_witness :
  let f := Examples.single (Examples.native "b" nil [Examples.out_port "out"]) in
  let f' := add_control_flow Examples.env_first_declared f 0%nat 0%nat in
  begin_is_a_key Examples.env_first_declared
  /\ outputs (op_heap f' 0%nat)
     = ("__output_exec__", new_port "__output_exec__" kOutput kSizeOne)
       :: outputs (op_heap f 0%nat)
  /\ output_exec_spec (op_heap f' 0%nat) = Some "out"
  /\ inputs (op_heap f' 0%nat)
     = [("__input_exec__", new_port "__input_exec__" kInput kPrecedingCount)]
  /\ input_exec_spec (op_heap f' 0%nat) = Some "__input_exec__"
  /\ add_control_flow Examples.env_first_declared f' 0%nat 0%nat = f'.
Proof.
  intros f f'.
  split; [exact begin_is_a_key_first_declared|].
  pose proof (add_control_flow_creates_the_execution_ports_once
                Examples.env_first_declared begin_is_a_key_first_declared
                f 0%nat 0%nat) as H.
  cbv zeta in H; fold f' in H.
  change (output_exec_spec (op_heap f 0%nat)) with (@None string) in H.
  change (input_exec_spec (op_heap f 0%nat)) with (@None string) in H.
  destruct H as [[Ho _] [[Hi _] [_ [_ Hidem]]]].
  split; [exact Ho|]; split; [reflexivity|]; split; [exact Hi|].
  split; [reflexivity | exact Hidem].
Defined.

(** ** GXFExecutor::initialize_operator *)

Section OperatorInitialization.

Variable env : Environment.

Lemma create_ports_In (create : IOSpec -> outcome IOSpec) :
  forall (ports ports' : list (string * IOSpec)),
    create_ports create ports = Ok ports' ->
    map fst ports' = map fst ports
    /\ forall p io', In (p, io') ports' ->
                     exists io, In (p, io) ports /\ create io = Ok io'.
Proof.
  induction ports as [|[name io] ports IH]; intros ports' H; cbn [create_ports] in H.
  - inversion H; subst; split; [reflexivity | intros p io' []].
  - apply bind_Ok in H; destruct H as [io1 [H1 H]].
    apply bind_Ok in H; destruct H as [rest [H2 H]].
    inversion H; subst; clear H.
    destruct (IH rest H2) as [Hnames Hin]; split; [cbn; rewrite Hnames; reflexivity|].
    intros p io' [E | Hp].
    + inversion E; subst; exists io; split; [left; reflexivity | exact H1].
    + destruct (Hin p io' Hp) as [io0 [Hio0 Hc]].
      exists io0; split; [right; exact Hio0 | exact Hc].
Qed.

Lemma as_receiver_component (c : option Connector) :
  has_component (as_receiver c) = true -> has_component c = true.
Proof.
  destruct c as [r|]; [|discriminate]; cbn [as_receiver].
  destruct (conn_class r); cbn; auto; discriminate.
Qed.

Lemma as_transmitter_component (c : option Connector) :
  has_component (as_transmitter c) = true -> has_component c = true.
Proof.
  destruct c as [r|]; [|discriminate]; cbn [as_transmitter].
  destruct (conn_class r); cbn; auto; discriminate.
Qed.

(** The input port that [create_input_port] returns has a receiver
    component, unless it is a multi-receiver port. *)
Lemma create_input_port_component (f : Fragment) (io io' : IOSpec) (op : Operator) :
  create_input_port env f io false op = Ok io' ->
  queue_size io' <> env_kAnySize env ->
  has_component (connector io') = true.
Proof.
  intros H Hq.
  assert (Hsize : queue_size io' = queue_size io)
    by (eapply create_input_port_queue_size; exact H).
  unfold create_input_port in H; cbn [negb] in H.
  apply bind_Ok in H; destruct H as [resolved [Hr H]].
  unfold resolve_queue_size in Hr.
  destruct (queue_size io =? env_kAnySize env) eqn:E;
    [apply Z.eqb_eq in E; congruence|].
  destruct resolved as [q|];
    [|destruct (queue_size io =? kPrecedingCount);
      [destruct (find_node f (op_name op))|]; discriminate].
  destruct (q <? 1); [discriminate|].
  apply bind_Ok in H; destruct H as [io1 [H1 H]].
  apply bind_Ok in H; destruct H as [cs [_ H]].
  inversion H; subst; clear H; cbn [set_conditions connector].
  assert (Hc : has_component (connector io1) = true).
  { unfold create_receiver in H1.
    destruct (has_component (as_receiver (connector io))) eqn:Ec.
    - inversion H1; subst; apply as_receiver_component; exact Ec.
    - apply bind_Ok in H1; destruct H1 as [r [_ H1]]; inversion H1; reflexivity. }
  unfold default_input_condition.
  destruct (conditions io1); [|exact Hc].
  destruct (_ && _); exact Hc.
Qed.

Lemma create_output_port_component (f : Fragment) (io io' : IOSpec) (op : Operator) :
  create_output_port env f io false op = Ok io' ->
  has_component (connector io') = true.
Proof.
  intros H; unfold create_output_port in H.
  apply bind_Ok in H; destruct H as [io1 [H1 H]].
  apply bind_Ok in H; destruct H as [cs [_ H]].
  inversion H; subst; clear H; cbn [set_conditions connector].
  assert (Hc : has_component (connector io1) = true).
  { unfold create_transmitter in H1.
    destruct (has_component (as_transmitter (connector io))) eqn:Ec.
    - inversion H1; subst; apply as_transmitter_component; exact Ec.
    - apply bind_Ok in H1; destruct H1 as [r [_ H1]]; inversion H1; reflexivity. }
  unfold default_output_condition.
  destruct (conditions io1); [|exact Hc].
  destruct (negb _); [|exact Hc].
  destruct (negb _); exact Hc.
Qed.

(** X7.  The initialization of an operator is done once: an operator that
    [initialize_operator] returned is returned as it is by every later
    call. *)
Theorem initialize_operator_is_idempotent (ids ids' : ExecutorIds) (f f' : Fragment)
  (cid cid' : positive) (op op' : Operator) :
  initialize_operator env ids f cid op = Ok op' ->
  initialize_operator env ids' f' cid' op' = Ok op'.
Proof.
  intros H.
  assert (Hinit : is_initialized_ op' = true).
  { unfold initialize_operator in H.
    destruct (is_initialized_ op) eqn:E; [inversion H; subst; exact E|].
    apply bind_Ok in H; destruct H as [ins [_ H]].
    apply bind_Ok in H; destruct H as [outs [_ H]].
    apply bind_Ok in H; destruct H as [x [_ H]].
    apply bind_Ok in H; destruct H as [y [_ H]].
    inversion H; reflexivity. }
  unfold initialize_operator; rewrite Hinit; reflexivity.
Qed.

(** X8.  When [initialize_operator] succeeds for an operator of a Holoscan
    application (no wrapped codelet), the operator is marked initialized,
    its ports have the names and the order they had, every output port has
    a transmitter component and every input port that is not a
    multi-receiver port has a receiver component: the connection planner
    finds the component id of each of them. *)
Theorem initialized_operator_has_its_connectors (ids : ExecutorIds) (f : Fragment)
  (cid : positive) (op op' : Operator) (n : NodeType) :
  initialize_operator env ids f cid op = Ok op' ->
  is_initialized_ op = false ->
  op_eid_ ids = 0 ->
  is_initialized_ op' = true
  /\ op_name op' = op_name op
  /\ map fst (inputs op') = map fst (inputs op)
  /\ map fst (outputs op') = map fst (outputs op)
  /\ (forall p io, In (p, io) (outputs op') -> has_component (connector io) = true)
  /\ (forall p io, In (p, io) (inputs op') -> queue_size io <> env_kAnySize env ->
                   has_component (connector io) = true)
  /\ (forall p io, lookup p (outputs op') = Some io ->
                   gxf_cid n kOutput p (outputs op') = Ok (cid_port n kOutput p)).
Proof.
  intros H Hinit Heid; unfold initialize_operator in H; rewrite Hinit, Heid in H.
  cbn [Z.eqb negb] in H.
  apply bind_Ok in H; destruct H as [ins [Hins H]].
  apply bind_Ok in H; destruct H as [outs [Houts H]].
  apply bind_Ok in H; destruct H as [x [_ H]].
  apply bind_Ok in H; destruct H as [y [_ H]].
  inversion H; subst; clear H.
  apply create_ports_In in Hins; destruct Hins as [Hin_names Hin].
  apply create_ports_In in Houts; destruct Houts as [Hout_names Hout].
  assert (Hcomp : forall p io, In (p, io) outs -> has_component (connector io) = true).
  { intros p io Hp; destruct (Hout p io Hp) as [io0 [_ Hc]].
    eapply create_output_port_component; exact Hc. }
  cbn [set_is_initialized is_initialized_ op_name inputs outputs set_outputs set_inputs].
  split; [reflexivity|]; split.
  { destruct (MetadataPolicy_eqb _ _); reflexivity. }
  split.
  { rewrite Hin_names; destruct (MetadataPolicy_eqb _ _); reflexivity. }
  split.
  { rewrite Hout_names; cbn [set_inputs outputs].
    destruct (MetadataPolicy_eqb _ _); reflexivity. }
  split; [exact Hcomp|]; split.
  - intros p io Hp Hq; destruct (Hin p io Hp) as [io0 [_ Hc]].
    eapply create_input_port_component; [exact Hc | exact Hq].
  - intros p io Hl; unfold gxf_cid; rewrite Hl.
    assert (Hp : In (p, io) outs).
    { clear - Hl; induction outs as [|[k x] outs IH]; [discriminate|].
      cbn [lookup] in Hl; destruct (String.eqb p k) eqn:E.
      - apply String.eqb_eq in E; inversion Hl; subst; left; reflexivity.
      - right; apply IH; exact Hl. }
    specialize (Hcomp p io Hp).
    destruct (connector io) as [c|]; [|discriminate].
    cbn in Hcomp; rewrite Hcomp; reflexivity.
Qed.

(** X9.  An operator without a metadata policy of its own takes the policy of
    its fragment when it is initialized; a policy of its own is kept. *)
Theorem initialized_operator_metadata_policy (ids : ExecutorIds) (f : Fragment)
  (cid : positive) (op op' : Operator) :
  initialize_operator env ids f cid op = Ok op' ->
  is_initialized_ op = false ->
  metadata_policy op'
  = match metadata_policy op with
    | kDefaultPolicy => frag_metadata_policy f
    | policy => policy
    end.
Proof.
  intros H Hinit; unfold initialize_operator in H; rewrite Hinit in H.
  apply bind_Ok in H; destruct H as [ins [_ H]].
  apply bind_Ok in H; destruct H as [outs [_ H]].
  apply bind_Ok in H; destruct H as [x [_ H]].
  apply bind_Ok in H; destruct H as [y [_ H]].
  inversion H; subst; clear H.
  cbn [set_is_initialized set_outputs set_inputs metadata_policy].
  destruct (metadata_policy op) eqn:E; cbn; rewrite ?E; reflexivity.
Qed.

End OperatorInitialization.

(** ** Names of the scheduling terms of a port *)

Section ConditionNames.

Variable env : Environment.

(** The names given by "Initialize conditions for this input", for the
    conditions after the one with the index [i]. *)
Lemma initialize_input_conditions_names (op_nm rx_name : string) :
  forall (cs cs' : list (ConditionType * option Condition)) (i : nat),
    initialize_input_conditions op_nm rx_name i cs = Ok cs' ->
    NoDup (scheduling_term_names cs')
    /\ forall name, In name (scheduling_term_names cs') ->
         exists suffix j,
           In suffix ["_message_available"; "_expiring_message"; "_message_timeout"]
           /\ (i < j)%nat
           /\ name = ("__" ++ op_nm ++ "_" ++ rx_name) ++ suffix ++ string_of_nat j.
Proof.
  induction cs as [|[kind c] cs IH]; intros cs' i H; cbn [initialize_input_conditions] in H.
  - inversion H; subst; split; [constructor | intros name []].
  - apply bind_Ok in H; destruct H as [c' [Hc H]].
    apply bind_Ok in H; destruct H as [rest [Hrest H]].
    inversion H; subst; clear H.
    destruct (IH rest (S i) Hrest) as [Hnodup Hnames].
    assert (Hlater : forall name, In name (scheduling_term_names rest) ->
              exists suffix j,
                In suffix ["_message_available"; "_expiring_message"; "_message_timeout"]
                /\ (i < j)%nat
                /\ name = ("__" ++ op_nm ++ "_" ++ rx_name) ++ suffix ++ string_of_nat j).
    { intros name Hn; destruct (Hnames name Hn) as [sfx [j [Hs [Hj E]]]].
      exists sfx, j; split; [exact Hs | split; [lia | exact E]]. }
    assert (Hfresh : forall suffix,
              In suffix ["_message_available"; "_expiring_message"; "_message_timeout"] ->
              ~ In (("__" ++ op_nm ++ "_" ++ rx_name) ++ suffix ++ string_of_nat (S i))
                   (scheduling_term_names rest)).
    { intros suffix Hs Hin.
      destruct (Hnames _ Hin) as [sfx [j [Hs' [Hj E]]]].
      apply append_inj_l in E.
      cbn [In] in Hs, Hs'.
      destruct Hs as [<- | [<- | [<- | []]]]; destruct Hs' as [<- | [<- | [<- | []]]];
        cbn [append] in E; try discriminate E;
        repeat match type of E with
               | String _ _ = String _ _ => inversion E as [E']; clear E; rename E' into E
               end;
        apply string_of_nat_inj in E; lia. }
    assert (Hcase : forall suffix,
              In suffix ["_message_available"; "_expiring_message"; "_message_timeout"] ->
              let name := ("__" ++ op_nm ++ "_" ++ rx_name) ++ suffix
                          ++ string_of_nat (S i) in
              NoDup (name :: scheduling_term_names rest)
              /\ forall name', In name' (name :: scheduling_term_names rest) ->
                   exists suffix' j,
                     In suffix'
                        ["_message_available"; "_expiring_message"; "_message_timeout"]
                     /\ (i < j)%nat
                     /\ name' = ("__" ++ op_nm ++ "_" ++ rx_name) ++ suffix'
                                ++ string_of_nat j).
    { intros suffix Hs name; split.
      - constructor; [apply Hfresh; exact Hs | exact Hnodup].
      - intros name' [<- | Hn]; [|exact (Hlater name' Hn)].
        exists suffix, (S i); split; [exact Hs | split; [lia | reflexivity]]. }
    destruct kind; cbn [scheduling_term_names flat_map app]; try discriminate Hc.
    + inversion Hc; subst; split; [exact Hnodup | exact Hlater].
    + destruct c as [cd|]; cbn [rename_condition] in Hc; [|discriminate Hc].
      inversion Hc; subst; clear Hc; cbn [cond_name app].
      apply (Hcase "_message_available"); cbn; tauto.
    + destruct c as [cd|]; cbn [rename_condition] in Hc; [|discriminate Hc].
      inversion Hc; subst; clear Hc; cbn [cond_name app].
      apply (Hcase "_expiring_message"); cbn; tauto.
    + destruct c as [cd|]; cbn [rename_condition] in Hc; [|discriminate Hc].
      inversion Hc; subst; clear Hc; cbn [cond_name app].
      apply (Hcase "_message_timeout"); cbn; tauto.
Qed.

Lemma initialize_output_conditions_names (op_nm tx_name : string) :
  forall (cs cs' : list (ConditionType * option Condition)) (i : nat),
    initialize_output_conditions op_nm tx_name i cs = Ok cs' ->
    NoDup (scheduling_term_names cs')
    /\ forall name, In name (scheduling_term_names cs') ->
         exists j, (i < j)%nat
                   /\ name = "__" ++ op_nm ++ "_" ++ tx_name ++ "_cond_" ++ string_of_nat j.
Proof.
  induction cs as [|[kind c] cs IH]; intros cs' i H;
    cbn [initialize_output_conditions] in H.
  - inversion H; subst; split; [constructor | intros name []].
  - apply bind_Ok in H; destruct H as [c' [Hc H]].
    apply bind_Ok in H; destruct H as [rest [Hrest H]].
    inversion H; subst; clear H.
    destruct (IH rest (S i) Hrest) as [Hnodup Hnames].
    assert (Hlater : forall name, In name (scheduling_term_names rest) ->
              exists j, (i < j)%nat
                        /\ name = "__" ++ op_nm ++ "_" ++ tx_name ++ "_cond_"
                                  ++ string_of_nat j).
    { intros name Hn; destruct (Hnames name Hn) as [j [Hj E]].
      exists j; split; [lia | exact E]. }
    destruct kind; cbn [scheduling_term_names flat_map app]; try discriminate Hc.
    + inversion Hc; subst; split; [exact Hnodup | exact Hlater].
    + destruct c as [cd|]; cbn [rename_condition] in Hc; [|discriminate Hc].
      inversion Hc; subst; clear Hc; cbn [cond_name app].
      split.
      * constructor; [|exact Hnodup].
        intros Hin; destruct (Hnames _ Hin) as [j [Hj E]].
        apply (append_inj_l "__"), (append_inj_l op_nm), (append_inj_l "_"),
          (append_inj_l tx_name), (append_inj_l "_cond_") in E.
        apply string_of_nat_inj in E; lia.
      * intros name [<- | Hn]; [|exact (Hlater name Hn)].
        exists (S i); split; [lia | reflexivity].
Qed.

(** X10.  The scheduling terms that the port creation attaches to one port have
    pairwise different names (GXF requires a unique name for each): those
    of an input port that is not a multi-receiver port, and those of an
    output port. *)
Theorem scheduling_terms_of_a_port_have_distinct_names :
  (forall (f : Fragment) (io io' : IOSpec) (op : Operator),
     create_input_port env f io false op = Ok io' ->
     queue_size io <> env_kAnySize env ->
     NoDup (scheduling_term_names (conditions io')))
  /\ (forall (f : Fragment) (io io' : IOSpec) (op : Operator),
        create_output_port env f io false op = Ok io' ->
        NoDup (scheduling_term_names (conditions io'))).
Proof.
  split.
  - intros f io io' op H Hq; unfold create_input_port in H; cbn [negb] in H.
    apply bind_Ok in H; destruct H as [resolved [Hr H]].
    unfold resolve_queue_size in Hr.
    apply Z.eqb_neq in Hq; rewrite Hq in Hr.
    destruct resolved as [q|];
      [|destruct (queue_size io =? kPrecedingCount);
        [destruct (find_node f (op_name op))|]; discriminate].
    destruct (q <? 1); [discriminate|].
    apply bind_Ok in H; destruct H as [io1 [_ H]].
    apply bind_Ok in H; destruct H as [cs [Hcs H]].
    inversion H; subst; cbn [set_conditions conditions].
    apply initialize_input_conditions_names in Hcs; apply Hcs.
  - intros f io io' op H; unfold create_output_port in H.
    apply bind_Ok in H; destruct H as [io1 [_ H]].
    apply bind_Ok in H; destruct H as [cs [Hcs H]].
    inversion H; subst; cbn [set_conditions conditions].
    apply initialize_output_conditions_names in Hcs; apply Hcs.
Qed.

(** Conditions given to an input port are kept in their order, with their
    kinds, and no default condition is added to them. *)
Lemma initialize_input_conditions_kinds (op_nm rx_name : string) :
  forall (cs cs' : list (ConditionType * option Condition)) (i : nat),
    initialize_input_conditions op_nm rx_name i cs = Ok cs' ->
    map fst cs' = map fst cs.
Proof.
  induction cs as [|[kind c] cs IH]; intros cs' i H; cbn [initialize_input_conditions] in H.
  - inversion H; reflexivity.
  - apply bind_Ok in H; destruct H as [c' [_ H]].
    apply bind_Ok in H; destruct H as [rest [Hrest H]].
    inversion H; subst; cbn; f_equal; eapply IH; exact Hrest.
Qed.

Lemma initialize_input_conditions_supported (op_nm rx_name : string) :
  forall (cs cs' : list (ConditionType * option Condition)) (i : nat),
    initialize_input_conditions op_nm rx_name i cs = Ok cs' ->
    forall kind, In kind (map fst cs) ->
      In kind [kNone; kMessageAvailable; kExpiringMessageAvailable;
               kMultiMessageAvailableTimeout].
Proof.
  induction cs as [|[kind c] cs IH]; intros cs' i H k Hk; [destruct Hk|].
  cbn [initialize_input_conditions] in H.
  apply bind_Ok in H; destruct H as [c' [Hc H]].
  apply bind_Ok in H; destruct H as [rest [Hrest H]].
  destruct Hk as [<- | Hk]; [|eapply IH; eassumption].
  cbn [fst]; destruct kind; try discriminate Hc; cbn; tauto.
Qed.

(** X11.  The conditions that were given to an input port are kept when the
    port is created, in their order and with their kinds, and no default
    condition is added to them; and a port is created only with conditions
    of the kinds the executor supports for an input. *)
Theorem given_input_conditions_are_kept (f : Fragment) (io io' : IOSpec) (op : Operator) :
  create_input_port env f io false op = Ok io' ->
  queue_size io <> env_kAnySize env ->
  (conditions io <> nil -> map fst (conditions io') = map fst (conditions io))
  /\ (forall kind, In kind (map fst (conditions io')) ->
        In kind [kNone; kMessageAvailable; kExpiringMessageAvailable;
                 kMultiMessageAvailableTimeout]).
Proof.
  intros H Hq; unfold create_input_port in H; cbn [negb] in H.
  apply bind_Ok in H; destruct H as [resolved [Hr H]].
  unfold resolve_queue_size in Hr.
  apply Z.eqb_neq in Hq; rewrite Hq in Hr.
  destruct resolved as [q|];
    [|destruct (queue_size io =? kPrecedingCount);
      [destruct (find_node f (op_name op))|]; discriminate].
  destruct (q <? 1); [discriminate|].
  apply bind_Ok in H; destruct H as [io1 [H1 H]].
  apply bind_Ok in H; destruct H as [cs [Hcs H]].
  inversion H; subst; clear H; cbn [set_conditions conditions].
  assert (Hc1 : conditions io1 = conditions io).
  { unfold create_receiver in H1.
    destruct (has_component (as_receiver (connector io))); [inversion H1; reflexivity|].
    apply bind_Ok in H1; destruct H1 as [r [_ H1]]; inversion H1; reflexivity. }
  pose proof (initialize_input_conditions_kinds _ _ _ _ _ Hcs) as Hkinds.
  split.
  - intros Hne; rewrite Hkinds; unfold default_input_condition; rewrite Hc1.
    destruct (conditions io); [congruence | rewrite Hc1; reflexivity].
  - intros kind Hk; rewrite Hkinds in Hk.
    eapply initialize_input_conditions_supported; eassumption.
Qed.

End ConditionNames.

(** ** Thread pools on one device *)

Section ThreadPoolAcceptance.

Variable f : Fragment.



End ThreadPoolAcceptance.

Lemma add_flow_rejects_without_adding_an_edge_witness :
  (exists f' log,
     add_flow Examples.env Examples.two_outputs 0%nat 1%nat nil = Ok (f', log)
     /\ ((log = nil /\ In (0, 1)%nat (succ_ (graph f')))
         \/ ((exists err, log = [err])
             /\ graph f' = graph Examples.two_outputs
             /\ edge_data f' = edge_data Examples.two_outputs
             /\ next_node f' = next_node Examples.two_outputs)))
  /\ (exists f' log,
        add_flow Examples.env Examples.one_to_one 0%nat 1%nat nil = Ok (f', log)
        /\ ((log = nil /\ In (0, 1)%nat (succ_ (graph f')))
            \/ ((exists err, log = [err])
                /\ graph f' = graph Examples.one_to_one
                /\ edge_data f' = edge_data Examples.one_to_one
                /\ next_node f' = next_node Examples.one_to_one))).
Proof.
  split.
  - destruct (add_flow Examples.env Examples.two_outputs 0%nat 1%nat nil)
      as [[f' log]| | | |] eqn:E; try (vm_compute in E; discriminate E).
    exists f', log; split; [reflexivity|].
    exact (add_flow_rejects_without_adding_an_edge Examples.env _ _ _ _ _ _ E).
  - destruct (add_flow Examples.env Examples.one_to_one 0%nat 1%nat nil)
      as [[f' log]| | | |] eqn:E; try (vm_compute in E; discriminate E).
    exists f', log; split; [reflexivity|].
    exact (add_flow_rejects_without_adding_an_edge Examples.env _ _ _ _ _ _ E).
Defined.

Lemma add_flow_without_port_names_witness :
  add_flow Examples.env Examples.one_to_one 0%nat 1%nat nil
  = add_flow Examples.env Examples.one_to_one 0%nat 1%nat [("out", "in")]
  /\ add_flow Examples.env Examples.one_to_one 0%nat 1%nat nil
     = Ok (graph_add_flow Examples.one_to_one 0%nat 1%nat [("out", ["in"])], nil).
Proof.
  apply (add_flow_without_port_names Examples.env Examples.one_to_one 0%nat 1%nat
           "out" "in" (new_port "out" kOutput kSizeOne) (new_port "in" kInput 1));
    try reflexivity; discriminate.
Defined.

Lemma connections_to_receivers_are_numbered_witness :
  exists f1 f2,
    add_flow Examples.env Examples.to_receivers 0%nat 2%nat [("out", "receivers")]
    = Ok (f1, nil)
    /\ add_flow Examples.env f1 1%nat 2%nat [("out", "receivers")] = Ok (f2, nil)
    /\ "receivers:0" <> "receivers:1"
    /\ In (0, 2)%nat (succ_ (graph f2))
    /\ In (1, 2)%nat (succ_ (graph f2))
    /\ lookup "receivers:0" (inputs (op_heap f2 2%nat))
       = Some (new_port "receivers:0" kInput kSizeOne)
    /\ lookup "receivers:1" (inputs (op_heap f2 2%nat))
       = Some (new_port "receivers:1" kInput kSizeOne)
    /\ lookup "receivers" (params (op_heap f2 2%nat))
       = Some (mkParamInfo true (Some ["receivers:0"; "receivers:1"])).
Proof.
  apply (connections_to_receivers_are_numbered Examples.env Examples.to_receivers
           0%nat 1%nat 2%nat "out" "out" "receivers"
           (new_port "out" kOutput kSizeOne) (new_port "out" kOutput kSizeOne) None);
    try reflexivity.
  discriminate.
Defined.

Lemma initialize_operator_is_idempotent_witness :
  exists op',
    initialize_operator Examples.env (mkExecutorIds 0 0)
      (Examples.single Examples.filter_op) 7 Examples.filter_op = Ok op'
    /\ initialize_operator Examples.env (mkExecutorIds 0 0)
         (Examples.single op') 8 op' = Ok op'.
Proof.
  destruct (initialize_operator Examples.env (mkExecutorIds 0 0)
              (Examples.single Examples.filter_op) 7 Examples.filter_op)
    as [op'| | | |] eqn:E; try (vm_compute in E; discriminate E).
  exists op'; split; [reflexivity|].
  exact (initialize_operator_is_idempotent Examples.env _ _ _ _ _ _ _ _ E).
Defined.

Lemma initialized_operator_has_its_connectors_witness :
  exists op',
    initialize_operator Examples.env (mkExecutorIds 0 0)
      (Examples.single Examples.filter_op) 7 Examples.filter_op = Ok op'
    /\ is_initialized_ op' = true
    /\ op_name op' = "op"
    /\ map fst (inputs op') = ["in"]
    /\ map fst (outputs op') = ["out"]
    /\ (forall p io, In (p, io) (outputs op') -> has_component (connector io) = true)
    /\ (forall p io, In (p, io) (inputs op') -> queue_size io <> -1 ->
                     has_component (connector io) = true)
    /\ (forall p io, lookup p (outputs op') = Some io ->
                     gxf_cid 0%nat kOutput p (outputs op') = Ok (cid_port 0%nat kOutput p)).
Proof.
  destruct (initialize_operator Examples.env (mkExecutorIds 0 0)
              (Examples.single Examples.filter_op) 7 Examples.filter_op)
    as [op'| | | |] eqn:E; try (vm_compute in E; discriminate E).
  exists op'; split; [reflexivity|].
  exact (initialized_operator_has_its_connectors Examples.env _ _ _ _ _ 0%nat E
           eq_refl eq_refl).
Defined.

Lemma initialized_operator_metadata_policy_witness :
  exists op',
    initialize_operator Examples.env (mkExecutorIds 0 0)
      (Examples.single Examples.filter_op) 7 Examples.filter_op = Ok op'
    /\ metadata_policy op' = kRaise.
Proof.
  destruct (initialize_operator Examples.env (mkExecutorIds 0 0)
              (Examples.single Examples.filter_op) 7 Examples.filter_op)
    as [op'| | | |] eqn:E; try (vm_compute in E; discriminate E).
  exists op'; split; [reflexivity|].
  exact (initialized_operator_metadata_policy Examples.env _ _ _ _ _ E eq_refl).
Defined.

Lemma scheduling_terms_of_a_port_have_distinct_names_witness :
  (exists io',
     create_input_port Examples.env (Examples.single Examples.filter_op)
       Examples.expiring_input false Examples.filter_op = Ok io'
     /\ NoDup (scheduling_term_names (conditions io')))
  /\ (exists io',
        create_output_port Examples.env (Examples.single Examples.filter_op)
          (new_port "out" kOutput kSizeOne) false Examples.filter_op = Ok io'
        /\ NoDup (scheduling_term_names (conditions io'))).
Proof.
  split.
  - destruct (create_input_port Examples.env (Examples.single Examples.filter_op)
                Examples.expiring_input false Examples.filter_op)
      as [io'| | | |] eqn:E; try (vm_compute in E; discriminate E).
    exists io'; split; [reflexivity|].
    apply (proj1 (scheduling_terms_of_a_port_have_distinct_names Examples.env)
             _ _ _ _ E).
    vm_compute; discriminate.
  - destruct (create_output_port Examples.env (Examples.single Examples.filter_op)
                (new_port "out" kOutput kSizeOne) false Examples.filter_op)
      as [io'| | | |] eqn:E; try (vm_compute in E; discriminate E).
    exists io'; split; [reflexivity|].
    exact (proj2 (scheduling_terms_of_a_port_have_distinct_names Examples.env)
             _ _ _ _ E).
Defined.

Lemma given_input_conditions_are_kept_witness :
  exists io',
    create_input_port Examples.env (Examples.single Examples.filter_op)
      Examples.expiring_input false Examples.filter_op = Ok io'
    /\ (Examples.expiring_input.(conditions) <> nil ->
        map fst (conditions io') = [kExpiringMessageAvailable; kMessageAvailable])
    /\ (forall kind, In kind (map fst (conditions io')) ->
          In kind [kNone; kMessageAvailable; kExpiringMessageAvailable;
                   kMultiMessageAvailableTimeout]).
Proof.
  destruct (create_input_port Examples.env (Examples.single Examples.filter_op)
              Examples.expiring_input false Examples.filter_op)
    as [io'| | | |] eqn:E; try (vm_compute in E; discriminate E).
  exists io'; split; [reflexivity|].
  apply (given_input_conditions_are_kept Examples.env _ _ _ _ E).
  vm_compute; discriminate.
Defined.


(** ** The traversal of any graph: every operator is initialized once *)

Section Traversal.

Variable env : Environment.
Variable g : FlowGraph.
Hypothesis Hnodes : NoDup (ordered_nodes g).
Hypothesis Hsucc : NoDup (succ_ g).
Hypothesis Hend : forall u v, In (u, v) (succ_ g) ->
                              In u (ordered_nodes g) /\ In v (ordered_nodes g).

(** "artificially breaking the cycle": the nodes whose count is not zero
    are appended to the worklist, in the order of the graph, and their
    counts are set to zero. *)
Lemma break_cycles_fold (l : list NodeType) :
  NoDup l ->
  forall w : Worklist,
    worklist (break_cycles l w)
    = (worklist w ++ filter (fun n => negb (indegrees w n =? 0)) l)%list
    /\ forall v, indegrees (break_cycles l w) v
                 = if mem_node v l then 0 else indegrees w v.
Proof.
  unfold break_cycles; induction l as [|n l IH]; intros Hnd w.
  - cbn [fold_left filter]; rewrite app_nil_r; split; reflexivity.
  - inversion Hnd as [|? ? Hnotin Hnd']; subst.
    cbn [fold_left filter].
    assert (Hfilter : forall d,
               filter (fun x => negb (upd (indegrees w) n d x =? 0)) l
               = filter (fun x => negb (indegrees w x =? 0)) l).
    { intros d; apply filter_ext_in; intros x Hx; unfold upd.
      destruct (Nat.eqb x n) eqn:E; [|reflexivity].
      apply Nat.eqb_eq in E; subst x; contradiction. }
    destruct (indegrees w n =? 0) eqn:Ez; cbn [negb].
    + destruct (IH Hnd' w) as [Hw Hd]; split; [exact Hw|].
      intros v; rewrite Hd; unfold mem_node; cbn [existsb].
      destruct (Nat.eqb v n) eqn:E; cbn [orb]; [|reflexivity].
      apply Nat.eqb_eq in E; subst v; apply Z.eqb_eq in Ez.
      destruct (existsb (Nat.eqb n) l); [reflexivity | exact Ez].
    + destruct (IH Hnd' (mkWorklist (worklist w ++ [n])%list (upd (indegrees w) n 0)
                           (visited_nodes w))) as [Hw Hd].
      cbn [worklist indegrees] in Hw, Hd; split.
      * rewrite Hw, Hfilter, <- app_assoc; reflexivity.
      * intros v; rewrite Hd; unfold mem_node, upd; cbn [existsb].
        destruct (Nat.eqb v n); cbn [orb]; [|reflexivity].
        destruct (existsb (Nat.eqb v) l); reflexivity.
Qed.

(** Before the cycles are broken a visited node has no count left, and
    its count is not touched again. *)
Lemma visited_indegree_step (w : Worklist) (op_n : NodeType) (rest : list NodeType) :
  sched_inv g w ->
  (forall v, In v (visited_nodes w) -> indegrees w v = 0) ->
  worklist w = op_n :: rest ->
  forall v, In v (op_n :: visited_nodes w) ->
    indegrees (release_next_nodes g op_n
                 (mkWorklist rest (indegrees w) (op_n :: visited_nodes w))) v = 0.
Proof.
  intros Hinv Hzero Hw v Hv.
  assert (Hop_nodes : In op_n (ordered_nodes g)).
  { apply (inv_nodes g w Hinv); rewrite Hw; apply in_app_iff; right; left; reflexivity. }
  assert (Hop_vis : ~ In op_n (visited_nodes w)).
  { pose proof (inv_nodup g w Hinv) as Hnd; rewrite Hw in Hnd.
    apply NoDup_remove_2 in Hnd.
    intros Hc; apply Hnd, in_app_iff; left; exact Hc. }
  assert (Hop_deg : indegrees w op_n = 0).
  { apply (inv_ready g w Hinv op_n Hop_nodes Hop_vis); rewrite Hw; left; reflexivity. }
  assert (Hpreds : forall u, edge g u op_n -> In u (visited_nodes w)).
  { intros u Hu.
    rewrite (inv_indegree g w Hinv op_n Hop_nodes Hop_vis) in Hop_deg.
    destruct (unvisited_preds g (visited_nodes w) op_n) as [|x l] eqn:E;
      [|simpl in Hop_deg; lia].
    destruct (mem_node u (visited_nodes w)) eqn:Em; [apply mem_node_In; exact Em|].
    assert (Hx : In u (unvisited_preds g (visited_nodes w) op_n)).
    { apply filter_In; split; [apply In_get_previous_nodes; exact Hu|].
      rewrite Em; reflexivity. }
    rewrite E in Hx; contradiction. }
  assert (Hnot_next : ~ In v (get_next_nodes g op_n)).
  { intros Hc; apply In_get_next_nodes in Hc.
    destruct Hv as [<- | Hv]; [apply Hop_vis, Hpreds; exact Hc|].
    apply in_split in Hv; destruct Hv as [l1 [l2 Heq]].
    apply Hop_vis; rewrite Heq; apply in_app_iff; right; right.
    exact (inv_topo g w Hinv l1 v l2 Heq op_n Hc). }
  destruct (release_next_nodes_fold g op_n (get_next_nodes g op_n)
              (mkWorklist rest (indegrees w) (op_n :: visited_nodes w))
              (NoDup_get_next_nodes g Hsucc op_n)
              (fun x Hx => proj2 (has_edge_In g op_n x)
                             (proj1 (In_get_next_nodes g op_n x) Hx)))
    as [_ [_ Hd]].
  unfold release_next_nodes; rewrite Hd; cbn [indegrees].
  rewrite (proj2 (mem_node_false v _) Hnot_next).
  destruct Hv as [<- | Hv]; [exact Hop_deg | apply Hzero; exact Hv].
Qed.

(** When the worklist runs empty with nodes left, breaking the cycles
    puts exactly the nodes that were not visited into the worklist. *)
Lemma break_cycles_queues_the_rest (w : Worklist) :
  sched_inv g w ->
  (forall v, In v (visited_nodes w) -> indegrees w v = 0) ->
  worklist w = nil ->
  broken_inv g (break_cycles (ordered_nodes g) w).
Proof.
  intros Hinv Hzero Hw.
  destruct (break_cycles_fold (ordered_nodes g) Hnodes w) as [Hwl Hd].
  rewrite Hw in Hwl; cbn [app] in Hwl.
  pose proof (inv_nodup g w Hinv) as Hnd; rewrite Hw, app_nil_r in Hnd.
  assert (Hqueued : forall n, In n (worklist (break_cycles (ordered_nodes g) w))
                              <-> In n (ordered_nodes g) /\ ~ In n (visited_nodes w)).
  { intros n; rewrite Hwl, filter_In; split; intros [Hn Hc]; split; try exact Hn.
    - intros Hv; rewrite (Hzero n Hv) in Hc; discriminate Hc.
    - destruct (indegrees w n =? 0) eqn:Ez; [|reflexivity].
      apply Z.eqb_eq in Ez; apply (inv_ready g w Hinv n Hn Hc) in Ez.
      rewrite Hw in Ez; contradiction. }
  constructor.
  - rewrite break_cycles_visited.
    apply NoDup_app; [exact Hnd | rewrite Hwl; apply NoDup_filter; exact Hnodes|].
    intros a Ha Hc; apply Hqueued in Hc; tauto.
  - intros n; rewrite break_cycles_visited, in_app_iff, Hqueued; split.
    + intros [Hv | [Hn _]]; [|exact Hn].
      apply (inv_nodes g w Hinv), in_app_iff; left; exact Hv.
    + intros Hn; destruct (mem_node n (visited_nodes w)) eqn:Em.
      * left; apply mem_node_In; exact Em.
      * right; split; [exact Hn | apply mem_node_false; exact Em].
  - intros v Hv; rewrite Hd, (proj2 (mem_node_In v _) Hv); lia.
Qed.

(** After that a visit releases no node: the worklist only shrinks. *)
Lemma broken_inv_step (w : Worklist) (op_n : NodeType) (rest : list NodeType) :
  broken_inv g w -> worklist w = op_n :: rest ->
  broken_inv g (release_next_nodes g op_n
                  (mkWorklist rest (indegrees w) (op_n :: visited_nodes w)))
  /\ worklist (release_next_nodes g op_n
                 (mkWorklist rest (indegrees w) (op_n :: visited_nodes w))) = rest.
Proof.
  intros [Hnd Hin Hdeg] Hw; rewrite Hw in Hnd, Hin.
  destruct (release_next_nodes_fold g op_n (get_next_nodes g op_n)
              (mkWorklist rest (indegrees w) (op_n :: visited_nodes w))
              (NoDup_get_next_nodes g Hsucc op_n)
              (fun x Hx => proj2 (has_edge_In g op_n x)
                             (proj1 (In_get_next_nodes g op_n x) Hx)))
    as [Hwl [Hvis Hd]].
  unfold release_next_nodes.
  cbv zeta in Hwl, Hvis, Hd; cbn [worklist visited_nodes indegrees] in Hwl, Hvis, Hd.
  assert (Hnone : filter (fun v => indegrees w v - 1 =? 0) (get_next_nodes g op_n) = nil).
  { apply filter_all_false; intros v Hv.
    apply In_get_next_nodes, Hend in Hv; destruct Hv as [_ Hv].
    pose proof (Hdeg v Hv); apply Z.eqb_neq; lia. }
  rewrite Hnone, app_nil_r in Hwl.
  split; [|exact Hwl].
  constructor.
  - rewrite Hvis, Hwl; cbn [app].
    apply (Permutation_NoDup (l := (visited_nodes w ++ op_n :: rest)%list));
      [apply Permutation_sym, Permutation_middle | exact Hnd].
  - intros n; rewrite Hvis, Hwl, <- Hin, !in_app_iff; simpl In; tauto.
  - intros v Hv; rewrite Hd; pose proof (Hdeg v Hv).
    destruct (mem_node v (get_next_nodes g op_n)); lia.
Qed.

(** The rest of the loop, once the cycles were broken. *)
Lemma initialize_loop_broken :
  forall (fuel : nat) (w : Worklist) (ex : Executor),
    broken_inv g w -> graph (fragment_ ex) = g ->
    (List.length (worklist w) < fuel)%nat ->
    (exists w' ex',
        initialize_loop env fuel (ordered_nodes g) w ex = Ok (w', ex')
        /\ NoDup (visited_nodes w')
        /\ forall n, In n (visited_nodes w') <-> In n (ordered_nodes g))
    \/ visit_fails_after env (ordered_nodes g) ex (visited_nodes w)
         (initialize_loop env fuel (ordered_nodes g) w ex).
Proof.
  induction fuel as [|fuel IH]; intros w ex Hinv Hg Hfuel; [lia|].
  destruct (worklist w) as [|op_n rest] eqn:Ew.
  - left; exists w, ex.
    pose proof (broken_nodup g w Hinv) as Hnd; rewrite Ew, app_nil_r in Hnd.
    assert (Hin : forall n, In n (visited_nodes w) <-> In n (ordered_nodes g)).
    { intros n; rewrite <- (broken_nodes g w Hinv n), Ew, app_nil_r; tauto. }
    assert (Hlen : List.length (visited_nodes w) = List.length (ordered_nodes g)).
    { apply Permutation_length, NoDup_Permutation; assumption. }
    cbn [initialize_loop]; rewrite Ew, Hlen, Nat.eqb_refl; cbn [is_nil andb].
    auto.
  - assert (Hop : In op_n (ordered_nodes g)).
    { apply (broken_nodes g w Hinv); rewrite Ew; apply in_app_iff; right; left; reflexivity. }
    assert (Hvis : ~ In op_n (visited_nodes w)).
    { pose proof (broken_nodup g w Hinv) as Hnd; rewrite Ew in Hnd.
      apply NoDup_remove_2 in Hnd.
      intros Hc; apply Hnd, in_app_iff; left; exact Hc. }
    rewrite (initialize_loop_visit env fuel (ordered_nodes g) w ex op_n rest Ew
               (proj2 (mem_node_false _ _) Hvis)).
    destruct (visit_operator env ex (op_n :: visited_nodes w) op_n) as [ex1| | | |] eqn:Ev;
      try (right; rewrite <- Ev; apply visit_fails_after_here;
           [exact Hop | exact Hvis | rewrite Ev; reflexivity]).
    cbn [bind].
    assert (Hg1 : graph (fragment_ ex1) = g)
      by (rewrite (visit_operator_graph env _ _ _ _ Ev); exact Hg).
    rewrite Hg.
    destruct (broken_inv_step w op_n rest Hinv Ew) as [Hinv' Hwl'].
    destruct (IH (release_next_nodes g op_n
                    (mkWorklist rest (indegrees w) (op_n :: visited_nodes w))) ex1
                 Hinv' Hg1) as [Hok | Hfail];
      [rewrite Hwl'; cbn [List.length] in Hfuel; lia | left; exact Hok |].
    right; rewrite release_next_nodes_visited in Hfail; cbn [visited_nodes] in Hfail.
    exact (visit_fails_after_step _ _ _ _ _ _ _ Ev Hfail).
Qed.

(** The loop from a state before the cycles are broken. *)
Lemma initialize_loop_general :
  forall (fuel : nat) (w : Worklist) (ex : Executor),
    sched_inv g w ->
    (forall v, In v (visited_nodes w) -> indegrees w v = 0) ->
    graph (fragment_ ex) = g ->
    (List.length (ordered_nodes g) - List.length (visited_nodes w) < fuel)%nat ->
    (exists w' ex',
        initialize_loop env fuel (ordered_nodes g) w ex = Ok (w', ex')
        /\ NoDup (visited_nodes w')
        /\ forall n, In n (visited_nodes w') <-> In n (ordered_nodes g))
    \/ visit_fails_after env (ordered_nodes g) ex (visited_nodes w)
         (initialize_loop env fuel (ordered_nodes g) w ex).
Proof.
  induction fuel as [|fuel IH]; intros w ex Hinv Hzero Hg Hfuel; [lia|].
  destruct (worklist w) as [|op_n rest] eqn:Ew.
  - pose proof (inv_nodup g w Hinv) as Hnd; rewrite Ew, app_nil_r in Hnd.
    assert (Hincl : incl (visited_nodes w) (ordered_nodes g)).
    { intros x Hx; apply (inv_nodes g w Hinv), in_app_iff; left; exact Hx. }
    destruct (Nat.eq_dec (List.length (visited_nodes w)) (List.length (ordered_nodes g)))
      as [Hlen | Hlen].
    + left; exists w, ex.
      cbn [initialize_loop]; rewrite Ew, Hlen, Nat.eqb_refl; cbn [is_nil andb].
      split; [reflexivity | split; [exact Hnd|]].
      intros n; split; [apply Hincl|].
      apply (NoDup_length_incl Hnd); [lia | exact Hincl].
    + pose proof (break_cycles_queues_the_rest w Hinv Hzero Ew) as Hbroken.
      pose proof (broken_nodup g _ Hbroken) as Hnd'.
      pose proof (broken_nodes g _ Hbroken) as Hin'.
      rewrite break_cycles_visited in Hnd', Hin'.
      assert (Hperm : Permutation
                        (visited_nodes w ++ worklist (break_cycles (ordered_nodes g) w))
                        (ordered_nodes g))
        by (apply NoDup_Permutation; assumption).
      apply Permutation_length in Hperm; rewrite length_app in Hperm.
      destruct (worklist (break_cycles (ordered_nodes g) w)) as [|op_n rest] eqn:Eb;
        [cbn [List.length] in Hperm; lia|].
      rewrite (initialize_loop_break_cycles env fuel (ordered_nodes g) w ex op_n rest
                 Ew Hlen Eb).
      destruct (initialize_loop_broken (S fuel) (break_cycles (ordered_nodes g) w) ex
                  Hbroken Hg) as [Hok | Hfail];
        [rewrite Eb; lia | left; exact Hok |].
      right; rewrite break_cycles_visited in Hfail; exact Hfail.
  - assert (Hop : In op_n (ordered_nodes g)).
    { apply (inv_nodes g w Hinv); rewrite Ew; apply in_app_iff; right; left; reflexivity. }
    assert (Hvis : ~ In op_n (visited_nodes w)).
    { pose proof (inv_nodup g w Hinv) as Hnd; rewrite Ew in Hnd.
      apply NoDup_remove_2 in Hnd.
      intros Hc; apply Hnd, in_app_iff; left; exact Hc. }
    rewrite (initialize_loop_visit env fuel (ordered_nodes g) w ex op_n rest Ew
               (proj2 (mem_node_false _ _) Hvis)).
    destruct (visit_operator env ex (op_n :: visited_nodes w) op_n) as [ex1| | | |] eqn:Ev;
      try (right; rewrite <- Ev; apply visit_fails_after_here;
           [exact Hop | exact Hvis | rewrite Ev; reflexivity]).
    cbn [bind].
    assert (Hg1 : graph (fragment_ ex1) = g)
      by (rewrite (visit_operator_graph env _ _ _ _ Ev); exact Hg).
    rewrite Hg.
    destruct (IH (release_next_nodes g op_n
                    (mkWorklist rest (indegrees w) (op_n :: visited_nodes w))) ex1)
      as [Hok | Hfail];
      [apply sched_inv_step; assumption
      | rewrite release_next_nodes_visited; cbn [visited_nodes];
        apply visited_indegree_step; assumption
      | exact Hg1 | | left; exact Hok |].
    + rewrite release_next_nodes_visited; cbn [visited_nodes List.length].
      assert (Hlt : (List.length (visited_nodes w) < List.length (ordered_nodes g))%nat).
      { pose proof (inv_nodup g w Hinv) as Hnd.
        apply NoDup_app_remove_r in Hnd.
        assert (Hnd' : NoDup (op_n :: visited_nodes w)) by (constructor; assumption).
        apply (NoDup_incl_length Hnd').
        intros x [<- | Hx]; [exact Hop|].
        apply (inv_nodes g w Hinv), in_app_iff; left; exact Hx. }
      lia.
    + right; rewrite release_next_nodes_visited in Hfail; cbn [visited_nodes] in Hfail.
      exact (visit_fails_after_step _ _ _ _ _ _ _ Ev Hfail).
Qed.

End Traversal.

(** The loop from the state in which [initialize_fragment] starts it, on
    any graph: it returns with every node visited once, the executor it
    returns being the one that these visits reach, in which every operator
    that is not virtual is initialized, or it ends with the failure of the
    visit of an operator; it does not run out of iterations. *)
Lemma initialize_loop_ends (env : Environment) (ex : Executor) (fuel : nat) :
  let g := graph (fragment_ ex) in
  let r := initialize_loop env fuel (get_nodes g) (init_worklist g) ex in
  wf_fragment (fragment_ ex) ->
  (List.length (get_nodes g) < fuel)%nat ->
  ((exists w' ex',
       r = Ok (w', ex')
       /\ NoDup (visited_nodes w')
       /\ (forall n, In n (visited_nodes w') <-> In n (get_nodes g))
       /\ Permutation (initialization_order w') (get_nodes g)
       /\ NoDup (initialization_order w')
       /\ visit_in_order env ex nil (initialization_order w') = Ok ex'
       /\ forall n, In n (get_nodes g) -> operator_type (the_op ex n) <> kVirtual ->
                    is_initialized_ (the_op ex' n) = true)
   \/ visit_fails_after env (get_nodes g) ex nil r)
  /\ (env_returns env -> r <> OutOfFuel).
Proof.
  intros g r Hwf Hfuel; unfold get_nodes in *.
  pose proof (wf_nodes _ Hwf) as Hnodes; pose proof (wf_succ _ Hwf) as Hsucc.
  pose proof (wf_endpoints _ Hwf) as Hend; fold g in Hnodes, Hsucc, Hend.
  assert (Hvis0 : visited_nodes (init_worklist g) = nil).
  { unfold init_worklist.
    destruct (init_worklist_fold g (get_nodes g) (mkWorklist nil (fun _ => 0) nil))
      as [_ [Hv _]]; exact Hv. }
  assert (Hcases :
            (exists w' ex',
                r = Ok (w', ex')
                /\ NoDup (visited_nodes w')
                /\ (forall n, In n (visited_nodes w') <-> In n (ordered_nodes g))
                /\ Permutation (initialization_order w') (ordered_nodes g)
                /\ NoDup (initialization_order w')
                /\ visit_in_order env ex nil (initialization_order w') = Ok ex'
                /\ forall n, In n (ordered_nodes g) ->
                             operator_type (the_op ex n) <> kVirtual ->
                             is_initialized_ (the_op ex' n) = true)
            \/ visit_fails_after env (ordered_nodes g) ex nil r).
  { destruct (initialize_loop_general env g Hnodes Hsucc Hend fuel (init_worklist g) ex
                (sched_inv_init g Hnodes)) as [Hok | Hfail].
    - rewrite Hvis0; intros v [].
    - reflexivity.
    - rewrite Hvis0; cbn [List.length]; lia.
    - left; destruct Hok as [w' [ex' [Hrun [Hnd Hin]]]].
      exists w', ex'; split; [exact Hrun|]; split; [exact Hnd|]; split; [exact Hin|].
      assert (Hperm : Permutation (initialization_order w') (ordered_nodes g)).
      { unfold initialization_order.
        eapply Permutation_trans; [apply Permutation_sym, Permutation_rev|].
        apply NoDup_Permutation; assumption. }
      destruct (initialize_loop_visits _ _ _ _ _ _ _ Hrun) as [l [Hl Hvisits]].
      rewrite Hvis0, app_nil_r in Hl; rewrite Hvis0 in Hvisits.
      assert (Horder : initialization_order w' = l)
        by (unfold initialization_order; rewrite Hl; apply rev_involutive).
      split; [exact Hperm|]; split; [|split].
      + unfold initialization_order; apply NoDup_rev; exact Hnd.
      + rewrite Horder; exact Hvisits.
      + intros n Hn Hty.
        destruct (visit_in_order_initializes _ _ _ _ _ Hvisits) as [_ [Hinitialized _]].
        apply Hinitialized; [|exact Hty].
        rewrite <- Horder; apply (Permutation_in _ (Permutation_sym Hperm)); exact Hn.
    - right; rewrite Hvis0 in Hfail; exact Hfail. }
  split; [exact Hcases|].
  intros Hreturns; destruct Hcases as [[w' [ex' [-> _]]] | Hfail]; [discriminate|].
  exact (visit_fails_after_returns env Hreturns _ _ _ _ Hfail).
Qed.

(** X2.  The worklist loop of [initialize_fragment] ends on every operator
    graph, with or without cycles, after at most one iteration for each
    node and one more: it returns, or it ends with the failure of the visit
    (initialization and wiring) of an operator, and it does not run out of
    iterations.  When it returns it has visited every node of the graph
    exactly once; the executor state it returns is the one reached by these
    visits in this order, and in it every operator that is not virtual is
    initialized. *)
Theorem every_operator_is_initialized_once (env : Environment) (ex : Executor) (fuel : nat) :
  let g := graph (fragment_ ex) in
  let r := initialize_loop env fuel (get_nodes g) (init_worklist g) ex in
  wf_fragment (fragment_ ex) ->
  (List.length (get_nodes g) < fuel)%nat ->
  ((exists w' ex',
       r = Ok (w', ex')
       /\ Permutation (initialization_order w') (get_nodes g)
       /\ NoDup (initialization_order w')
       /\ visit_in_order env ex nil (initialization_order w') = Ok ex'
       /\ forall n, In n (get_nodes g) -> operator_type (the_op ex n) <> kVirtual ->
                    is_initialized_ (the_op ex' n) = true)
   \/ visit_fails_after env (get_nodes g) ex nil r)
  /\ (env_returns env -> r <> OutOfFuel).
Proof.
  intros g r Hwf Hfuel.
  destruct (initialize_loop_ends env ex fuel Hwf Hfuel) as [Hcases Hreturns].
  split; [|exact Hreturns].
  destruct Hcases as [[w' [ex' [Hrun [_ [_ [Hperm [Hnd [Hvisits Hinit]]]]]]]] | Hfail];
    [left; exists w', ex'; auto | right; exact Hfail].
Qed.

Lemma wf_data_cycle : wf_fragment Examples.data_cycle.
Proof.
  constructor.
  - simpl; solve_NoDup.
  - simpl; solve_NoDup.
  - intros u v H; simpl in H.
    destruct H as [H | [H | []]]; inversion H; subst; simpl; auto.
  - intros u v _; split; simpl; [solve_NoDup|].
    repeat constructor; simpl; intuition.
Defined.

(** A result of the loop that is not the failure of a visit. *)
Lemma not_visit_fails_after {A : Type} (env : Environment) (operators : list NodeType)
  (ex : Executor) (visited : list NodeType) (a : A) :
  ~ visit_fails_after env operators ex visited (Ok a).
Proof. intros [l [n [ex0 [_ [_ [_ Hfail]]]]]]; inversion Hfail. Qed.

(** The traversal of the cycle [Examples.data_cycle] completes. *)
Lemma every_operator_is_initialized_once_witness :
  let ex := Examples.executor_of Examples.data_cycle in
  let g := graph Examples.data_cycle in
  exists w' ex',
    initialize_loop Examples.env 3 (get_nodes g) (init_worklist g) ex = Ok (w', ex')
    /\ Permutation (initialization_order w') (get_nodes g)
    /\ NoDup (initialization_order w')
    /\ visit_in_order Examples.env ex nil (initialization_order w') = Ok ex'
    /\ forall n, In n (get_nodes g) -> operator_type (the_op ex n) <> kVirtual ->
                 is_initialized_ (the_op ex' n) = true.
Proof.
  intros ex g.
  destruct (every_operator_is_initialized_once Examples.env ex 3 wf_data_cycle)
    as [[Hok | Hfail] _].
  - simpl; lia.
  - exact Hok.
  - exfalso; revert Hfail.
    remember (initialize_loop Examples.env 3
                (get_nodes (graph (fragment_ ex)))
                (init_worklist (graph (fragment_ ex))) ex) as r eqn:Er.
    vm_compute in Er; subst r; apply not_visit_fails_after.
Defined.

(** ** Every edge of a local fragment is connected once *)

Section LocalWiring.

Variable env : Environment.

Lemma lookup_In {A : Type} (k : string) (m : list (string * A)) (v : A) :
  lookup k m = Some v -> In (k, v) m.
Proof.
  induction m as [|[k' v'] m IH]; cbn [lookup]; [discriminate|].
  destruct (String.eqb k k') eqn:E.
  - apply String.eqb_eq in E; subst k'; intros [= ->]; left; reflexivity.
  - intros H; right; apply IH; exact H.
Qed.

Lemma In_update {A : Type} (k : string) (v : A) (m : list (string * A)) (p : string)
  (x : A) :
  In (p, x) (update k v m) -> In (p, x) m \/ x = v.
Proof.
  induction m as [|[k' v'] m IH]; cbn [update]; [intros []|].
  destruct (String.eqb k k').
  - intros [H | H]; [right; congruence | left; right; exact H].
  - intros [H | H]; [left; left; exact H|].
    destruct (IH H) as [H' | H']; [left; right; exact H' | right; exact H'].
Qed.

Lemma In_modify_port (name : string) (g : IOSpec -> IOSpec) (ports : list (string * IOSpec))
  (p : string) (io : IOSpec) :
  In (p, io) (modify_port name g ports) ->
  In (p, io) ports \/ exists io0, In (name, io0) ports /\ io = g io0.
Proof.
  unfold modify_port; destruct (lookup name ports) as [io0|] eqn:E; [|left; assumption].
  intros H; apply In_update in H; destruct H as [H | ->]; [left; exact H|].
  right; exists io0; split; [apply lookup_In; exact E | reflexivity].
Qed.

(** With ready ports the component id of a port is the id of its
    connector. *)
Lemma gxf_cid_ready (n : NodeType) (dir : IOType) (port : string)
  (ports : list (string * IOSpec)) (c : Cid) :
  ports_ready ports -> gxf_cid n dir port ports = Ok c -> c = cid_port n dir port.
Proof.
  unfold gxf_cid; intros Hready H.
  destruct (lookup port ports) as [io|] eqn:El; [|discriminate].
  destruct (connector io) as [r|] eqn:Ec; [|discriminate].
  rewrite (Hready port io r (lookup_In _ _ _ El) Ec) in H; congruence.
Qed.

(** The cycle mitigation keeps an operator local. *)
Lemma mitigate_cycle_local (g : FlowGraph) (visited : list NodeType) (op_n : NodeType)
  (op op' : Operator) :
  env_kAnySize env <> kSizeOne ->
  local_operator env op ->
  mitigate_cycle g visited op_n op = Ok op' ->
  local_operator env op'.
Proof.
  intros Hany [Ht Hid Hinit Houts Hrx] H; unfold mitigate_cycle in H.
  destruct (input_exec_spec op) as [input_exec|];
    [|inversion H; subst; constructor; assumption].
  destruct (detect_cycle op_n visited (get_previous_nodes g op_n) false)
    as [cycle_detected self_cycle].
  destruct cycle_detected; [|inversion H; subst; constructor; assumption].
  assert (Hrx' : forall p io,
             In (p, io) (modify_port input_exec (fun io => set_queue_size io kSizeOne)
                           (inputs op)) ->
             queue_size io = env_kAnySize env -> connector io = None).
  { intros p io Hin Hq; apply In_modify_port in Hin.
    destruct Hin as [Hin | [io0 [_ ->]]]; [apply (Hrx p io Hin Hq)|].
    cbn [queue_size set_queue_size] in Hq; congruence. }
  destruct self_cycle.
  - cbn [output_exec_spec set_metadata_policy set_inputs] in H.
    destruct (output_exec_spec op) as [output_exec|]; [|discriminate].
    inversion H; subst; clear H; constructor; cbn; try assumption.
    intros p io Hin; apply In_modify_port in Hin.
    destruct Hin as [Hin | [io0 [Hin ->]]]; [apply (Houts p io Hin)|].
    cbn; apply (Houts _ io0 Hin).
  - inversion H; subst; clear H; constructor; cbn; assumption.
Qed.

Lemma create_output_port_connector_type (f : Fragment) (io io' : IOSpec) (op : Operator) :
  create_output_port env f io false op = Ok io' ->
  connector_type io' = connector_type io.
Proof.
  intros H; unfold create_output_port in H.
  apply bind_Ok in H; destruct H as [io1 [H1 H]].
  apply bind_Ok in H; destruct H as [cs [_ H]].
  inversion H; subst; clear H; cbn [set_conditions connector_type].
  assert (Hc : connector_type io1 = connector_type io).
  { unfold create_transmitter in H1.
    destruct (has_component (as_transmitter (connector io))).
    - inversion H1; reflexivity.
    - apply bind_Ok in H1; destruct H1 as [r [_ H1]]; inversion H1; reflexivity. }
  rewrite <- Hc; unfold default_output_condition.
  destruct (conditions io1); [|reflexivity].
  destruct (negb _); [|reflexivity].
  destruct (negb _); reflexivity.
Qed.

(** A multi-receiver port is returned as it is. *)
Lemma create_input_port_any_size (f : Fragment) (io io' : IOSpec) (op : Operator) :
  create_input_port env f io false op = Ok io' ->
  queue_size io = env_kAnySize env -> io' = io.
Proof.
  intros H Hq; unfold create_input_port in H.
  unfold resolve_queue_size in H.
  rewrite Hq, Z.eqb_refl in H; cbn [bind] in H; congruence.
Qed.

(** The initialization of a local operator: the operator gets an id and
    its connectors get their components. *)
Lemma initialize_local_operator (f : Fragment) (cid : positive) (op op' : Operator) :
  local_operator env op ->
  op_initialize env (mkExecutorIds 0 0) f cid op = Ok op' ->
  wired_operator op'.
Proof.
  intros [Ht Hid Hinit Houts Hrx] H; unfold op_initialize in H.
  assert (H' : initialize_operator env (mkExecutorIds 0 0) f cid op = Ok op')
    by (destruct (operator_type op); [exact H | exact H | congruence]).
  clear H; unfold initialize_operator in H'; rewrite Hinit in H'.
  cbn [op_cid_ op_eid_] in H'; change (0 =? 0) with true in H'.
  cbv zeta in H'; cbn [negb] in H'.
  apply bind_Ok in H'; destruct H' as [ins [Hins H]].
  apply bind_Ok in H; destruct H as [outs [Houts' H]].
  apply bind_Ok in H; destruct H as [u1 [_ H]].
  apply bind_Ok in H; destruct H as [u2 [_ H]].
  inversion H; subst; clear H.
  destruct (create_ports_In _ _ _ Hins) as [_ Hin_ins].
  destruct (create_ports_In _ _ _ Houts') as [_ Hin_outs].
  assert (Hinputs : forall o, inputs (if MetadataPolicy_eqb (metadata_policy (set_id op o))
                                         kDefaultPolicy
                                      then set_metadata_policy (set_id op o)
                                             (frag_metadata_policy f)
                                      else set_id op o) = inputs op)
    by (intros o; destruct (MetadataPolicy_eqb _ _); reflexivity).
  assert (Houtputs : forall o ins0,
             outputs (set_inputs (if MetadataPolicy_eqb (metadata_policy (set_id op o))
                                       kDefaultPolicy
                                  then set_metadata_policy (set_id op o)
                                         (frag_metadata_policy f)
                                  else set_id op o) ins0) = outputs op)
    by (intros o ins0; destruct (MetadataPolicy_eqb _ _); reflexivity).
  rewrite Hinputs in Hin_ins; rewrite Houtputs in Hin_outs.
  constructor.
  - cbn; destruct (MetadataPolicy_eqb _ _); cbn; discriminate.
  - cbn; destruct (MetadataPolicy_eqb _ _); cbn; exact Ht.
  - cbn; intros p io' Hin.
    destruct (Hin_outs p io' Hin) as [io [Hio Hc]].
    rewrite (create_output_port_connector_type _ _ _ _ Hc); apply (Houts p io Hio).
  - cbn; intros p io' c Hin Hconn.
    destruct (Hin_ins p io' Hin) as [io [Hio Hc]].
    destruct (Z.eq_dec (queue_size io) (env_kAnySize env)) as [Hq | Hq].
    + rewrite (create_input_port_any_size _ _ _ _ Hc Hq) in Hconn.
      rewrite (Hrx p io Hio Hq) in Hconn; discriminate.
    + pose proof (create_input_port_queue_size env _ _ _ _ Hc) as Hq'.
      assert (Hcomp : has_component (connector io') = true)
        by (apply (create_input_port_component env _ _ _ _ Hc); congruence).
      rewrite Hconn in Hcomp; exact Hcomp.
  - cbn; intros p io' c Hin Hconn.
    destruct (Hin_outs p io' Hin) as [io [Hio Hc]].
    pose proof (create_output_port_component env _ _ _ _ Hc) as Hcomp.
    rewrite Hconn in Hcomp; exact Hcomp.
Qed.

End LocalWiring.
Section LocalWiringUpstream.

Variable env : Environment.

Lemma add_connections_nil (ex : Executor) : add_connections ex nil = ex.
Proof. destruct ex; unfold add_connections; cbn; rewrite app_nil_r; reflexivity. Qed.

Lemma add_connections_app (ex : Executor) (a b : list (Cid * Cid)) :
  add_connections (add_connections ex a) b = add_connections ex (a ++ b).
Proof. unfold add_connections; cbn; rewrite app_assoc; reflexivity. Qed.

Lemma ConnectorType_eqb_neq (a b : ConnectorType) :
  a <> b -> ConnectorType_eqb a b = false.
Proof. destruct a, b; intros H; try reflexivity; exfalso; apply H; reflexivity. Qed.

Lemma OperatorType_eqb_neq (a b : OperatorType) :
  a <> b -> OperatorType_eqb a b = false.
Proof. destruct a, b; intros H; try reflexivity; exfalso; apply H; reflexivity. Qed.

(** The inner loop of the direct connections: one connection for every
    target port, when the source operator is initialized. *)
Lemma connect_targets_exact (op_n : NodeType) (ins : list (string * IOSpec))
  (source_cid : Cid) (prev_initialized : bool) :
  ports_ready ins ->
  forall (tgts : list string) (ex ex' : Executor),
    foldM
      (fun ex target_port =>
         match lookup target_port ins with
         | None => Undefined
         | Some _ =>
             if prev_initialized then
               target_cid <- gxf_cid op_n kInput target_port ins ;;
               Ok (add_connection ex source_cid target_cid)
             else Ok ex
         end)
      tgts ex = Ok ex' ->
    ex' = add_connections ex
            (if prev_initialized
             then map (fun t => (source_cid, cid_port op_n kInput t)) tgts
             else nil).
Proof.
  intros Hready; induction tgts as [|t tgts IH]; intros ex ex' H; cbn [foldM] in H.
  - inversion H; subst; destruct prev_initialized; cbn [map];
      rewrite add_connections_nil; reflexivity.
  - apply bind_Ok in H; destruct H as [ex1 [H1 H]].
    destruct (lookup t ins) as [io|]; [|discriminate].
    destruct prev_initialized.
    + apply bind_Ok in H1; destruct H1 as [tc [Htc H1]].
      apply (gxf_cid_ready _ _ _ _ _ Hready) in Htc; subst tc.
      inversion H1; subst ex1; clear H1.
      rewrite (IH _ _ H); cbn [map].
      change (add_connection ex source_cid (cid_port op_n kInput t))
        with (add_connections ex [(source_cid, cid_port op_n kInput t)]).
      rewrite add_connections_app; reflexivity.
    + inversion H1; subst ex1; apply IH; exact H.
Qed.

Section Entries.

Variable F : Fragment.
Variables op_n prev_n : NodeType.
Hypothesis Hprev : id (op_heap F prev_n) <> -1 -> ports_ready (outputs (op_heap F prev_n)).
Hypothesis Hop : ports_ready (inputs (op_heap F op_n)).
Hypothesis Hucx : forall p io, In (p, io) (outputs (op_heap F prev_n)) ->
                               connector_type io <> kUCX.

Lemma connect_direct_exact (ex ex' : Executor) (entry : string * list string) :
  fragment_ ex = F ->
  connect_direct op_n prev_n ex entry = Ok ex' ->
  ex' = add_connections ex
          (if id (op_heap F prev_n) =? -1 then nil else edge_connections prev_n op_n [entry]).
Proof.
  intros HF H; destruct entry as [src tgts]; unfold connect_direct in H.
  unfold the_op in H; rewrite HF in H; cbv zeta in H.
  apply bind_Ok in H; destruct H as [source_cid [Hsrc H]].
  destruct (lookup src (outputs (op_heap F prev_n))) as [io|] eqn:El; [|discriminate].
  rewrite (ConnectorType_eqb_neq _ _ (Hucx src io (lookup_In _ _ _ El))) in H.
  cbn [negb] in H.
  apply (connect_targets_exact op_n _ _ _ Hop) in H; subst ex'.
  unfold edge_connections; cbn [flat_map fst snd]; rewrite app_nil_r.
  destruct (id (op_heap F prev_n) =? -1) eqn:Eid; cbn [negb] in *; [reflexivity|].
  apply Z.eqb_neq in Eid.
  apply (gxf_cid_ready _ _ _ _ _ (Hprev Eid)) in Hsrc; subst source_cid; reflexivity.
Qed.

Lemma connect_entries_exact :
  forall (pm : PortMap) (ex ex' : Executor),
    fragment_ ex = F ->
    foldM (connect_direct op_n prev_n) pm ex = Ok ex' ->
    ex' = add_connections ex
            (if id (op_heap F prev_n) =? -1 then nil else edge_connections prev_n op_n pm).
Proof.
  induction pm as [|entry pm IH]; intros ex ex' HF H; cbn [foldM] in H.
  - inversion H; subst; destruct (_ =? _); cbn; rewrite add_connections_nil; reflexivity.
  - apply bind_Ok in H; destruct H as [ex1 [H1 H]].
    apply (connect_direct_exact _ _ _ HF) in H1; subst ex1.
    apply IH in H; [|exact HF]; subst ex'.
    rewrite add_connections_app; f_equal.
    destruct (_ =? _); [reflexivity|].
    unfold edge_connections; cbn [flat_map]; rewrite app_nil_r; reflexivity.
Qed.

Hypothesis Hprev_type : operator_type (op_heap F prev_n) <> kVirtual.
Hypothesis Hop_type : operator_type (op_heap F op_n) <> kVirtual.

(** "Connecting earlier operators": the connections of the edge are made
    when the earlier operator is another operator and is initialized. *)
Lemma connect_previous_op_exact (ex ex' : Executor) :
  fragment_ ex = F -> broadcast_entities ex = nil ->
  connect_previous_op env op_n ex prev_n = Ok ex' ->
  ex' = add_connections ex
          (if Nat.eqb prev_n op_n || (id (op_heap F prev_n) =? -1) then nil
           else edge_connections prev_n op_n (edge_data F prev_n op_n)).
Proof.
  intros HF Hb H; unfold connect_previous_op in H.
  destruct (Nat.eqb prev_n op_n); cbn [orb];
    [inversion H; subst; rewrite add_connections_nil; reflexivity|].
  destruct (get_port_map (fragment_ ex) prev_n op_n); [|discriminate].
  rewrite Hb in H; cbn [has_broadcast existsb bind] in H.
  unfold the_op in H; rewrite HF in H.
  destruct (edge_data F prev_n op_n) as [|entry pm] eqn:Epm.
  - inversion H; subst; destruct (_ =? _); cbn; rewrite add_connections_nil; reflexivity.
  - rewrite (OperatorType_eqb_neq _ _ Hprev_type), (OperatorType_eqb_neq _ _ Hop_type) in H.
    cbn [orb] in H.
    apply connect_entries_exact in H; [exact H | exact HF].
Qed.

End Entries.

End LocalWiringUpstream.
Section LocalWiringDownstream.

Variable env : Environment.

Lemma Cid_eqb_eq (a b : Cid) : Cid_eqb a b = true <-> a = b.
Proof.
  split.
  - destruct a as [n d p | n p | i |], b as [n' d' p' | n' p' | j |]; cbn [Cid_eqb];
      try discriminate; intros H.
    + apply andb_true_iff in H; destruct H as [H Hp].
      apply andb_true_iff in H; destruct H as [Hn Hd].
      apply Nat.eqb_eq in Hn; apply String.eqb_eq in Hp; subst.
      destruct d, d'; try discriminate; reflexivity.
    + apply andb_true_iff in H; destruct H as [Hn Hp].
      apply Nat.eqb_eq in Hn; apply String.eqb_eq in Hp; subst; reflexivity.
    + apply Nat.eqb_eq in H; subst; reflexivity.
    + reflexivity.
  - intros <-; destruct a as [n d p | n p | i |]; cbn [Cid_eqb];
      rewrite ?Nat.eqb_refl, ?String.eqb_refl; [destruct d|..]; reflexivity.
Qed.

Lemma TargetPort_mem (t : TargetPort) (s : list TargetPort) :
  existsb (TargetPort_eqb t) s = true <-> In t s.
Proof.
  rewrite existsb_exists; split.
  - intros [x [Hx He]]; unfold TargetPort_eqb in He.
    apply andb_true_iff in He; destruct He as [H1 H2].
    apply Nat.eqb_eq in H1; apply String.eqb_eq in H2.
    destruct t, x; cbn in *; subst; exact Hx.
  - intros H; exists t; split; [exact H|].
    unfold TargetPort_eqb; rewrite Nat.eqb_refl, String.eqb_refl; reflexivity.
Qed.

Lemma insert_target_spec (t : TargetPort) (s : list TargetPort) :
  NoDup s ->
  NoDup (insert_target t s) /\ forall x, In x (insert_target t s) <-> In x s \/ x = t.
Proof.
  intros Hnd; unfold insert_target.
  destruct (existsb (TargetPort_eqb t) s) eqn:E.
  - apply TargetPort_mem in E; split; [exact Hnd|].
    intros x; split; [left; assumption | intros [H | ->]; assumption].
  - assert (Hnot : ~ In t s).
    { intros Hc; apply TargetPort_mem in Hc; congruence. }
    split.
    + apply NoDup_app; [exact Hnd | constructor; [intros [] | constructor]|].
      intros a Ha [<- | []]; contradiction.
    + intros x; rewrite in_app_iff; cbn [In]; split;
        [intros [H | [H | []]]; auto | intros [H | H]; auto].
Qed.

(** A target added to the connections of an operator. *)
Lemma add_target_spec (k : Cid) (cn : string) (ct : ConnectorType) (t : TargetPort) :
  ct <> kUCX ->
  forall connections : TargetConnectionsMapType,
    wf_connections connections ->
    wf_connections (add_target connections k cn ct t)
    /\ (forall x, In x (targets_of (add_target connections k cn ct t))
                  <-> In x (targets_of connections) \/ x = (k, t))
    /\ (forall k', In k' (map fst (add_target connections k cn ct t)) ->
                   In k' (map fst connections) \/ k' = k).
Proof.
  intros Hct; induction connections as [|[cid [[cname ct0] targets]] rest IH];
    intros [Hkeys Hall].
  - cbn [add_target targets_of flat_map map fst snd app]; split; [|split].
    + split; [cbn; constructor; [intros [] | constructor]|].
      intros c [<- | []]; cbn; split; [exact Hct | constructor; [intros [] | constructor]].
    + intros x; cbn; intuition congruence.
    + intros k'; cbn; intuition congruence.
  - cbn [add_target].
    cbn [map fst] in Hkeys; inversion Hkeys as [|? ? Hnotin Hkeys']; subst.
    assert (Hhead : ct0 <> kUCX /\ NoDup targets)
      by (apply (Hall (cid, (cname, ct0, targets))); left; reflexivity).
    assert (Hrest : wf_connections rest)
      by (split; [exact Hkeys' | intros c Hc; apply Hall; right; exact Hc]).
    destruct (Cid_eqb cid k) eqn:E.
    + apply Cid_eqb_eq in E; subst cid.
      destruct (insert_target_spec t targets (proj2 Hhead)) as [Hnd Hin].
      split; [|split].
      * split; [cbn [map fst]; exact Hkeys|].
        intros c [<- | Hc]; [cbn; split; [apply Hhead | exact Hnd] | apply Hall; right; exact Hc].
      * intros x; unfold targets_of; cbn [flat_map fst snd].
        rewrite !in_app_iff, !in_map_iff; split.
        -- intros [[y [<- Hy]] | H]; [|left; right; exact H].
           apply Hin in Hy; destruct Hy as [Hy | ->]; [|right; reflexivity].
           left; left; exists y; split; [reflexivity | exact Hy].
        -- intros [[[y [<- Hy]] | H] | ->].
           ++ left; exists y; split; [reflexivity | apply Hin; left; exact Hy].
           ++ right; exact H.
           ++ left; exists t; split; [reflexivity | apply Hin; right; reflexivity].
      * intros k'; cbn [map fst]; tauto.
    + assert (Hne : cid <> k) by (intros Hc; apply Cid_eqb_eq in Hc; congruence).
      destruct (IH Hrest) as [[Hkeys1 Hall1] [Hin1 Hsub1]].
      split; [|split].
      * split.
        -- cbn [map fst]; constructor; [|exact Hkeys1].
           intros Hc; apply Hsub1 in Hc; destruct Hc as [Hc | Hc]; [contradiction | congruence].
        -- intros c [<- | Hc]; [cbn; exact Hhead | apply Hall1; exact Hc].
      * intros x; unfold targets_of; cbn [flat_map fst snd].
        fold (targets_of (add_target rest k cn ct t)); fold (targets_of rest).
        rewrite !in_app_iff, Hin1; tauto.
      * intros k'; cbn [map fst In]; intros [H | H]; [left; left; exact H|].
        apply Hsub1 in H; tauto.
Qed.

Lemma NoDup_map_injective {A B : Type} (f : A -> B) (l : list A) :
  (forall x y, In x l -> In y l -> f x = f y -> x = y) ->
  NoDup l -> NoDup (map f l).
Proof.
  intros Hinj Hnd; induction Hnd as [|a l Hnotin Hnd IH]; cbn [map]; constructor.
  - intros Hc; apply in_map_iff in Hc; destruct Hc as [y [Hy Hin]].
    assert (y = a) by (apply Hinj; [right; exact Hin | left; reflexivity | exact Hy]).
    subst y; contradiction.
  - apply IH; intros x y Hx Hy; apply Hinj; right; assumption.
Qed.

Lemma NoDup_targets_of (connections : TargetConnectionsMapType) :
  wf_connections connections -> NoDup (targets_of connections).
Proof.
  intros [Hkeys Hall]; unfold targets_of; apply NoDup_flat_map.
  - apply (NoDup_map_inv fst); exact Hkeys.
  - intros c Hc; apply NoDup_map_injective; [|apply (Hall c Hc)].
    intros x y _ _ H; congruence.
  - intros c1 c2 b H1 H2 Hb1 Hb2.
    apply in_map_iff in Hb1; destruct Hb1 as [t1 [<- _]].
    apply in_map_iff in Hb2; destruct Hb2 as [t2 [E _]].
    assert (Ek : fst c2 = fst c1) by congruence.
    clear E; revert c1 c2 H1 H2 Ek Hkeys; clear.
    induction connections as [|c rest IH]; intros c1 c2 H1 H2 Ek Hkeys; [contradiction|].
    cbn [map] in Hkeys; inversion Hkeys as [|? ? Hnotin Hkeys']; subst.
    destruct H1 as [E1 | H1], H2 as [E2 | H2]; [subst c1 c2; reflexivity | | |].
    + exfalso; apply Hnotin, in_map_iff; exists c2; split; [subst c1; exact Ek | exact H2].
    + exfalso; apply Hnotin, in_map_iff; exists c1; split;
        [subst c2; symmetry; exact Ek | exact H1].
    + apply IH; assumption.
Qed.

Section Collect.

Variable F : Fragment.
Variable op_n : NodeType.
Hypothesis Hop : wired_operator (op_heap F op_n).

(** The innermost loop of "Checking next operators". *)
Lemma collect_targets_spec (next_op : NodeType) (s : string) :
  forall (tgts : list string) (connections connections' : TargetConnectionsMapType),
    foldM
      (fun connections target_port =>
         if negb (OperatorType_eqb (operator_type (op_heap F op_n)) kVirtual) then
           match lookup s (outputs (op_heap F op_n)) with
           | None => Undefined
           | Some source_io_spec =>
               match connector source_io_spec with
               | None => Undefined
               | Some source_gxf_resource =>
                   source_cid <- gxf_cid op_n kOutput s (outputs (op_heap F op_n)) ;;
                   Ok (add_target connections source_cid
                         (conn_name source_gxf_resource)
                         (connector_type source_io_spec)
                         (next_op, target_port))
               end
           end
         else Ok connections)
      tgts connections = Ok connections' ->
    wf_connections connections ->
    wf_connections connections'
    /\ forall x, In x (targets_of connections')
                 <-> In x (targets_of connections)
                     \/ exists tp, In tp tgts /\ x = (cid_port op_n kOutput s, (next_op, tp)).
Proof.
  induction tgts as [|tp tgts IH]; intros connections connections' H Hwf; cbn [foldM] in H.
  - inversion H; subst; split; [exact Hwf|].
    intros x; split; [left; assumption | intros [H' | [tp [[] _]]]; exact H'].
  - apply bind_Ok in H; destruct H as [c1 [H1 H]].
    rewrite (OperatorType_eqb_neq _ _ (wired_type _ Hop)) in H1; cbn [negb] in H1.
    destruct (lookup s (outputs (op_heap F op_n))) as [io|] eqn:El; [|discriminate].
    destruct (connector io) as [r|]; [|discriminate].
    apply bind_Ok in H1; destruct H1 as [cid [Hcid H1]].
    apply (gxf_cid_ready _ _ _ _ _ (wired_tx _ Hop)) in Hcid; subst cid.
    inversion H1; subst c1; clear H1.
    destruct (add_target_spec (cid_port op_n kOutput s) (conn_name r) (connector_type io)
                (next_op, tp) (wired_outputs _ Hop s io (lookup_In _ _ _ El))
                connections Hwf) as [Hwf1 [Hin1 _]].
    destruct (IH _ _ H Hwf1) as [Hwf' Hin']; split; [exact Hwf'|].
    intros x; rewrite Hin', Hin1; cbn [In]; split.
    + intros [[Hx | ->] | [tp' [Htp ->]]]; [left; exact Hx | |].
      * right; exists tp; split; [left; reflexivity | reflexivity].
      * right; exists tp'; split; [right; exact Htp | reflexivity].
    + intros [Hx | [tp' [[<- | Htp] ->]]]; [left; left; exact Hx | left; right; reflexivity|].
      right; exists tp'; split; [exact Htp | reflexivity].
Qed.

(** The loop over the port map of one edge. *)
Lemma collect_entries_spec (next_op : NodeType) :
  forall (pm : PortMap) (connections connections' : TargetConnectionsMapType),
    foldM
      (fun connections entry =>
         foldM
           (fun connections target_port =>
              if negb (OperatorType_eqb (operator_type (op_heap F op_n)) kVirtual) then
                match lookup (fst entry) (outputs (op_heap F op_n)) with
                | None => Undefined
                | Some source_io_spec =>
                    match connector source_io_spec with
                    | None => Undefined
                    | Some source_gxf_resource =>
                        source_cid <- gxf_cid op_n kOutput (fst entry)
                                              (outputs (op_heap F op_n)) ;;
                        Ok (add_target connections source_cid
                              (conn_name source_gxf_resource)
                              (connector_type source_io_spec)
                              (next_op, target_port))
                    end
                end
              else Ok connections)
           (snd entry) connections)
      pm connections = Ok connections' ->
    wf_connections connections ->
    wf_connections connections'
    /\ forall x, In x (targets_of connections')
                 <-> In x (targets_of connections)
                     \/ exists s tgts tp,
                          In (s, tgts) pm /\ In tp tgts
                          /\ x = (cid_port op_n kOutput s, (next_op, tp)).
Proof.
  induction pm as [|[s tgts] pm IH]; intros connections connections' H Hwf; cbn [foldM] in H.
  - inversion H; subst; split; [exact Hwf|].
    intros x; split; [left; assumption | intros [H' | [s [tgts [tp [[] _]]]]]; exact H'].
  - apply bind_Ok in H; destruct H as [c1 [H1 H]]; cbn [fst snd] in H1.
    destruct (collect_targets_spec next_op s tgts _ _ H1 Hwf) as [Hwf1 Hin1].
    destruct (IH _ _ H Hwf1) as [Hwf' Hin']; split; [exact Hwf'|].
    intros x; rewrite Hin', Hin1; cbn [In]; split.
    + intros [[Hx | [tp [Htp ->]]] | [s' [tgts' [tp [Hin [Htp ->]]]]]].
      * left; exact Hx.
      * right; exists s, tgts, tp; auto.
      * right; exists s', tgts', tp; auto.
    + intros [Hx | [s' [tgts' [tp [[E | Hin] [Htp ->]]]]]].
      * left; left; exact Hx.
      * inversion E; subst; left; right; exists tp; auto.
      * right; exists s', tgts', tp; auto.
Qed.

(** "Checking next operators": the connections collected for an
    operator are its port-level edges, grouped by source port. *)
Lemma collect_connections_spec (ex : Executor) (connections : TargetConnectionsMapType) :
  fragment_ ex = F ->
  collect_connections ex op_n = Ok connections ->
  wf_connections connections
  /\ forall x, In x (targets_of connections)
               <-> exists next_op s tgts tp,
                     In (op_n, next_op) (succ_ (graph F))
                     /\ In (s, tgts) (edge_data F op_n next_op) /\ In tp tgts
                     /\ x = (cid_port op_n kOutput s, (next_op, tp)).
Proof.
  intros HF H; unfold collect_connections in H.
  unfold the_op in H; rewrite HF in H.
  assert (Hgen : forall (l : list NodeType) (c c' : TargetConnectionsMapType),
             foldM
               (fun connections next_op =>
                  match get_port_map F op_n next_op with
                  | None => Ok connections
                  | Some port_map =>
                      foldM
                        (fun connections entry =>
                           foldM
                             (fun connections target_port =>
                                if negb (OperatorType_eqb (operator_type (op_heap F op_n))
                                           kVirtual) then
                                  match lookup (fst entry) (outputs (op_heap F op_n)) with
                                  | None => Undefined
                                  | Some source_io_spec =>
                                      match connector source_io_spec with
                                      | None => Undefined
                                      | Some source_gxf_resource =>
                                          source_cid <- gxf_cid op_n kOutput (fst entry)
                                                          (outputs (op_heap F op_n)) ;;
                                          Ok (add_target connections source_cid
                                                (conn_name source_gxf_resource)
                                                (connector_type source_io_spec)
                                                (next_op, target_port))
                                      end
                                  end
                                else Ok connections)
                             (snd entry) connections)
                        port_map connections
                  end) l c = Ok c' ->
             wf_connections c ->
             wf_connections c'
             /\ forall x, In x (targets_of c')
                          <-> In x (targets_of c)
                              \/ exists next_op s tgts tp,
                                   In next_op l
                                   /\ In (op_n, next_op) (succ_ (graph F))
                                   /\ In (s, tgts) (edge_data F op_n next_op) /\ In tp tgts
                                   /\ x = (cid_port op_n kOutput s, (next_op, tp))).
  { induction l as [|next_op l IH]; intros c c' Hc Hwf; cbn [foldM] in Hc.
    - inversion Hc; subst; split; [exact Hwf|].
      intros x; split; [left; assumption|].
      intros [H' | [n [s [tgts [tp [[] _]]]]]]; exact H'.
    - apply bind_Ok in Hc; destruct Hc as [c1 [H1 Hc]].
      unfold get_port_map in H1.
      destruct (has_edge (graph F) op_n next_op) eqn:Ee.
      + apply has_edge_In in Ee.
        destruct (collect_entries_spec next_op _ _ _ H1 Hwf) as [Hwf1 Hin1].
        destruct (IH _ _ Hc Hwf1) as [Hwf' Hin']; split; [exact Hwf'|].
        intros x; rewrite Hin', Hin1; cbn [In]; split.
        * intros [[Hx | [s [tgts [tp [Hin [Htp ->]]]]]]
                 | [n [s [tgts [tp [Hn [He [Hin [Htp ->]]]]]]]]].
          -- left; exact Hx.
          -- right; exists next_op, s, tgts, tp; auto.
          -- right; exists n, s, tgts, tp; auto.
        * intros [Hx | [n [s [tgts [tp [[<- | Hn] [He [Hin [Htp ->]]]]]]]]].
          -- left; left; exact Hx.
          -- left; right; exists s, tgts, tp; auto.
          -- right; exists n, s, tgts, tp; auto.
      + inversion H1; subst c1; clear H1.
        destruct (IH _ _ Hc Hwf) as [Hwf' Hin']; split; [exact Hwf'|].
        intros x; rewrite Hin'; cbn [In]; split.
        * intros [Hx | [n [s [tgts [tp [Hn [He [Hin [Htp ->]]]]]]]]]; [left; exact Hx|].
          right; exists n, s, tgts, tp; auto.
        * intros [Hx | [n [s [tgts [tp [[<- | Hn] [He [Hin [Htp ->]]]]]]]]].
          -- left; exact Hx.
          -- apply has_edge_In in He; congruence.
          -- right; exists n, s, tgts, tp; auto. }
  destruct (Hgen _ _ _ H) as [Hwf Hin].
  { split; [constructor | intros c []]. }
  split; [exact Hwf|].
  intros x; rewrite Hin; cbn [targets_of flat_map In]; split.
  - intros [[] | [n [s [tgts [tp [_ [He [Hs [Htp ->]]]]]]]]].
    exists n, s, tgts, tp; auto.
  - intros [n [s [tgts [tp [He [Hs [Htp ->]]]]]]]; right.
    exists n, s, tgts, tp; split; [apply In_get_next_nodes; exact He | auto].
Qed.

End Collect.

End LocalWiringDownstream.
Section LocalWiringStep.

Variable env : Environment.

Section Downstream.

Variable F : Fragment.
Variable nodes : list NodeType.
Hypothesis Hready : forall n, In n nodes -> id (op_heap F n) <> -1 ->
                              ports_ready (inputs (op_heap F n)).

(** The targets of one source port: the initialized ones are connected. *)
Lemma connect_source_targets_exact (source_cid : Cid) :
  forall (targets : list TargetPort) (ex ex' : Executor),
    fragment_ ex = F ->
    (forall t, In t targets -> In (fst t) nodes) ->
    foldM
      (fun ex (target : TargetPort) =>
         let (tmp_next_op, target_port_name) := target in
         if negb (id (the_op ex tmp_next_op) =? -1) then
           target_cid <- gxf_cid tmp_next_op kInput target_port_name
                                 (inputs (the_op ex tmp_next_op)) ;;
           Ok (add_connection ex source_cid target_cid)
         else Ok ex)
      targets ex = Ok ex' ->
    ex' = add_connections ex
            (map connection_to
                 (filter (target_is_initialized F) (map (fun t => (source_cid, t)) targets))).
Proof.
  induction targets as [|[tn tp] targets IH]; intros ex ex' HF Hin H; cbn [foldM] in H.
  - inversion H; subst; cbn; rewrite add_connections_nil; reflexivity.
  - apply bind_Ok in H; destruct H as [ex1 [H1 H]].
    unfold the_op in H1; rewrite HF in H1.
    assert (Hin' : forall t, In t targets -> In (fst t) nodes)
      by (intros t Ht; apply Hin; right; exact Ht).
    cbn [map filter]; unfold target_is_initialized at 1; cbn [fst snd].
    destruct (id (op_heap F tn) =? -1) eqn:Eid; cbn [negb] in *.
    + inversion H1; subst ex1; apply IH; assumption.
    + apply Z.eqb_neq in Eid.
      apply bind_Ok in H1; destruct H1 as [tc [Htc H1]].
      apply (gxf_cid_ready _ _ _ _ _
               (Hready tn (Hin (tn, tp) (or_introl eq_refl)) Eid)) in Htc; subst tc.
      inversion H1; subst ex1; clear H1.
      apply IH in H; [| exact HF | exact Hin']; subst ex'.
      change (add_connection ex source_cid (cid_port tn kInput tp))
        with (add_connections ex [(source_cid, cid_port tn kInput tp)]).
      rewrite add_connections_app; reflexivity.
Qed.

(** "Iterate through downstream connections": every collected target
    that is initialized is connected. *)
Lemma connect_initialized_targets_exact :
  forall (connections : TargetConnectionsMapType) (ex : Executor) (ucx : bool)
         (acc' : Executor * bool),
    fragment_ ex = F ->
    wf_connections connections ->
    (forall x, In x (targets_of connections) -> In (fst (snd x)) nodes) ->
    foldM connect_initialized_targets connections (ex, ucx) = Ok acc' ->
    acc' = (add_connections ex
              (map connection_to (filter (target_is_initialized F) (targets_of connections))), ucx).
Proof.
  induction connections as [|[cid [[cname ct] targets]] rest IH];
    intros ex ucx acc' HF Hwf Hin H; cbn [foldM] in H.
  - inversion H; subst; cbn; rewrite add_connections_nil; reflexivity.
  - apply bind_Ok in H; destruct H as [acc1 [H1 H]].
    destruct Hwf as [Hkeys Hall].
    assert (Hct : ct <> kUCX)
      by (apply (Hall (cid, (cname, ct, targets))); left; reflexivity).
    unfold connect_initialized_targets in H1; cbn [fst snd] in H1.
    rewrite (ConnectorType_eqb_neq _ _ Hct) in H1.
    apply bind_Ok in H1; destruct H1 as [ex1 [H1 Hacc]].
    apply (connect_source_targets_exact cid _ _ _ HF) in H1.
    2:{ intros t Ht.
        apply (Hin (cid, t)); unfold targets_of; cbn [flat_map fst snd].
        apply in_app_iff; left; apply in_map; exact Ht. }
    subst ex1; inversion Hacc; subst acc1; clear Hacc.
    apply IH in H; [| exact HF | |].
    + subst acc'; rewrite add_connections_app; f_equal; f_equal.
      unfold targets_of; cbn [flat_map fst snd].
      rewrite filter_app, map_app; reflexivity.
    + split; [cbn [map] in Hkeys; inversion Hkeys; assumption|].
      intros c Hc; apply Hall; right; exact Hc.
    + intros x Hx; apply Hin; unfold targets_of; cbn [flat_map].
      apply in_app_iff; right; exact Hx.
Qed.

(** The tail of the loop body, when no target of the operator is virtual
    or connected by UCX: the initialized targets are connected, and no
    broadcast component is created. *)
Lemma connect_next_ops_exact (ex ex' : Executor) (op_n : NodeType)
  (connections : TargetConnectionsMapType) :
  fragment_ ex = F ->
  wf_connections connections ->
  (forall x, In x (targets_of connections) -> In (fst (snd x)) nodes) ->
  (forall n, In n (get_next_nodes (graph F) op_n) -> operator_type (op_heap F n) <> kVirtual) ->
  connect_next_ops env ex op_n connections = Ok ex' ->
  ex' = add_connections ex
          (map connection_to (filter (target_is_initialized F) (targets_of connections))).
Proof.
  intros HF Hwf Hin Hnext H; unfold connect_next_ops in H.
  apply bind_Ok in H; destruct H as [acc [Hacc H]].
  apply (connect_initialized_targets_exact _ _ _ _ HF Hwf Hin) in Hacc; subst acc.
  cbv zeta in H; cbn [orb] in H.
  assert (Hnone : existsb
                    (fun next_op =>
                       OperatorType_eqb
                         (operator_type
                            (the_op (add_connections ex
                                       (map connection_to
                                          (filter (target_is_initialized F) (targets_of connections))))
                                    next_op)) kVirtual)
                    (get_next_nodes (graph (fragment_ ex)) op_n) = false).
  { rewrite HF; apply not_true_is_false; intros Hc.
    apply existsb_exists in Hc; destruct Hc as [n [Hn Hv]].
    unfold the_op in Hv; cbn [fragment_ add_connections] in Hv; rewrite HF in Hv.
    rewrite (OperatorType_eqb_neq _ _ (Hnext n Hn)) in Hv; discriminate. }
  rewrite Hnone in H; inversion H; reflexivity.
Qed.

End Downstream.

Section Upstream.

Variable F : Fragment.
Variable op_n : NodeType.
Hypothesis Hready : forall n, In (n, op_n) (succ_ (graph F)) -> id (op_heap F n) <> -1 ->
                              wired_operator (op_heap F n).
Hypothesis Hlocal : forall n, In (n, op_n) (succ_ (graph F)) ->
                              operator_type (op_heap F n) <> kVirtual
                              /\ forall p io, In (p, io) (outputs (op_heap F n)) ->
                                              connector_type io <> kUCX.
Hypothesis Hop : wired_operator (op_heap F op_n).

(** "Connecting earlier operators", over all the earlier operators. *)
Lemma connect_previous_ops_exact :
  forall (prevs : list NodeType) (ex ex' : Executor),
    (forall n, In n prevs -> In (n, op_n) (succ_ (graph F))) ->
    fragment_ ex = F -> broadcast_entities ex = nil ->
    foldM (connect_previous_op env op_n) prevs ex = Ok ex' ->
    ex' = add_connections ex
            (flat_map
               (fun u => if Nat.eqb u op_n || (id (op_heap F u) =? -1) then nil
                         else edge_connections u op_n (edge_data F u op_n))
               prevs).
Proof.
  induction prevs as [|u prevs IH]; intros ex ex' Hprevs HF Hb H; cbn [foldM] in H.
  - inversion H; subst; cbn; rewrite add_connections_nil; reflexivity.
  - apply bind_Ok in H; destruct H as [ex1 [H1 H]].
    destruct (Hlocal u (Hprevs u (or_introl eq_refl))) as [Htype Hucx].
    apply (connect_previous_op_exact env F op_n u
             (fun Hid => wired_tx _ (Hready u (Hprevs u (or_introl eq_refl)) Hid))
             (wired_rx _ Hop) Hucx Htype
             (wired_type _ Hop) _ _ HF Hb) in H1; subst ex1.
    apply IH in H; [| intros n Hn; apply Hprevs; right; exact Hn | exact HF | exact Hb].
    subst ex'; rewrite add_connections_app; reflexivity.
Qed.

End Upstream.

End LocalWiringStep.
Section LocalTraversal.

Variable env : Environment.
Variable f0 : Fragment.
Hypothesis Hwf : wf_fragment f0.
Hypothesis Hany : env_kAnySize env <> kSizeOne.
Hypothesis Hlocal : forall n, In n (ordered_nodes (graph f0)) ->
                              local_operator env (op_heap f0 n).

Lemma In_port_edges (f : Fragment) (u : NodeType) (s : string) (v : NodeType) (t : string) :
  In (u, s, v, t) (port_edges f)
  <-> In (u, v) (succ_ (graph f))
      /\ exists tgts, In (s, tgts) (edge_data f u v) /\ In t tgts.
Proof.
  unfold port_edges; rewrite in_flat_map; split.
  - intros [[a b] [He H]]; cbn [fst snd] in H.
    apply in_flat_map in H; destruct H as [[s' tgts] [Hs H]].
    apply in_map_iff in H; destruct H as [t' [E Ht]].
    inversion E; subst; split; [exact He | exists tgts; auto].
  - intros [He [tgts [Hs Ht]]]; exists (u, v); split; [exact He|].
    cbn [fst snd]; apply in_flat_map; exists (s, tgts); split; [exact Hs|].
    apply in_map_iff; exists t; auto.
Qed.

Lemma In_edge_connections (u v : NodeType) (pm : PortMap) (c : Cid * Cid) :
  In c (edge_connections u v pm)
  <-> exists s tgts t, In (s, tgts) pm /\ In t tgts /\ c = connection_of (u, s, v, t).
Proof.
  unfold edge_connections; rewrite in_flat_map; split.
  - intros [[s tgts] [Hs H]]; apply in_map_iff in H; destruct H as [t [<- Ht]].
    exists s, tgts, t; auto.
  - intros [s [tgts [t [Hs [Ht ->]]]]]; exists (s, tgts); split; [exact Hs|].
    apply in_map_iff; exists t; auto.
Qed.

Lemma NoDup_edge_connections (u v : NodeType) (pm : PortMap) :
  wf_port_map pm -> NoDup (edge_connections u v pm).
Proof.
  intros [Hkeys Hsets]; unfold edge_connections; apply NoDup_flat_map.
  - apply (NoDup_map_inv fst); exact Hkeys.
  - intros entry Hentry; apply NoDup_map_injective.
    + intros x y _ _ E; congruence.
    + rewrite Forall_forall in Hsets; apply Hsets; exact Hentry.
  - intros [s1 t1] [s2 t2] b H1 H2 Hb1 Hb2; cbn [fst snd] in *.
    apply in_map_iff in Hb1; destruct Hb1 as [x1 [<- _]].
    apply in_map_iff in Hb2; destruct Hb2 as [x2 [E _]].
    assert (Es : s2 = s1) by congruence; subst s2; clear E.
    f_equal.
    revert H1 H2 Hkeys; clear; induction pm as [|[k ts] pm IH]; intros H1 H2 Hkeys;
      [contradiction|].
    cbn [map fst] in Hkeys; inversion Hkeys as [|? ? Hnotin Hkeys']; subst.
    destruct H1 as [E1 | H1], H2 as [E2 | H2].
    + congruence.
    + inversion E1; subst; exfalso; apply Hnotin.
      apply in_map_iff; exists (s1, t2); auto.
    + inversion E2; subst; exfalso; apply Hnotin.
      apply in_map_iff; exists (s1, t1); auto.
    + apply IH; assumption.
Qed.

Lemma connection_of_inj (u u' : NodeType) (s s' : string) (v v' : NodeType) (t t' : string) :
  connection_of (u, s, v, t) = connection_of (u', s', v', t') ->
  u = u' /\ s = s' /\ v = v' /\ t = t'.
Proof. cbn [connection_of]; intros E; inversion E; auto. Qed.

(** One visit: the operator is initialized, and it is connected to the
    operators visited before it and to itself. *)
Lemma visit_keeps_wired (ex ex' : Executor) (V : list NodeType) (op_n : NodeType) :
  wired_inv f0 ex V -> In op_n (ordered_nodes (graph f0)) -> ~ In op_n V ->
  visit_operator env ex (op_n :: V) op_n = Ok ex' ->
  wired_inv f0 ex' (op_n :: V).
Proof.
  intros [[Hg Hed Hids Hb Hunv Hvis] Hnd Hconn] Hnode Hnot H.
  pose proof (wf_succ _ Hwf) as Hsucc; pose proof (wf_endpoints _ Hwf) as Hend.
  rewrite visit_operator_unfold in H; cbv zeta in H.
  apply bind_Ok in H; destruct H as [op1 [Hm H]].
  apply bind_Ok in H; destruct H as [op2 [Hi H]].
  apply bind_Ok in H; destruct H as [ex2 [Hup H]].
  apply bind_Ok in H; destruct H as [conns [Hcol Hdown]].
  cbn [executor_ids set_fragment] in Hi; rewrite Hids in Hi.
  assert (Hop1 : local_operator env op1).
  { apply (mitigate_cycle_local env _ _ _ _ _ Hany) in Hm; [exact Hm|].
    rewrite (Hunv op_n Hnot); apply Hlocal; exact Hnode. }
  pose proof (initialize_local_operator env _ _ _ _ Hop1 Hi) as Hop2.
  clear Hm Hi.
  match type of Hup with foldM _ _ ?e = _ => set (ex1 := e) in * end.
  assert (Hg1 : graph (fragment_ ex1) = graph f0) by exact Hg.
  assert (Hed1 : edge_data (fragment_ ex1) = edge_data f0) by exact Hed.
  assert (Hheap1 : forall n, op_heap (fragment_ ex1) n
                             = if Nat.eqb n op_n then op2 else the_op ex n).
  { intros n; unfold ex1, the_op; cbn; unfold upd.
    destruct (Nat.eqb n op_n); reflexivity. }
  assert (Hb1 : broadcast_entities ex1 = nil) by exact Hb.
  assert (Hids1 : executor_ids ex1 = mkExecutorIds 0 0) by exact Hids.
  assert (Hc1 : connections_entity_ ex1 = connections_entity_ ex) by reflexivity.
  rewrite Hg in Hup.
  clearbody ex1.
  set (F1 := fragment_ ex1) in *.
  assert (Hop_heap : op_heap F1 op_n = op2)
    by (rewrite Hheap1, Nat.eqb_refl; reflexivity).
  assert (Hvisited1 : forall n, In n (op_n :: V) -> wired_operator (op_heap F1 n)).
  { intros n Hn; rewrite Hheap1.
    destruct (Nat.eqb n op_n) eqn:E; [exact Hop2|].
    apply Nat.eqb_neq in E; destruct Hn as [<- | Hn]; [congruence | apply Hvis; exact Hn]. }
  assert (Hunvisited1 : forall n, ~ In n (op_n :: V) -> op_heap F1 n = op_heap f0 n).
  { intros n Hn; rewrite Hheap1.
    destruct (Nat.eqb n op_n) eqn:E;
      [apply Nat.eqb_eq in E; exfalso; apply Hn; left; congruence|].
    apply Hunv; intros Hc; apply Hn; right; exact Hc. }
  assert (Hinit : forall n, In n (ordered_nodes (graph f0)) ->
                            (id (op_heap F1 n) <> -1 <-> In n (op_n :: V))).
  { intros n Hn; split.
    - intros Hid; destruct (in_dec Nat.eq_dec n (op_n :: V)) as [Hin | Hout]; [exact Hin|].
      exfalso; apply Hid; rewrite (Hunvisited1 n Hout); apply (local_id env), Hlocal; exact Hn.
    - intros Hin; apply (wired_id _ (Hvisited1 n Hin)). }
  assert (Htypes : forall n, In n (ordered_nodes (graph f0)) ->
             operator_type (op_heap F1 n) <> kVirtual
             /\ forall p io, In (p, io) (outputs (op_heap F1 n)) -> connector_type io <> kUCX).
  { intros n Hn; destruct (in_dec Nat.eq_dec n (op_n :: V)) as [Hin | Hout].
    - split; [apply (wired_type _ (Hvisited1 n Hin)) | apply (wired_outputs _ (Hvisited1 n Hin))].
    - rewrite (Hunvisited1 n Hout).
      split; [apply (local_type env), Hlocal | apply (local_outputs env), Hlocal]; exact Hn. }
  (* the connections to the earlier operators *)
  apply (connect_previous_ops_exact env F1 op_n) in Hup;
    [ | intros n Hn Hid; rewrite Hg1 in Hn; apply Hvisited1, Hinit;
        [apply (Hend n op_n Hn) | exact Hid]
      | intros n Hn; rewrite Hg1 in Hn; apply Htypes, (Hend n op_n Hn)
      | apply Hvisited1; left; reflexivity
      | intros n Hn; rewrite Hg1; apply In_get_previous_nodes; exact Hn
      | reflexivity
      | exact Hb1 ].
  set (up := flat_map _ _) in Hup.
  (* the connections collected for the later operators *)
  assert (HF2 : fragment_ ex2 = F1) by (rewrite Hup; reflexivity).
  destruct (collect_connections_spec F1 op_n (Hvisited1 op_n (or_introl eq_refl))
              ex2 conns HF2 Hcol) as [Hwfc Htargets].
  fold F1 in Hg1, Hed1.
  rewrite Hg1, Hed1 in Htargets.
  apply (connect_next_ops_exact env F1 (ordered_nodes (graph f0))) in Hdown;
    [ | intros n Hn Hid; apply (wired_rx _ (Hvisited1 n (proj1 (Hinit n Hn) Hid)))
      | exact HF2
      | exact Hwfc
      | intros x Hx; apply Htargets in Hx;
        destruct Hx as [nx [s [tgts [tp [He [_ [_ ->]]]]]]]; apply (Hend op_n nx He)
      | intros n Hn; rewrite Hg1 in Hn; apply In_get_next_nodes in Hn;
        apply Htypes, (Hend op_n n Hn) ].
  set (down := map connection_to _) in Hdown.
  (* the connections added by the visit *)
  assert (Hin_up : forall c, In c up <->
            exists u s t, In (u, s, op_n, t) (port_edges f0) /\ In u V
                          /\ c = connection_of (u, s, op_n, t)).
  { intros c; unfold up; rewrite in_flat_map; split.
    - intros [u [Hu Hc]]; apply In_get_previous_nodes in Hu.
      destruct (Nat.eqb u op_n) eqn:E; cbn [orb] in Hc; [contradiction|].
      destruct (id (op_heap F1 u) =? -1) eqn:Eid; [contradiction|].
      apply Nat.eqb_neq in E; apply Z.eqb_neq in Eid.
      apply (Hinit u (proj1 (Hend u op_n Hu))) in Eid.
      destruct Eid as [Eq | HuV]; [congruence|].
      rewrite Hed1 in Hc; apply In_edge_connections in Hc.
      destruct Hc as [s [tgts [t [Hs [Ht ->]]]]].
      exists u, s, t; split; [|auto].
      apply In_port_edges; split; [exact Hu | exists tgts; auto].
    - intros [u [s [t [He [HuV ->]]]]]; apply In_port_edges in He.
      destruct He as [He [tgts [Hs Ht]]].
      exists u; split; [apply In_get_previous_nodes; exact He|].
      assert (E : Nat.eqb u op_n = false)
        by (apply Nat.eqb_neq; intros ->; contradiction).
      assert (Eid : (id (op_heap F1 u) =? -1) = false).
      { apply Z.eqb_neq, (Hinit u (proj1 (Hend u op_n He))); right; exact HuV. }
      rewrite E, Eid; cbn [orb]; rewrite Hed1; apply In_edge_connections.
      exists s, tgts, t; auto. }
  assert (Hin_down : forall c, In c down <->
            exists s v t, In (op_n, s, v, t) (port_edges f0) /\ In v (op_n :: V)
                          /\ c = connection_of (op_n, s, v, t)).
  { intros c; unfold down; rewrite in_map_iff; split.
    - intros [x [<- Hx]]; apply filter_In in Hx; destruct Hx as [Hx Hq].
      apply Htargets in Hx; destruct Hx as [nx [s [tgts [tp [He [Hs [Htp ->]]]]]]].
      unfold target_is_initialized in Hq; cbn [fst snd] in Hq.
      apply negb_true_iff, Z.eqb_neq in Hq.
      apply (Hinit nx (proj2 (Hend op_n nx He))) in Hq.
      exists s, nx, tp; split; [|split; [exact Hq | reflexivity]].
      apply In_port_edges; split; [exact He | exists tgts; auto].
    - intros [s [v [t [He [Hv ->]]]]]; apply In_port_edges in He.
      destruct He as [He [tgts [Hs Ht]]].
      exists (cid_port op_n kOutput s, (v, t)); split; [reflexivity|].
      apply filter_In; split.
      + apply Htargets; exists v, s, tgts, t; auto.
      + unfold target_is_initialized; cbn [fst snd].
        apply negb_true_iff, Z.eqb_neq, (Hinit v (proj2 (Hend op_n v He))); exact Hv. }
  assert (Hnd_up : NoDup up).
  { unfold up; apply NoDup_flat_map.
    - apply NoDup_get_previous_nodes; exact Hsucc.
    - intros u Hu; destruct (_ || _); [constructor|].
      apply NoDup_edge_connections; rewrite Hed1.
      apply (wf_port_maps _ Hwf), In_get_previous_nodes; exact Hu.
    - intros x y b _ _ Hx Hy.
      destruct (_ || _); [contradiction|]; destruct (_ || _); [contradiction|].
      apply In_edge_connections in Hx; destruct Hx as [s1 [g1 [t1 [_ [_ ->]]]]].
      apply In_edge_connections in Hy; destruct Hy as [s2 [g2 [t2 [_ [_ E]]]]].
      apply connection_of_inj in E; tauto. }
  assert (Hnd_down : NoDup down).
  { unfold down; apply NoDup_map_injective.
    - intros [k1 [n1 p1]] [k2 [n2 p2]] _ _ E; unfold connection_to in E; cbn in E.
      inversion E; reflexivity.
    - apply NoDup_filter, NoDup_targets_of; exact Hwfc. }
  assert (Hconns' : connections_entity_ ex' = (connections_entity_ ex ++ up ++ down)%list).
  { rewrite Hdown, Hup; cbn [connections_entity_ add_connections].
    rewrite Hc1, <- app_assoc; reflexivity. }
  assert (HF' : fragment_ ex' = F1) by (rewrite Hdown, Hup; reflexivity).
  constructor; [constructor|..].
  - rewrite HF'; exact Hg1.
  - rewrite HF'; exact Hed1.
  - rewrite Hdown, Hup; exact Hids1.
  - rewrite Hdown, Hup; exact Hb1.
  - intros n Hn; unfold the_op; rewrite HF'; apply Hunvisited1; exact Hn.
  - intros n Hn; unfold the_op; rewrite HF'; apply Hvisited1; exact Hn.
  - rewrite Hconns'; apply NoDup_app; [exact Hnd | |].
    + apply NoDup_app; [exact Hnd_up | exact Hnd_down|].
      intros c Hc1' Hc2; apply Hin_up in Hc1'; apply Hin_down in Hc2.
      destruct Hc1' as [u [s [t [_ [HuV ->]]]]].
      destruct Hc2 as [s' [v' [t' [_ [_ E]]]]].
      apply connection_of_inj in E; destruct E as [-> _]; contradiction.
    + intros c Hold Hnew; apply Hconn in Hold.
      destruct Hold as [u [s [v [t [_ [HuV [HvV ->]]]]]]].
      apply in_app_iff in Hnew; destruct Hnew as [Hnew | Hnew].
      * apply Hin_up in Hnew; destruct Hnew as [u' [s' [t' [_ [_ E]]]]].
        apply connection_of_inj in E; destruct E as [_ [_ [-> _]]]; contradiction.
      * apply Hin_down in Hnew; destruct Hnew as [s' [v' [t' [_ [_ E]]]]].
        apply connection_of_inj in E; destruct E as [-> _]; contradiction.
  - intros c; rewrite Hconns', !in_app_iff, Hconn, Hin_up, Hin_down; split.
    + intros [[u [s [v [t [He [Hu [Hv ->]]]]]]]
             | [[u [s [t [He [Hu ->]]]]] | [s [v [t [He [Hv ->]]]]]]].
      * exists u, s, v, t; cbn [In]; auto.
      * exists u, s, op_n, t; cbn [In]; auto.
      * exists op_n, s, v, t; cbn [In]; auto.
    + intros [u [s [v [t [He [[<- | Hu] [Hv ->]]]]]]].
      * right; right; exists s, v, t; auto.
      * destruct Hv as [<- | Hv].
        -- right; left; exists u, s, t; auto.
        -- left; exists u, s, v, t; auto.
Qed.

End LocalTraversal.
Section LoopInvariant.

Variable env : Environment.
Variable g : FlowGraph.
Hypothesis Hsucc : NoDup (succ_ g).
Hypothesis Hend : forall u v, In (u, v) (succ_ g) ->
                              In u (ordered_nodes g) /\ In v (ordered_nodes g).

Variable I : Executor -> list NodeType -> Prop.
Hypothesis Hstep :
  forall ex V op_n ex',
    graph (fragment_ ex) = g -> I ex V -> In op_n (ordered_nodes g) -> ~ In op_n V ->
    visit_operator env ex (op_n :: V) op_n = Ok ex' -> I ex' (op_n :: V).

Lemma break_cycles_worklist (l : list NodeType) :
  forall (w : Worklist) (n : NodeType),
    In n (worklist (break_cycles l w)) -> In n (worklist w) \/ In n l.
Proof.
  unfold break_cycles; induction l as [|x l IH]; intros w n H; cbn [fold_left] in H;
    [left; exact H|].
  apply IH in H; destruct H as [H | H]; [|right; right; exact H].
  destruct (negb (indegrees w x =? 0)); [|left; exact H].
  cbn [worklist] in H; apply in_app_iff in H.
  destruct H as [H | [<- | []]]; [left; exact H | right; left; reflexivity].
Qed.

(** A property of the executor and the set of visited operators that
    every visit keeps holds when the loop ends. *)
Lemma initialize_loop_invariant :
  forall (fuel : nat) (w : Worklist) (ex : Executor) (w' : Worklist) (ex' : Executor),
    graph (fragment_ ex) = g ->
    (forall n, In n (worklist w) -> In n (ordered_nodes g)) ->
    I ex (visited_nodes w) ->
    initialize_loop env fuel (ordered_nodes g) w ex = Ok (w', ex') ->
    I ex' (visited_nodes w').
Proof.
  induction fuel as [|fuel IH]; intros w ex w' ex' Hg Hwl HI H; [discriminate H|].
  cbn [initialize_loop] in H.
  destruct (is_nil (worklist w)
            && Nat.eqb (List.length (visited_nodes w)) (List.length (ordered_nodes g)));
    [inversion H; subst; exact HI|].
  set (w1 := if is_nil (worklist w) then break_cycles (ordered_nodes g) w else w) in H.
  assert (Hv1 : visited_nodes w1 = visited_nodes w)
    by (unfold w1; destruct (is_nil (worklist w)); [apply break_cycles_visited | reflexivity]).
  assert (Hwl1 : forall n, In n (worklist w1) -> In n (ordered_nodes g)).
  { intros n Hn; unfold w1 in Hn; destruct (is_nil (worklist w)); [|apply Hwl; exact Hn].
    apply break_cycles_worklist in Hn; destruct Hn as [Hn | Hn]; [apply Hwl|]; exact Hn. }
  destruct (worklist w1) as [|op_n rest] eqn:Ew; [discriminate H|].
  cbn [visited_nodes worklist indegrees] in H; rewrite Hv1 in H.
  destruct (mem_node op_n (visited_nodes w)) eqn:Em.
  - apply IH in H; [exact H | exact Hg | | exact HI].
    cbn [worklist]; intros n Hn; apply Hwl1; right; exact Hn.
  - apply bind_Ok in H; destruct H as [ex1 [Hvisit H]].
    apply mem_node_false in Em.
    apply IH in H.
    + exact H.
    + rewrite (visit_operator_graph env _ _ _ _ Hvisit); exact Hg.
    + rewrite Hg; intros n Hn.
      destruct (release_next_nodes_fold g op_n (get_next_nodes g op_n)
                  (mkWorklist rest (indegrees w1) (op_n :: visited_nodes w))
                  (NoDup_get_next_nodes g Hsucc op_n)
                  (fun x Hx => proj2 (has_edge_In g op_n x)
                                 (proj1 (In_get_next_nodes g op_n x) Hx)))
        as [Hwl' _].
      unfold release_next_nodes in Hn; cbv zeta in Hwl'; rewrite Hwl' in Hn.
      cbn [worklist] in Hn; apply in_app_iff in Hn; destruct Hn as [Hn | Hn].
      * apply Hwl1; right; exact Hn.
      * apply filter_In in Hn; destruct Hn as [Hn _].
        apply In_get_next_nodes, Hend in Hn; tauto.
    + rewrite release_next_nodes_visited; cbn [visited_nodes].
      apply (Hstep ex (visited_nodes w) op_n ex1 Hg HI); [|exact Em | exact Hvisit].
      apply Hwl1; left; reflexivity.
Qed.

End LoopInvariant.

(** The plan of a fragment of local operators, started in a Holoscan
    application, when the traversal has returned with every node visited:
    the Connection components are those of the port-level edges of the
    graph, one for each, no broadcast entity is created and every operator
    has its codelet. *)
Lemma local_fragment_plan (env : Environment) (ex : Executor) (fuel : nat)
  (w' : Worklist) (ex' : Executor) :
  let f := fragment_ ex in
  let g := graph f in
  wf_fragment f ->
  env_kAnySize env <> kSizeOne ->
  (forall n, In n (get_nodes g) -> local_operator env (op_heap f n)) ->
  executor_ids ex = mkExecutorIds 0 0 ->
  connections_entity_ ex = nil ->
  broadcast_entities ex = nil ->
  initialize_loop env fuel (get_nodes g) (init_worklist g) ex = Ok (w', ex') ->
  (forall n, In n (visited_nodes w') <-> In n (get_nodes g)) ->
  NoDup (connections_entity_ ex')
  /\ (forall c, In c (connections_entity_ ex')
                <-> exists e, In e (port_edges f) /\ c = connection_of e)
  /\ broadcast_entities ex' = nil
  /\ forall n, In n (get_nodes g) -> id (the_op ex' n) <> -1.
Proof.
  intros f g Hwf Hany Hlocal Hids Hconns Hb Hrun Hin; unfold get_nodes in *.
  pose proof (wf_nodes _ Hwf) as Hnodes; pose proof (wf_succ _ Hwf) as Hsucc.
  pose proof (wf_endpoints _ Hwf) as Hend; fold g in Hnodes, Hsucc, Hend.
  assert (Hvis0 : visited_nodes (init_worklist g) = nil).
  { unfold init_worklist.
    destruct (init_worklist_fold g (get_nodes g) (mkWorklist nil (fun _ => 0) nil))
      as [_ [Hv _]]; exact Hv. }
  assert (Hinv : wired_inv f ex' (visited_nodes w')).
  { apply (initialize_loop_invariant env g Hsucc Hend (wired_inv f)) in Hrun.
    - exact Hrun.
    - intros ex1 V op_n ex1' _ Hinv Hop Hnot Hvisit.
      apply (visit_keeps_wired env f Hwf Hany Hlocal ex1 ex1' V op_n Hinv Hop Hnot Hvisit).
    - reflexivity.
    - intros n Hn; apply (inv_nodes g _ (sched_inv_init g Hnodes)), in_app_iff.
      right; exact Hn.
    - rewrite Hvis0; constructor; [constructor|..].
      + reflexivity.
      + reflexivity.
      + exact Hids.
      + exact Hb.
      + reflexivity.
      + intros n [].
      + rewrite Hconns; constructor.
      + intros c; rewrite Hconns; split; [intros [] | intros [u [s [v [t [_ [[] _]]]]]]]. }
  destruct Hinv as [Hplan Hnd' Hconn']; split; [exact Hnd'|]; split; [|split].
  - intros c; rewrite Hconn'; split.
    + intros [u [s [v [t [He [_ [_ ->]]]]]]]; exists (u, s, v, t); auto.
    + intros [[[[u s] v] t] [He ->]]; exists u, s, v, t.
      pose proof (proj1 (In_port_edges f u s v t) He) as [Huv _].
      destruct (Hend u v Huv) as [Hu Hv].
      split; [exact He|]; split; [apply Hin; exact Hu|].
      split; [apply Hin; exact Hv | reflexivity].
  - exact (planned_broadcast _ _ _ Hplan).
  - intros n Hn; apply (wired_id _ (planned_visited _ _ _ Hplan n (proj2 (Hin n) Hn))).
Qed.

(** X1.  In a fragment of local operators (no virtual operator and no UCX
    connector, so no connection to another fragment), started in a
    Holoscan application, the traversal of [initialize_fragment] returns,
    or it ends with the failure of the visit (initialization and wiring) of
    an operator; it does not run out of iterations.  When it returns it has
    created exactly one Connection component for every port-level edge of
    the graph, from the transmitter of its source port to the receiver of
    its target port, and no other; this holds whatever the cycles of the
    graph, and every operator is initialized and has its codelet. *)
Theorem every_port_edge_is_connected_once (env : Environment) (ex : Executor) (fuel : nat) :
  let f := fragment_ ex in
  let g := graph f in
  let r := initialize_loop env fuel (get_nodes g) (init_worklist g) ex in
  wf_fragment f ->
  env_kAnySize env <> kSizeOne ->
  (forall n, In n (get_nodes g) -> local_operator env (op_heap f n)) ->
  executor_ids ex = mkExecutorIds 0 0 ->
  connections_entity_ ex = nil ->
  broadcast_entities ex = nil ->
  (List.length (get_nodes g) < fuel)%nat ->
  ((exists w' ex',
       r = Ok (w', ex')
       /\ Permutation (connections_entity_ ex') (map connection_of (port_edges f))
       /\ (forall n, In n (get_nodes g) -> id (the_op ex' n) <> -1)
       /\ (forall n, In n (get_nodes g) -> is_initialized_ (the_op ex' n) = true))
   \/ visit_fails_after env (get_nodes g) ex nil r)
  /\ (env_returns env -> r <> OutOfFuel).
Proof.
  intros f g r Hwf Hany Hlocal Hids Hconns Hb Hfuel.
  destruct (initialize_loop_ends env ex fuel Hwf Hfuel) as [Hcases Hreturns].
  split; [|exact Hreturns].
  destruct Hcases as [[w' [ex' [Hrun [Hnd [Hin [_ [_ [_ Hinit]]]]]]]] | Hfail];
    [left | right; exact Hfail].
  exists w', ex'; split; [exact Hrun|].
  destruct (local_fragment_plan env ex fuel w' ex' Hwf Hany Hlocal Hids Hconns Hb Hrun Hin)
    as [Hnodup [Hconn [_ Hid]]].
  split; [|split].
  - apply NoDup_Permutation; [exact Hnodup | |].
    + apply NoDup_map_injective; [|apply NoDup_port_edges; exact Hwf].
      intros [[[u s] v] t] [[[u' s'] v'] t'] _ _ E.
      apply connection_of_inj in E; destruct E as [-> [-> [-> ->]]]; reflexivity.
    + intros c; rewrite Hconn, in_map_iff; split.
      * intros [e [He ->]]; exists e; auto.
      * intros [e [<- He]]; exists e; auto.
  - exact Hid.
  - intros n Hn; apply (Hinit n Hn), (local_type _ _ (Hlocal n Hn)).
Qed.

Lemma local_data_cycle (n : NodeType) :
  In n (get_nodes (graph Examples.data_cycle)) ->
  local_operator Examples.env (op_heap Examples.data_cycle n).
Proof.
  intros [<- | [<- | []]]; constructor; cbn; try discriminate; try reflexivity;
    intros p io [E | []]; inversion E; subst; cbn; discriminate.
Defined.

(** The two connections of the cycle [Examples.data_cycle]. *)
Lemma every_port_edge_is_connected_once_witness :
  exists w' ex',
    initialize_loop Examples.env 3 [0; 1]%nat (init_worklist (graph Examples.data_cycle))
      (Examples.executor_of Examples.data_cycle) = Ok (w', ex')
    /\ Permutation (connections_entity_ ex')
         [(cid_port 0 kOutput "out", cid_port 1 kInput "in");
          (cid_port 1 kOutput "out", cid_port 0 kInput "in")]
    /\ (forall n, In n [0; 1]%nat -> id (the_op ex' n) <> -1)
    /\ (forall n, In n [0; 1]%nat -> is_initialized_ (the_op ex' n) = true).
Proof.
  destruct (every_port_edge_is_connected_once Examples.env
              (Examples.executor_of Examples.data_cycle) 3 wf_data_cycle)
    as [[Hok | Hfail] _].
  - discriminate.
  - exact local_data_cycle.
  - reflexivity.
  - reflexivity.
  - reflexivity.
  - simpl; lia.
  - exact Hok.
  - exfalso; revert Hfail.
    remember (initialize_loop Examples.env 3
                (get_nodes (graph (fragment_ (Examples.executor_of Examples.data_cycle))))
                (init_worklist
                   (graph (fragment_ (Examples.executor_of Examples.data_cycle))))
                (Examples.executor_of Examples.data_cycle)) as r eqn:Er.
    vm_compute in Er; subst r; apply not_visit_fails_after.
Defined.

(** ** A self-edge in the plan (C10) *)





(** An operator with a self-edge and a target in another fragment, in
    [Examples.self_fed]: its input is connected to its output by the
    downstream pass, and a second time to a transmitter of the broadcast
    entity of the port. *)
Lemma self_edge_is_fed_again_through_the_broadcast :
  match initialize_fragment Examples.env 10 (Examples.executor_of Examples.self_fed)
          [mkConnectionItem "a.out" kOutput Examples.ucx_args] with
  | Ok (w, ex, _) =>
      initialization_order w = [0; 1]%nat
      /\ connections_entity_ ex
         = [(cid_port 0 kOutput "out", cid_port 0 kInput "in");
            (cid_port 0 kOutput "out", cid_broadcast_rx 0 "out");
            (cid_btx 0, cid_port 0 kInput "in")]
  | _ => False
  end.
Proof. vm_compute; repeat split. Qed.

(** ** The order of initialization outside the cycles *)

Section CycleFreeOrder.

Variable env : Environment.
Variable g : FlowGraph.
Hypothesis Hnodes : NoDup (ordered_nodes g).
Hypothesis Hsucc : NoDup (succ_ g).
Hypothesis Hend : forall u v, In (u, v) (succ_ g) ->
                              In u (ordered_nodes g) /\ In v (ordered_nodes g).

(** A node that is not downstream of a cycle has, in every set that
    holds it, an ancestor (or itself) without a predecessor in the set. *)
Lemma minimal_ancestor (n : nat) :
  forall (U : list NodeType) (v : NodeType),
    (List.length U <= n)%nat -> In v U -> ~ downstream_of_cycle g v ->
    exists m, In m U /\ (m = v \/ clos_trans NodeType (edge g) m v)
              /\ forall u, In u U -> ~ edge g u m.
Proof.
  induction n as [|n IH]; intros U v Hlen Hv Hfree.
  - destruct U; [contradiction | simpl in Hlen; lia].
  - destruct (existsb (fun u => has_edge g u v) U) eqn:E.
    + apply existsb_exists in E; destruct E as [u [Hu Huv]].
      apply has_edge_In in Huv.
      assert (Hne : u <> v).
      { intros ->; apply Hfree; exists v; split; [apply t_step; exact Huv | left; reflexivity]. }
      assert (Hlen' : (List.length (remove Nat.eq_dec v U) <= n)%nat).
      { pose proof (remove_length_lt Nat.eq_dec U v Hv); lia. }
      assert (Hfree_u : ~ downstream_of_cycle g u).
      { intros [c [Hc Hcu]]; apply Hfree; exists c; split; [exact Hc|]; right.
        destruct Hcu as [-> | Hcu]; [apply t_step; exact Huv|].
        eapply t_trans; [exact Hcu | apply t_step; exact Huv]. }
      destruct (IH (remove Nat.eq_dec v U) u Hlen' (in_in_remove Nat.eq_dec U Hne Hu)
                  Hfree_u) as [m [Hm [Hreach Hmin]]].
      assert (Hmv : clos_trans NodeType (edge g) m v).
      { destruct Hreach as [-> | Hreach]; [apply t_step; exact Huv|].
        eapply t_trans; [exact Hreach | apply t_step; exact Huv]. }
      exists m; split; [apply (in_remove Nat.eq_dec U m v Hm)|].
      split; [right; exact Hmv|].
      intros x Hx Hxm.
      destruct (Nat.eq_dec x v) as [-> | Hxv].
      * apply Hfree; exists v; split; [|left; reflexivity].
        eapply t_trans; [apply t_step; exact Hxm | exact Hmv].
      * apply (Hmin x); [apply in_in_remove; assumption | exact Hxm].
    + exists v; split; [exact Hv|]; split; [left; reflexivity|].
      intros u Hu Huv.
      assert (Ht : existsb (fun u => has_edge g u v) U = true).
      { apply existsb_exists; exists u; split; [exact Hu | apply has_edge_In; exact Huv]. }
      congruence.
Qed.

(** When the worklist runs empty, the nodes that are left are downstream
    of a cycle. *)
Lemma cycle_free_nodes_are_visited (w : Worklist) :
  sched_inv g w -> worklist w = nil ->
  forall v, In v (ordered_nodes g) -> ~ downstream_of_cycle g v ->
            In v (visited_nodes w).
Proof.
  intros [Hnd Hin Hdeg Hready Htopo] Hw v Hv Hfree.
  rewrite Hw in Hready.
  destruct (mem_node v (visited_nodes w)) eqn:Em; [apply mem_node_In; exact Em|].
  exfalso.
  set (U := filter (fun n => negb (mem_node n (visited_nodes w))) (ordered_nodes g)).
  assert (HvU : In v U) by (apply filter_In; split; [exact Hv | rewrite Em; reflexivity]).
  destruct (minimal_ancestor (List.length U) U v (Nat.le_refl _) HvU Hfree)
    as [m [Hm [_ Hmin]]].
  apply filter_In in Hm; destruct Hm as [Hmn Hmv].
  apply negb_true_iff, mem_node_false in Hmv.
  assert (Hd : indegrees w m <> 0)
    by (intros Hc; apply (Hready m Hmn Hmv) in Hc; contradiction).
  rewrite (Hdeg m Hmn Hmv) in Hd.
  destruct (unvisited_preds g (visited_nodes w) m) as [|u l] eqn:E;
    [apply Hd; reflexivity|].
  assert (Hu : In u (unvisited_preds g (visited_nodes w) m)) by (rewrite E; left; reflexivity).
  apply filter_In in Hu; destruct Hu as [Hu1 Hu2].
  apply In_get_previous_nodes in Hu1.
  apply (Hmin u); [|exact Hu1].
  apply filter_In; split; [apply (Hend u m Hu1) | exact Hu2].
Qed.

(** The rest of the loop, once the cycles were broken: only nodes
    downstream of a cycle are visited. *)
Lemma initialize_loop_broken_order :
  forall (fuel : nat) (w : Worklist) (ex : Executor) (w' : Worklist) (ex' : Executor),
    broken_inv g w -> graph (fragment_ ex) = g ->
    cycle_free_preds_first g (visited_nodes w) ->
    (forall v, In v (ordered_nodes g) -> ~ downstream_of_cycle g v ->
               In v (visited_nodes w)) ->
    initialize_loop env fuel (ordered_nodes g) w ex = Ok (w', ex') ->
    cycle_free_preds_first g (visited_nodes w').
Proof.
  induction fuel as [|fuel IH]; intros w ex w' ex' Hinv Hg Horder Hfree H; [discriminate H|].
  destruct (worklist w) as [|op_n rest] eqn:Ew.
  - pose proof (broken_nodup g w Hinv) as Hnd; rewrite Ew, app_nil_r in Hnd.
    assert (Hin : forall n, In n (visited_nodes w) <-> In n (ordered_nodes g)).
    { intros n; rewrite <- (broken_nodes g w Hinv n), Ew, app_nil_r; tauto. }
    assert (Hlen : List.length (visited_nodes w) = List.length (ordered_nodes g)).
    { apply Permutation_length, NoDup_Permutation; assumption. }
    cbn [initialize_loop] in H; rewrite Ew, Hlen, Nat.eqb_refl in H; cbn [is_nil andb] in H.
    inversion H; subst; exact Horder.
  - assert (Hop : In op_n (ordered_nodes g)).
    { apply (broken_nodes g w Hinv); rewrite Ew; apply in_app_iff; right; left; reflexivity. }
    assert (Hvis : ~ In op_n (visited_nodes w)).
    { pose proof (broken_nodup g w Hinv) as Hnd; rewrite Ew in Hnd.
      apply NoDup_remove_2 in Hnd.
      intros Hc; apply Hnd, in_app_iff; left; exact Hc. }
    rewrite (initialize_loop_visit env fuel (ordered_nodes g) w ex op_n rest Ew
               (proj2 (mem_node_false _ _) Hvis)) in H.
    apply bind_Ok in H; destruct H as [ex1 [Hvisit H]].
    rewrite Hg in H.
    destruct (broken_inv_step g Hsucc Hend w op_n rest Hinv Ew) as [Hinv' _].
    apply IH in H; [exact H | exact Hinv' | | |].
    + rewrite (visit_operator_graph env _ _ _ _ Hvisit); exact Hg.
    + rewrite release_next_nodes_visited; cbn [visited_nodes].
      intros l1 v l2 Heq Hv u Huv.
      destruct l1 as [|x l1]; cbn [app] in Heq; injection Heq as Hx Hrest.
      * exfalso; apply Hvis, Hfree; [exact Hop | rewrite Hx; exact Hv].
      * apply (Horder l1 v l2 Hrest Hv u Huv).
    + rewrite release_next_nodes_visited; cbn [visited_nodes].
      intros v Hv Hcf; right; apply Hfree; assumption.
Qed.

(** The loop from a state before the cycles are broken. *)
Lemma initialize_loop_order :
  forall (fuel : nat) (w : Worklist) (ex : Executor) (w' : Worklist) (ex' : Executor),
    sched_inv g w ->
    (forall v, In v (visited_nodes w) -> indegrees w v = 0) ->
    graph (fragment_ ex) = g ->
    initialize_loop env fuel (ordered_nodes g) w ex = Ok (w', ex') ->
    cycle_free_preds_first g (visited_nodes w').
Proof.
  induction fuel as [|fuel IH]; intros w ex w' ex' Hinv Hzero Hg H; [discriminate H|].
  destruct (worklist w) as [|op_n rest] eqn:Ew.
  - pose proof (inv_nodup g w Hinv) as Hnd; rewrite Ew, app_nil_r in Hnd.
    assert (Htopo : cycle_free_preds_first g (visited_nodes w)).
    { intros l1 v l2 Heq _ u Huv; apply (inv_topo g w Hinv l1 v l2 Heq u Huv). }
    destruct (Nat.eq_dec (List.length (visited_nodes w)) (List.length (ordered_nodes g)))
      as [Hlen | Hlen].
    + cbn [initialize_loop] in H; rewrite Ew, Hlen, Nat.eqb_refl in H.
      cbn [is_nil andb] in H; inversion H; subst; exact Htopo.
    + pose proof (break_cycles_queues_the_rest g Hnodes w Hinv Hzero Ew) as Hbroken.
      destruct (worklist (break_cycles (ordered_nodes g) w)) as [|op_n rest] eqn:Eb.
      * cbn [initialize_loop] in H; rewrite Ew in H; cbn [is_nil andb] in H.
        apply Nat.eqb_neq in Hlen; rewrite Hlen in H; cbn [andb] in H.
        rewrite Eb in H; discriminate H.
      * rewrite (initialize_loop_break_cycles env fuel (ordered_nodes g) w ex op_n rest
                   Ew Hlen Eb) in H.
        apply (initialize_loop_broken_order _ _ _ _ _ Hbroken Hg) in H; [exact H | |].
        -- rewrite break_cycles_visited; exact Htopo.
        -- rewrite break_cycles_visited.
           apply (cycle_free_nodes_are_visited w Hinv Ew).
  - assert (Hvis : ~ In op_n (visited_nodes w)).
    { pose proof (inv_nodup g w Hinv) as Hnd; rewrite Ew in Hnd.
      apply NoDup_remove_2 in Hnd.
      intros Hc; apply Hnd, in_app_iff; left; exact Hc. }
    rewrite (initialize_loop_visit env fuel (ordered_nodes g) w ex op_n rest Ew
               (proj2 (mem_node_false _ _) Hvis)) in H.
    apply bind_Ok in H; destruct H as [ex1 [Hvisit H]].
    rewrite Hg in H.
    apply IH in H; [exact H | apply sched_inv_step; assumption | |].
    + rewrite release_next_nodes_visited; cbn [visited_nodes].
      apply (visited_indegree_step g Hsucc); assumption.
    + rewrite (visit_operator_graph env _ _ _ _ Hvisit); exact Hg.
Qed.

End CycleFreeOrder.

(** X13.  The cycles of a graph do not disturb the order of the rest.  With
    an iteration for each node and one more, the traversal of
    [initialize_fragment] returns on every graph, or it ends with the
    failure of the visit (initialization and wiring) of an operator; it
    does not run out of iterations.  When it returns, every operator that
    is not on a cycle and not reached from one was initialized after all
    its predecessors. *)
Theorem operators_outside_cycles_are_initialized_in_order (env : Environment)
  (ex : Executor) (fuel : nat) :
  let g := graph (fragment_ ex) in
  let r := initialize_loop env fuel (get_nodes g) (init_worklist g) ex in
  wf_fragment (fragment_ ex) ->
  (List.length (get_nodes g) < fuel)%nat ->
  ((exists w' ex',
       r = Ok (w', ex')
       /\ Permutation (initialization_order w') (get_nodes g)
       /\ (forall u v, edge g u v -> ~ downstream_of_cycle g v ->
                       before (initialization_order w') u v)
       /\ forall n, In n (get_nodes g) -> operator_type (the_op ex n) <> kVirtual ->
                    is_initialized_ (the_op ex' n) = true)
   \/ visit_fails_after env (get_nodes g) ex nil r)
  /\ (env_returns env -> r <> OutOfFuel).
Proof.
  intros g r Hwf Hfuel.
  destruct (initialize_loop_ends env ex fuel Hwf Hfuel) as [Hcases Hreturns].
  split; [|exact Hreturns].
  destruct Hcases as [[w' [ex' [Hrun [Hnd [Hin [Hperm [_ [_ Hinit]]]]]]]] | Hfail];
    [left | right; exact Hfail].
  unfold get_nodes in *.
  pose proof (wf_nodes _ Hwf) as Hnodes; pose proof (wf_succ _ Hwf) as Hsucc.
  pose proof (wf_endpoints _ Hwf) as Hend; fold g in Hnodes, Hsucc, Hend.
  assert (Hvis0 : visited_nodes (init_worklist g) = nil).
  { unfold init_worklist.
    destruct (init_worklist_fold g (get_nodes g) (mkWorklist nil (fun _ => 0) nil))
      as [_ [Hv _]]; exact Hv. }
  assert (Hzero : forall v, In v (visited_nodes (init_worklist g)) ->
                            indegrees (init_worklist g) v = 0)
    by (rewrite Hvis0; intros v []).
  exists w', ex'; split; [exact Hrun|]; split; [exact Hperm|]; split; [|exact Hinit].
  pose proof (initialize_loop_order env g Hnodes Hsucc Hend fuel (init_worklist g) ex
                w' ex' (sched_inv_init g Hnodes) Hzero eq_refl Hrun) as Horder.
  intros u v Huv Hfree.
  assert (Hv : In v (visited_nodes w')) by (apply Hin, (Hend u v Huv)).
  apply in_split in Hv; destruct Hv as [l1 [l2 Heq]].
  apply (before_rev _ u v l1 l2 Heq), (Horder l1 v l2 Heq Hfree u Huv).
Qed.

Lemma wf_cycle_beside_chain : wf_fragment Examples.cycle_beside_chain.
Proof.
  constructor.
  - simpl; solve_NoDup.
  - simpl; solve_NoDup.
  - intros u v H; simpl in H.
    destruct H as [H | [H | [H | []]]]; inversion H; subst; simpl; auto 10.
  - intros u v _; split; simpl; [solve_NoDup|].
    repeat constructor; simpl; intuition.
Defined.

Lemma clos_trans_last (g : FlowGraph) (a b : NodeType) :
  clos_trans NodeType (edge g) a b ->
  exists x, edge g x b /\ (x = a \/ clos_trans NodeType (edge g) a x).
Proof.
  intros H; induction H as [a b Hab | a y b Hay _ _ IH]; [exists a; auto|].
  destruct IH as [x [Hx Hyx]]; exists x; split; [exact Hx|]; right.
  destruct Hyx as [-> | Hyx]; [assumption|].
  eapply t_trans; eassumption.
Qed.

Lemma sink_is_not_downstream_of_a_cycle :
  ~ downstream_of_cycle (graph Examples.cycle_beside_chain) 3%nat.
Proof.
  assert (Hroot : forall a, ~ clos_trans NodeType (edge (graph Examples.cycle_beside_chain))
                              a 0%nat).
  { intros a Ha; apply clos_trans_last in Ha; destruct Ha as [x [Hx _]].
    simpl in Hx; destruct Hx as [Hx | [Hx | [Hx | []]]]; discriminate Hx. }
  assert (Hsink : forall a, clos_trans NodeType (edge (graph Examples.cycle_beside_chain))
                              a 3%nat -> a = 0%nat).
  { intros a Ha; apply clos_trans_last in Ha; destruct Ha as [x [Hx Hax]].
    assert (x = 0%nat)
      by (simpl in Hx; destruct Hx as [Hx | [Hx | [Hx | []]]]; inversion Hx; reflexivity).
    subst x; destruct Hax as [<- | Hax]; [reflexivity | destruct (Hroot a Hax)]. }
  intros [c [Hc [-> | Hc3]]].
  - discriminate (Hsink _ Hc).
  - rewrite (Hsink _ Hc3) in Hc; destruct (Hroot _ Hc).
Qed.

(** In [Examples.cycle_beside_chain] the sink is initialized after the
    source, whatever the cycle beside them. *)
Lemma operators_outside_cycles_are_initialized_in_order_witness :
  exists w' ex',
    initialize_loop Examples.env 5 [0; 1; 2; 3]%nat
      (init_worklist (graph Examples.cycle_beside_chain))
      (Examples.executor_of Examples.cycle_beside_chain) = Ok (w', ex')
    /\ before (initialization_order w') 0%nat 3%nat.
Proof.
  destruct (operators_outside_cycles_are_initialized_in_order Examples.env
              (Examples.executor_of Examples.cycle_beside_chain) 5 wf_cycle_beside_chain)
    as [[[w' [ex' [Hrun [_ [Horder _]]]]] | Hfail] _].
  - simpl; lia.
  - exists w', ex'; split; [exact Hrun|].
    apply Horder; [left; reflexivity | exact sink_is_not_downstream_of_a_cycle].
  - exfalso; revert Hfail.
    remember (initialize_loop Examples.env 5
                (get_nodes
                   (graph (fragment_ (Examples.executor_of Examples.cycle_beside_chain))))
                (init_worklist
                   (graph (fragment_ (Examples.executor_of Examples.cycle_beside_chain))))
                (Examples.executor_of Examples.cycle_beside_chain)) as r eqn:Er.
    vm_compute in Er; subst r; apply not_visit_fails_after.
Defined.

(** ** Fragment::add_flow: a flow between two named ports *)

Section AddFlowNamed.

Variable env : Environment.

(** X14.  A flow from the output [a] to the input [b], both named, is accepted
    exactly when the upstream operator has the output port [a] and the
    downstream operator has the input port [b] (not a multi-receiver port)
    or the multi-receiver parameter [b].  A rejected flow logs one error
    and leaves the fragment as it was; an accepted one adds the edge. *)
Theorem named_flow_is_accepted_iff_the_ports_exist (f : Fragment) (u v : NodeType)
  (a b : string) :
  a <> "" -> b <> "" ->
  exists f' log,
    add_flow env f u v [(a, b)] = Ok (f', log)
    /\ (log = nil
        <-> lookup a (outputs (op_heap f u)) <> None
            /\ ((exists io, lookup b (inputs (op_heap f v)) = Some io
                            /\ queue_size io <> env_kAnySize env)
                \/ exists vec, lookup b (params (op_heap f v)) = Some (mkParamInfo true vec)))
    /\ (log = nil -> In (u, v) (succ_ (graph f')))
    /\ (log <> nil -> f' = f /\ exists msg, log = [msg]).
Proof.
  intros Ha Hb.
  apply String.eqb_neq in Ha; apply String.eqb_neq in Hb.
  unfold add_flow, add_flow_mapped; cbn [to_port_map lookup app].
  cbn [List.length Nat.eqb negb]; rewrite andb_false_r.
  cbn [check_output_labels].
  destruct (lookup a (outputs (op_heap f u))) as [io_a|] eqn:Eout.
  - cbn [map_output_labels lookup]; rewrite String.eqb_refl.
    cbn [List.length Nat.eqb negb]; rewrite andb_false_r.
    cbn [map_input_labels]; rewrite Hb, !andb_false_r.
    destruct (lookup b (inputs (op_heap f v))) as [io_b|] eqn:Ein.
    + destruct (queue_size io_b =? env_kAnySize env) eqn:Eq; cbn [orb].
      * apply Z.eqb_eq in Eq.
        destruct (lookup b (params (op_heap f v))) as [[[|] vec]|] eqn:Ep.
        -- destruct (add_receivers f v b (mkParamInfo true vec)) as [f1 label] eqn:Er.
           cbn [app fold_left update]; rewrite String.eqb_refl.
           eexists _, nil; split; [reflexivity|]; split; [|split].
           ++ split; [intros _ | reflexivity].
              split; [discriminate | right; exists vec; reflexivity].
           ++ intros _; apply succ_graph_add_flow.
           ++ intros Hc; contradiction.
        -- destruct (inputs (op_heap f v)); eexists f, [_]; (split; [reflexivity|]);
             (split; [|split; [discriminate | intros _; split; [reflexivity | eexists; reflexivity]]]);
             (split; [discriminate|]);
             intros [_ [[io [Hio Hq]] | [vec' Hvec]]]; congruence.
        -- destruct (inputs (op_heap f v)); eexists f, [_]; (split; [reflexivity|]);
             (split; [|split; [discriminate | intros _; split; [reflexivity | eexists; reflexivity]]]);
             (split; [discriminate|]);
             intros [_ [[io [Hio Hq]] | [vec' Hvec]]]; congruence.
      * apply Z.eqb_neq in Eq.
        cbn [app fold_left update]; rewrite String.eqb_refl.
        eexists _, nil; split; [reflexivity|]; split; [|split].
        -- split; [intros _ | reflexivity].
           split; [discriminate | left; exists io_b; auto].
        -- intros _; apply succ_graph_add_flow.
        -- intros Hc; contradiction.
    + cbn [orb].
      destruct (lookup b (params (op_heap f v))) as [[[|] vec]|] eqn:Ep.
      * destruct (add_receivers f v b (mkParamInfo true vec)) as [f1 label] eqn:Er.
        cbn [app fold_left update]; rewrite String.eqb_refl.
        eexists _, nil; split; [reflexivity|]; split; [|split].
        -- split; [intros _ | reflexivity].
           split; [discriminate | right; exists vec; reflexivity].
        -- intros _; apply succ_graph_add_flow.
        -- intros Hc; contradiction.
      * destruct (inputs (op_heap f v)); eexists f, [_]; (split; [reflexivity|]);
          (split; [|split; [discriminate | intros _; split; [reflexivity | eexists; reflexivity]]]);
          (split; [discriminate|]);
          intros [_ [[io [Hio Hq]] | [vec' Hvec]]]; congruence.
      * destruct (inputs (op_heap f v)); eexists f, [_]; (split; [reflexivity|]);
          (split; [|split; [discriminate | intros _; split; [reflexivity | eexists; reflexivity]]]);
          (split; [discriminate|]);
          intros [_ [[io [Hio Hq]] | [vec' Hvec]]]; congruence.
  - rewrite Ha.
    assert (Hrej : forall msg : string,
               exists f' log,
                 Ok (f, [msg]) = Ok (f', log)
                 /\ (log = nil <-> None <> (None : option IOSpec) /\
                       ((exists io, lookup b (inputs (op_heap f v)) = Some io
                                    /\ queue_size io <> env_kAnySize env)
                        \/ exists vec, lookup b (params (op_heap f v))
                                       = Some (mkParamInfo true vec)))
                 /\ (log = nil -> In (u, v) (succ_ (graph f')))
                 /\ (log <> nil -> f' = f /\ exists msg, log = [msg])).
    { intros msg; exists f, [msg]; split; [reflexivity|]; split; [|split].
      - split; [discriminate | intros [Hc _]; exfalso; apply Hc; reflexivity].
      - discriminate.
      - intros _; split; [reflexivity | exists msg; reflexivity]. }
    destruct (outputs (op_heap f u)) as [|[first io] [|]]; apply Hrej.
Qed.

End AddFlowNamed.

Lemma named_flow_is_accepted_iff_the_ports_exist_witness :
  exists f' log,
    add_flow Examples.env Examples.one_to_one 0%nat 1%nat [("out", "input")] = Ok (f', log)
    /\ (log = nil
        <-> lookup "out" (outputs (op_heap Examples.one_to_one 0%nat)) <> None
            /\ ((exists io, lookup "input" (inputs (op_heap Examples.one_to_one 1%nat)) = Some io
                            /\ queue_size io <> -1)
                \/ exists vec, lookup "input" (params (op_heap Examples.one_to_one 1%nat))
                               = Some (mkParamInfo true vec)))
    /\ (log = nil -> In (0, 1)%nat (succ_ (graph f')))
    /\ (log <> nil -> f' = Examples.one_to_one /\ exists msg, log = [msg]).
Proof.
  apply (named_flow_is_accepted_iff_the_ports_exist Examples.env Examples.one_to_one
           0%nat 1%nat "out" "input"); discriminate.
Defined.

(** ** Connection items that name no operator or no port *)

Section BadConnectionItems.

Variable env : Environment.

Lemma add_flow_unknown_output (f : Fragment) (u v : NodeType) (a b : string) :
  lookup a (outputs (op_heap f u)) = None -> a <> "" ->
  exists msg, add_flow env f u v [(a, b)] = Ok (f, [msg]).
Proof.
  intros Hout Ha; apply String.eqb_neq in Ha.
  unfold add_flow, add_flow_mapped; cbn [to_port_map lookup app].
  cbn [List.length Nat.eqb negb]; rewrite andb_false_r.
  cbn [check_output_labels]; rewrite Hout, Ha.
  destruct (outputs (op_heap f u)) as [|[first io] [|]]; eexists; reflexivity.
Qed.

Lemma same_operator_eq (a b : option NodeType) : same_operator a b = true <-> a = b.
Proof.
  destruct a as [m|], b as [n|]; cbn [same_operator].
  - rewrite Nat.eqb_eq; split; congruence.
  - split; discriminate.
  - split; discriminate.
  - split; reflexivity.
Qed.

(** The entries of the connection map after an item is added. *)
Lemma add_connection_item_entries (m : ConnectionMapType) (k : option NodeType)
  (p : string) (it : ConnectionItem) :
  (exists pm, In (k, pm) (add_connection_item m k p it))
  /\ (forall k0 pm0, In (k0, pm0) m ->
                     exists pm, In (k0, pm) (add_connection_item m k p it))
  /\ (forall k' pm', In (k', pm') (add_connection_item m k p it) ->
        In (k', pm') m
        \/ (k' = k
            /\ (pm' = [(p, [it])]
                \/ exists pm0,
                     In (k, pm0) m
                     /\ match lookup p pm0 with
                        | Some its => pm' = update p (its ++ [it])%list pm0
                        | None => pm' = (pm0 ++ [(p, [it])])%list
                        end))).
Proof.
  induction m as [|[k1 pm1] m [IH1 [IH2 IH3]]]; cbn [add_connection_item].
  - split; [eexists; left; reflexivity|]; split; [intros k0 pm0 []|].
    intros k' pm' [H | []]; inversion H; subst; right; split; [reflexivity|].
    left; reflexivity.
  - destruct (same_operator k1 k) eqn:E.
    + apply same_operator_eq in E; subst k1.
      split; [eexists; left; reflexivity|]; split.
      * intros k0 pm0 [H | H]; [inversion H; subst; eexists; left; reflexivity|].
        exists pm0; right; exact H.
      * intros k' pm' [H | H]; [|left; right; exact H].
        inversion H; subst; right; split; [reflexivity|]; right.
        exists pm1; split; [left; reflexivity|].
        destruct (lookup p pm1); reflexivity.
    + split; [destruct IH1 as [pm H]; exists pm; right; exact H|]; split.
      * intros k0 pm0 [H | H]; [inversion H; subst; eexists; left; reflexivity|].
        destruct (IH2 _ _ H) as [pm Hpm]; exists pm; right; exact Hpm.
      * intros k' pm' [H | H]; [left; left; exact H|].
        destruct (IH3 _ _ H) as [H' | [-> [H' | [pm0 [H0 H']]]]].
        -- left; right; exact H'.
        -- right; split; [reflexivity|]; left; exact H'.
        -- right; split; [reflexivity|]; right; exists pm0; split; [right; exact H0|].
           exact H'.
Qed.

Lemma update_not_nil {A : Type} (k : string) (v : A) (m : list (string * A)) :
  m <> nil -> update k v m <> nil.
Proof.
  destruct m as [|[k' v'] m]; [congruence|]; intros _; cbn [update].
  destruct (String.eqb k k'); discriminate.
Qed.

Lemma add_connection_item_filled (P : ConnectionItem -> option NodeType -> Prop)
  (m : ConnectionMapType) (k : option NodeType) (p : string) (it : ConnectionItem) :
  P it k -> filled P m -> filled P (add_connection_item m k p it).
Proof.
  intros Hit Hm k' pm' Hin.
  destruct (add_connection_item_entries m k p it) as [_ [_ H3]].
  destruct (H3 _ _ Hin) as [H | [-> [-> | [pm0 [H0 H]]]]].
  - exact (Hm _ _ H).
  - split; [discriminate|]; intros q its [H | []]; inversion H; subst.
    split; [discriminate|]; intros x [<- | []]; exact Hit.
  - destruct (Hm _ _ H0) as [Hne Hports].
    destruct (lookup p pm0) as [its0|] eqn:El; subst pm'.
    + split; [apply update_not_nil; exact Hne|].
      intros q its Hq; apply In_update in Hq; destruct Hq as [Hq | ->].
      * exact (Hports _ _ Hq).
      * split; [destruct its0; discriminate|].
        intros x Hx; apply in_app_or in Hx; destruct Hx as [Hx | [<- | []]];
          [|exact Hit].
        apply lookup_In in El; exact (proj2 (Hports _ _ El) x Hx).
    + split; [destruct pm0; discriminate|].
      intros q its Hq; apply in_app_or in Hq; destruct Hq as [Hq | [Hq | []]].
      * exact (Hports _ _ Hq).
      * inversion Hq; subst; split; [discriminate|]; intros x [<- | []]; exact Hit.
Qed.

Variable f : Fragment.

(** The connection map is filled with the items, each under the operator
    [name_to_op] gives for its name, and it has an entry for each of
    them. *)
Lemma generate_connection_map_filled (items : list ConnectionItem) :
  filled (fun x k => In x items
                     /\ k = name_to_op f (fst (env_parse_port_name env (ci_name x))))
         (generate_connection_map env f items)
  /\ forall item, In item items ->
       exists pm, In (name_to_op f (fst (env_parse_port_name env (ci_name item))), pm)
                     (generate_connection_map env f items).
Proof.
  unfold generate_connection_map.
  set (step := fun (connection_map : ConnectionMapType) (connection_item : ConnectionItem) =>
                 let (operator_name, port_name) :=
                   env_parse_port_name env (ci_name connection_item) in
                 let op := name_to_op f operator_name in
                 add_connection_item connection_map op port_name connection_item).
  set (P := fun x k => In x items
                       /\ k = name_to_op f (fst (env_parse_port_name env (ci_name x)))).
  assert (Hstep : forall m x, step m x
                  = add_connection_item m
                      (name_to_op f (fst (env_parse_port_name env (ci_name x))))
                      (snd (env_parse_port_name env (ci_name x))) x).
  { intros m x; unfold step.
    destruct (env_parse_port_name env (ci_name x)); reflexivity. }
  assert (Hfilled : forall l m, incl l items -> filled P m -> filled P (fold_left step l m)).
  { induction l as [|x l IH]; intros m Hl Hm; [exact Hm|].
    cbn [fold_left]; apply IH; [intros y Hy; apply Hl; right; exact Hy|].
    rewrite Hstep; apply add_connection_item_filled; [|exact Hm].
    split; [apply Hl; left; reflexivity | reflexivity]. }
  assert (Hkept : forall l m k pm, In (k, pm) m -> exists pm', In (k, pm') (fold_left step l m)).
  { induction l as [|x l IH]; intros m k pm Hin; [exists pm; exact Hin|].
    cbn [fold_left]; rewrite Hstep.
    destruct (add_connection_item_entries m
                (name_to_op f (fst (env_parse_port_name env (ci_name x))))
                (snd (env_parse_port_name env (ci_name x))) x) as [_ [H2 _]].
    destruct (H2 _ _ Hin) as [pm1 H1]; exact (IH _ _ _ H1). }
  assert (Hkey : forall l m item, In item l ->
             exists pm, In (name_to_op f (fst (env_parse_port_name env (ci_name item))), pm)
                           (fold_left step l m)).
  { induction l as [|x l IH]; intros m item Hin; [destruct Hin|].
    cbn [fold_left]; destruct Hin as [-> | Hin]; [|apply IH; exact Hin].
    rewrite Hstep.
    destruct (add_connection_item_entries m
                (name_to_op f (fst (env_parse_port_name env (ci_name item))))
                (snd (env_parse_port_name env (ci_name item))) item) as [[pm H1] _].
    exact (Hkept _ _ _ _ H1). }
  split.
  - apply Hfilled; [apply incl_refl | intros k pm []].
  - intros item Hin; apply Hkey; exact Hin.
Qed.

Lemma filled_reordered (P : ConnectionItem -> option NodeType -> Prop)
  (m m' : ConnectionMapType) :
  reordered m m' -> filled P m -> filled P m'.
Proof.
  intros [m1 [Hperm Hall]] Hm k pm' Hin.
  assert (H : exists pm, In (k, pm) m1 /\ Permutation pm pm').
  { clear Hperm; induction Hall as [|[k1 pm1] [k2 pm2] l l' [Hk Hp] Hall IH];
      [destruct Hin|].
    cbn [fst snd] in Hk, Hp; subst k2.
    destruct Hin as [Hin | Hin].
    - inversion Hin; subst; exists pm1; split; [left; reflexivity | exact Hp].
    - destruct (IH Hin) as [pm [H1 H2]]; exists pm; split; [right; exact H1 | exact H2]. }
  destruct H as [pm [Hin1 Hp]].
  apply (Permutation_in _ (Permutation_sym Hperm)) in Hin1.
  destruct (Hm _ _ Hin1) as [Hne Hports]; split.
  - intros ->; apply Permutation_sym, Permutation_nil in Hp; contradiction.
  - intros q its Hq; apply (Permutation_in _ (Permutation_sym Hp)) in Hq.
    exact (Hports _ _ Hq).
Qed.

Lemma key_reordered (m m' : ConnectionMapType) (k : option NodeType)
  (pm : list (string * list ConnectionItem)) :
  reordered m m' -> In (k, pm) m -> exists pm', In (k, pm') m'.
Proof.
  intros [m1 [Hperm Hall]] Hin; apply (Permutation_in _ Hperm) in Hin.
  clear Hperm; induction Hall as [|[k1 pm1] [k2 pm2] l l' [Hk Hp] Hall IH];
    [destruct Hin|].
  cbn [fst snd] in Hk, Hp; subst k2.
  destruct Hin as [Hin | Hin].
  - inversion Hin; subst; exists pm2; left; reflexivity.
  - destruct (IH Hin) as [pm' H]; exists pm'; right; exact H.
Qed.

Lemma reordered_refl (m : ConnectionMapType) : reordered m m.
Proof.
  exists m; split; [apply Permutation_refl|].
  induction m as [|e m IH]; constructor; [split; [reflexivity | apply Permutation_refl]|].
  exact IH.
Qed.

(** A step of the lowering returns, throws or is undefined. *)
Lemma create_virtual_operator_returns_or_fails (op : option NodeType) (p : string)
  (acc : Fragment * list NodeType * list string * nat) (c : ConnectionItem) :
  (exists r, create_virtual_operator env op p acc c = Ok r)
  \/ fails (create_virtual_operator env op p acc c).
Proof.
  destruct op as [op|]; [|right; left; reflexivity].
  destruct acc as [[[f0 vops] log] i].
  unfold create_virtual_operator, create_virtual_operator_of.
  destruct (alloc_op f0 _) as [f1 virtual_op].
  destruct (ci_io_type c).
  - match goal with
    | |- context [bind ?m _] => destruct m as [pi| | | |] eqn:E
    end.
    + cbn [bind]. destruct (alloc_op f1 _) as [f2 forward_op].
      unfold add_flow; cbn [bind]; left; eexists; reflexivity.
    + right; right; eexists; reflexivity.
    + exfalso; revert E.
      destruct (match lookup p (inputs (op_heap f1 op)) with
                | Some io => queue_size io =? env_kAnySize env
                | None => true
                end); [|discriminate].
      destruct (lookup p (params (op_heap f1 op))) as [[[] ?]|]; discriminate.
    + exfalso; revert E.
      destruct (match lookup p (inputs (op_heap f1 op)) with
                | Some io => queue_size io =? env_kAnySize env
                | None => true
                end); [|discriminate].
      destruct (lookup p (params (op_heap f1 op))) as [[[] ?]|]; discriminate.
    + exfalso; revert E.
      destruct (match lookup p (inputs (op_heap f1 op)) with
                | Some io => queue_size io =? env_kAnySize env
                | None => true
                end); [|discriminate].
      destruct (lookup p (params (op_heap f1 op))) as [[[] ?]|]; discriminate.
  - unfold add_flow; cbn [bind]; left; eexists; reflexivity.
Qed.

(** The step for an output connection of an operator of the graph
    returns. *)
Lemma create_virtual_operator_output (op : NodeType) (p : string)
  (acc : Fragment * list NodeType * list string * nat) (c : ConnectionItem) :
  ci_io_type c = kOutput ->
  exists r, create_virtual_operator env (Some op) p acc c = Ok r.
Proof.
  intros Hty; destruct acc as [[[f0 vops] log] i].
  unfold create_virtual_operator, create_virtual_operator_of; rewrite Hty.
  destruct (alloc_op f0 _) as [f1 virtual_op].
  unfold add_flow; cbn [bind]; eexists; reflexivity.
Qed.

Lemma foldM_returns_or_fails {A S : Type} (g : S -> A -> outcome S) (l : list A) :
  (forall s a, In a l -> (exists s', g s a = Ok s') \/ fails (g s a)) ->
  forall s, (exists s', foldM g l s = Ok s') \/ fails (foldM g l s).
Proof.
  induction l as [|a l IH]; intros H s; [left; eexists; reflexivity|].
  cbn [foldM].
  destruct (H s a (or_introl eq_refl)) as [[s' E] | [E | [msg E]]]; rewrite E; cbn [bind].
  - apply IH; intros s0 a0 H0; apply H; right; exact H0.
  - right; left; reflexivity.
  - right; right; eexists; reflexivity.
Qed.

Lemma foldM_fails {A S : Type} (g : S -> A -> outcome S) (l : list A) (x : A) :
  (forall s a, In a l -> (exists s', g s a = Ok s') \/ fails (g s a)) ->
  In x l -> (forall s, fails (g s x)) ->
  forall s, fails (foldM g l s).
Proof.
  induction l as [|a l IH]; intros H Hin Hx s; [destruct Hin|].
  cbn [foldM].
  destruct (H s a (or_introl eq_refl)) as [[s' E] | [E | [msg E]]].
  - destruct Hin as [-> | Hin].
    + destruct (Hx s) as [E' | [msg E']]; rewrite E' in E; discriminate.
    + rewrite E; cbn [bind]; apply IH; [|exact Hin | exact Hx].
      intros s0 a0 H0; apply H; right; exact H0.
  - rewrite E; left; reflexivity.
  - rewrite E; right; eexists; reflexivity.
Qed.

Lemma foldM_reaches_Undefined {A S : Type} (g : S -> A -> outcome S) (l : list A) (x : A) :
  (forall s a, In a l -> (exists s', g s a = Ok s') \/ g s a = Undefined) ->
  In x l -> (forall s, g s x = Undefined) ->
  forall s, foldM g l s = Undefined.
Proof.
  induction l as [|a l IH]; intros H Hin Hx s; [destruct Hin|].
  cbn [foldM].
  destruct (H s a (or_introl eq_refl)) as [[s' E] | E]; [|rewrite E; reflexivity].
  destruct Hin as [-> | Hin]; [rewrite Hx in E; discriminate|].
  rewrite E; cbn [bind]; apply IH; [|exact Hin | exact Hx].
  intros s0 a0 H0; apply H; right; exact H0.
Qed.

(** The null operator is dereferenced when the entry of an unknown name is
    reached, whatever the order of the connection map; an entry reached
    before it may end the lowering with an exception. *)
Lemma create_virtual_operators_null_operator (P : ConnectionItem -> option NodeType -> Prop)
  (connection_map : ConnectionMapType) (pm : list (string * list ConnectionItem)) :
  filled P connection_map ->
  In (None, pm) connection_map ->
  fails (create_virtual_operators_and_connections env f connection_map)
  /\ ((forall x op, P x (Some op) -> ci_io_type x = kOutput) ->
      create_virtual_operators_and_connections env f connection_map = Undefined).
Proof.
  intros Hfilled Hin; unfold create_virtual_operators_and_connections.
  assert (Hnull : forall st : Fragment * list NodeType * list string,
             foldM
               (fun st (port_entry : string * list ConnectionItem) =>
                  r <- foldM (create_virtual_operator env (fst (@None NodeType, pm))
                                (fst port_entry))
                             (snd port_entry) (st, O) ;;
                  Ok (fst r))
               (snd (@None NodeType, pm)) st = Undefined).
  { intros st; destruct (Hfilled _ _ Hin) as [Hne Hports]; cbn [fst snd].
    destruct pm as [|[q its] pm]; [congruence|].
    destruct (Hports q its (or_introl eq_refl)) as [Hits _].
    destruct its as [|x its]; [congruence|]; reflexivity. }
  split.
  - apply (foldM_fails _ _ (None, pm)); [|exact Hin | intros s; left; apply Hnull].
    intros s entry _; apply foldM_returns_or_fails; intros s0 pe _.
    destruct (foldM_returns_or_fails
                (create_virtual_operator env (fst entry) (fst pe)) (snd pe)
                (fun s1 a _ => create_virtual_operator_returns_or_fails _ _ s1 a) (s0, O))
      as [[r E] | [E | [msg E]]]; rewrite E; cbn [bind].
    + left; eexists; reflexivity.
    + right; left; reflexivity.
    + right; right; eexists; reflexivity.
  - intros Hout.
    apply (foldM_reaches_Undefined _ _ (None, pm)); [|exact Hin | exact Hnull].
    intros s [k pm1] Hentry; cbn [fst snd].
    destruct k as [op|].
    + left.
      destruct (Hfilled _ _ Hentry) as [_ Hports].
      assert (Hall : forall (l : list (string * list ConnectionItem)) s0,
                 incl l pm1 ->
                 exists s',
                   foldM (fun st (port_entry : string * list ConnectionItem) =>
                            r <- foldM (create_virtual_operator env (Some op) (fst port_entry))
                                       (snd port_entry) (st, O) ;;
                            Ok (fst r)) l s0 = Ok s').
      { induction l as [|[q its] l IH]; intros s0 Hl; [eexists; reflexivity|].
        cbn [foldM fst snd].
        assert (Hits : forall (l' : list ConnectionItem) a, incl l' its ->
                   exists r, foldM (create_virtual_operator env (Some op) q) l' a = Ok r).
        { induction l' as [|x l' IH']; intros a Hl'; [eexists; reflexivity|].
          cbn [foldM].
          destruct (create_virtual_operator_output op q a x) as [r E].
          { apply (Hout x op).
            apply (proj2 (Hports q its (Hl _ (or_introl eq_refl)))).
            apply Hl'; left; reflexivity. }
          rewrite E; cbn [bind]; apply IH'; intros y Hy; apply Hl'; right; exact Hy. }
        destruct (Hits its (s0, O) (incl_refl _)) as [r E]; rewrite E; cbn [bind].
        apply IH; intros y Hy; apply Hl; right; exact Hy. }
      apply Hall, incl_refl.
    + right.
      destruct (Hfilled _ _ Hentry) as [Hne Hports].
      destruct pm1 as [|[q its] pm1]; [congruence|].
      destruct (Hports q its (or_introl eq_refl)) as [Hits _].
      destruct its as [|x its]; [congruence|]; reflexivity.
Qed.

(** X15.  A connection item that names an operator that is not in the graph,
    or an output port that its operator does not have, is not reported as
    an error.  For the unknown operator [generate_connection_map] files the
    item under the null operator that [name_to_op] returns, and
    [create_virtual_operators_and_connections] dereferences it when it
    reaches that entry: in whatever order the connection map is iterated,
    the lowering does not return, and it is undefined behaviour unless an
    entry reached before ends it with an exception, which no output
    connection does.  For the missing port [add_flow] logs an error and
    returns, the virtual operator stays outside the graph, and
    [connect_ucx_transmitters_to_virtual_ops] takes the first of its
    predecessors, of which there is none. *)
Theorem connection_item_without_operator_or_port_is_not_reported :
  (forall (items : list ConnectionItem) (item : ConnectionItem) (name p : string),
      In item items ->
      env_parse_port_name env (ci_name item) = (name, p) ->
      name_to_op f name = None ->
      (forall connection_map : ConnectionMapType,
          reordered (generate_connection_map env f items) connection_map ->
          fails (create_virtual_operators_and_connections env f connection_map)
          /\ ((forall x, In x items -> ci_io_type x = kInput ->
                         name_to_op f (fst (env_parse_port_name env (ci_name x))) = None) ->
              create_virtual_operators_and_connections env f connection_map = Undefined))
      /\ fails (lower_connections env f items)
      /\ ((forall x, In x items -> ci_io_type x = kInput ->
                     name_to_op f (fst (env_parse_port_name env (ci_name x))) = None) ->
          lower_connections env f items = Undefined))
  /\ (forall (item : ConnectionItem) (name p : string) (op_n : NodeType),
        allocated f ->
        ci_io_type item = kOutput ->
        env_parse_port_name env (ci_name item) = (name, p) ->
        name_to_op f name = Some op_n ->
        lookup p (outputs (op_heap f op_n)) = None ->
        p <> "" ->
        lower_connections env f [item] = Undefined).
Proof.
  split.
  - intros items item name p Hin Hparse Hname.
    destruct (generate_connection_map_filled items) as [Hfilled Hkeys].
    destruct (Hkeys item Hin) as [pm Hpm]; rewrite Hparse in Hpm; cbn [fst] in Hpm.
    rewrite Hname in Hpm.
    assert (Hany : forall connection_map : ConnectionMapType,
               reordered (generate_connection_map env f items) connection_map ->
               fails (create_virtual_operators_and_connections env f connection_map)
               /\ ((forall x, In x items -> ci_io_type x = kInput ->
                      name_to_op f (fst (env_parse_port_name env (ci_name x))) = None) ->
                   create_virtual_operators_and_connections env f connection_map
                   = Undefined)).
    { intros connection_map Hre.
      destruct (key_reordered _ _ _ _ Hre Hpm) as [pm' Hpm'].
      destruct (create_virtual_operators_null_operator _ connection_map pm'
                  (filled_reordered _ _ _ Hre Hfilled) Hpm') as [Hfails Hundef].
      split; [exact Hfails|]; intros Hinputs; apply Hundef.
      intros x op [Hx Hk]; destruct (ci_io_type x) eqn:E; [|reflexivity].
      rewrite (Hinputs x Hx E) in Hk; discriminate. }
    split; [exact Hany|].
    destruct (Hany _ (reordered_refl _)) as [Hfails Hundef].
    unfold lower_connections; split.
    + destruct Hfails as [-> | [msg ->]]; [left | right; exists msg]; reflexivity.
    + intros Hinputs; rewrite (Hundef Hinputs); reflexivity.
  - intros item name p op_n [Hnodes Hedges] Hty Hparse Hname Hout Hp.
    assert (Hin : In op_n (ordered_nodes (graph f))) by (eapply name_to_op_In; exact Hname).
    assert (Hlt : (op_n < next_node f)%nat) by (apply Hnodes; exact Hin).
    unfold lower_connections, generate_connection_map; cbn [fold_left].
    rewrite Hparse, Hname; cbn [add_connection_item].
    unfold create_virtual_operators_and_connections; cbn [foldM fst snd].
    unfold create_virtual_operator, create_virtual_operator_of; rewrite Hty.
    set (vop := make_virtual_op _ p kOutput _).
    destruct (add_flow_unknown_output (fst (alloc_op f vop)) op_n (snd (alloc_op f vop)) p p)
      as [msg Hflow].
    { unfold alloc_op; cbn [fst op_heap]; rewrite upd_other by lia; exact Hout. }
    { exact Hp. }
    unfold alloc_op in *; cbn [fst snd] in *.
    rewrite Hflow; cbn [bind fst snd app].
    unfold connect_ucx_transmitters_to_virtual_ops; cbn [foldM].
    unfold connect_ucx_transmitter; cbn [op_heap graph]; rewrite upd_same.
    cbn [vop make_virtual_op virt_io_type].
    assert (Hprev : get_previous_nodes (graph f) (next_node f) = nil).
    { unfold get_previous_nodes; rewrite filter_all_false; [reflexivity|].
      intros [a b] H; cbn [snd]; apply Nat.eqb_neq; apply Hedges in H; lia. }
    rewrite Hprev; reflexivity.
Qed.

End BadConnectionItems.

Lemma connection_item_without_operator_or_port_is_not_reported_witness :
  (forall connection_map : ConnectionMapType,
      reordered (generate_connection_map Examples.env Examples.sender
                   [mkConnectionItem "tx.out" kOutput Examples.ucx_args;
                    mkConnectionItem "rx.in" kInput Examples.ucx_args]) connection_map ->
      create_virtual_operators_and_connections Examples.env Examples.sender connection_map
      = Undefined)
  /\ lower_connections Examples.env Examples.sender
       [mkConnectionItem "tx.out" kOutput Examples.ucx_args;
        mkConnectionItem "rx.in" kInput Examples.ucx_args] = Undefined
  /\ lower_connections Examples.env Examples.sender
       [mkConnectionItem "tx.data" kOutput Examples.ucx_args] = Undefined.
Proof.
  destruct (connection_item_without_operator_or_port_is_not_reported Examples.env
              Examples.sender) as [Hop Hport].
  destruct (Hop [mkConnectionItem "tx.out" kOutput Examples.ucx_args;
                 mkConnectionItem "rx.in" kInput Examples.ucx_args]
                (mkConnectionItem "rx.in" kInput Examples.ucx_args) "rx" "in")
    as [Hany [_ Hlower]];
    [right; left; reflexivity | reflexivity | reflexivity |].
  assert (Hinputs : forall x,
             In x [mkConnectionItem "tx.out" kOutput Examples.ucx_args;
                   mkConnectionItem "rx.in" kInput Examples.ucx_args] ->
             ci_io_type x = kInput ->
             name_to_op Examples.sender
               (fst (env_parse_port_name Examples.env (ci_name x))) = None)
    by (intros x [<- | [<- | []]]; [discriminate | reflexivity]).
  split; [intros connection_map Hre; exact (proj2 (Hany connection_map Hre) Hinputs)|].
  split; [exact (Hlower Hinputs)|].
  apply (Hport (mkConnectionItem "tx.data" kOutput Examples.ucx_args) "tx" "data" 0%nat);
    [exact allocated_sender | reflexivity | reflexivity | reflexivity | reflexivity
    | discriminate].
Defined.

(** The connection items "ghost.out" and "rx.data" on [Examples.receiver],
    which has neither an operator "ghost" nor a port or parameter "data" of
    "rx": when the entry of "rx" is reached first, the lowering ends with
    [std::bad_any_cast]; when the entry of the null operator is reached
    first, it is undefined behaviour. *)
Lemma bad_cast_before_the_null_operator :
  create_virtual_operators_and_connections Examples.env Examples.receiver
    (rev (generate_connection_map Examples.env Examples.receiver
            [mkConnectionItem "ghost.out" kOutput Examples.ucx_args;
             mkConnectionItem "rx.data" kInput Examples.ucx_args]))
  = Throw "bad any_cast"
  /\ create_virtual_operators_and_connections Examples.env Examples.receiver
       (generate_connection_map Examples.env Examples.receiver
          [mkConnectionItem "ghost.out" kOutput Examples.ucx_args;
           mkConnectionItem "rx.data" kInput Examples.ucx_args])
     = Undefined.
Proof. vm_compute; split; reflexivity. Qed.

(** ** The graph entity of a condition or a resource *)

Section GraphEntities.

Context (ge : option GraphEntity).

Lemma entity_kept_refl (c : Component) : entity_kept ge c c.
Proof. left; reflexivity. Qed.

Lemma entity_kept_trans (c1 c2 c3 : Component) :
  entity_kept ge c1 c2 -> entity_kept ge c2 c3 -> entity_kept ge c1 c3.
Proof.
  intros [-> | H12] [-> | H23].
  - left; reflexivity.
  - right; exact H23.
  - right; exact H12.
  - destruct H12 as [_ [_ [e [_ ->]]]]; destruct H23 as [Hnone _]; discriminate Hnone.
Qed.

Lemma store_kept_refl (st : ComponentStore) : store_kept ge st st.
Proof. split; [|split]; [intros p; apply entity_kept_refl.. | reflexivity]. Qed.

Lemma store_kept_trans (st1 st2 st3 : ComponentStore) :
  store_kept ge st1 st2 -> store_kept ge st2 st3 -> store_kept ge st1 st3.
Proof.
  intros [Hc1 [Hr1 Hi1]] [Hc2 [Hr2 Hi2]]; split; [|split].
  - intros p; eapply entity_kept_trans; [apply Hc1 | apply Hc2].
  - intros p; eapply entity_kept_trans; [apply Hr1 | apply Hr2].
  - congruence.
Qed.

End GraphEntities.

(** What a call of any of the four functions does to the store, and what
    a [true] of [add_condition_to_graph_entity] or
    [add_resource_to_graph_entity] tells. *)
Lemma add_to_graph_entity_kept (ge : option GraphEntity) (fuel : nat) :
  (forall condition st st' b,
      add_condition_to_graph_entity fuel condition ge st = Ok (st', b) ->
      store_kept ge st st'
      /\ (b = true -> exists p e, condition = Some p /\ ge = Some e
                                  /\ gxf_graph_entity_ (store_conditions st' p) = Some e)
      /\ (forall p, condition = Some p ->
                    gxf_graph_entity_ (store_conditions st p) <> None -> b = false))
  /\ (forall resource st st' b,
         add_resource_to_graph_entity fuel resource ge st = Ok (st', b) ->
         store_kept ge st st'
         /\ (b = true -> exists p e, resource = Some p /\ ge = Some e
                                     /\ gxf_graph_entity_ (store_resources st' p) = Some e)
         /\ (forall p, resource = Some p ->
                       gxf_graph_entity_ (store_resources st p) <> None -> b = false))
  /\ (forall io_spec st st' b,
         add_iospec_to_graph_entity fuel io_spec ge st = Ok (st', b) -> store_kept ge st st')
  /\ (forall args st st' b,
         add_component_args_to_graph_entity fuel args ge st = Ok (st', b) ->
         store_kept ge st st').
Proof.
  induction fuel as [|fuel [IHc [IHr [IHi IHa]]]];
    [repeat split; intros; discriminate|].
  assert (Hset_c : forall st p e,
             ge = Some e ->
             comp_is_gxf (store_conditions st p) = true ->
             gxf_graph_entity_ (store_conditions st p) = None ->
             store_kept ge st (set_condition st p (set_graph_entity (store_conditions st p) e))).
  { intros st p e He Hgxf Hnone; split; [|split]; [|intros q; left; reflexivity | reflexivity].
    intros q; cbn [set_condition store_conditions]; unfold upd.
    destruct (Nat.eqb q p) eqn:E; [|left; reflexivity].
    apply Nat.eqb_eq in E; subst q; right; split; [exact Hnone|].
    split; [exact Hgxf | exists e; auto]. }
  assert (Hset_r : forall st p e,
             ge = Some e ->
             comp_is_gxf (store_resources st p) = true ->
             gxf_graph_entity_ (store_resources st p) = None ->
             store_kept ge st (set_resource st p (set_graph_entity (store_resources st p) e))).
  { intros st p e He Hgxf Hnone; split; [|split]; [intros q; left; reflexivity | | reflexivity].
    intros q; cbn [set_resource store_resources]; unfold upd.
    destruct (Nat.eqb q p) eqn:E; [|left; reflexivity].
    apply Nat.eqb_eq in E; subst q; right; split; [exact Hnone|].
    split; [exact Hgxf | exists e; auto]. }
  assert (Howned : forall c c', entity_kept ge c c' -> gxf_graph_entity_ c <> None ->
                                gxf_graph_entity_ c' <> None).
  { intros c c' [-> | [Hnone _]] H; [exact H | contradiction]. }
  assert (Hnothing : forall (st st' : ComponentStore) (b : bool) (ptr : option nat)
                            (sel : ComponentStore -> nat -> Component),
             Ok (st, false) = Ok (st', b) ->
             store_kept ge st st'
             /\ (b = true -> exists p e, ptr = Some p /\ ge = Some e
                                         /\ gxf_graph_entity_ (sel st' p) = Some e)
             /\ (forall p, ptr = Some p -> gxf_graph_entity_ (sel st p) <> None -> b = false)).
  { intros st st' b ptr sel H; inversion H; subst.
    split; [apply store_kept_refl | split; [discriminate | reflexivity]]. }
  split; [|split; [|split]].
  - (* add_condition_to_graph_entity *)
    intros condition st st' b H; cbn [add_condition_to_graph_entity] in H.
    destruct condition as [p|]; [|apply (Hnothing _ _ _ _ store_conditions H)].
    destruct ge as [e|]; [|apply (Hnothing _ _ _ _ store_conditions H)].
    apply bind_Ok in H; destruct H as [[st1 b1] [Hargs H]]; cbn [fst] in H.
    apply IHa in Hargs.
    destruct (comp_is_gxf (store_conditions st1 p)) eqn:Egxf; cbn [negb] in H;
      [|inversion H; subst; split; [exact Hargs|]; split; [discriminate | reflexivity]].
    unfold has_graph_entity in H.
    destruct (gxf_graph_entity_ (store_conditions st1 p)) as [e1|] eqn:Eent; cbn [negb] in H;
      inversion H; subst; clear H.
    + split; [exact Hargs | split; [discriminate | reflexivity]].
    + split; [|split].
      * eapply store_kept_trans; [exact Hargs|].
        apply Hset_c; [reflexivity | exact Egxf | exact Eent].
      * intros _; exists p, e; split; [reflexivity|]; split; [reflexivity|].
        cbn [set_condition store_conditions]; rewrite upd_same; reflexivity.
      * intros q [= <-] Howns; exfalso.
        apply (Howned _ _ (proj1 Hargs p) Howns); exact Eent.
  - (* add_resource_to_graph_entity *)
    intros resource st st' b H; cbn [add_resource_to_graph_entity] in H.
    destruct resource as [p|]; [|apply (Hnothing _ _ _ _ store_resources H)].
    destruct ge as [e|]; [|apply (Hnothing _ _ _ _ store_resources H)].
    apply bind_Ok in H; destruct H as [[st1 b1] [Hargs H]]; cbn [fst] in H.
    apply IHa in Hargs.
    unfold has_graph_entity in H.
    destruct (comp_is_gxf (store_resources st1 p)) eqn:Egxf; cbn [andb] in H;
      [|inversion H; subst; split; [exact Hargs|]; split; [discriminate | reflexivity]].
    destruct (gxf_graph_entity_ (store_resources st1 p)) as [e1|] eqn:Eent; cbn [negb] in H;
      inversion H; subst; clear H.
    + split; [exact Hargs | split; [discriminate | reflexivity]].
    + split; [|split].
      * eapply store_kept_trans; [exact Hargs|].
        apply Hset_r; [reflexivity | exact Egxf | exact Eent].
      * intros _; exists p, e; split; [reflexivity|]; split; [reflexivity|].
        cbn [set_resource store_resources]; rewrite upd_same; reflexivity.
      * intros q [= <-] Howns; exfalso.
        apply (Howned _ _ (proj1 (proj2 Hargs) p) Howns); exact Eent.
  - (* add_iospec_to_graph_entity *)
    intros io_spec st st' b H; cbn [add_iospec_to_graph_entity] in H.
    destruct io_spec as [p|]; [|inversion H; subst; apply store_kept_refl].
    destruct ge as [e|]; [|inversion H; subst; apply store_kept_refl].
    destruct (ior_connector (store_io_specs st p)) as [resource|];
      [|inversion H; subst; apply store_kept_refl].
    apply bind_Ok in H; destruct H as [[st1 b1] [Hres H]].
    apply IHr in Hres; destruct Hres as [Hres _].
    apply (store_kept_trans _ _ st1); [exact Hres|].
    change st1 with (fst (st1, b1)); change st' with (fst (st', b)).
    revert H; apply (foldM_relation (fun a a' => store_kept (Some e) (fst a) (fst a'))).
    + intros a; apply store_kept_refl.
    + intros a1 a2 a3; apply store_kept_trans.
    + intros a c a' Hstep.
      apply bind_Ok in Hstep; destruct Hstep as [[st2 b2] [Hc Hstep]].
      apply bind_Ok in Hstep; destruct Hstep as [u [_ Hstep]].
      inversion Hstep; subst; cbn [fst].
      apply IHc in Hc; apply Hc.
  - (* add_component_args_to_graph_entity *)
    intros args st st' b H; cbn [add_component_args_to_graph_entity] in H.
    apply bind_Ok in H; destruct H as [st1 [H Hret]]; inversion Hret; subst; clear Hret.
    revert H; apply (foldM_relation (store_kept ge)).
    + apply store_kept_refl.
    + apply store_kept_trans.
    + intros s arg s' Hstep.
      assert (Heach_c : forall s0 ptr s1,
                 (r <- add_condition_to_graph_entity fuel ptr ge s0 ;; Ok (fst r)) = Ok s1 ->
                 store_kept ge s0 s1).
      { intros s0 ptr s1 Hr; apply bind_Ok in Hr; destruct Hr as [[s2 b2] [Hr Hs]].
        inversion Hs; subst; apply IHc in Hr; apply Hr. }
      assert (Heach_r : forall s0 ptr s1,
                 (r <- add_resource_to_graph_entity fuel ptr ge s0 ;; Ok (fst r)) = Ok s1 ->
                 store_kept ge s0 s1).
      { intros s0 ptr s1 Hr; apply bind_Ok in Hr; destruct Hr as [[s2 b2] [Hr Hs]].
        inversion Hs; subst; apply IHr in Hr; apply Hr. }
      assert (Heach_i : forall s0 ptr s1,
                 (r <- add_iospec_to_graph_entity fuel ptr ge s0 ;; Ok (fst r)) = Ok s1 ->
                 store_kept ge s0 s1).
      { intros s0 ptr s1 Hr; apply bind_Ok in Hr; destruct Hr as [[s2 b2] [Hr Hs]].
        inversion Hs; subst; apply IHi in Hr; exact Hr. }
      destruct arg as [c | r | i | cs | rs | ios | |].
      * apply (Heach_c _ _ _ Hstep).
      * apply (Heach_r _ _ _ Hstep).
      * apply (Heach_i _ _ _ Hstep).
      * revert Hstep; apply (foldM_relation (store_kept ge));
          [apply store_kept_refl | apply store_kept_trans | exact Heach_c].
      * revert Hstep; apply (foldM_relation (store_kept ge));
          [apply store_kept_refl | apply store_kept_trans | exact Heach_r].
      * revert Hstep; apply (foldM_relation (store_kept ge));
          [apply store_kept_refl | apply store_kept_trans | exact Heach_i].
      * inversion Hstep; subst; apply store_kept_refl.
      * inversion Hstep; subst; apply store_kept_refl.
Qed.

Lemma foldM_not_Ok {A S : Type} (f : S -> A -> outcome S) (x : A) :
  (forall s s', f s x <> Ok s') ->
  forall l, In x l -> forall s s', foldM f l s <> Ok s'.
Proof.
  intros Hx l; induction l as [|a l IH]; intros Hin s s' H; [destruct Hin|].
  simpl in H; apply bind_Ok in H; destruct H as [s1 [H1 H2]].
  destruct Hin as [-> | Hin]; [exact (Hx _ _ H1) | exact (IH Hin _ _ H2)].
Qed.

Lemma foldM_Undefined {A S : Type} (P : S -> Prop) (f : S -> A -> outcome S) (x : A) :
  (forall s, P s -> f s x = Undefined) ->
  (forall s a, P s -> a <> x -> exists s', f s a = Ok s' /\ P s') ->
  (forall a : A, a = x \/ a <> x) ->
  forall l, In x l -> forall s, P s -> foldM f l s = Undefined.
Proof.
  intros Hx Hother Hdec l; induction l as [|a l IH]; intros Hin s Hs; [destruct Hin|].
  simpl; destruct (Hdec a) as [-> | Hne].
  - rewrite (Hx _ Hs); reflexivity.
  - destruct (Hother s a Hs Hne) as [s' [Hf Hs']]; rewrite Hf; simpl.
    destruct Hin as [-> | Hin]; [contradiction Hne; reflexivity|].
    apply IH; assumption.
Qed.

(** X16.  A call of [add_condition_to_graph_entity],
    [add_resource_to_graph_entity], [add_iospec_to_graph_entity] or
    [add_component_args_to_graph_entity] that returns leaves every
    condition and every resource as it was, but for GXF components that
    had no graph entity: these may have been given the graph entity of
    the call and its entity id.  The IOSpecs are not changed. *)
Theorem graph_entity_is_given_to_components_without_one
  (fuel : nat) (call : EntityCall) (graph_entity : option GraphEntity)
  (st st' : ComponentStore) (b : bool) :
  graph_entity_call fuel call graph_entity st = Ok (st', b) ->
  (forall p, store_conditions st' p = store_conditions st p
             \/ (gxf_graph_entity_ (store_conditions st p) = None
                 /\ comp_is_gxf (store_conditions st p) = true
                 /\ exists ge, graph_entity = Some ge
                               /\ store_conditions st' p
                                  = mkComponent (comp_name (store_conditions st p)) true
                                      (ge_eid ge) (Some ge)
                                      (comp_args (store_conditions st p))))
  /\ (forall p, store_resources st' p = store_resources st p
                \/ (gxf_graph_entity_ (store_resources st p) = None
                    /\ comp_is_gxf (store_resources st p) = true
                    /\ exists ge, graph_entity = Some ge
                                  /\ store_resources st' p
                                     = mkComponent (comp_name (store_resources st p)) true
                                         (ge_eid ge) (Some ge)
                                         (comp_args (store_resources st p))))
  /\ store_io_specs st' = store_io_specs st.
Proof.
  intros H.
  assert (Hkept : store_kept graph_entity st st').
  { destruct (add_to_graph_entity_kept graph_entity fuel) as [Hc [Hr [Hi Ha]]].
    destruct call as [c | r | i | args]; cbn [graph_entity_call] in H.
    - apply (Hc _ _ _ _ H).
    - apply (Hr _ _ _ _ H).
    - apply (Hi _ _ _ _ H).
    - apply (Ha _ _ _ _ H). }
  destruct Hkept as [Hc [Hr Hi]].
  assert (Hexp : forall c c', entity_kept graph_entity c c' ->
                   c' = c
                   \/ (gxf_graph_entity_ c = None /\ comp_is_gxf c = true
                       /\ exists ge, graph_entity = Some ge
                                     /\ c' = mkComponent (comp_name c) true (ge_eid ge)
                                               (Some ge) (comp_args c))).
  { intros c c' [E | [Hnone [Hgxf [e [He E]]]]]; [left; exact E|].
    right; split; [exact Hnone|]; split; [exact Hgxf|].
    exists e; split; [exact He|].
    rewrite E; unfold set_graph_entity; rewrite Hgxf; reflexivity. }
  split; [|split].
  - intros p; apply Hexp, Hc.
  - intros p; apply Hexp, Hr.
  - exact Hi.
Qed.

Lemma graph_entity_is_given_to_components_without_one_witness :
  let st' :=
    set_resource
      (set_resource Examples.shared_allocator 0%nat
         (set_graph_entity (store_resources Examples.shared_allocator 0%nat)
            Examples.first_entity))
      1%nat
      (set_graph_entity (store_resources Examples.shared_allocator 1%nat)
         Examples.first_entity) in
  (forall p, store_conditions st' p = store_conditions Examples.shared_allocator p
             \/ (gxf_graph_entity_ (store_conditions Examples.shared_allocator p) = None
                 /\ comp_is_gxf (store_conditions Examples.shared_allocator p) = true
                 /\ exists ge, Some Examples.first_entity = Some ge
                               /\ store_conditions st' p
                                  = mkComponent
                                      (comp_name (store_conditions Examples.shared_allocator p))
                                      true (ge_eid ge) (Some ge)
                                      (comp_args (store_conditions Examples.shared_allocator p))))
  /\ (forall p, store_resources st' p = store_resources Examples.shared_allocator p
                \/ (gxf_graph_entity_ (store_resources Examples.shared_allocator p) = None
                    /\ comp_is_gxf (store_resources Examples.shared_allocator p) = true
                    /\ exists ge, Some Examples.first_entity = Some ge
                                  /\ store_resources st' p
                                     = mkComponent
                                         (comp_name (store_resources Examples.shared_allocator p))
                                         true (ge_eid ge) (Some ge)
                                         (comp_args
                                            (store_resources Examples.shared_allocator p))))
  /\ store_io_specs st' = store_io_specs Examples.shared_allocator.
Proof.
  intros st'.
  apply (graph_entity_is_given_to_components_without_one 4 (CallResource (Some 1%nat))
           (Some Examples.first_entity) Examples.shared_allocator st' true).
  reflexivity.
Defined.

(** X17.  The first graph entity stays.  Once
    [add_resource_to_graph_entity] has returned [true] for a resource,
    the resource has the graph entity of that call and its entity id;
    any later call of the four functions, for whatever graph entity,
    leaves the resource as it is, and adding the resource again returns
    [false].  The same holds of a condition and
    [add_condition_to_graph_entity]. *)
Theorem component_keeps_its_first_graph_entity
  (fuel1 fuel2 : nat) (p : nat) (ge1 ge2 : option GraphEntity)
  (call : EntityCall) (st st1 st2 : ComponentStore) (b : bool) :
  (add_resource_to_graph_entity fuel1 (Some p) ge1 st = Ok (st1, true) ->
   graph_entity_call fuel2 call ge2 st1 = Ok (st2, b) ->
   gxf_graph_entity_ (store_resources st1 p) = ge1
   /\ ge1 <> None
   /\ store_resources st2 p = store_resources st1 p
   /\ (call = CallResource (Some p) -> b = false))
  /\ (add_condition_to_graph_entity fuel1 (Some p) ge1 st = Ok (st1, true) ->
      graph_entity_call fuel2 call ge2 st1 = Ok (st2, b) ->
      gxf_graph_entity_ (store_conditions st1 p) = ge1
      /\ ge1 <> None
      /\ store_conditions st2 p = store_conditions st1 p
      /\ (call = CallCondition (Some p) -> b = false)).
Proof.
  assert (Hkept : graph_entity_call fuel2 call ge2 st1 = Ok (st2, b) ->
                  store_kept ge2 st1 st2).
  { intros H; destruct (add_to_graph_entity_kept ge2 fuel2) as [Hc [Hr [Hi Ha]]].
    destruct call as [c | r | i | args]; cbn [graph_entity_call] in H.
    - apply (Hc _ _ _ _ H).
    - apply (Hr _ _ _ _ H).
    - apply (Hi _ _ _ _ H).
    - apply (Ha _ _ _ _ H). }
  split; intros H1 H2.
  - destruct (add_to_graph_entity_kept ge1 fuel1) as [_ [Hr1 _]].
    destruct (Hr1 _ _ _ _ H1) as [_ [Htrue _]].
    destruct (Htrue eq_refl) as [q [e [[= <-] [-> Hent]]]].
    split; [exact Hent|]; split; [discriminate|].
    destruct (Hkept H2) as [_ [Hr _]].
    split.
    + destruct (Hr p) as [E | [Hnone _]]; [exact E|].
      rewrite Hent in Hnone; discriminate Hnone.
    + intros ->; cbn [graph_entity_call] in H2.
      destruct (add_to_graph_entity_kept ge2 fuel2) as [_ [Hr2 _]].
      destruct (Hr2 _ _ _ _ H2) as [_ [_ Hfalse]].
      apply (Hfalse p eq_refl); rewrite Hent; discriminate.
  - destruct (add_to_graph_entity_kept ge1 fuel1) as [Hc1 _].
    destruct (Hc1 _ _ _ _ H1) as [_ [Htrue _]].
    destruct (Htrue eq_refl) as [q [e [[= <-] [-> Hent]]]].
    split; [exact Hent|]; split; [discriminate|].
    destruct (Hkept H2) as [Hc _].
    split.
    + destruct (Hc p) as [E | [Hnone _]]; [exact E|].
      rewrite Hent in Hnone; discriminate Hnone.
    + intros ->; cbn [graph_entity_call] in H2.
      destruct (add_to_graph_entity_kept ge2 fuel2) as [Hc2 _].
      destruct (Hc2 _ _ _ _ H2) as [_ [_ Hfalse]].
      apply (Hfalse p eq_refl); rewrite Hent; discriminate.
Qed.

Lemma component_keeps_its_first_graph_entity_witness :
  let st1 :=
    set_resource Examples.shared_allocator 0%nat
      (set_graph_entity (store_resources Examples.shared_allocator 0%nat)
         Examples.first_entity) in
  let st2 :=
    set_resource st1 1%nat
      (set_graph_entity (store_resources st1 1%nat) Examples.second_entity) in
  let c1 :=
    set_condition Examples.shared_allocator 0%nat
      (set_graph_entity (store_conditions Examples.shared_allocator 0%nat)
         Examples.first_entity) in
  (gxf_graph_entity_ (store_resources st1 0%nat) = Some Examples.first_entity
   /\ Some Examples.first_entity <> None
   /\ store_resources st2 0%nat = store_resources st1 0%nat
   /\ (CallResource (Some 1%nat) = CallResource (Some 0%nat) -> true = false))
  /\ (gxf_graph_entity_ (store_conditions c1 0%nat) = Some Examples.first_entity
      /\ Some Examples.first_entity <> None
      /\ store_conditions c1 0%nat = store_conditions c1 0%nat
      /\ (CallCondition (Some 0%nat) = CallCondition (Some 0%nat) -> false = false)).
Proof.
  intros st1 st2 c1; split.
  - apply (proj1 (component_keeps_its_first_graph_entity 2 4 0%nat
                    (Some Examples.first_entity) (Some Examples.second_entity)
                    (CallResource (Some 1%nat)) Examples.shared_allocator st1 st2 true));
      reflexivity.
  - apply (proj2 (component_keeps_its_first_graph_entity 2 2 0%nat
                    (Some Examples.first_entity) (Some Examples.second_entity)
                    (CallCondition (Some 0%nat)) Examples.shared_allocator c1 c1 false));
      reflexivity.
Defined.

(** X18.  An IOSpec with a connector and a null condition among its
    conditions cannot be added to a graph entity: [add_condition_to_graph_entity] returns [false] for
    the null condition and the error that is then logged takes the name
    of the condition.  The call never returns; when no condition and no
    resource has arguments, it is undefined behaviour. *)
Theorem iospec_with_a_null_condition_is_undefined
  (io_spec connector : nat) (graph_entity : GraphEntity) (st : ComponentStore) :
  ior_connector (store_io_specs st io_spec) = Some connector ->
  In None (ior_conditions (store_io_specs st io_spec)) ->
  (forall fuel r,
      add_iospec_to_graph_entity fuel (Some io_spec) (Some graph_entity) st <> Ok r)
  /\ ((forall p, comp_args (store_conditions st p) = []
                 /\ comp_args (store_resources st p) = []) ->
      forall fuel, (3 <= fuel)%nat ->
        add_iospec_to_graph_entity fuel (Some io_spec) (Some graph_entity) st = Undefined).
Proof.
  intros Hconn Hnull; split.
  - intros [|fuel] r H; [discriminate|].
    cbn [add_iospec_to_graph_entity] in H; rewrite Hconn in H.
    apply bind_Ok in H; destruct H as [r1 [_ H]].
    revert H; apply (foldM_not_Ok _ None); [|exact Hnull].
    intros acc acc' H; apply bind_Ok in H; destruct H as [[st2 b2] [Hc H]].
    destruct fuel as [|fuel]; [discriminate|].
    cbn [add_condition_to_graph_entity] in Hc; inversion Hc; subst.
    discriminate H.
  - intros Hargs [|[|[|fuel]]] Hfuel; try lia.
    assert (Hnil : forall s, add_component_args_to_graph_entity (S fuel) [] (Some graph_entity) s
                             = Ok (s, true)) by reflexivity.
    cbn [add_iospec_to_graph_entity]; rewrite Hconn.
    set (P := fun acc : ComponentStore * bool =>
                forall p, comp_args (store_conditions (fst acc) p) = []).
    assert (Hstart : exists r1, add_resource_to_graph_entity (S (S fuel)) (Some connector)
                                  (Some graph_entity) st = Ok r1 /\ P r1).
    { cbn [add_resource_to_graph_entity].
      rewrite (proj2 (Hargs connector)), Hnil; cbn [bind fst].
      destruct (comp_is_gxf (store_resources st connector)
                && negb (has_graph_entity (store_resources st connector)));
        eexists; (split; [reflexivity|]); intros p; apply Hargs. }
    destruct Hstart as [r1 [-> Hr1]]; cbn [bind].
    apply (foldM_Undefined P _ None); [| | | exact Hnull | exact Hr1].
    + intros acc _; reflexivity.
    + intros acc [c|] Hacc Hne; [|contradiction Hne; reflexivity].
      cbn [add_condition_to_graph_entity]; rewrite (Hacc c), Hnil; cbn [bind fst].
      destruct (negb (comp_is_gxf (store_conditions (fst acc) c)));
        [eexists; split; [reflexivity | exact Hacc]|].
      destruct (negb (has_graph_entity (store_conditions (fst acc) c)));
        [|eexists; split; [reflexivity | exact Hacc]].
      eexists; split; [reflexivity|].
      intros p; cbn [fst set_condition store_conditions]; unfold upd.
      destruct (Nat.eqb p c) eqn:E; [|apply Hacc].
      apply Nat.eqb_eq in E; subst p; cbn [set_graph_entity comp_args]; apply Hacc.
    + intros [c|]; [right; discriminate | left; reflexivity].
Qed.

Lemma iospec_with_a_null_condition_is_undefined_witness :
  (forall fuel r,
      add_iospec_to_graph_entity fuel (Some 0%nat) (Some Examples.first_entity)
        Examples.null_condition <> Ok r)
  /\ (forall fuel, (3 <= fuel)%nat ->
        add_iospec_to_graph_entity fuel (Some 0%nat) (Some Examples.first_entity)
          Examples.null_condition = Undefined).
Proof.
  destruct (iospec_with_a_null_condition_is_undefined 0%nat 0%nat Examples.first_entity
              Examples.null_condition) as [Hnever Hundefined];
    [reflexivity | right; left; reflexivity |].
  split; [exact Hnever|].
  apply Hundefined; intros p; split; reflexivity.
Defined.

(** ** The parts of a configuration key *)

Section KeyParts.

Local Open Scope nat_scope.

Lemma string_app_assoc (a b c : string) : (a ++ b) ++ c = a ++ (b ++ c).
Proof. induction a as [|x a IH]; simpl; [reflexivity | rewrite IH; reflexivity]. Qed.

Lemma string_length_app (a b : string) :
  String.length (a ++ b) = String.length a + String.length b.
Proof. induction a as [|x a IH]; simpl; [reflexivity | rewrite IH; reflexivity]. Qed.

Lemma find_first_of_skip (pre suf : string) (c : ascii) :
  find_first_of (pre ++ suf) c (String.length pre)
  = option_map (fun i => String.length pre + i) (find_first_of suf c 0).
Proof.
  induction pre as [|x pre IH]; simpl.
  - destruct (find_first_of suf c 0); reflexivity.
  - rewrite IH; destruct (find_first_of suf c 0); reflexivity.
Qed.

Lemma find_first_of_none (s : string) (c : ascii) :
  find_first_of s c 0 = None -> has_char c s = false /\ count_char c s = 0.
Proof.
  induction s as [|a s IH]; simpl; [split; reflexivity|].
  destruct (Ascii.eqb a c); [discriminate|].
  destruct (find_first_of s c 0); [discriminate|].
  intros _; destruct (IH eq_refl) as [H1 H2]; rewrite H1, H2; split; reflexivity.
Qed.

Lemma find_first_of_some (s : string) (c : ascii) (i : nat) :
  find_first_of s c 0 = Some i ->
  exists a b, s = a ++ String c b /\ String.length a = i
              /\ has_char c a = false /\ count_char c s = S (count_char c b).
Proof.
  revert i; induction s as [|x s IH]; simpl; intros i H; [discriminate|].
  destruct (Ascii.eqb x c) eqn:E.
  - apply Ascii.eqb_eq in E; subst x; inversion H; subst.
    exists EmptyString, s; repeat split; reflexivity.
  - destruct (find_first_of s c 0) as [j|]; [|discriminate].
    inversion H; subst; destruct (IH j eq_refl) as [a [b [Hs [Hlen [Hno Hcount]]]]].
    exists (String x a), b; simpl; rewrite E, Hno, Hlen, Hcount, <- Hs.
    repeat split; reflexivity.
Qed.

Lemma substring_skip (pre s : string) (n : nat) :
  String.substring (String.length pre) n (pre ++ s) = String.substring 0 n s.
Proof. induction pre as [|x pre IH]; simpl; [reflexivity | exact IH]. Qed.

Lemma substring_prefix (a b : string) :
  String.substring 0 (String.length a) (a ++ b) = a.
Proof.
  induction a as [|x a IH]; simpl; [destruct b; reflexivity | rewrite IH; reflexivity].
Qed.

Lemma substring_all (s : string) : String.substring 0 (String.length s) s = s.
Proof. induction s as [|x s IH]; simpl; [reflexivity | rewrite IH; reflexivity]. Qed.

Lemma concat_cons (sep a : string) (l : list string) :
  l <> nil -> String.concat sep (a :: l) = a ++ sep ++ String.concat sep l.
Proof. destruct l; [intros H; contradiction H; reflexivity | reflexivity]. Qed.

(** The loop from the position after [pre]: it ends, and the parts it
    adds, with the last part, are the parts of the rest of the key. *)
Lemma key_parts_loop_spec (fuel : nat) :
  forall (pre suf : string) (parts : list string),
    count_char "." suf < fuel ->
    exists pos' added last,
      key_parts_loop fuel (pre ++ suf) (String.length pre) parts
      = Ok (pos', parts ++ added)%list
      /\ substr_from (pre ++ suf) pos' = Ok last
      /\ String.concat "." (added ++ [last])%list = suf
      /\ (forall p, In p (added ++ [last])%list -> has_char "." p = false)
      /\ List.length (added ++ [last])%list = S (count_char "." suf).
Proof.
  induction fuel as [|fuel IH]; intros pre suf parts Hfuel; [lia|].
  cbn [key_parts_loop]; rewrite find_first_of_skip.
  destruct (find_first_of suf "." 0) as [i|] eqn:Efind; cbn [option_map].
  - destruct (find_first_of_some _ _ _ Efind) as [a [b [Hs [Hlen [Hno Hcount]]]]].
    subst suf i.
    assert (Hpart : substr (pre ++ a ++ String "." b) (String.length pre)
                      (String.length pre + String.length a - String.length pre) = Ok a).
    { unfold substr; rewrite !string_length_app.
      destruct (Nat.ltb_spec (String.length pre + (String.length a + String.length (String "." b)))
                  (String.length pre)); [lia|].
      rewrite substring_skip.
      replace (String.length pre + String.length a - String.length pre)
        with (String.length a) by lia.
      rewrite substring_prefix; reflexivity. }
    rewrite Hpart; cbn [bind].
    assert (Hkey : pre ++ a ++ String "." b = (pre ++ a ++ ".") ++ b).
    { rewrite !string_app_assoc; reflexivity. }
    assert (Hpos : String.length pre + String.length a + 1 = String.length (pre ++ a ++ ".")).
    { rewrite !string_length_app; simpl; lia. }
    rewrite Hkey, Hpos.
    destruct (IH (pre ++ a ++ ".") b (parts ++ [a])%list) as [pos' [added [last H]]]; [lia|].
    destruct H as [Hloop [Hlast [Hconcat [Hdots Hlength]]]].
    exists pos', (a :: added)%list, last.
    rewrite Hloop, <- app_assoc; cbn [app]; split; [reflexivity|].
    split; [exact Hlast|]; split; [|split].
    + rewrite concat_cons by (destruct added; discriminate).
      rewrite Hconcat; reflexivity.
    + intros p [<- | Hp]; [exact Hno | apply Hdots; exact Hp].
    + cbn [List.length]; rewrite Hlength, Hcount; reflexivity.
  - destruct (find_first_of_none _ _ Efind) as [Hno Hcount].
    exists (String.length pre), nil, suf; rewrite app_nil_r; split; [reflexivity|].
    split; [|split; [reflexivity|split]].
    + unfold substr_from, substr; rewrite string_length_app.
      destruct (Nat.ltb_spec (String.length pre + String.length suf) (String.length pre)); [lia|].
      rewrite substring_skip.
      replace (String.length pre + String.length suf - String.length pre)
        with (String.length suf) by lia.
      rewrite substring_all; reflexivity.
    + intros p [<- | []]; exact Hno.
    + rewrite Hcount; reflexivity.
Qed.

Lemma count_char_le (c : ascii) (s : string) : count_char c s <= String.length s.
Proof. induction s as [|a s IH]; simpl; [lia | destruct (Ascii.eqb a c); lia]. Qed.

(** Dot-free parts are determined by what they give when joined. *)
Lemma concat_dot_free_inj (l1 : list string) :
  forall l2 : list string,
    l1 <> nil -> l2 <> nil ->
    (forall p, In p l1 -> has_char "." p = false) ->
    (forall p, In p l2 -> has_char "." p = false) ->
    String.concat "." l1 = String.concat "." l2 -> l1 = l2.
Proof.
  assert (Hhead : forall a b r s : string,
             has_char "." a = false -> has_char "." b = false ->
             a ++ String "." r = b ++ String "." s -> a = b /\ r = s).
  { induction a as [|x a IHa]; intros [|y b] r s Ha Hb H; simpl in *.
    - inversion H; split; reflexivity.
    - inversion H; subst y; simpl in Hb; discriminate Hb.
    - inversion H; subst x; simpl in Ha; discriminate Ha.
    - inversion H; subst y.
      apply orb_false_iff in Ha, Hb.
      destruct (IHa b r s (proj2 Ha) (proj2 Hb) H2) as [-> ->]; split; reflexivity. }
  assert (Hlast : forall a b r : string,
             has_char "." a = false -> has_char "." b = false ->
             a = b ++ String "." r -> False).
  { intros a b r Ha Hb H; subst a.
    induction b as [|y b IHb]; simpl in *; [discriminate Ha|].
    apply orb_false_iff in Ha, Hb; apply IHb; [apply Ha | apply Hb]. }
  induction l1 as [|a l1 IH]; intros l2 H1 H2 Hd1 Hd2 H; [contradiction H1; reflexivity|].
  destruct l2 as [|b l2]; [contradiction H2; reflexivity|].
  destruct l1 as [|a' l1], l2 as [|b' l2].
  - simpl in H; subst; reflexivity.
  - exfalso; rewrite (concat_cons "." b (b' :: l2)) in H by discriminate.
    cbn [String.concat String.append] in H.
    apply (Hlast a b _ (Hd1 a (or_introl eq_refl)) (Hd2 b (or_introl eq_refl)) H).
  - exfalso; rewrite (concat_cons "." a (a' :: l1)) in H by discriminate.
    cbn [String.concat String.append] in H.
    apply (Hlast b a _ (Hd2 b (or_introl eq_refl)) (Hd1 a (or_introl eq_refl)) (eq_sym H)).
  - rewrite (concat_cons "." a (a' :: l1)), (concat_cons "." b (b' :: l2)) in H
      by discriminate.
    cbn [String.append] in H.
    destruct (Hhead a b _ _ (Hd1 a (or_introl eq_refl)) (Hd2 b (or_introl eq_refl)) H)
      as [-> Hrest].
    f_equal; apply IH; try discriminate.
    + intros p Hp; apply Hd1; right; exact Hp.
    + intros p Hp; apply Hd2; right; exact Hp.
    + exact Hrest.
Qed.

End KeyParts.

(** X19.  [Fragment::from_config] cuts its key at every dot: the parts,
    joined by dots, give the key again, no part holds a dot, and there is
    one part more than the key has dots (the empty key has one empty
    part).  No other non-empty list of dot-free strings gives the key. *)
Theorem from_config_key_parts_round_trip (key : string) :
  exists parts,
    from_config_key_parts key = Ok parts
    /\ String.concat "." parts = key
    /\ (forall p, In p parts -> has_char "." p = false)
    /\ List.length parts = S (count_char "." key)
    /\ (forall l, l <> nil -> (forall p, In p l -> has_char "." p = false) ->
                  String.concat "." l = key -> l = parts).
Proof.
  destruct (key_parts_loop_spec (S (String.length key)) EmptyString key nil)
    as [pos' [added [last [Hloop [Hlast [Hconcat [Hdots Hlength]]]]]]].
  { pose proof (count_char_le "." key); lia. }
  cbn [String.append String.length app] in Hloop, Hlast.
  exists (added ++ [last])%list; unfold from_config_key_parts.
  rewrite Hloop; cbn [bind fst snd]; rewrite Hlast; cbn [bind].
  split; [reflexivity|]; split; [exact Hconcat|]; split; [exact Hdots|].
  split; [exact Hlength|].
  intros l Hl Hd Hc; apply concat_dot_free_inj.
  - exact Hl.
  - destruct added; discriminate.
  - exact Hd.
  - exact Hdots.
  - rewrite Hc, Hconcat; reflexivity.
Qed.

(** ** GPU devices for the operators with a UCX port *)

Section UcxDevices.

Variable ctx : GxfContext.
Variable ex : Executor.

Local Open Scope nat_scope.

Lemma group_has_device_In (name : string) (groups : list string) :
  group_has_device name groups = true <-> In name groups.
Proof.
  unfold group_has_device; rewrite existsb_exists; split.
  - intros [x [Hin Heq]]; apply String.eqb_eq in Heq; subst; exact Hin.
  - intros Hin; exists name; split; [exact Hin | apply String.eqb_refl].
Qed.

Lemma device_inv_step (seen : list NodeType) (st : DeviceLoop) (node : NodeType) :
  device_inv ctx ex seen st ->
  device_inv ctx ex (seen ++ [node]) (add_ucx_device ctx ex st node).
Proof.
  intros [Hcount Hnames Hgroups Hnodup Hone Hfrom Hcov].
  assert (Hfrom' : forall d, In d (generated_devices st) ->
                     exists n, In n (seen ++ [node]) /\ ucx_operator ctx ex n (gpu_eid d)).
  { intros d Hd; destruct (Hfrom d Hd) as [n [Hn Hu]].
    exists n; split; [apply in_or_app; left; exact Hn | exact Hu]. }
  unfold add_ucx_device.
  destruct (OperatorType_eqb (operator_type (op_heap (fragment_ ex) node)) kVirtual) eqn:Ev.
  { constructor; try assumption.
    intros n eid Hn [Hnv Hu]; apply in_app_or in Hn; destruct Hn as [Hn | [<- | []]].
    - apply (Hcov n eid); [exact Hn | split; assumption].
    - destruct (operator_type (op_heap (fragment_ ex) node));
        try discriminate Ev; contradiction Hnv; reflexivity. }
  destruct (has_ucx_port (op_heap (fragment_ ex) node)) eqn:Eu; cbn [negb].
  2:{ constructor; try assumption.
      intros n eid Hn [Hnv [Hu He]]; apply in_app_or in Hn; destruct Hn as [Hn | [<- | []]].
      - apply (Hcov n eid); [exact Hn | repeat split; assumption].
      - rewrite Eu in Hu; discriminate Hu. }
  destruct (ctx_graph_entity ctx node) as [op_eid|] eqn:Ee.
  2:{ constructor; try assumption.
      intros n eid Hn [Hnv [Hu He]]; apply in_app_or in Hn; destruct Hn as [Hn | [<- | []]].
      - apply (Hcov n eid); [exact Hn | repeat split; assumption].
      - rewrite Ee in He; discriminate He. }
  assert (Hnode : ucx_operator ctx ex node op_eid).
  { split; [|split; [exact Eu | exact Ee]].
    intros Hk; rewrite Hk in Ev; discriminate Ev. }
  cbv zeta.
  destruct (group_has_device (ctx_gxf_entity_group_name ctx op_eid) (groups_with_device st))
    eqn:Eg.
  { apply group_has_device_In in Eg.
    constructor; try assumption.
    intros n eid Hn Hu; apply in_app_or in Hn; destruct Hn as [Hn | [<- | []]].
    - apply (Hcov n eid); assumption.
    - destruct Hu as [_ [_ He]]; rewrite Ee in He; inversion He; subst; exact Eg. }
  assert (Hnew : ~ In (ctx_gxf_entity_group_name ctx op_eid) (groups_with_device st)).
  { intros Hin; apply group_has_device_In in Hin; rewrite Hin in Eg; discriminate Eg. }
  assert (Hnodup' : NoDup (groups_with_device st ++ [ctx_gxf_entity_group_name ctx op_eid])).
  { apply NoDup_app; [exact Hnodup | repeat constructor; intros [] | ].
    intros x Hx [<- | []]; exact (Hnew Hx). }
  assert (Hcov' : forall n eid, In n (seen ++ [node]) -> ucx_operator ctx ex n eid ->
                    In (ctx_gxf_entity_group_name ctx eid)
                       (groups_with_device st ++ [ctx_gxf_entity_group_name ctx op_eid])).
  { intros n eid Hn Hu; apply in_or_app.
    apply in_app_or in Hn; destruct Hn as [Hn | [<- | []]].
    - left; apply (Hcov n eid); assumption.
    - right; left; destruct Hu as [_ [_ He]]; rewrite Ee in He; inversion He; reflexivity. }
  destruct (ctx_gxf_device_id ctx (generated_devices st) op_eid) as [dev|].
  - constructor; cbn [generated_device_entity_count groups_with_device generated_devices];
      try assumption.
    intros d Hd; apply in_or_app; left; apply Hgroups; exact Hd.
  - constructor; cbn [generated_device_entity_count groups_with_device generated_devices].
    + rewrite length_app, Hcount; cbn [List.length]; lia.
    + intros i d Hi.
      destruct (Nat.lt_ge_cases i (List.length (generated_devices st))) as [Hlt | Hge].
      * rewrite nth_error_app1 in Hi by exact Hlt; apply Hnames; exact Hi.
      * rewrite nth_error_app2 in Hi by exact Hge.
        destruct (i - List.length (generated_devices st)) as [|k] eqn:Ek;
          [|destruct k; discriminate Hi].
        inversion Hi; subst d; cbn [add_gpu_device_to_graph_entity gpu_name].
        rewrite Hcount; replace i with (List.length (generated_devices st)) by lia.
        reflexivity.
    + intros d Hd; apply in_or_app; apply in_app_or in Hd.
      destruct Hd as [Hd | [<- | []]]; [left; apply Hgroups; exact Hd | right; left; reflexivity].
    + exact Hnodup'.
    + rewrite map_app; cbn [map add_gpu_device_to_graph_entity gpu_eid].
      apply NoDup_app; [exact Hone | repeat constructor; intros [] |].
      intros x Hx [<- | []]; apply Hnew.
      apply in_map_iff in Hx; destruct Hx as [d [Hdx Hd]]; rewrite <- Hdx.
      apply Hgroups; exact Hd.
    + intros d Hd; apply in_app_or in Hd; destruct Hd as [Hd | [<- | []]].
      * apply Hfrom'; exact Hd.
      * exists node; split; [apply in_or_app; right; left; reflexivity | exact Hnode].
    + exact Hcov'.
Qed.

Lemma device_inv_fold (l : list NodeType) :
  forall (seen : list NodeType) (st : DeviceLoop),
    device_inv ctx ex seen st ->
    device_inv ctx ex (seen ++ l) (fold_left (add_ucx_device ctx ex) l st).
Proof.
  induction l as [|node l IH]; intros seen st Hinv; cbn [fold_left].
  - rewrite app_nil_r; exact Hinv.
  - replace (seen ++ node :: l)%list with ((seen ++ [node]) ++ l)%list
      by (rewrite <- app_assoc; reflexivity).
    apply IH, device_inv_step, Hinv.
Qed.

Lemma device_inv_end :
  device_inv ctx ex (get_nodes (graph (fragment_ ex))) (add_ucx_devices ctx ex).
Proof.
  unfold add_ucx_devices.
  apply (device_inv_fold (get_nodes (graph (fragment_ ex))) nil).
  constructor; cbn [generated_device_entity_count groups_with_device generated_devices].
  - reflexivity.
  - intros [|i] d H; discriminate H.
  - intros d [].
  - constructor.
  - constructor.
  - intros d [].
  - intros node eid [].
Qed.

End UcxDevices.

(** X20.  The loop of [initialize_gxf_graph] that gives a GPU device to the
    operators with a UCX port creates at most one device per entity
    group, each on the entity of an operator of the graph that is not
    virtual and has a UCX port; it numbers the devices from 0 in their
    names, so that the names differ from each other and from the name of
    the device of the network context; and when it has ended, the entity
    group of every such operator with a graph entity is recorded as
    having a device. *)
Theorem generated_gpu_devices_are_one_per_entity_group (ctx : GxfContext) (ex : Executor) :
  let st := add_ucx_devices ctx ex in
  let group d := ctx_gxf_entity_group_name ctx (gpu_eid d) in
  NoDup (map group (generated_devices st))
  /\ (forall d, In d (generated_devices st) ->
        In (group d) (groups_with_device st)
        /\ exists node, In node (get_nodes (graph (fragment_ ex)))
                        /\ ucx_operator ctx ex node (gpu_eid d))
  /\ (forall i d, nth_error (generated_devices st) i = Some d ->
        gpu_name d = network_device_name ex ++ string_of_nat i)
  /\ NoDup (network_device_name ex :: map gpu_name (generated_devices st))
  /\ (forall node eid, In node (get_nodes (graph (fragment_ ex))) ->
        ucx_operator ctx ex node eid ->
        In (ctx_gxf_entity_group_name ctx eid) (groups_with_device st)).
Proof.
  intros st group.
  destruct (device_inv_end ctx ex) as [Hcount Hnames Hgroups Hnodup Hone Hfrom Hcov].
  fold st in Hcount, Hnames, Hgroups, Hnodup, Hone, Hfrom, Hcov.
  assert (Hname : forall i d, nth_error (generated_devices st) i = Some d ->
                    gpu_name d = network_device_name ex ++ string_of_nat i).
  { intros i d Hi; rewrite (Hnames i d Hi); unfold network_device_name.
    symmetry; apply string_app_assoc. }
  split; [exact Hone|]; split; [|split; [exact Hname|split; [|exact Hcov]]].
  - intros d Hd; split; [apply Hgroups; exact Hd | apply Hfrom; exact Hd].
  - constructor.
    + intros Hin; apply in_map_iff in Hin; destruct Hin as [d [Hd Hin]].
      apply In_nth_error in Hin; destruct Hin as [i Hi].
      rewrite (Hname i d Hi) in Hd.
      apply (append_not_self (network_device_name ex) (string_of_nat i)); [|exact Hd].
      intros He; assert (H0 : string_of_nat i = string_of_nat i) by reflexivity.
      revert He; clear; unfold string_of_nat, string_of_Z.
      destruct (Z.to_int (Z.of_nat i)) as [u | u]; cbn; [|discriminate].
      destruct u; cbn; discriminate.
    + apply (proj2 (NoDup_nth_error _)); intros i j Hi Hij.
      rewrite length_map in Hi.
      rewrite !nth_error_map in Hij.
      destruct (nth_error (generated_devices st) i) as [di|] eqn:Edi;
        [|apply nth_error_None in Edi; lia].
      destruct (nth_error (generated_devices st) j) as [dj|] eqn:Edj; [|discriminate Hij].
      cbn [option_map] in Hij; inversion Hij as [Heq].
      rewrite (Hname i di Edi), (Hname j dj Edj) in Heq.
      apply append_inj_l in Heq; apply string_of_nat_inj in Heq; exact Heq.
Qed.

(** ** Multi-message conditions that name a missing port *)

Section MultiPortConditions.

Variable env : Environment.

(** [created_multi_port_conditions] is the loop of
    [add_multi_port_conditions]. *)
Lemma add_multi_port_conditions_created (op_nm : string) (ins : list (string * IOSpec)) :
  forall (infos : list (ConditionType * list string)) (i : nat),
    add_multi_port_conditions env ins infos
    = (_ <- created_multi_port_conditions env op_nm ins infos i ;; Ok tt).
Proof.
  induction infos as [|[kind port_names] rest IH]; intros i;
    cbn [add_multi_port_conditions created_multi_port_conditions]; [reflexivity|].
  destruct (forallb _ port_names); [|reflexivity].
  destruct kind; cbn [bind]; try reflexivity;
    rewrite (IH (S i)); destruct (created_multi_port_conditions env op_nm ins rest (S i));
    reflexivity.
Qed.

Lemma created_multi_port_conditions_dropped (op_nm : string) (ins : list (string * IOSpec))
  (kind : ConditionType) (port_names : list string) (missing : string)
  (later : list (ConditionType * list string)) :
  In missing port_names -> lookup missing ins = None ->
  forall (earlier : list (ConditionType * list string)) (i : nat),
    (forall k ns, In (k, ns) earlier ->
       (k = kMultiMessageAvailable \/ k = kMultiMessageAvailableTimeout)
       /\ forall n, In n ns -> lookup n ins <> None) ->
    exists names,
      created_multi_port_conditions env op_nm ins (earlier ++ (kind, port_names) :: later) i
      = Ok names
      /\ List.length names = List.length earlier.
Proof.
  intros Hin Hmiss; induction earlier as [|[k ns] earlier IH]; intros i Hbefore;
    cbn [app created_multi_port_conditions].
  - assert (E : forallb (fun n => match lookup n ins with Some _ => true | None => false end)
                  port_names = false).
    { apply not_true_is_false; intros Hall.
      rewrite forallb_forall in Hall; specialize (Hall missing Hin).
      rewrite Hmiss in Hall; discriminate Hall. }
    rewrite E; exists nil; split; reflexivity.
  - destruct (Hbefore k ns (or_introl eq_refl)) as [Hk Hns].
    assert (E : forallb (fun n => match lookup n ins with Some _ => true | None => false end)
                  ns = true).
    { apply forallb_forall; intros n Hn; specialize (Hns n Hn).
      destruct (lookup n ins); [reflexivity | contradiction Hns; reflexivity]. }
    rewrite E.
    destruct (IH (S i)) as [names [Hnames Hlen]].
    { intros k' ns' H'; apply Hbefore; right; exact H'. }
    destruct Hk as [-> | ->]; cbn [bind]; rewrite Hnames; cbn [bind];
      eexists; (split; [reflexivity | cbn [List.length]; rewrite Hlen; reflexivity]).
Qed.

Lemma create_receiver_keeps (io io' : IOSpec) (q : Z) :
  create_receiver env io q = Ok io' ->
  io_name io' = io_name io /\ conditions io' = conditions io.
Proof.
  unfold create_receiver; intros H.
  destruct (has_component _); [inversion H; split; reflexivity|].
  apply bind_Ok in H; destruct H as [rx [_ H]]; inversion H; split; reflexivity.
Qed.

(** An input port that a multi-message condition names gets no default
    condition. *)
Lemma create_input_port_no_default (f : Fragment) (op : Operator) (io io' : IOSpec) :
  create_input_port env f io false op = Ok io' ->
  conditions io = nil ->
  port_has_multi_port_condition op (io_name io) = true ->
  conditions io' = nil.
Proof.
  unfold create_input_port; intros H Hnil Hmulti.
  apply bind_Ok in H; destruct H as [resolved [_ H]].
  destruct resolved as [q|]; [|inversion H; subst; exact Hnil].
  destruct (q <? 1); [discriminate|].
  apply bind_Ok in H; destruct H as [io1 [H1 H]].
  destruct (create_receiver_keeps _ _ _ H1) as [Hname Hconds].
  unfold default_input_condition in H; rewrite Hconds, Hnil, Hname, Hmulti in H.
  cbn [negb andb] in H; rewrite Hconds, Hnil in H.
  cbn [initialize_input_conditions bind] in H; inversion H; reflexivity.
Qed.

End MultiPortConditions.

(** X21.  A multi-message condition that names an input port the operator does
    not have is not created, and neither is any multi-message condition
    that follows it; the initialization of the operator does not fail for
    it.  The input ports that the multi-message conditions of the operator
    name, those of the conditions that were not created too, get no
    default condition: such a port without a condition of its own is
    without any condition when the operator is initialized. *)
Theorem dropped_multi_port_conditions_leave_ports_without_condition (env : Environment)
  (ids : ExecutorIds) (f : Fragment) (cid : positive) (op op' : Operator)
  (earlier later : list (ConditionType * list string))
  (kind : ConditionType) (port_names : list string) (missing : string) :
  is_initialized_ op = false ->
  op_eid_ ids = 0 ->
  multi_port_conditions op = (earlier ++ (kind, port_names) :: later)%list ->
  (forall k ns, In (k, ns) earlier ->
     (k = kMultiMessageAvailable \/ k = kMultiMessageAvailableTimeout)
     /\ forall n, In n ns -> lookup n (inputs op) <> None) ->
  In missing port_names -> lookup missing (inputs op) = None ->
  initialize_operator env ids f cid op = Ok op' ->
  (exists names,
      created_multi_port_conditions env (op_name op) (inputs op') (multi_port_conditions op) 0
      = Ok names
      /\ List.length names = List.length earlier)
  /\ (forall k ns n io,
        In (k, ns) (multi_port_conditions op) -> In n ns ->
        lookup n (inputs op) = Some io -> io_name io = n -> conditions io = nil ->
        exists io', lookup n (inputs op') = Some io' /\ conditions io' = nil).
Proof.
  intros Hinit Heid Hinfos Hbefore Hin Hmiss H.
  unfold initialize_operator in H; rewrite Hinit, Heid in H.
  cbn [Z.eqb negb] in H.
  apply bind_Ok in H; destruct H as [ins [Hins H]].
  apply bind_Ok in H; destruct H as [outs [Houts H]].
  apply bind_Ok in H; destruct H as [u1 [_ H]].
  apply bind_Ok in H; destruct H as [u2 [_ H]].
  inversion H; subst op'; clear H.
  set (op1 := if MetadataPolicy_eqb _ _ then _ else _) in *.
  assert (Hop1 : inputs op1 = inputs op /\ multi_port_conditions op1 = multi_port_conditions op
                 /\ op_name op1 = op_name op).
  { unfold op1; destruct (MetadataPolicy_eqb _ _); repeat split; reflexivity. }
  destruct Hop1 as [Hi1 [Hm1 Hn1]].
  cbn [inputs set_is_initialized set_outputs set_inputs].
  rewrite Hi1 in Hins.
  assert (Hkeys : forall n, lookup n ins = None <-> lookup n (inputs op) = None).
  { intros n; destruct (lookup n (inputs op)) as [io|] eqn:E.
    - destruct (create_ports_lookup _ _ _ _ _ Hins E) as [io' [Hio' _]].
      rewrite Hio'; split; discriminate.
    - split; [reflexivity | intros _].
      destruct (create_ports_In _ _ _ Hins) as [Hnames _].
      destruct (lookup n ins) as [io'|] eqn:E'; [|reflexivity].
      exfalso; apply lookup_In in E'.
      assert (Hk : In n (map fst (inputs op)))
        by (rewrite <- Hnames; apply in_map_iff; exists (n, io'); split; [reflexivity | exact E']).
      clear - Hk E; induction (inputs op) as [|[k v] l IH]; [destruct Hk|].
      cbn [lookup] in E; destruct (String.eqb n k) eqn:Ek; [discriminate|].
      destruct Hk as [Hk | Hk]; [cbn in Hk; subst k; rewrite String.eqb_refl in Ek; discriminate|].
      apply IH; assumption. }
  split.
  - rewrite Hinfos.
    apply (created_multi_port_conditions_dropped env (op_name op) ins kind port_names missing later
             Hin (proj2 (Hkeys missing) Hmiss) earlier 0%nat).
    intros k ns Hk; destruct (Hbefore k ns Hk) as [Hkind Hns]; split; [exact Hkind|].
    intros n Hn Hnone; apply (Hns n Hn), Hkeys, Hnone.
  - intros k ns n io Hk Hn Hio Hname Hnil.
    destruct (create_ports_lookup _ _ _ _ _ Hins Hio) as [io' [Hio' Hcreate]].
    exists io'; split; [exact Hio'|].
    apply (create_input_port_no_default env f op1 io io' Hcreate Hnil).
    unfold port_has_multi_port_condition; rewrite Hm1.
    apply existsb_exists; exists (k, ns); split; [exact Hk|].
    cbn [snd]; rewrite Hname.
    unfold mem_string; apply existsb_exists; exists n; split;
      [exact Hn | apply String.eqb_refl].
Qed.

Lemma dropped_multi_port_conditions_leave_ports_without_condition_witness :
  exists op',
    initialize_operator Examples.env (mkExecutorIds 0 0)
      (Examples.single Examples.bad_multi_port) 1%positive Examples.bad_multi_port = Ok op'
    /\ (exists names,
           created_multi_port_conditions Examples.env "op" (inputs op')
             (multi_port_conditions Examples.bad_multi_port) 0 = Ok names
           /\ List.length names = 0%nat)
    /\ (forall k ns n io,
          In (k, ns) (multi_port_conditions Examples.bad_multi_port) -> In n ns ->
          lookup n (inputs Examples.bad_multi_port) = Some io -> io_name io = n ->
          conditions io = nil ->
          exists io', lookup n (inputs op') = Some io' /\ conditions io' = nil).
Proof.
  eexists; split; [vm_compute; reflexivity|].
  apply (dropped_multi_port_conditions_leave_ports_without_condition Examples.env
           (mkExecutorIds 0 0) (Examples.single Examples.bad_multi_port) 1%positive
           Examples.bad_multi_port _ nil [(kMultiMessageAvailable, ["b"])]
           kMultiMessageAvailable ["a"; "c"] "c");
    try reflexivity.
  - intros k ns [].
  - right; left; reflexivity.
Defined.

(** ** Fragment::add_flow keeps the fragment well formed *)

Section AddFlowWellFormed.

Variable env : Environment.

Lemma mem_string_In (x : string) (l : list string) : mem_string x l = true <-> In x l.
Proof.
  unfold mem_string; rewrite existsb_exists; split.
  - intros [y [Hin Hy]]; apply String.eqb_eq in Hy; subst; exact Hin.
  - intros H; exists x; split; [exact H | apply String.eqb_refl].
Qed.

Lemma NoDup_insert_string (x : string) (s : list string) :
  NoDup s -> NoDup (insert_string x s).
Proof.
  intros H; unfold insert_string; destruct (mem_string x s) eqn:E; [exact H|].
  apply NoDup_app; [exact H | repeat constructor; intros [] |].
  intros y Hy [<- | []]; apply mem_string_In in Hy; rewrite Hy in E; discriminate E.
Qed.

Lemma NoDup_insert_strings (l : list string) :
  forall s, NoDup s -> NoDup (fold_left (fun acc t => insert_string t acc) l s).
Proof.
  induction l as [|x l IH]; intros s H; cbn [fold_left]; [exact H|].
  apply IH, NoDup_insert_string, H.
Qed.

Lemma map_fst_update {A : Type} (k : string) (v : A) (m : list (string * A)) :
  map fst (update k v m) = map fst m.
Proof.
  induction m as [|[k' v'] m IH]; cbn [update map]; [reflexivity|].
  destruct (String.eqb k k'); cbn [map fst]; [reflexivity | rewrite IH; reflexivity].
Qed.

Lemma lookup_None_keys {A : Type} (k : string) (m : list (string * A)) :
  lookup k m = None <-> ~ In k (map fst m).
Proof.
  induction m as [|[k' v'] m IH]; cbn [lookup map fst]; [split; [intros _ [] | reflexivity]|].
  destruct (String.eqb k k') eqn:E.
  - apply String.eqb_eq in E; subst k'; split; [discriminate|].
    intros H; contradiction H; left; reflexivity.
  - apply String.eqb_neq in E; rewrite IH; split.
    + intros H [H1 | H1]; [apply E; symmetry; exact H1 | exact (H H1)].
    + intros H H1; apply H; right; exact H1.
Qed.

Lemma wf_port_map_update (k : string) (s : list string) (pm : PortMap) :
  wf_port_map pm -> NoDup s -> wf_port_map (update k s pm).
Proof.
  intros [Hkeys Hsets] Hs; split; [rewrite map_fst_update; exact Hkeys|].
  apply Forall_forall; intros [p x] Hin.
  destruct (In_update _ _ _ _ _ Hin) as [H | H]; cbn [snd].
  - rewrite Forall_forall in Hsets; apply (Hsets (p, x) H).
  - subst x; exact Hs.
Qed.

Lemma wf_port_map_add (k : string) (s : list string) (pm : PortMap) :
  wf_port_map pm -> lookup k pm = None -> NoDup s -> wf_port_map (pm ++ [(k, s)])%list.
Proof.
  intros [Hkeys Hsets] Hk Hs; split.
  - rewrite map_app; cbn [map fst].
    apply NoDup_app; [exact Hkeys | repeat constructor; intros [] |].
    intros y Hy [<- | []]; apply lookup_None_keys in Hk; exact (Hk Hy).
  - apply Forall_app; split; [exact Hsets | repeat constructor; exact Hs].
Qed.

Lemma wf_port_map_lookup (k : string) (s : list string) (pm : PortMap) :
  wf_port_map pm -> lookup k pm = Some s -> NoDup s.
Proof.
  intros [_ Hsets] Hk; rewrite Forall_forall in Hsets.
  apply (Hsets (k, s)), lookup_In, Hk.
Qed.

Lemma wf_port_map_nil : wf_port_map nil.
Proof. split; constructor. Qed.

(** The union of two port maps is a port map. *)
Lemma wf_merge_port_map (new : PortMap) :
  forall old, wf_port_map old -> wf_port_map new -> wf_port_map (merge_port_map old new).
Proof.
  induction new as [|[key targets] rest IH]; intros old Hold Hnew; cbn [merge_port_map];
    [exact Hold|].
  destruct Hnew as [Hkeys Hsets].
  inversion Hkeys as [|? ? _ Hkeys']; inversion Hsets as [|? ? Htargets Hsets']; subst.
  cbn [snd] in Htargets.
  apply IH; [|split; assumption].
  destruct (lookup key old) as [s|] eqn:E.
  - apply wf_port_map_update; [exact Hold|].
    apply NoDup_insert_strings, (wf_port_map_lookup key s old Hold E).
  - apply wf_port_map_add; assumption.
Qed.

(** "Convert port pairs to port map": the result is a map to sets, and
    [output_labels] are its keys. *)
Lemma to_port_map_wf (port_pairs : list (string * string)) :
  forall (port_map : PortMap) (output_labels : list string),
    wf_port_map port_map -> output_labels = map fst port_map ->
    wf_port_map (fst (to_port_map port_pairs port_map output_labels))
    /\ snd (to_port_map port_pairs port_map output_labels)
       = map fst (fst (to_port_map port_pairs port_map output_labels)).
Proof.
  induction port_pairs as [|[key value] rest IH]; intros pm labels Hwf Hlabels;
    cbn [to_port_map]; [split; [exact Hwf | exact Hlabels]|].
  destruct (lookup key pm) as [s|] eqn:E.
  - apply IH; [|rewrite map_fst_update; exact Hlabels].
    apply wf_port_map_update; [exact Hwf|].
    apply NoDup_insert_string, (wf_port_map_lookup key s pm Hwf E).
  - apply IH; [|rewrite map_app, Hlabels; reflexivity].
    apply wf_port_map_add; [exact Hwf | exact E | repeat constructor; intros []].
Qed.

(** The first loop over the output labels keeps a map to sets. *)
Lemma check_output_labels_wf (upstream_op : Operator) (all_labels : list string)
  (port_map : PortMap) :
  wf_port_map port_map -> all_labels = map fst port_map ->
  forall (labels : list string) (port_map' : PortMap) (labels' : list string),
    incl labels all_labels ->
    check_output_labels upstream_op all_labels labels port_map = inr (port_map', labels') ->
    wf_port_map port_map'.
Proof.
  intros Hwf Hall; induction labels as [|l labels IH]; intros pm' labels' Hincl H;
    cbn [check_output_labels] in H; [inversion H; subst; exact Hwf|].
  destruct (lookup l (outputs upstream_op)) eqn:El.
  { apply (IH pm' labels'); [|exact H].
    intros x Hx; apply Hincl; right; exact Hx. }
  destruct (outputs upstream_op) as [|[first io] [|]]; [discriminate | | discriminate].
  destruct all_labels as [|l0 [|]]; try discriminate.
  destruct (String.eqb l "") eqn:E; [|discriminate].
  apply String.eqb_eq in E; subst l.
  inversion H; subst; clear H.
  assert (Hl0 : l0 = "").
  { destruct (Hincl "" (or_introl eq_refl)) as [H | []]; exact H. }
  subst l0.
  destruct port_map as [|[k s] [|]]; try discriminate.
  cbn [map fst] in Hall; inversion Hall; subst k.
  cbn [erase lookup]; rewrite String.eqb_refl; cbn [app].
  destruct Hwf as [_ Hsets]; inversion Hsets; subst.
  split; [repeat constructor; intros [] | repeat constructor; assumption].
Qed.

(** The second loop over the output labels keeps a map to sets. *)
Lemma map_output_labels_wf (v : NodeType) (labels : list string) :
  forall (f f' : Fragment) (port_map port_map' : PortMap),
    wf_port_map port_map ->
    map_output_labels env v labels f port_map = (f', inr port_map') ->
    wf_port_map port_map'.
Proof.
  induction labels as [|l labels IH]; intros f f' pm pm' Hwf H; cbn [map_output_labels] in H;
    [inversion H; subst; exact Hwf|].
  destruct (_ && _); [discriminate|].
  destruct (map_input_labels env v _ _ f nil) as [f1 [err | new_input_labels]];
    [discriminate|].
  refine (IH f1 f' _ pm' _ H).
  apply wf_port_map_update; [exact Hwf|].
  apply NoDup_insert_strings; constructor.
Qed.

Lemma NoDup_add_node (g : FlowGraph) (n : NodeType) :
  NoDup (ordered_nodes g) -> NoDup (ordered_nodes (add_node g n)).
Proof.
  intros H; unfold add_node; destruct (mem_node n (ordered_nodes g)) eqn:E; [exact H|].
  cbn [ordered_nodes]; apply NoDup_app; [exact H | repeat constructor; intros [] |].
  intros y Hy [<- | []]; apply mem_node_In in Hy; rewrite Hy in E; discriminate E.
Qed.

Lemma In_add_node (g : FlowGraph) (n m : NodeType) :
  In m (ordered_nodes (add_node g n)) <-> In m (ordered_nodes g) \/ m = n.
Proof.
  unfold add_node; destruct (mem_node n (ordered_nodes g)) eqn:E; cbn [ordered_nodes].
  - apply mem_node_In in E; split; [left; assumption | intros [H | ->]; assumption].
  - rewrite in_app_iff; cbn [In]; intuition.
Qed.

(** [FlowGraph::add_flow] keeps the fragment well formed. *)
Lemma graph_add_flow_wf (f : Fragment) (u v : NodeType) (port_map : PortMap) :
  wf_fragment f -> wf_port_map port_map -> wf_fragment (graph_add_flow f u v port_map).
Proof.
  intros [Hnodes Hsucc Hend Hmaps] Hpm.
  assert (Hn : NoDup (ordered_nodes (add_node (add_node (graph f) u) v)))
    by (apply NoDup_add_node, NoDup_add_node, Hnodes).
  assert (Hu : In u (ordered_nodes (add_node (add_node (graph f) u) v)))
    by (apply In_add_node; left; apply In_add_node; right; reflexivity).
  assert (Hv : In v (ordered_nodes (add_node (add_node (graph f) u) v)))
    by (apply In_add_node; right; reflexivity).
  assert (Hold : forall a b, In (a, b) (succ_ (graph f)) ->
                   In a (ordered_nodes (add_node (add_node (graph f) u) v))
                   /\ In b (ordered_nodes (add_node (add_node (graph f) u) v))).
  { intros a b Hab; destruct (Hend a b Hab) as [Ha Hb].
    split; apply In_add_node; left; apply In_add_node; left; assumption. }
  assert (Hother : forall a b, (a, b) <> (u, v) ->
                     forall pm, upd2 (edge_data f) u v pm a b = edge_data f a b).
  { intros a b Hne pm; unfold upd2.
    destruct (edge_eqb (a, b) (u, v)) eqn:E; [|reflexivity].
    apply edge_eqb_eq in E; contradiction. }
  assert (Hsame : forall pm, upd2 (edge_data f) u v pm u v = pm).
  { intros pm; unfold upd2.
    destruct (edge_eqb (u, v) (u, v)) eqn:E; [reflexivity|].
    assert (E' : edge_eqb (u, v) (u, v) = true) by (apply edge_eqb_eq; reflexivity).
    rewrite E' in E; discriminate E. }
  assert (Hdec : forall a b : NodeType, (a, b) = (u, v) \/ (a, b) <> (u, v)).
  { intros a b; destruct (Nat.eq_dec a u) as [-> | Ha]; [|right; congruence].
    destruct (Nat.eq_dec b v) as [-> | Hb]; [left; reflexivity | right; congruence]. }
  unfold graph_add_flow.
  destruct (has_edge (add_node (add_node (graph f) u) v) u v) eqn:E.
  - apply has_edge_In in E; rewrite !succ_add_node in E.
    constructor; cbn [graph ordered_nodes succ_ edge_data]; rewrite ?succ_add_node.
    + exact Hn.
    + exact Hsucc.
    + exact Hold.
    + intros a b Hab; destruct (Hdec a b) as [Heq | Hne].
      * inversion Heq; subst; rewrite Hsame.
        apply wf_merge_port_map; [apply Hmaps; exact E | exact Hpm].
      * rewrite (Hother a b Hne); apply Hmaps; exact Hab.
  - assert (Hnew : ~ In (u, v) (succ_ (graph f))).
    { intros Hin; rewrite <- (succ_add_node (graph f) u) in Hin.
      rewrite <- (succ_add_node _ v) in Hin.
      apply has_edge_In in Hin; rewrite Hin in E; discriminate E. }
    constructor; cbn [graph ordered_nodes succ_ edge_data]; rewrite ?succ_add_node.
    + exact Hn.
    + apply NoDup_app; [exact Hsucc | repeat constructor; intros [] |].
      intros e He [<- | []]; exact (Hnew He).
    + intros a b Hab; apply in_app_or in Hab; destruct Hab as [Hab | [Hab | []]].
      * apply Hold; exact Hab.
      * inversion Hab; subst; split; assumption.
    + intros a b Hab; destruct (Hdec a b) as [Heq | Hne].
      * inversion Heq; subst; rewrite Hsame.
        apply wf_merge_port_map; [apply wf_port_map_nil | exact Hpm].
      * rewrite (Hother a b Hne); apply Hmaps.
        apply in_app_or in Hab; destruct Hab as [Hab | [Hab | []]];
          [exact Hab | congruence].
Qed.

Lemma wf_fragment_same_graph (f f' : Fragment) :
  graph f' = graph f -> edge_data f' = edge_data f -> wf_fragment f -> wf_fragment f'.
Proof.
  intros Hg He [Hnodes Hsucc Hend Hmaps]; constructor; rewrite ?Hg, ?He; assumption.
Qed.

Lemma add_control_flow_graph (f : Fragment) (u v : NodeType) :
  graph (add_control_flow env f u v) = graph f
  /\ edge_data (add_control_flow env f u v) = edge_data f.
Proof.
  unfold add_control_flow.
  destruct (output_exec_spec (op_heap f u)); cbv zeta;
    match goal with |- context [input_exec_spec ?x] => destruct (input_exec_spec x) end;
    split; reflexivity.
Qed.

Lemma add_flow_mapped_wf (f : Fragment) (u v : NodeType)
  (port_pairs : list (string * string)) :
  wf_fragment f -> wf_fragment (fst (add_flow_mapped env f u v port_pairs)).
Proof.
  intros Hwf; unfold add_flow_mapped.
  destruct (to_port_map_wf port_pairs nil nil wf_port_map_nil eq_refl) as [Hpm Hlabels].
  destruct (to_port_map port_pairs nil nil) as [pm labels]; cbn [fst snd] in Hpm, Hlabels.
  destruct (_ && _); [exact Hwf|].
  destruct (check_output_labels (op_heap f u) labels labels pm) as [err | [pm1 labels1]] eqn:Ec;
    [exact Hwf|].
  assert (Hpm1 : wf_port_map pm1).
  { apply (check_output_labels_wf (op_heap f u) labels pm Hpm Hlabels labels pm1 labels1);
      [apply incl_refl | exact Ec]. }
  destruct (map_output_labels env v labels1 f pm1) as [f1 [err | pm2]] eqn:Em; cbn [fst].
  - destruct (map_output_labels_graph env v labels1 f pm1) as [Hg [He _]].
    rewrite Em in Hg, He; cbn [fst] in Hg, He.
    apply (wf_fragment_same_graph f f1 Hg He Hwf).
  - destruct (map_output_labels_graph env v labels1 f pm1) as [Hg [He _]].
    rewrite Em in Hg, He; cbn [fst] in Hg, He.
    apply graph_add_flow_wf;
      [apply (wf_fragment_same_graph f f1 Hg He Hwf)
      | apply (map_output_labels_wf v labels1 f f1 pm1 pm2 Hpm1 Em)].
Qed.

End AddFlowWellFormed.

(** X22.  [Fragment::add_flow] keeps the fragment well formed: whatever the
    operators and the port pairs, and whether the flow is accepted or
    rejected, the graph still has every node and every edge once, the
    edges join nodes of the graph, and the port map of every edge maps
    distinct source ports to sets of target ports. *)
Theorem add_flow_keeps_the_fragment_well_formed (env : Environment) (f : Fragment)
  (u v : NodeType) (port_pairs : list (string * string)) :
  wf_fragment f ->
  exists f' log,
    add_flow env f u v port_pairs = Ok (f', log) /\ wf_fragment f'.
Proof.
  intros Hwf.
  assert (Hmapped : forall pairs, exists f' log,
             Ok (add_flow_mapped env f u v pairs) = Ok (f', log) /\ wf_fragment f').
  { intros pairs; pose proof (add_flow_mapped_wf env f u v pairs Hwf) as H.
    destruct (add_flow_mapped env f u v pairs) as [f' log]; exists f', log.
    split; [reflexivity | exact H]. }
  unfold add_flow; destruct port_pairs as [|p rest]; [|apply Hmapped].
  destruct (_ || _).
  - destruct (_ || _); [eexists _, _; split; [reflexivity | exact Hwf]|].
    eexists _, _; split; [reflexivity|].
    destruct (add_control_flow_graph env
                (graph_add_flow f u v [(env_kOutputExecPortName env,
                                        [env_kInputExecPortName env])]) u v) as [Hg He].
    apply (wf_fragment_same_graph _ _ Hg He).
    apply graph_add_flow_wf; [exact Hwf|].
    split; repeat constructor; intros H; destruct H.
  - destruct (1 <? _); [eexists _, _; split; [reflexivity | exact Hwf]|].
    destruct (1 <? _); [eexists _, _; split; [reflexivity | exact Hwf]|].
    apply Hmapped.
Qed.

Lemma add_flow_keeps_the_fragment_well_formed_witness :
  exists f' log,
    add_flow Examples.env Examples.fan_in 0%nat 2%nat [("out", "in"); ("out", "in")]
    = Ok (f', log)
    /\ wf_fragment f'.
Proof.
  apply (add_flow_keeps_the_fragment_well_formed Examples.env Examples.fan_in 0%nat 2%nat
           [("out", "in"); ("out", "in")]).
  exact wf_fan_in.
Defined.

(** ** initialize_fragment with connections to other fragments *)

Section LoweringGrows.

Variable env : Environment.












End LoweringGrows.





(** ** Broadcast entities in the plan (C1) *)

Lemma lookup_erase_other {A : Type} (k q : string) (m : list (string * A)) :
  k <> q -> lookup k (erase q m) = lookup k m.
Proof.
  intros Hne; induction m as [|[k' v] m IH]; cbn [erase lookup]; [reflexivity|].
  destruct (String.eqb q k') eqn:Eq.
  - apply String.eqb_eq in Eq; subst k'.
    rewrite (proj2 (String.eqb_neq k q) Hne); exact IH.
  - cbn [lookup]; destruct (String.eqb k k'); [reflexivity | exact IH].
Qed.

Lemma lookup_erase_same {A : Type} (k : string) (m : list (string * A)) :
  lookup k (erase k m) = None.
Proof.
  induction m as [|[k' v] m IH]; cbn [erase lookup]; [reflexivity|].
  destruct (String.eqb k k') eqn:E; [exact IH|].
  cbn [lookup]; rewrite E; exact IH.
Qed.

Lemma foldM_app {A S : Type} (f : S -> A -> outcome S) (l1 l2 : list A) :
  forall x, foldM f (l1 ++ l2)%list x = bind (foldM f l1 x) (foldM f l2).
Proof.
  induction l1 as [|a l1 IH]; intros x; cbn [app foldM bind]; [reflexivity|].
  destruct (f x a); cbn [bind]; auto.
Qed.

Lemma foldM_relation_In {A S : Type} (R : S -> S -> Prop) (f : S -> A -> outcome S) :
  (forall x, R x x) ->
  (forall x y z, R x y -> R y z -> R x z) ->
  forall l : list A,
    (forall x a x', In a l -> f x a = Ok x' -> R x x') ->
    forall x x', foldM f l x = Ok x' -> R x x'.
Proof.
  intros Hrefl Htrans l; induction l as [|a l IH]; intros Hstep x x' H; cbn [foldM] in H.
  - inversion H; subst; apply Hrefl.
  - apply bind_Ok in H; destruct H as [x1 [H1 H2]].
    apply (Htrans _ x1); [apply (Hstep x a x1); [left; reflexivity | exact H1]|].
    apply IH; [|exact H2].
    intros y b y' Hb; apply Hstep; right; exact Hb.
Qed.

Lemma foldM_invariant_In {A S : Type} (P : S -> Prop) (f : S -> A -> outcome S) :
  forall l : list A,
    (forall x a x', In a l -> P x -> f x a = Ok x' -> P x') ->
    forall x x', P x -> foldM f l x = Ok x' -> P x'.
Proof.
  induction l as [|a l IH]; intros Hstep x x' Hx H; cbn [foldM] in H.
  - inversion H; subst; exact Hx.
  - apply bind_Ok in H; destruct H as [x1 [H1 H2]].
    apply (IH (fun y b y' Hb => Hstep y b y' (or_intror Hb)) x1 x');
      [|exact H2].
    apply (Hstep x a x1); [left; reflexivity | exact Hx | exact H1].
Qed.

Lemma visit_in_order_app (env : Environment) (l1 l2 : list NodeType) :
  forall (ex : Executor) (visited : list NodeType),
    visit_in_order env ex visited (l1 ++ l2)%list
    = bind (visit_in_order env ex visited l1)
           (fun ex1 => visit_in_order env ex1 (rev l1 ++ visited)%list l2).
Proof.
  induction l1 as [|n l1 IH]; intros ex visited; cbn [app visit_in_order bind rev];
    [reflexivity|].
  destruct (visit_operator env ex (n :: visited) n) as [ex1| | | |]; cbn [bind];
    try reflexivity.
  rewrite IH, <- app_assoc; reflexivity.
Qed.

(** ** The broadcast entities of a source port *)

Lemma key_eqb_false (a b : NodeType * string) : key_eqb a b = false <-> a <> b.
Proof.
  rewrite <- key_eqb_eq; destruct (key_eqb a b); split; congruence.
Qed.

Lemma entities_at_add_other (b : BroadcastEntityMapType) (key key' : NodeType * string)
  (t : BroadcastTransmitter) :
  key' <> key ->
  entities_at (add_broadcast_transmitter b key' t) key = entities_at b key.
Proof.
  intros Hne; unfold entities_at, add_broadcast_transmitter.
  induction b as [|e b IH]; [reflexivity|]; cbn [map filter].
  destruct (key_eqb (fst e) key') eqn:E1; cbn [fst].
  - apply key_eqb_eq in E1.
    assert (E2 : key_eqb (fst e) key = false) by (apply key_eqb_false; congruence).
    rewrite E2; exact IH.
  - destruct (key_eqb (fst e) key); cbn [map]; rewrite IH; reflexivity.
Qed.

Lemma entities_at_add_same (b : BroadcastEntityMapType) (key : NodeType * string)
  (t : BroadcastTransmitter) :
  entities_at (add_broadcast_transmitter b key t) key
  = map (fun be => add_transmitter be t) (entities_at b key).
Proof.
  unfold entities_at, add_broadcast_transmitter.
  induction b as [|e b IH]; [reflexivity|]; cbn [map filter].
  destruct (key_eqb (fst e) key) eqn:E1; cbn [fst]; rewrite E1; [|exact IH].
  cbn [map snd]; rewrite IH; reflexivity.
Qed.

Lemma entities_at_adds_other (key key' : NodeType * string) (txs : list BroadcastTransmitter) :
  key' <> key ->
  forall b, entities_at (fold_left (fun b t => add_broadcast_transmitter b key' t) txs b) key
            = entities_at b key.
Proof.
  intros Hne; induction txs as [|t txs IH]; intros b; cbn [fold_left]; [reflexivity|].
  rewrite IH; apply entities_at_add_other; exact Hne.
Qed.

Lemma entities_at_adds_same (key : NodeType * string) (txs : list BroadcastTransmitter) :
  forall b, entities_at (fold_left (fun b t => add_broadcast_transmitter b key t) txs b) key
            = map (fun be => fold_left add_transmitter txs be) (entities_at b key).
Proof.
  induction txs as [|t txs IH]; intros b; cbn [fold_left].
  - rewrite map_id; reflexivity.
  - rewrite IH, entities_at_add_same, map_map; reflexivity.
Qed.

Lemma entities_at_create_same (b : BroadcastEntityMapType) (key : NodeType * string)
  (be : BroadcastEntity) :
  entities_at (filter (fun e => negb (key_eqb (fst e) key)) b ++ [(key, be)])%list key
  = [be].
Proof.
  unfold entities_at; rewrite filter_app, map_app.
  assert (E : filter (fun e : NodeType * string * BroadcastEntity => key_eqb (fst e) key)
                (filter (fun e => negb (key_eqb (fst e) key)) b) = nil).
  { induction b as [|e b IH]; [reflexivity|]; cbn [filter].
    destruct (key_eqb (fst e) key) eqn:E1; cbn [negb filter]; [exact IH|].
    rewrite E1; exact IH. }
  rewrite E; cbn [filter fst map snd app].
  rewrite (proj2 (key_eqb_eq key key) eq_refl); reflexivity.
Qed.

Lemma entities_at_create_other (b : BroadcastEntityMapType) (key key' : NodeType * string)
  (be : BroadcastEntity) :
  key' <> key ->
  entities_at (filter (fun e => negb (key_eqb (fst e) key')) b ++ [(key', be)])%list key
  = entities_at b key.
Proof.
  intros Hne; unfold entities_at; rewrite filter_app, map_app.
  cbn [filter fst]; rewrite (proj2 (key_eqb_false key' key) Hne); cbn [map app].
  rewrite app_nil_r; f_equal.
  induction b as [|e b IH]; [reflexivity|]; cbn [filter].
  destruct (key_eqb (fst e) key') eqn:E1; cbn [negb filter].
  - apply key_eqb_eq in E1.
    assert (E2 : key_eqb (fst e) key = false) by (apply key_eqb_false; congruence).
    rewrite E2; exact IH.
  - destruct (key_eqb (fst e) key); [rewrite IH|]; auto.
Qed.

Lemma entities_at_port (b : BroadcastEntityMapType) (u : NodeType) (s : string) :
  In s (broadcast_ports_of b u) <-> entities_at b (u, s) <> nil.
Proof.
  unfold broadcast_ports_of, entities_at; induction b as [|e b IH]; cbn [filter map].
  - split; [intros [] | intros H; contradiction H; reflexivity].
  - destruct e as [[n p] be]; cbn [fst snd].
    unfold key_eqb at 1; cbn [fst snd].
    destruct (Nat.eqb n u) eqn:En; cbn [andb map In].
    + destruct (String.eqb p s) eqn:Ep; cbn [map].
      * apply String.eqb_eq in Ep; split; [discriminate | left; exact Ep].
      * apply String.eqb_neq in Ep; rewrite <- IH; split; [intros [H | H]; tauto | auto].
    + exact IH.
Qed.

Lemma entities_at_has_broadcast (b : BroadcastEntityMapType) (u : NodeType) (s : string) :
  entities_at b (u, s) <> nil -> has_broadcast b u = true.
Proof.
  intros H; unfold has_broadcast, entities_at in *; apply existsb_exists.
  destruct (filter (fun e => key_eqb (fst e) (u, s)) b) as [|e l] eqn:E;
    [contradiction H; reflexivity|].
  assert (He : In e (filter (fun e => key_eqb (fst e) (u, s)) b))
    by (rewrite E; left; reflexivity).
  apply filter_In in He; destruct He as [Hin Hk].
  apply key_eqb_eq in Hk; exists e; split; [exact Hin|].
  rewrite Hk; apply Nat.eqb_refl.
Qed.

(** The source port of a single broadcast entity is listed once among the
    broadcast ports of its operator. *)
Lemma entities_at_split (b : BroadcastEntityMapType) (u : NodeType) (s : string)
  (be : BroadcastEntity) :
  entities_at b (u, s) = [be] ->
  exists q1 q2, broadcast_ports_of b u = (q1 ++ s :: q2)%list /\ ~ In s q1 /\ ~ In s q2.
Proof.
  revert be; induction b as [|e b IH]; intros be H; [discriminate|].
  destruct e as [[n p] be0].
  unfold entities_at in H; cbn [filter fst] in H.
  destruct (key_eqb (n, p) (u, s)) eqn:Ek.
  - apply key_eqb_eq in Ek; inversion Ek; subst n p.
    cbn [map snd] in H; inversion H as [[Hbe Hrest]].
    exists nil, (broadcast_ports_of b u); split; [|split; [intros []|]].
    + unfold broadcast_ports_of; cbn [filter fst]; rewrite Nat.eqb_refl; reflexivity.
    + intros Hc; apply entities_at_port in Hc; apply Hc; exact Hrest.
  - destruct (IH be H) as [q1 [q2 [Hq [H1 H2]]]].
    unfold broadcast_ports_of; cbn [filter fst].
    destruct (Nat.eqb n u) eqn:En.
    + exists (p :: q1), q2; cbn [map fst snd].
      fold (broadcast_ports_of b u); rewrite Hq; split; [reflexivity|]; split; [|exact H2].
      intros [Hc | Hc]; [|exact (H1 Hc)].
      apply Nat.eqb_eq in En; subst.
      apply key_eqb_false in Ek; contradiction Ek; reflexivity.
    + exists q1, q2; fold (broadcast_ports_of b u); auto.
Qed.

Section BroadcastSteps.

Variable env : Environment.
Variable u : NodeType.
Variable s : string.

Local Abbreviation P := (only_to_broadcast u s).
Local Abbreviation src := (cid_port u kOutput s).

Lemma only_to_broadcast_btx (n : nat) (t : Cid) : P (cid_btx n, t).
Proof. intros H; discriminate H. Qed.

Lemma only_to_broadcast_other (a b : Cid) : a <> src -> P (a, b).
Proof. intros Hne H; contradiction (Hne H). Qed.

Lemma keeps_refl (ex : Executor) : keeps u s ex ex.
Proof. split; [apply wiring_step_with_refl | split; reflexivity]. Qed.

Lemma keeps_trans (ex1 ex2 ex3 : Executor) :
  keeps u s ex1 ex2 -> keeps u s ex2 ex3 -> keeps u s ex1 ex3.
Proof.
  intros [W1 [E1 B1]] [W2 [E2 B2]]; split; [|split].
  - eapply wiring_step_with_trans; eassumption.
  - intros b; rewrite E2; apply E1.
  - rewrite B2; exact B1.
Qed.

Lemma keeps_connection (ex : Executor) (a b : Cid) :
  P (a, b) -> keeps u s ex (add_connection ex a b).
Proof.
  intros H; split; [apply wiring_step_with_connection; exact H | split; reflexivity].
Qed.

Lemma serves_mono (ex ex' : Executor) (io : IOSpec) (p : string) (tx : BroadcastTransmitter)
  (d : TargetPort) :
  the_op ex' (fst d) = the_op ex (fst d) ->
  (forall c, In c (connections_entity_ ex) -> In c (connections_entity_ ex')) ->
  serves ex io p tx d -> serves ex' io p tx d.
Proof.
  intros Hop Hc [H1 H2]; unfold serves; rewrite Hop; split; [|exact H2].
  intros Hv Hu; destruct (H1 Hv Hu) as [Hr [k [tc [Hn [Hg Hin]]]]].
  split; [exact Hr|]; exists k, tc; auto.
Qed.

Lemma wiring_step_with_In (Q : Cid * Cid -> Prop) (ex ex' : Executor) (c : Cid * Cid) :
  wiring_step_with Q ex ex' -> In c (connections_entity_ ex) -> In c (connections_entity_ ex').
Proof.
  intros [_ [_ [_ [added [E _]]]]] H; rewrite E; apply in_or_app; left; exact H.
Qed.

Lemma wiring_step_with_the_op (Q : Cid * Cid -> Prop) (ex ex' : Executor) (n : NodeType) :
  wiring_step_with Q ex ex' -> the_op ex' n = the_op ex n.
Proof. intros [_ [E _]]; unfold the_op; rewrite E; reflexivity. Qed.

Lemma serves_step (Q : Cid * Cid -> Prop) (ex ex' : Executor) (io : IOSpec) (p : string)
  (tx : BroadcastTransmitter) (d : TargetPort) :
  wiring_step_with Q ex ex' -> serves ex io p tx d -> serves ex' io p tx d.
Proof.
  intros W; apply serves_mono;
    [apply (wiring_step_with_the_op Q); exact W
    | intros c; apply (wiring_step_with_In Q); exact W].
Qed.

(** One call of the body of the loop over the target ports: one output is
    added to the entities of the source port, and it serves the target. *)
Lemma broadcast_to_target_adds (op_n prev_n : NodeType) (port_name : string)
  (ex ex' : Executor) (target_port : string) :
  broadcast_to_target env op_n prev_n port_name ex target_port = Ok ex' ->
  exists io t,
    lookup port_name (outputs (the_op ex prev_n)) = Some io
    /\ fragment_ ex' = fragment_ ex
    /\ wiring_step_with P ex ex'
    /\ broadcast_entities ex'
       = add_broadcast_transmitter (broadcast_entities ex) (prev_n, port_name) t
    /\ serves ex' io port_name t (op_n, target_port).
Proof.
  unfold broadcast_to_target; intros H.
  destruct (lookup port_name (outputs (the_op ex prev_n))) as [io|] eqn:Hio; [|discriminate].
  exists io.
  destruct (match connector_type io with
            | kDefault =>
                if OperatorType_eqb (operator_type (the_op ex op_n)) kVirtual
                then kUCX else kDoubleBuffer
            | t => t
            end) eqn:Et.
  - exfalso; destruct (connector_type io); try discriminate Et.
    destruct (OperatorType_eqb _ _); discriminate Et.
  - destruct (capacity_and_policy env DoubleBufferTransmitter (connector io)) as [c p] eqn:Ecp.
    apply bind_Ok in H; destruct H as [tc [Htc H]]; inversion H; subst ex'; clear H.
    eexists; split; [reflexivity|]; split; [reflexivity|]; split; [|split; [reflexivity|]].
    + eapply wiring_step_with_trans;
        [|apply wiring_step_with_connection, only_to_broadcast_btx].
      apply wiring_step_with_same; reflexivity.
    + unfold serves; cbn [fst snd]; split.
      * intros _ _; split.
        -- unfold transmitter_replicates; cbn; split; [reflexivity|]; split; [|split].
           ++ intros c0 Hc Hcls; unfold capacity_and_policy in Ecp; rewrite Hc, Hcls in Ecp.
              inversion Ecp; auto.
           ++ intros cond Hc; rewrite Hc; reflexivity.
           ++ intros Hc; rewrite Hc; reflexivity.
        -- exists (btx_count ex), tc; split; [reflexivity|]; split; [exact Htc|].
           cbn; apply in_or_app; right; left; reflexivity.
      * intros Hv Hd; exfalso.
        change (the_op (add_connection _ _ _) op_n) with (the_op ex op_n) in Hv.
        rewrite Hd, Hv in Et; discriminate Et.
  - apply bind_Ok in H; destruct H as [t [Ht H]]; inversion H; subst ex'; clear H.
    eexists; split; [reflexivity|]; split; [reflexivity|]; split; [|split; [reflexivity|]].
    + apply wiring_step_with_same; reflexivity.
    + unfold serves; cbn [fst snd].
      change (the_op (set_broadcast_entities _ _) op_n) with (the_op ex op_n).
      split.
      * intros Hv Hu; exfalso.
        destruct (connector_type io); [|discriminate Et | contradiction Hu; reflexivity].
        destruct (operator_type (the_op ex op_n)); try discriminate Et.
        contradiction Hv; reflexivity.
      * intros Hv _; rewrite Hv in Ht; cbn [OperatorType_eqb] in Ht.
        inversion Ht; subst t; cbn; auto.
Qed.

(** The loop over the target ports. *)
Lemma broadcast_to_targets_adds (op_n prev_n : NodeType) (port_name : string) :
  forall (targets : list string) (ex ex' : Executor),
    foldM (broadcast_to_target env op_n prev_n port_name) targets ex = Ok ex' ->
    exists txs,
      fragment_ ex' = fragment_ ex
      /\ wiring_step_with P ex ex'
      /\ broadcast_entities ex'
         = fold_left (fun b t => add_broadcast_transmitter b (prev_n, port_name) t) txs
                     (broadcast_entities ex)
      /\ forall io, lookup port_name (outputs (the_op ex prev_n)) = Some io ->
                    Forall2 (serves ex' io port_name) txs
                            (map (fun t => (op_n, t)) targets).
Proof.
  induction targets as [|t targets IH]; intros ex ex' H; cbn [foldM] in H.
  - inversion H; subst; exists nil; split; [reflexivity|]; split;
      [apply wiring_step_with_refl|]; split; [reflexivity|].
    intros io _; constructor.
  - apply bind_Ok in H; destruct H as [ex1 [H1 H2]].
    destruct (broadcast_to_target_adds _ _ _ _ _ _ H1) as [io [tx [Hio [Hf [W [Hb Hs]]]]]].
    destruct (IH _ _ H2) as [txs [Hf' [W' [Hb' Hs']]]].
    exists (tx :: txs); split; [congruence|]; split;
      [eapply wiring_step_with_trans; eassumption|]; split.
    + cbn [fold_left]; rewrite Hb', Hb; reflexivity.
    + intros io' Hio'; rewrite Hio in Hio'; inversion Hio'; subst io'.
      cbn [map]; constructor.
      * eapply serves_step; eassumption.
      * apply Hs'; unfold the_op; rewrite Hf; exact Hio.
Qed.

(** One broadcast port of the earlier operator. *)
Lemma connect_broadcast_port_adds (op_n prev_n : NodeType) (ex ex' : Executor)
  (port_name : string) :
  connect_broadcast_port env op_n prev_n ex port_name = Ok ex' ->
  let o := lookup port_name (edge_data (fragment_ ex) prev_n op_n) in
  exists txs,
    wiring_step_with P ex ex'
    /\ edge_data (fragment_ ex')
       = match o with
         | Some _ => upd2 (edge_data (fragment_ ex)) prev_n op_n
                       (erase port_name (edge_data (fragment_ ex) prev_n op_n))
         | None => edge_data (fragment_ ex)
         end
    /\ broadcast_entities ex'
       = fold_left (fun b t => add_broadcast_transmitter b (prev_n, port_name) t) txs
                   (broadcast_entities ex)
    /\ forall io, lookup port_name (outputs (the_op ex prev_n)) = Some io ->
                  Forall2 (serves ex' io port_name) txs
                    (map (fun t => (op_n, t))
                         (match o with Some targets => targets | None => nil end)).
Proof.
  intros H o; unfold o; clear o; unfold connect_broadcast_port in H.
  destruct (lookup port_name (edge_data (fragment_ ex) prev_n op_n)) as [targets|].
  - apply bind_Ok in H; destruct H as [ex1 [H1 H]]; inversion H; subst ex'; clear H.
    destruct (broadcast_to_targets_adds _ _ _ _ _ _ H1) as [txs [Hf [W [Hb Hs]]]].
    exists txs; split; [|split; [|split]].
    + eapply wiring_step_with_trans; [exact W|].
      apply wiring_step_with_same; reflexivity.
    + cbn; rewrite Hf; reflexivity.
    + exact Hb.
    + intros io Hio; specialize (Hs io Hio).
      revert Hs; apply Forall2_impl.
      intros tx d Hd; eapply serves_mono; [| |exact Hd]; [reflexivity | auto].
  - inversion H; subst; exists nil; split; [apply wiring_step_with_refl|].
    split; [reflexivity|]; split; [reflexivity|]; intros io _; constructor.
Qed.

Lemma connect_broadcast_port_keeps (op_n prev_n : NodeType) (ex ex' : Executor)
  (port_name : string) :
  (prev_n, port_name) <> (u, s) ->
  connect_broadcast_port env op_n prev_n ex port_name = Ok ex' -> keeps u s ex ex'.
Proof.
  intros Hne H.
  destruct (connect_broadcast_port_adds _ _ _ _ _ H) as [txs [W [He [Hb _]]]].
  split; [exact W|]; split.
  - intros b; rewrite He.
    destruct (lookup port_name (edge_data (fragment_ ex) prev_n op_n)); [|reflexivity].
    unfold upd2; destruct (edge_eqb (u, b) (prev_n, op_n)) eqn:E; [|reflexivity].
    apply edge_eqb_eq in E; inversion E; subst prev_n op_n.
    apply lookup_erase_other; congruence.
  - rewrite Hb; apply entities_at_adds_other; exact Hne.
Qed.

Lemma connect_broadcast_port_feeds (v : NodeType) (ex ex' : Executor) :
  connect_broadcast_port env v u ex s = Ok ex' ->
  fed u s v (lookup s (edge_data (fragment_ ex) u v)) ex ex'.
Proof.
  intros H.
  destruct (connect_broadcast_port_adds _ _ _ _ _ H) as [txs [W [He [Hb Hs]]]].
  cbv zeta in Hs.
  split; [exact W|]; split; [|split].
  - intros b Hb'; rewrite He.
    destruct (lookup s (edge_data (fragment_ ex) u v)); [|reflexivity].
    unfold upd2; destruct (edge_eqb (u, b) (u, v)) eqn:E; [|reflexivity].
    apply edge_eqb_eq in E; inversion E; contradiction.
  - rewrite He.
    destruct (lookup s (edge_data (fragment_ ex) u v)) eqn:El; [|exact El].
    unfold upd2; rewrite (proj2 (edge_eqb_eq (u, v) (u, v)) eq_refl).
    apply lookup_erase_same.
  - exists txs; split; [rewrite Hb; apply entities_at_adds_same | exact Hs].
Qed.

Lemma keeps_fed (v : NodeType) (o : option (list string)) (ex1 ex2 ex3 : Executor) :
  keeps u s ex1 ex2 -> fed u s v o ex2 ex3 -> fed u s v o ex1 ex3.
Proof.
  intros [W1 [E1 B1]] [W2 [E2 [N2 [txs [B2 S2]]]]]; split; [|split; [|split]].
  - eapply wiring_step_with_trans; eassumption.
  - intros b Hb; rewrite (E2 b Hb); apply E1.
  - exact N2.
  - exists txs; split; [rewrite B2, B1; reflexivity|].
    intros io Hio; apply S2.
    rewrite (wiring_step_with_the_op _ _ _ _ W1); exact Hio.
Qed.

Lemma fed_keeps (v : NodeType) (o : option (list string)) (ex1 ex2 ex3 : Executor) :
  fed u s v o ex1 ex2 -> keeps u s ex2 ex3 -> fed u s v o ex1 ex3.
Proof.
  intros [W1 [E1 [N1 [txs [B1 S1]]]]] [W2 [E2 B2]]; split; [|split; [|split]].
  - eapply wiring_step_with_trans; eassumption.
  - intros b Hb; rewrite E2; apply E1; exact Hb.
  - rewrite E2; exact N1.
  - exists txs; split; [rewrite B2, B1; reflexivity|].
    intros io Hio; generalize (S1 io Hio); apply Forall2_impl.
    intros tx d; apply serves_step with (Q := P); exact W2.
Qed.

(** The broadcast ports of an operator other than [u]. *)
Lemma connect_broadcast_to_previous_op_keeps (ex ex' : Executor) (op_n prev_n : NodeType) :
  prev_n <> u ->
  connect_broadcast_to_previous_op env ex op_n prev_n = Ok ex' -> keeps u s ex ex'.
Proof.
  intros Hne; unfold connect_broadcast_to_previous_op.
  apply foldM_relation; [apply keeps_refl | apply keeps_trans |].
  intros x p x'; apply connect_broadcast_port_keeps; congruence.
Qed.

(** The broadcast ports of [u], when the port [s] has one entity. *)
Lemma connect_broadcast_to_previous_op_feeds (ex ex' : Executor) (v : NodeType)
  (be : BroadcastEntity) :
  entities_at (broadcast_entities ex) (u, s) = [be] ->
  connect_broadcast_to_previous_op env ex v u = Ok ex' ->
  fed u s v (lookup s (edge_data (fragment_ ex) u v)) ex ex'.
Proof.
  intros Hbe H; unfold connect_broadcast_to_previous_op in H.
  destruct (entities_at_split _ _ _ _ Hbe) as [q1 [q2 [Hq [H1 H2]]]].
  rewrite Hq, foldM_app in H.
  apply bind_Ok in H; destruct H as [ex1 [Hq1 H]].
  cbn [foldM] in H; apply bind_Ok in H; destruct H as [ex2 [Hs Hq2]].
  assert (K1 : keeps u s ex ex1).
  { revert Hq1; apply foldM_relation_In; [apply keeps_refl | apply keeps_trans |].
    intros x p x' Hp; apply connect_broadcast_port_keeps.
    intros Hc; inversion Hc; subst p; contradiction. }
  assert (K2 : keeps u s ex2 ex').
  { revert Hq2; apply foldM_relation_In; [apply keeps_refl | apply keeps_trans |].
    intros x p x' Hp; apply connect_broadcast_port_keeps.
    intros Hc; inversion Hc; subst p; contradiction. }
  apply connect_broadcast_port_feeds in Hs.
  destruct K1 as [W1 [E1 B1]].
  rewrite E1 in Hs.
  eapply fed_keeps; [|exact K2].
  eapply keeps_fed; [|exact Hs].
  split; [exact W1 | split; assumption].
Qed.

(** The direct connections of an entry of the port map for another
    source port. *)
Lemma connect_direct_keeps (op_n prev_n : NodeType) (ex ex' : Executor)
  (entry : string * list string) :
  (prev_n, fst entry) <> (u, s) ->
  connect_direct op_n prev_n ex entry = Ok ex' -> keeps u s ex ex'.
Proof.
  intros Hne; unfold connect_direct; destruct entry as [source_port target_ports].
  cbn [fst] in Hne; intros H.
  apply bind_Ok in H; destruct H as [source_cid [Hs H]].
  assert (Hsource : source_cid <> src).
  { destruct (negb (id (the_op ex prev_n) =? -1)).
    - apply gxf_cid_cases in Hs; destruct Hs as [-> | ->]; congruence.
    - inversion Hs; discriminate. }
  destruct (lookup source_port (outputs (the_op ex prev_n))) as [io|]; [|discriminate].
  destruct (negb (ConnectorType_eqb (connector_type io) kUCX)).
  - revert H; apply foldM_relation; [apply keeps_refl | apply keeps_trans |].
    intros x a x' H.
    destruct (lookup a (inputs (the_op ex op_n))); [|discriminate].
    destruct (negb (id (the_op ex prev_n) =? -1)).
    + apply bind_Ok in H; destruct H as [tc [Ht H]]; inversion H; subst.
      apply keeps_connection, only_to_broadcast_other; exact Hsource.
    + inversion H; subst; apply keeps_refl.
  - destruct (1 <? Z.of_nat (List.length target_ports)); [discriminate|].
    inversion H; subst; apply keeps_refl.
Qed.

Lemma lookup_None_entries {A : Type} (k : string) (m : list (string * A)) (e : string * A) :
  lookup k m = None -> In e m -> fst e <> k.
Proof.
  intros H Hin Hk; apply lookup_None_keys in H; apply H.
  rewrite <- Hk; apply in_map; exact Hin.
Qed.

(** "Connecting earlier operators", for an earlier operator other than
    [u]. *)
Lemma connect_previous_op_keeps (op_n : NodeType) (ex ex' : Executor) (prev_n : NodeType) :
  prev_n <> u ->
  connect_previous_op env op_n ex prev_n = Ok ex' -> keeps u s ex ex'.
Proof.
  intros Hne; unfold connect_previous_op; intros H.
  destruct (Nat.eqb prev_n op_n); [inversion H; subst; apply keeps_refl|].
  destruct (get_port_map (fragment_ ex) prev_n op_n); [|discriminate].
  apply bind_Ok in H; destruct H as [ex1 [H1 H]].
  assert (K1 : keeps u s ex ex1).
  { destruct (has_broadcast (broadcast_entities ex) prev_n).
    - eapply connect_broadcast_to_previous_op_keeps; eassumption.
    - inversion H1; subst; apply keeps_refl. }
  apply (keeps_trans _ ex1); [exact K1|].
  destruct (edge_data (fragment_ ex1) prev_n op_n) as [|e pm];
    [inversion H; subst; apply keeps_refl|].
  destruct (_ || _); [inversion H; subst; apply keeps_refl|].
  revert H; apply foldM_relation; [apply keeps_refl | apply keeps_trans |].
  intros x a x'; apply connect_direct_keeps; congruence.
Qed.

(** "Connecting earlier operators", for the earlier operator [u] when its
    port [s] has one broadcast entity. *)
Lemma connect_previous_op_feeds (v : NodeType) (ex ex' : Executor) (be : BroadcastEntity) :
  u <> v ->
  entities_at (broadcast_entities ex) (u, s) = [be] ->
  connect_previous_op env v ex u = Ok ex' ->
  fed u s v (lookup s (edge_data (fragment_ ex) u v)) ex ex'.
Proof.
  intros Hne Hbe; unfold connect_previous_op; intros H.
  rewrite (proj2 (Nat.eqb_neq u v) Hne) in H.
  destruct (get_port_map (fragment_ ex) u v); [|discriminate].
  rewrite (entities_at_has_broadcast _ u s) in H by (rewrite Hbe; discriminate).
  apply bind_Ok in H; destruct H as [ex1 [H1 H]].
  pose proof (connect_broadcast_to_previous_op_feeds _ _ _ _ Hbe H1) as F.
  eapply fed_keeps; [exact F|].
  destruct F as [_ [_ [Hnone _]]].
  destruct (edge_data (fragment_ ex1) u v) as [|e pm] eqn:Epm;
    [inversion H; subst; apply keeps_refl|].
  destruct (_ || _); [inversion H; subst; apply keeps_refl|].
  revert H; apply foldM_relation_In; [apply keeps_refl | apply keeps_trans |].
  intros x a x' Ha; apply connect_direct_keeps.
  intros Hc; inversion Hc as [Hk].
  exact (lookup_None_entries s _ a Hnone Ha Hk).
Qed.

End BroadcastSteps.

Lemma foldM_reaches_In {A S : Type} (I Q : S -> Prop) (f : S -> A -> outcome S) (a : A) :
  forall l : list A,
    (forall x b x', In b l -> I x -> f x b = Ok x' -> I x') ->
    (forall x b x', In b l -> I x -> f x b = Ok x' -> Q x -> Q x') ->
    (forall x x', I x -> f x a = Ok x' -> Q x') ->
    forall x x', In a l -> I x -> foldM f l x = Ok x' -> Q x'.
Proof.
  induction l as [|b l IH]; intros HI HQ Ha x x' Hin Hx H; [destruct Hin|].
  cbn [foldM] in H; apply bind_Ok in H; destruct H as [x1 [H1 H2]].
  assert (HI' : forall y c y', In c l -> I y -> f y c = Ok y' -> I y')
    by (intros y c y' Hc; apply HI; right; exact Hc).
  assert (HQ' : forall y c y', In c l -> I y -> f y c = Ok y' -> Q y -> Q y')
    by (intros y c y' Hc; apply HQ; right; exact Hc).
  assert (Hx1 : I x1) by (apply (HI x b x1); [left; reflexivity | exact Hx | exact H1]).
  destruct Hin as [-> | Hin].
  - assert (HIQ : I x' /\ Q x').
    { apply (foldM_invariant_In (fun y => I y /\ Q y) f l) with (x := x1).
      - intros y c y' Hc [Hy Hq] Hf; split; [eapply HI' | eapply HQ']; eassumption.
      - split; [exact Hx1 | exact (Ha x x1 Hx H1)].
      - exact H2. }
    apply HIQ.
  - apply (IH HI' HQ' Ha x1 x' Hin Hx1 H2).
Qed.

Section BroadcastDownstream.

Variable env : Environment.
Variable u : NodeType.
Variable s : string.

Local Abbreviation P := (only_to_broadcast u s).
Local Abbreviation src := (cid_port u kOutput s).

Lemma connect_initialized_targets_keeps (acc acc' : Executor * bool)
  (connection : Cid * TargetsInfo) :
  fst connection <> src ->
  connect_initialized_targets acc connection = Ok acc' -> keeps u s (fst acc) (fst acc').
Proof.
  destruct acc as [x b], acc' as [x' b'], connection as [cid [[cname ct] targets]].
  unfold connect_initialized_targets; cbn [fst snd]; intros Hne Hs.
  destruct (ConnectorType_eqb ct kUCX).
  - inversion Hs; subst; apply keeps_refl.
  - apply bind_Ok in Hs; destruct Hs as [x1 [Hs1 Hs]]; inversion Hs; subst.
    revert Hs1; apply foldM_relation; [apply keeps_refl | apply keeps_trans |].
    intros y [tn tp] y' Hy.
    destruct (negb (id (the_op y tn) =? -1)).
    + apply bind_Ok in Hy; destruct Hy as [tc [_ Hy]]; inversion Hy; subst.
      apply keeps_connection, only_to_broadcast_other; exact Hne.
    + inversion Hy; subst; apply keeps_refl.
Qed.

Lemma create_broadcast_component_keeps_other (op_n : NodeType) (ex ex' : Executor)
  (connection : Cid * TargetsInfo) :
  op_n <> u -> fst connection <> src ->
  create_broadcast_component env op_n ex connection = Ok ex' -> keeps u s ex ex'.
Proof.
  destruct connection as [cid [[cname ct] targets]]; cbn [fst]; intros Hne Hc H.
  unfold create_broadcast_component in H.
  destruct targets as [|t1 [|t2 targets]]; try (inversion H; subst; apply keeps_refl).
  destruct (lookup cname (outputs (the_op ex op_n))) as [io|]; [|discriminate].
  destruct (capacity_and_policy env DoubleBufferTransmitter _) as [c p].
  inversion H; subst; clear H.
  split; [|split].
  - eapply wiring_step_with_trans;
      [|apply wiring_step_with_connection, only_to_broadcast_other; exact Hc].
    apply wiring_step_with_same; reflexivity.
  - reflexivity.
  - cbn; apply entities_at_create_other; congruence.
Qed.

(** The downstream pass of an operator other than [u]. *)
Lemma connect_next_ops_keeps (ex ex' : Executor) (op_n : NodeType)
  (connections : TargetConnectionsMapType) :
  op_n <> u -> (forall c, In c connections -> fst c <> src) ->
  connect_next_ops env ex op_n connections = Ok ex' -> keeps u s ex ex'.
Proof.
  intros Hne Hkeys; unfold connect_next_ops; intros H.
  apply bind_Ok in H; destruct H as [[ex1 ucx] [H1 H]].
  assert (K1 : keeps u s ex ex1).
  { change ex with (fst (ex, false)); change ex1 with (fst (ex1, ucx)).
    revert H1.
    apply (foldM_relation_In (fun a b : Executor * bool => keeps u s (fst a) (fst b)));
      [intros; apply keeps_refl | intros ? ? ?; apply keeps_trans |].
    intros a c a' Hc; apply connect_initialized_targets_keeps, Hkeys, Hc. }
  apply (keeps_trans _ _ _ ex1); [exact K1|].
  destruct (_ || _); [|inversion H; subst; apply keeps_refl].
  apply bind_Ok in H; destruct H as [ex2 [H2 H]].
  apply (keeps_trans _ _ _ ex2).
  - revert H2; unfold create_broadcast_components.
    apply foldM_relation_In; [apply keeps_refl | apply keeps_trans |].
    intros x c x' Hc; apply create_broadcast_component_keeps_other;
      [exact Hne | apply Hkeys, Hc].
  - destruct (negb _); [|inversion H; subst; apply keeps_refl].
    revert H; apply foldM_relation; [apply keeps_refl | apply keeps_trans |].
    intros x a x' Hs.
    destruct (_ && _); [|inversion Hs; subst; apply keeps_refl].
    destruct (get_port_map (fragment_ x) op_n a); [|discriminate].
    destruct (has_broadcast (broadcast_entities x) op_n);
      [|inversion Hs; subst; apply keeps_refl].
    eapply connect_broadcast_to_previous_op_keeps; eassumption.
Qed.

End BroadcastDownstream.

(** ** The connections collected for an operator *)

Section Collected.

Lemma collect_connections_invariant (Inv : TargetConnectionsMapType -> Prop)
  (ex : Executor) (op_n : NodeType) (connections : TargetConnectionsMapType) :
  Inv nil ->
  (forall C next p t io r k,
      Inv C -> In next (get_next_nodes (graph (fragment_ ex)) op_n) ->
      lookup p (outputs (the_op ex op_n)) = Some io -> connector io = Some r ->
      gxf_cid op_n kOutput p (outputs (the_op ex op_n)) = Ok k ->
      Inv (add_target C k (conn_name r) (connector_type io) (next, t))) ->
  collect_connections ex op_n = Ok connections -> Inv connections.
Proof.
  intros H0 Hstep; unfold collect_connections.
  apply (foldM_invariant_In Inv); [|exact H0].
  intros C next C' Hnext HC H.
  destruct (get_port_map (fragment_ ex) op_n next) as [pm|];
    [|inversion H; subst; exact HC].
  revert H; apply (foldM_invariant Inv); [|exact HC].
  intros C1 entry C1' HC1.
  apply (foldM_invariant Inv); [|exact HC1].
  intros C2 t C2' HC2 H.
  destruct (negb _); [|inversion H; subst; exact HC2].
  destruct (lookup (fst entry) (outputs (the_op ex op_n))) as [io|] eqn:Hio; [|discriminate].
  destruct (connector io) as [r|] eqn:Hr; [|discriminate].
  apply bind_Ok in H; destruct H as [k [Hk H]]; inversion H; subst.
  eapply Hstep; eassumption.
Qed.

(** The keys of the collected connections are output ports of the
    operator. *)
Lemma collect_connections_keys (ex : Executor) (op_n : NodeType)
  (connections : TargetConnectionsMapType) :
  collect_connections ex op_n = Ok connections ->
  forall c, In c connections ->
            (exists p, fst c = cid_port op_n kOutput p) \/ fst c = cid_unset.
Proof.
  apply (collect_connections_invariant
           (fun C => forall c, In c C ->
                               (exists p, fst c = cid_port op_n kOutput p)
                               \/ fst c = cid_unset)).
  - intros c [].
  - intros C next p t io r k HC _ _ _ Hk.
    apply gxf_cid_cases in Hk.
    induction C as [|[cid [[cname ct] targets]] rest IH]; cbn [add_target].
    + intros c [<- | []]; cbn [fst]; destruct Hk as [-> | ->]; eauto.
    + destruct (Cid_eqb cid k).
      * intros c [<- | Hc]; [apply (HC (cid, (cname, ct, targets))); left; reflexivity|].
        apply HC; right; exact Hc.
      * intros c [<- | Hc]; [apply (HC (cid, (cname, ct, targets))); left; reflexivity|].
        apply IH; [|exact Hc].
        intros c' Hc'; apply HC; right; exact Hc'.
Qed.

Lemma In_insert_target (t x : TargetPort) (tg : list TargetPort) :
  In x (insert_target t tg) <-> In x tg \/ x = t.
Proof.
  unfold insert_target; destruct (existsb (TargetPort_eqb t) tg) eqn:E.
  - apply TargetPort_mem in E; split; [auto | intros [H | ->]; assumption].
  - rewrite in_app_iff; cbn [In]; split;
      [intros [H | [H | []]]; auto | intros [H | H]; auto].
Qed.

Lemma add_target_has_new (C : TargetConnectionsMapType) (k : Cid) (cn : string)
  (ct : ConnectorType) (t : TargetPort) :
  has_target (add_target C k cn ct t) k t.
Proof.
  induction C as [|[cid [[cname ct0] targets]] rest IH]; cbn [add_target].
  - exists cn, ct, [t]; split; left; reflexivity.
  - destruct (Cid_eqb cid k) eqn:E.
    + apply Cid_eqb_eq in E; subst cid.
      exists cname, ct0, (insert_target t targets); split; [left; reflexivity|].
      apply In_insert_target; right; reflexivity.
    + destruct IH as [cn' [ct' [tg [Hin Ht]]]].
      exists cn', ct', tg; split; [right; exact Hin | exact Ht].
Qed.

Lemma add_target_has_old (C : TargetConnectionsMapType) (k : Cid) (cn : string)
  (ct : ConnectorType) (t : TargetPort) (k' : Cid) (t' : TargetPort) :
  has_target C k' t' -> has_target (add_target C k cn ct t) k' t'.
Proof.
  induction C as [|[cid [[cname ct0] targets]] rest IH];
    intros [cn' [ct' [tg [Hin Ht]]]]; [destruct Hin|].
  cbn [add_target]; destruct (Cid_eqb cid k) eqn:E.
  - destruct Hin as [Heq | Hin].
    + inversion Heq; subst.
      exists cn', ct', (insert_target t tg); split; [left; reflexivity|].
      apply In_insert_target; left; exact Ht.
    + exists cn', ct', tg; split; [right; exact Hin | exact Ht].
  - destruct Hin as [Heq | Hin].
    + exists cn', ct', tg; split; [left; exact Heq | exact Ht].
    + destruct IH as [cn2 [ct2 [tg2 [Hin2 Ht2]]]];
        [exists cn', ct', tg; auto|].
      exists cn2, ct2, tg2; split; [right; exact Hin2 | exact Ht2].
Qed.

(** The entries of the connections after a target is added. *)
Lemma add_target_entries (C : TargetConnectionsMapType) (k : Cid) (cn : string)
  (ct : ConnectorType) (t : TargetPort) :
  (forall k' cn' ct' tg',
      In (k', (cn', ct', tg')) (add_target C k cn ct t) ->
      (exists tg0, In (k', (cn', ct', tg0)) C
                   /\ forall x, In x tg' -> In x tg0 \/ x = t)
      \/ (k' = k /\ cn' = cn /\ ct' = ct /\ tg' = [t]))
  /\ (NoDup (map fst C) -> NoDup (map fst (add_target C k cn ct t))).
Proof.
  induction C as [|[cid [[cname ct0] targets]] rest [IH1 IH2]]; cbn [add_target].
  - split.
    + intros k' cn' ct' tg' [H | []]; inversion H; subst; right; auto.
    + intros _; cbn; constructor; [intros [] | constructor].
  - destruct (Cid_eqb cid k) eqn:E.
    + split.
      * intros k' cn' ct' tg' [H | H].
        -- inversion H; subst; left; exists targets; split; [left; reflexivity|].
           intros x Hx; apply In_insert_target; exact Hx.
        -- left; exists tg'; split; [right; exact H | auto].
      * cbn [map fst]; auto.
    + split.
      * intros k' cn' ct' tg' [H | H].
        -- inversion H; subst; left; exists tg'; split; [left; reflexivity | auto].
        -- destruct (IH1 _ _ _ _ H) as [[tg0 [Hin Hsub]] | Hnew]; [|right; exact Hnew].
           left; exists tg0; split; [right; exact Hin | exact Hsub].
      * cbn [map fst]; intros Hnd; inversion Hnd as [|? ? Hnotin Hnd']; subst.
        constructor; [|apply IH2; exact Hnd'].
        intros Hc; apply in_map_iff in Hc; destruct Hc as [[k' [[cn' ct'] tg']] [Hk Hin]].
        cbn [fst] in Hk; subst k'.
        destruct (IH1 _ _ _ _ Hin) as [[tg0 [Hin0 _]] | [Hk _]].
        -- apply Hnotin, in_map_iff; exists (cid, (cn', ct', tg0)); auto.
        -- subst cid; rewrite (proj2 (Cid_eqb_eq k k) eq_refl) in E; discriminate.
Qed.

(** The connections collected for an operator whose output ports are
    ready. *)
Lemma collect_connections_collected (ex : Executor) (op_n : NodeType)
  (connections : TargetConnectionsMapType) :
  outputs_named (the_op ex op_n) ->
  collect_connections ex op_n = Ok connections ->
  collected ex op_n connections.
Proof.
  intros Hnamed; apply (collect_connections_invariant (collected ex op_n)).
  - split; [constructor | intros k cn ct tg []].
  - intros C next p t io r k [Hnd HC] Hnext Hio Hr Hk.
    destruct (Hnamed p io Hio) as [c [Hc [Hname Hptr]]].
    rewrite Hr in Hc; inversion Hc; subst c.
    unfold gxf_cid in Hk; rewrite Hio, Hr, Hptr in Hk; inversion Hk; subst k; clear Hk.
    destruct (add_target_entries C (cid_port op_n kOutput p) (conn_name r)
                (connector_type io) (next, t)) as [Hentries Hkeys].
    split; [apply Hkeys; exact Hnd|].
    intros k cn ct tg Hin.
    destruct (Hentries _ _ _ _ Hin) as [[tg0 [Hin0 Hsub]] | [-> [-> [-> ->]]]].
    + destruct (HC _ _ _ _ Hin0) as [Hentry Htargets]; split; [exact Hentry|].
      intros x Hx; destruct (Hsub x Hx) as [H | ->]; [apply Htargets; exact H | exact Hnext].
    + split; [exists io; rewrite Hname; auto|].
      intros x [<- | []]; exact Hnext.
Qed.

(** Every target of the port maps is collected. *)
Lemma collect_connections_has (ex : Executor) (op_n : NodeType)
  (connections : TargetConnectionsMapType) (next : NodeType) (p : string)
  (tgts : list string) (t : string) :
  operator_type (the_op ex op_n) <> kVirtual ->
  collect_connections ex op_n = Ok connections ->
  In (op_n, next) (succ_ (graph (fragment_ ex))) ->
  In (p, tgts) (edge_data (fragment_ ex) op_n next) -> In t tgts ->
  exists k, gxf_cid op_n kOutput p (outputs (the_op ex op_n)) = Ok k
            /\ has_target connections k (next, t).
Proof.
  intros Hv H Hedge Hentry Ht; unfold collect_connections in H.
  rewrite (OperatorType_eqb_neq _ _ Hv) in H; cbn [negb] in H.
  assert (Hstep : forall (nx : NodeType) (e : string * list string) C t0 C',
             match lookup (fst e) (outputs (the_op ex op_n)) with
             | Some source_io_spec =>
                 match connector source_io_spec with
                 | Some source_gxf_resource =>
                     source_cid <- gxf_cid op_n kOutput (fst e) (outputs (the_op ex op_n)) ;;
                     Ok (add_target C source_cid (conn_name source_gxf_resource)
                           (connector_type source_io_spec) (nx, t0))
                 | None => Undefined
                 end
             | None => Undefined
             end = Ok C' ->
             exists c cn ct,
               gxf_cid op_n kOutput (fst e) (outputs (the_op ex op_n)) = Ok c
               /\ C' = add_target C c cn ct (nx, t0)).
  { intros nx e C t0 C' Hs.
    destruct (lookup (fst e) (outputs (the_op ex op_n))) as [io|]; [|discriminate].
    destruct (connector io) as [r|]; [|discriminate].
    apply bind_Ok in Hs; destruct Hs as [c [Hc Hs]]; inversion Hs; subst.
    exists c; eauto. }
  set (Q := fun C : TargetConnectionsMapType =>
              exists k, gxf_cid op_n kOutput p (outputs (the_op ex op_n)) = Ok k
                        /\ has_target C k (next, t)).
  assert (Htargets_keep :
            forall nx (e : string * list string) tg C C',
              foldM (fun connections target_port =>
                       match lookup (fst e) (outputs (the_op ex op_n)) with
                       | Some source_io_spec =>
                           match connector source_io_spec with
                           | Some source_gxf_resource =>
                               source_cid <- gxf_cid op_n kOutput (fst e)
                                               (outputs (the_op ex op_n)) ;;
                               Ok (add_target connections source_cid
                                     (conn_name source_gxf_resource)
                                     (connector_type source_io_spec)
                                     (nx, target_port))
                           | None => Undefined
                           end
                       | None => Undefined
                       end) tg C = Ok C' ->
              Q C -> Q C').
  { intros nx e tg C C' Hf Hhas; revert Hf.
    apply (foldM_invariant Q); [|exact Hhas].
    intros C1 t0 C1' [k [Hk H1]] Hs.
    destruct (Hstep _ _ _ _ _ Hs) as [c [cn [ct [_ ->]]]].
    exists k; split; [exact Hk | apply add_target_has_old; exact H1]. }
  revert H.
  apply (foldM_reaches (fun _ => True) Q _ next);
    [auto | | | apply In_get_next_nodes; exact Hedge | exact I].
  - intros C nx C' _ Hs Hhas.
    destruct (get_port_map (fragment_ ex) op_n nx) as [pm|];
      [|inversion Hs; subst; exact Hhas].
    revert Hs; apply (foldM_invariant Q); [|exact Hhas].
    intros C1 e C1' H1 Hs; eapply Htargets_keep; eassumption.
  - intros C C' _ Hs.
    unfold get_port_map in Hs; rewrite (proj2 (has_edge_In _ _ _) Hedge) in Hs.
    revert Hs.
    apply (foldM_reaches (fun _ => True) Q _ (p, tgts));
      [auto | | | exact Hentry | exact I].
    + intros C1 e C1' _ Hs Hhas; eapply Htargets_keep; eassumption.
    + intros C1 C1' _ Hs; cbn [fst snd] in Hs; revert Hs.
      apply (foldM_reaches (fun _ => True) Q _ t);
        [auto | | | exact Ht | exact I].
      * intros C2 t0 C2' _ Hs [k [Hk Hhas]].
        destruct (Hstep next (p, tgts) _ _ _ Hs) as [c [cn [ct [_ ->]]]].
        exists k; split; [exact Hk | apply add_target_has_old; exact Hhas].
      * intros C2 C2' _ Hs.
        destruct (Hstep next (p, tgts) _ _ _ Hs) as [c [cn [ct [Hc ->]]]].
        cbn [fst] in Hc; exists c; split; [exact Hc | apply add_target_has_new].
Qed.

End Collected.

Section BroadcastVisits.

Variable env : Environment.

(** The steps of a visit. *)
Lemma visit_operator_steps (ex ex' : Executor) (visited : list NodeType) (n : NodeType) :
  visit_operator env ex visited n = Ok ex' ->
  exists op1 op2 exI ex1 connections,
    mitigate_cycle (graph (fragment_ ex)) visited n (the_op ex n) = Ok op1
    /\ op_initialize env (executor_ids ex) (set_op (fragment_ ex) n op1) (next_cid ex) op1
       = Ok op2
    /\ graph (fragment_ exI) = graph (fragment_ ex)
    /\ edge_data (fragment_ exI) = edge_data (fragment_ ex)
    /\ (forall m, the_op exI m = if Nat.eqb m n then op2 else the_op ex m)
    /\ executor_ids exI = executor_ids ex
    /\ connections_entity_ exI = connections_entity_ ex
    /\ broadcast_entities exI = broadcast_entities ex
    /\ foldM (connect_previous_op env n) (get_previous_nodes (graph (fragment_ ex)) n) exI
       = Ok ex1
    /\ collect_connections ex1 n = Ok connections
    /\ connect_next_ops env ex1 n connections = Ok ex'.
Proof.
  rewrite visit_operator_unfold; cbv zeta; intros H.
  apply bind_Ok in H; destruct H as [op1 [Hmit H]].
  apply bind_Ok in H; destruct H as [op2 [Hinit H]].
  apply bind_Ok in H; destruct H as [ex1 [Hup H]].
  apply bind_Ok in H; destruct H as [connections [Hcol H]].
  exists op1, op2.
  match type of Hup with foldM _ _ ?x = _ => exists x end.
  exists ex1, connections.
  split; [exact Hmit|]; split; [exact Hinit|].
  split; [reflexivity|]; split; [reflexivity|]; split.
  - intros m; unfold the_op; cbn; unfold upd; destruct (Nat.eqb m n); reflexivity.
  - split; [reflexivity|]; split; [reflexivity|]; split; [reflexivity|].
    split; [exact Hup|]; split; [exact Hcol | exact H].
Qed.

Lemma create_output_port_named (f : Fragment) (io io' : IOSpec) (op : Operator) :
  has_component (connector io) = false ->
  create_output_port env f io false op = Ok io' ->
  exists c, connector io' = Some c /\ conn_name c = io_name io /\ gxf_cptr c = true.
Proof.
  intros Hnone H; unfold create_output_port in H.
  apply bind_Ok in H; destruct H as [io1 [H1 H]].
  apply bind_Ok in H; destruct H as [cs [_ H]].
  inversion H; subst; clear H; cbn [set_conditions connector].
  assert (Hc : exists c, connector io1 = Some c /\ conn_name c = io_name io
                         /\ gxf_cptr c = true).
  { unfold create_transmitter in H1.
    destruct (has_component (as_transmitter (connector io))) eqn:Ec.
    - apply as_transmitter_component in Ec; congruence.
    - apply bind_Ok in H1; destruct H1 as [r [_ H1]]; inversion H1; subst; cbn.
      eexists; split; [reflexivity|]; split; reflexivity. }
  unfold default_output_condition.
  destruct (conditions io1); [|exact Hc].
  destruct (negb _); [|exact Hc].
  destruct (negb _); exact Hc.
Qed.

(** The initialization of a declared operator that is not virtual: the
    connectors of its outputs get their components and the names of the
    ports, and keep their types. *)
Lemma op_initialize_declared (ids : ExecutorIds) (f : Fragment) (fresh_cid : positive)
  (op op' : Operator) :
  op_eid_ ids = 0 -> declared_operator op -> operator_type op <> kVirtual ->
  op_initialize env ids f fresh_cid op = Ok op' ->
  operator_type op' = operator_type op
  /\ outputs_named op'
  /\ (forall p io, lookup p (outputs op) = Some io ->
                   exists io', lookup p (outputs op') = Some io'
                               /\ connector_type io' = connector_type io).
Proof.
  intros Heid [Hid Huninit Houts] Hv H; unfold op_initialize in H.
  assert (H' : initialize_operator env ids f fresh_cid op = Ok op')
    by (destruct (operator_type op); [exact H | exact H | congruence]).
  clear H; unfold initialize_operator in H'; rewrite Huninit in H'.
  rewrite Heid in H'; change (0 =? 0) with true in H'.
  cbv zeta in H'; cbn [negb] in H'.
  apply bind_Ok in H'; destruct H' as [ins [Hins H]].
  apply bind_Ok in H; destruct H as [outs [Houts' H]].
  apply bind_Ok in H; destruct H as [u1 [_ H]].
  apply bind_Ok in H; destruct H as [u2 [_ H]].
  inversion H; subst; clear H.
  assert (Houtputs : forall o ins0,
             outputs (set_inputs (if MetadataPolicy_eqb (metadata_policy (set_id op o))
                                       kDefaultPolicy
                                  then set_metadata_policy (set_id op o)
                                         (frag_metadata_policy f)
                                  else set_id op o) ins0) = outputs op)
    by (intros o ins0; destruct (MetadataPolicy_eqb _ _); reflexivity).
  rewrite Houtputs in Houts'.
  split; [|split].
  - cbn; destruct (MetadataPolicy_eqb _ _); reflexivity.
  - intros p io' Hio'; cbn [outputs set_is_initialized set_outputs] in Hio'.
    apply lookup_In in Hio'.
    destruct (create_ports_In _ _ _ Houts') as [_ Hin].
    destruct (Hin p io' Hio') as [io [Hio Hc]].
    destruct (Houts p io Hio) as [Hname Hnone].
    destruct (create_output_port_named _ _ _ _ Hnone Hc) as [c [Hc1 [Hc2 Hc3]]].
    exists c; split; [exact Hc1|]; split; [congruence | exact Hc3].
  - intros p io Hio; cbn [outputs set_is_initialized set_outputs].
    destruct (create_ports_lookup _ _ _ p io Houts' Hio) as [io' [Hl Hc]].
    exists io'; split; [exact Hl|].
    eapply create_output_port_connector_type; exact Hc.
Qed.

(** Without a feedback edge the cycle mitigation returns the operator as
    it is. *)
Lemma mitigate_cycle_none (g : FlowGraph) (visited : list NodeType) (op_n : NodeType)
  (op op' : Operator) :
  (forall p, In p (get_previous_nodes g op_n) -> p <> op_n /\ In p visited) ->
  mitigate_cycle g visited op_n op = Ok op' -> op' = op.
Proof.
  intros Hprev; unfold mitigate_cycle.
  destruct (input_exec_spec op); [|congruence].
  rewrite detect_cycle_spec.
  assert (E1 : mem_node op_n (get_previous_nodes g op_n) = false).
  { apply mem_node_false; intros Hc; destruct (Hprev _ Hc) as [Hne _]; congruence. }
  assert (E2 : existsb (fun p => negb (mem_node p visited)) (get_previous_nodes g op_n)
               = false).
  { destruct (existsb _ _) eqn:E; [|reflexivity].
    apply existsb_exists in E; destruct E as [p [Hp Hm]].
    destruct (Hprev _ Hp) as [_ Hin]; apply mem_node_In in Hin.
    rewrite Hin in Hm; discriminate. }
  rewrite E1, E2; cbn [orb]; congruence.
Qed.

Variable u : NodeType.
Variable s : string.

Local Abbreviation P := (only_to_broadcast u s).
Local Abbreviation src := (cid_port u kOutput s).

(** The visit of an operator other than [u]. *)
Lemma visit_other (ex ex' : Executor) (visited : list NodeType) (v : NodeType) :
  v <> u ->
  NoDup (get_previous_nodes (graph (fragment_ ex)) v) ->
  (In u (get_previous_nodes (graph (fragment_ ex)) v) ->
   exists be, entities_at (broadcast_entities ex) (u, s) = [be]) ->
  visit_operator env ex visited v = Ok ex' ->
  visit_feeds u s v ex ex'.
Proof.
  intros Hne Hnd Hbe H.
  destruct (visit_operator_initializes env _ _ _ _ H) as [Htypes _].
  destruct (visit_operator_steps _ _ _ _ H)
    as [op1 [op2 [exI [ex1 [connections
          [_ [_ [Hg [He [Hop [Hids [Hconn [Hb [Hup [Hcol Hnext]]]]]]]]]]]]]]].
  assert (Hu : the_op exI u = the_op ex u).
  { rewrite Hop; destruct (Nat.eqb u v) eqn:E; [|reflexivity].
    apply Nat.eqb_eq in E; congruence. }
  assert (Up : wiring_step_with P exI ex1
               /\ (forall b, b <> v -> lookup s (edge_data (fragment_ ex1) u b)
                                       = lookup s (edge_data (fragment_ exI) u b))
               /\ exists txs,
                    entities_at (broadcast_entities ex1) (u, s)
                    = map (fun be => fold_left add_transmitter txs be)
                          (entities_at (broadcast_entities exI) (u, s))
                    /\ forall io, lookup s (outputs (the_op exI u)) = Some io ->
                                  Forall2 (serves ex1 io s) txs
                                          (targets_in (fragment_ ex) u s v)).
  { destruct (in_dec Nat.eq_dec u (get_previous_nodes (graph (fragment_ ex)) v))
      as [Hin | Hnot].
    - destruct (Hbe Hin) as [be Hbe'].
      destruct (in_split _ _ Hin) as [p1 [p2 Hsplit]].
      rewrite Hsplit in Hnd; pose proof (NoDup_remove_2 _ _ _ Hnd) as Hnotin.
      rewrite Hsplit, foldM_app in Hup.
      apply bind_Ok in Hup; destruct Hup as [exa [H1 Hup]].
      cbn [foldM] in Hup; apply bind_Ok in Hup; destruct Hup as [exb [H2 H3]].
      assert (K1 : keeps u s exI exa).
      { revert H1; apply foldM_relation_In; [apply keeps_refl | apply keeps_trans |].
        intros x p x' Hp; apply connect_previous_op_keeps.
        intros ->; apply Hnotin, in_or_app; left; exact Hp. }
      assert (K3 : keeps u s exb ex1).
      { revert H3; apply foldM_relation_In; [apply keeps_refl | apply keeps_trans |].
        intros x p x' Hp; apply connect_previous_op_keeps.
        intros ->; apply Hnotin, in_or_app; right; exact Hp. }
      assert (F2 : fed u s v (lookup s (edge_data (fragment_ exa) u v)) exa exb).
      { apply (connect_previous_op_feeds env u s v exa exb be);
          [congruence | | exact H2].
        destruct K1 as [_ [_ ->]]; rewrite Hb; exact Hbe'. }
      assert (Eo : lookup s (edge_data (fragment_ exa) u v)
                   = lookup s (edge_data (fragment_ ex) u v))
        by (destruct K1 as [_ [-> _]]; rewrite He; reflexivity).
      rewrite Eo in F2.
      pose proof (fed_keeps _ _ _ _ _ _ _ (keeps_fed _ _ _ _ _ _ _ K1 F2) K3) as F.
      destruct F as [W [E [_ [txs [Hb1 Hs1]]]]].
      split; [exact W|]; split; [exact E|].
      exists txs; split; [exact Hb1|].
      intros io Hio; specialize (Hs1 io Hio).
      unfold targets_in.
      rewrite (proj2 (has_edge_In _ _ _) (proj1 (In_get_previous_nodes _ _ _) Hin)).
      destruct (lookup s (edge_data (fragment_ ex) u v)); exact Hs1.
    - assert (K : keeps u s exI ex1).
      { revert Hup; apply foldM_relation_In; [apply keeps_refl | apply keeps_trans |].
        intros x p x' Hp; apply connect_previous_op_keeps.
        intros ->; contradiction. }
      destruct K as [W [E B]].
      split; [exact W|]; split; [intros b _; apply E|].
      exists nil; cbn [fold_left]; rewrite map_id; split; [exact B|].
      intros io _; unfold targets_in.
      destruct (has_edge (graph (fragment_ ex)) u v) eqn:Eh; [|constructor].
      exfalso; apply Hnot, In_get_previous_nodes, has_edge_In; exact Eh. }
  destruct Up as [W1 [E1 [txs [B1 S1]]]].
  assert (K2 : keeps u s ex1 ex').
  { apply (connect_next_ops_keeps env u s ex1 ex' v connections Hne); [|exact Hnext].
    intros c Hc Hk.
    destruct (collect_connections_keys _ _ _ Hcol c Hc) as [[p Hp] | Hp];
      rewrite Hp in Hk; [inversion Hk; congruence | discriminate]. }
  destruct K2 as [W2 [E2 B2]].
  pose proof (wiring_step_with_trans _ _ _ _ W1 W2) as W.
  split; [|split; [|split; [|split; [|split; [|split]]]]].
  - destruct W as [-> _]; exact Hg.
  - intros m Hm; rewrite (wiring_step_with_the_op _ _ _ _ W), Hop.
    rewrite (proj2 (Nat.eqb_neq m v) Hm); reflexivity.
  - exact Htypes.
  - destruct W as [_ [_ [-> _]]]; exact Hids.
  - destruct W as [_ [_ [_ [added [Ha HP]]]]]; exists added; rewrite Ha, Hconn; auto.
  - intros b Hb'; rewrite E2, (E1 b Hb'), He; reflexivity.
  - exists txs; split; [rewrite B2, B1, Hb; reflexivity|].
    intros io Hio; rewrite <- Hu in Hio.
    generalize (S1 io Hio); apply Forall2_impl.
    intros tx d; apply serves_step with (Q := P); exact W2.
Qed.

End BroadcastVisits.

Section BroadcastSource.

Variable env : Environment.
Variable u : NodeType.
Variable s : string.

Local Abbreviation P := (only_to_broadcast u s).
Local Abbreviation src := (cid_port u kOutput s).
Local Abbreviation rx := (cid_broadcast_rx u s).

(** Without an initialized target the first loop of the downstream pass
    adds no connection. *)
Lemma connect_initialized_targets_none (C : TargetConnectionsMapType) :
  forall (ex ex' : Executor) (ucx ucx' : bool),
    (forall c t, In c C -> In t (snd (snd c)) -> id (the_op ex (fst t)) = -1) ->
    foldM connect_initialized_targets C (ex, ucx) = Ok (ex', ucx') ->
    ex' = ex /\ ucx' = ucx || existsb is_ucx_connection C.
Proof.
  induction C as [|c C IH]; intros ex ex' ucx ucx' Hid H; cbn [foldM] in H.
  - inversion H; subst; rewrite orb_false_r; auto.
  - apply bind_Ok in H; destruct H as [[ex1 ucx1] [H1 H2]].
    assert (E : ex1 = ex /\ ucx1 = ucx || is_ucx_connection c).
    { pose proof (fun t => Hid c t (or_introl eq_refl)) as Hc.
      destruct c as [cid [[cname ct] targets]].
      unfold connect_initialized_targets in H1; cbn [fst snd] in H1, Hc.
      unfold is_ucx_connection; cbn [fst snd].
      destruct (ConnectorType_eqb ct kUCX).
      - inversion H1; subst; rewrite orb_true_r; auto.
      - apply bind_Ok in H1; destruct H1 as [x [Hx H1]]; inversion H1; subst.
        rewrite orb_false_r; split; [|reflexivity].
        revert Hx; apply (foldM_invariant_In (fun y => y = ex)); [|reflexivity].
        intros y [tn tp] y' Ht -> Hy.
        pose proof (Hc (tn, tp) Ht) as Hi; cbn [fst] in Hi.
        rewrite Hi in Hy; cbn in Hy; inversion Hy; reflexivity. }
    destruct E as [-> ->].
    destruct (IH _ _ _ _ (fun c' t Hc Ht => Hid c' t (or_intror Hc) Ht) H2) as [-> ->].
    cbn [existsb]; rewrite orb_assoc; auto.
Qed.

(** The body of the loop of [create_broadcast_components]. *)
Lemma create_broadcast_component_cases (ex ex' : Executor) (op_n : NodeType) (cid : Cid)
  (cname : string) (ct : ConnectorType) (targets : list TargetPort) :
  create_broadcast_component env op_n ex (cid, (cname, ct, targets)) = Ok ex' ->
  ((List.length targets < 2)%nat /\ ex' = ex)
  \/ ((2 <= List.length targets)%nat
      /\ exists io be,
           lookup cname (outputs (the_op ex op_n)) = Some io
           /\ receiver_replicates io be /\ be_transmitters be = nil
           /\ ex' = add_connection
                      (set_broadcast_entities ex
                         (filter (fun e => negb (key_eqb (fst e) (op_n, cname)))
                                 (broadcast_entities ex)
                          ++ [((op_n, cname), be)])%list)
                      cid (cid_broadcast_rx op_n cname)).
Proof.
  unfold create_broadcast_component; intros H.
  destruct targets as [|t1 [|t2 targets]];
    [left; inversion H; cbn; split; [lia | reflexivity]
    |left; inversion H; cbn; split; [lia | reflexivity] |].
  destruct (lookup cname (outputs (the_op ex op_n))) as [io|]; [|discriminate].
  destruct (capacity_and_policy env DoubleBufferTransmitter _) as [c p] eqn:Ecp.
  inversion H; subst; clear H.
  right; split; [cbn; lia|].
  exists io; eexists; split; [reflexivity|]; split; [|split; [|reflexivity]];
    [|reflexivity].
  unfold receiver_replicates; cbn; split; [|split].
  - intros c0 Hc Hcls Hptr; unfold capacity_and_policy in Ecp.
    rewrite Hc in Ecp; cbn [has_component] in Ecp; rewrite Hptr, Hcls in Ecp.
    inversion Ecp; auto.
  - intros cond Hc; rewrite Hc; reflexivity.
  - intros Hc; rewrite Hc; reflexivity.
Qed.

(** The broadcast components of [u]: the port [s], which has two or more
    targets, gets one entity, without outputs yet, connected to the port. *)
Lemma create_broadcast_components_source (ex ex' : Executor)
  (C : TargetConnectionsMapType) (ct : ConnectorType) (tg : list TargetPort) (io : IOSpec) :
  collected ex u C ->
  In (src, (s, ct, tg)) C -> (2 <= List.length tg)%nat ->
  lookup s (outputs (the_op ex u)) = Some io ->
  create_broadcast_components env ex u C = Ok ex' ->
  fragment_ ex' = fragment_ ex
  /\ wiring_step_with P ex ex'
  /\ In (src, rx) (connections_entity_ ex')
  /\ exists be, entities_at (broadcast_entities ex') (u, s) = [be]
                /\ receiver_replicates io be /\ be_transmitters be = nil.
Proof.
  intros [_ HC] Hin Hlen Hio H; unfold create_broadcast_components in H.
  set (I := fun x : Executor => fragment_ x = fragment_ ex /\ wiring_step_with P ex x).
  set (Q := fun x : Executor =>
              In (src, rx) (connections_entity_ x)
              /\ exists be, entities_at (broadcast_entities x) (u, s) = [be]
                            /\ receiver_replicates io be /\ be_transmitters be = nil).
  assert (HI : forall x c x', In c C -> I x -> create_broadcast_component env u x c = Ok x' ->
                              I x').
  { intros x [cid [[cname ct0] targets]] x' Hc [Hf W] Hs.
    destruct (create_broadcast_component_cases _ _ _ _ _ _ _ Hs)
      as [[_ ->] | [_ [io' [be [_ [_ [_ ->]]]]]]]; [split; assumption|].
    split; [exact Hf|].
    eapply wiring_step_with_trans; [exact W|].
    eapply wiring_step_with_trans; [|apply wiring_step_with_connection].
    - apply wiring_step_with_same; reflexivity.
    - intros Hk; cbn [fst snd] in *.
      destruct (HC _ _ _ _ Hc) as [[io0 [Hk0 _]] _].
      rewrite Hk0 in Hk; inversion Hk; reflexivity. }
  assert (HQ : forall x c x', In c C -> I x -> create_broadcast_component env u x c = Ok x' ->
                              Q x -> Q x').
  { intros x [cid [[cname ct0] targets]] x' Hc [Hf W] Hs [Hconn [be [Hbe [Hr Ht]]]].
    destruct (create_broadcast_component_cases _ _ _ _ _ _ _ Hs)
      as [[_ ->] | [_ [io' [be' [Hio' [Hr' [Ht' ->]]]]]]];
      [split; [exact Hconn | exists be; auto]|].
    split; [cbn; apply in_or_app; left; exact Hconn|].
    cbn [broadcast_entities add_connection set_broadcast_entities].
    destruct (String.eqb cname s) eqn:E.
    - apply String.eqb_eq in E; subst cname.
      exists be'; split; [apply entities_at_create_same|]; split; [|exact Ht'].
      unfold the_op in Hio'; rewrite Hf in Hio'; unfold the_op in Hio.
      rewrite Hio in Hio'; inversion Hio'; subst io'; exact Hr'.
    - apply String.eqb_neq in E.
      exists be; split; [|auto].
      rewrite entities_at_create_other by congruence; exact Hbe. }
  assert (Ha : forall x x', I x -> create_broadcast_component env u x (src, (s, ct, tg)) = Ok x' ->
                            Q x').
  { intros x x' [Hf W] Hs.
    destruct (create_broadcast_component_cases _ _ _ _ _ _ _ Hs)
      as [[Hlt _] | [_ [io' [be' [Hio' [Hr' [Ht' ->]]]]]]]; [lia|].
    split; [cbn; apply in_or_app; right; left; reflexivity|].
    cbn [broadcast_entities add_connection set_broadcast_entities].
    exists be'; split; [apply entities_at_create_same|]; split; [|exact Ht'].
    unfold the_op in Hio'; rewrite Hf in Hio'; unfold the_op in Hio.
    rewrite Hio in Hio'; inversion Hio'; subst io'; exact Hr'. }
  assert (HIend : I ex').
  { revert H; apply (foldM_invariant_In I); [exact HI|].
    split; [reflexivity | apply wiring_step_with_refl]. }
  destruct HIend as [Hf W]; split; [exact Hf|]; split; [exact W|].
  revert H; apply (foldM_reaches_In I Q _ (src, (s, ct, tg)) C HI HQ Ha _ _ Hin).
  split; [reflexivity | apply wiring_step_with_refl].
Qed.

Lemma NoDup_map_fst_unique {A B : Type} (l : list (A * B)) (k : A) (a b : B) :
  NoDup (map fst l) -> In (k, a) l -> In (k, b) l -> a = b.
Proof.
  induction l as [|[k' c] l IH]; intros Hnd Ha Hb; [destruct Ha|].
  cbn [map fst] in Hnd; inversion Hnd as [|? ? Hnotin Hnd']; subst.
  destruct Ha as [Ha | Ha], Hb as [Hb | Hb].
  - congruence.
  - inversion Ha; subst; exfalso; apply Hnotin.
    apply in_map_iff; exists (k, b); auto.
  - inversion Hb; subst; exfalso; apply Hnotin.
    apply in_map_iff; exists (k, a); auto.
  - apply IH; assumption.
Qed.

Lemma two_elements {A : Type} (l : list A) (a b : A) :
  a <> b -> In a l -> In b l -> (2 <= List.length l)%nat.
Proof.
  intros Hne Ha Hb; destruct l as [|x [|y l]]; cbn in *; try lia; try tauto.
  destruct Ha as [<- | []], Hb as [<- | []]; congruence.
Qed.

Lemma In_targets_in (f : Fragment) (p : string) (v : NodeType) (d : TargetPort) :
  In d (targets_in f u p v) ->
  In (u, v) (succ_ (graph f))
  /\ exists tg, lookup p (edge_data f u v) = Some tg /\ d = (v, snd d) /\ In (snd d) tg.
Proof.
  unfold targets_in; destruct (has_edge (graph f) u v) eqn:E; [|intros []].
  apply has_edge_In in E.
  destruct (lookup p (edge_data f u v)) as [tg|]; [|intros []].
  intros H; apply in_map_iff in H; destruct H as [t [<- Ht]].
  split; [exact E|]; exists tg; auto.
Qed.

(** The visit of [u], an operator with a UCX target whose output port [s]
    has two destinations or more, when the earlier operators are visited
    and the next operators are not: the port gets one broadcast entity,
    without outputs yet, and is connected to it. *)
Lemma visit_source (ex ex' : Executor) (visited : list NodeType) (d1 d2 : TargetPort) :
  let f := fragment_ ex in
  visit_operator env ex visited u = Ok ex' ->
  op_eid_ (executor_ids ex) = 0 ->
  declared_operator (the_op ex u) ->
  operator_type (the_op ex u) <> kVirtual ->
  (forall p, In p (get_previous_nodes (graph f) u) -> p <> u /\ In p visited) ->
  (forall n, In n (get_next_nodes (graph f) u) -> id (the_op ex n) = -1) ->
  has_ucx_target f u ->
  d1 <> d2 ->
  In d1 (targets_in f u s (fst d1)) -> In d2 (targets_in f u s (fst d2)) ->
  graph (fragment_ ex') = graph f
  /\ (forall m, m <> u -> the_op ex' m = the_op ex m)
  /\ (forall m, operator_type (the_op ex' m) = operator_type (the_op ex m))
  /\ executor_ids ex' = executor_ids ex
  /\ (exists added, connections_entity_ ex' = (connections_entity_ ex ++ added)%list
                    /\ Forall P added)
  /\ In (src, rx) (connections_entity_ ex')
  /\ (forall b, lookup s (edge_data (fragment_ ex') u b) = lookup s (edge_data f u b))
  /\ exists io be,
       lookup s (outputs (the_op ex' u)) = Some io
       /\ entities_at (broadcast_entities ex') (u, s) = [be]
       /\ receiver_replicates io be /\ be_transmitters be = nil.
Proof.
  intros f H Heid Hdecl Hv Hprev Hnext Hucx Hd Hd1 Hd2.
  destruct (visit_operator_initializes env _ _ _ _ H) as [Htypes _].
  destruct (visit_operator_steps _ _ _ _ _ H)
    as [op1 [op2 [exI [ex1 [C
          [Hmit [Hinit [Hg [He [Hop [Hids [Hconn [Hb [Hup [Hcol Hdown]]]]]]]]]]]]]]].
  fold f in Hmit, Hinit, Hg, He, Hup.
  apply mitigate_cycle_none in Hmit; [|exact Hprev]; subst op1.
  destruct (op_initialize_declared env _ _ _ _ _ Heid Hdecl Hv Hinit)
    as [Htype2 [Hnamed Hct]].
  assert (Hself : ~ In u (get_next_nodes (graph f) u)).
  { intros Hc; apply In_get_next_nodes in Hc.
    destruct (Hprev u (proj2 (In_get_previous_nodes _ _ _) Hc)) as [Hne _]; congruence. }
  (* the upstream pass *)
  assert (K : forall p, keeps u p exI ex1).
  { intros p; revert Hup.
    apply foldM_relation_In; [apply keeps_refl | apply keeps_trans |].
    intros x q x' Hq; apply connect_previous_op_keeps.
    intros ->; destruct (Hprev u Hq) as [Hne _]; congruence. }
  assert (W1 : wiring_step_with P exI ex1) by (destruct (K s) as [W _]; exact W).
  assert (Hop1 : forall m, the_op ex1 m = if Nat.eqb m u then op2 else the_op ex m)
    by (intros m; rewrite (wiring_step_with_the_op _ _ _ _ W1); apply Hop).
  assert (Hu1 : the_op ex1 u = op2) by (rewrite Hop1, Nat.eqb_refl; reflexivity).
  assert (Hg1 : graph (fragment_ ex1) = graph f) by (destruct W1 as [-> _]; exact Hg).
  assert (He1 : forall p b, lookup p (edge_data (fragment_ ex1) u b)
                            = lookup p (edge_data f u b)).
  { intros p b; destruct (K p) as [_ [-> _]]; rewrite He; reflexivity. }
  assert (Hv1 : operator_type (the_op ex1 u) <> kVirtual) by (rewrite Hu1; congruence).
  assert (Hid1 : forall n, In n (get_next_nodes (graph (fragment_ ex1)) u) ->
                           id (the_op ex1 n) = -1).
  { intros n Hn; rewrite Hg1 in Hn; rewrite Hop1.
    destruct (Nat.eqb n u) eqn:E; [|apply Hnext; exact Hn].
    apply Nat.eqb_eq in E; subst n; contradiction. }
  (* the collected connections *)
  assert (Hnamed1 : outputs_named (the_op ex1 u)) by (rewrite Hu1; exact Hnamed).
  pose proof (collect_connections_collected _ _ _ Hnamed1 Hcol) as Hcollected.
  assert (Hcid : forall p k, gxf_cid u kOutput p (outputs (the_op ex1 u)) = Ok k ->
                             k = cid_port u kOutput p
                             /\ exists io, lookup p (outputs (the_op ex1 u)) = Some io).
  { intros p k Hk; unfold gxf_cid in Hk.
    destruct (lookup p (outputs (the_op ex1 u))) as [io|] eqn:Hio; [|discriminate].
    destruct (Hnamed1 p io Hio) as [c [Hc [_ Hptr]]].
    rewrite Hc, Hptr in Hk; inversion Hk; eauto. }
  assert (Hhas : forall p d, In d (targets_in f u p (fst d)) ->
                             has_target C (cid_port u kOutput p) d
                             /\ exists io, lookup p (outputs (the_op ex1 u)) = Some io).
  { intros p d Hin; apply In_targets_in in Hin.
    destruct Hin as [Hedge [tg [Hl [Hd' Ht]]]].
    rewrite <- He1 in Hl; apply lookup_In in Hl; rewrite <- Hg1 in Hedge.
    destruct (collect_connections_has _ _ _ _ _ _ _ Hv1 Hcol Hedge Hl Ht)
      as [k [Hk Hhas]].
    destruct (Hcid _ _ Hk) as [-> Hio]; rewrite Hd'; auto. }
  destruct (Hhas s d1 Hd1) as [[cn1 [ct1 [tg1 [Hin1 Ht1]]]] [io Hio]].
  destruct (Hhas s d2 Hd2) as [[cn2 [ct2 [tg2 [Hin2 Ht2]]]] _].
  assert (E12 : (cn1, ct1, tg1) = (cn2, ct2, tg2))
    by (apply (NoDup_map_fst_unique C src); [apply Hcollected | exact Hin1 | exact Hin2]).
  inversion E12; subst cn2 ct2 tg2; clear E12 Hin2.
  assert (Hcn : cn1 = s).
  { destruct (proj2 Hcollected _ _ _ _ Hin1) as [[io0 [Hk _]] _]; inversion Hk; reflexivity. }
  subst cn1.
  pose proof (two_elements _ _ _ Hd Ht1 Ht2) as Hlen.
  (* a target uses a UCX connector *)
  assert (Hremote : existsb is_ucx_connection C
                    || existsb (fun next_op =>
                                  OperatorType_eqb (operator_type (the_op ex1 next_op))
                                                   kVirtual)
                               (get_next_nodes (graph (fragment_ ex1)) u) = true).
  { destruct Hucx as [[v [Hedge Hvirt]] | [p [io0 [v [Hne [Hio0 Hk]]]]]].
    - apply orb_true_iff; right; apply existsb_exists; exists v; split.
      + rewrite Hg1; apply In_get_next_nodes; exact Hedge.
      + rewrite Hop1; destruct (Nat.eqb v u) eqn:E.
        * apply Nat.eqb_eq in E; subst v; contradiction.
        * change (the_op ex v) with (op_heap f v); rewrite Hvirt; reflexivity.
    - apply orb_true_iff; left; apply existsb_exists.
      destruct (targets_in f u p v) as [|d tl] eqn:Et; [contradiction Hne; reflexivity|].
      assert (Hd0 : In d (targets_in f u p (fst d))).
      { assert (Hin : In d (targets_in f u p v)) by (rewrite Et; left; reflexivity).
        destruct (In_targets_in _ _ _ _ Hin) as [_ [tg [_ [Hd' _]]]].
        rewrite Hd' at 2; cbn [fst]; exact Hin. }
      destruct (Hhas p d Hd0) as [[cn [ct [tg [Hin Ht]]]] _].
      exists (cid_port u kOutput p, (cn, ct, tg)); split; [exact Hin|].
      destruct (proj2 Hcollected _ _ _ _ Hin) as [[io1 [Hk1 [Hio1 Hct1]]] _].
      inversion Hk1; subst cn.
      destruct (Hct p io0 Hio0) as [io' [Hio' Hct']].
      rewrite Hu1, Hio' in Hio1; inversion Hio1; subst io1.
      unfold is_ucx_connection; cbn [fst snd]; rewrite Hct1, Hct', Hk; reflexivity. }
  (* the downstream pass *)
  unfold connect_next_ops in Hdown.
  apply bind_Ok in Hdown; destruct Hdown as [[ex2 ucx] [H1 H2]].
  destruct (connect_initialized_targets_none C ex1 ex2 false ucx) as [-> ->];
    [|exact H1|].
  { intros c t Hc Ht.
    destruct c as [k [[cn ct] tg]]; cbn [snd] in Ht.
    apply Hid1; apply (proj2 (proj2 Hcollected _ _ _ _ Hc)); exact Ht. }
  cbn [orb] in H2; rewrite Hremote in H2.
  apply bind_Ok in H2; destruct H2 as [ex3 [H3 H4]].
  destruct (create_broadcast_components_source _ _ _ _ _ _ Hcollected Hin1 Hlen Hio H3)
    as [Hf3 [W3 [Hrx [be [Hbe [Hr Ht]]]]]].
  assert (E : ex' = ex3).
  { destruct (negb _); [|inversion H4; reflexivity].
    revert H4; apply (foldM_invariant_In (fun y => y = ex3)); [|reflexivity].
    intros y n y' Hn -> Hy.
    assert (Hi : id (the_op ex3 n) = -1).
    { unfold the_op; rewrite Hf3; apply Hid1; exact Hn. }
    rewrite Hi in Hy; cbn in Hy; inversion Hy; reflexivity. }
  subst ex'.
  pose proof (wiring_step_with_trans _ _ _ _ W1 W3) as W.
  split; [|split; [|split; [|split; [|split; [|split; [|split]]]]]].
  - rewrite Hf3; exact Hg1.
  - intros m Hm; unfold the_op; rewrite Hf3; fold (the_op ex1 m); rewrite Hop1.
    rewrite (proj2 (Nat.eqb_neq m u) Hm); reflexivity.
  - exact Htypes.
  - destruct W as [_ [_ [-> _]]]; exact Hids.
  - destruct W as [_ [_ [_ [added [Ha HP]]]]]; exists added; rewrite Ha, Hconn; auto.
  - exact Hrx.
  - intros b; rewrite Hf3; apply He1.
  - exists io, be; split; [|auto].
    unfold the_op; rewrite Hf3; exact Hio.
Qed.

End BroadcastSource.

Lemma Forall2_impl_In {A B : Type} (R1 R2 : A -> B -> Prop) (l1 : list A) (l2 : list B) :
  (forall a b, In b l2 -> R1 a b -> R2 a b) ->
  Forall2 R1 l1 l2 -> Forall2 R2 l1 l2.
Proof.
  intros H F; induction F as [|a b l1 l2 Hab F IH]; constructor.
  - apply H; [left; reflexivity | exact Hab].
  - apply IH; intros a' b' Hb; apply H; right; exact Hb.
Qed.

Lemma NoDup_split_eq {A : Type} (x : A) (l1 l2 l1' l2' : list A) :
  NoDup (l1 ++ x :: l2) -> (l1 ++ x :: l2 = l1' ++ x :: l2')%list ->
  l1 = l1' /\ l2 = l2'.
Proof.
  revert l1'; induction l1 as [|a l1 IH]; intros [|b l1'] Hnd E; cbn [app] in *.
  - inversion E; auto.
  - inversion E; subst; inversion Hnd as [|? ? Hnotin _]; subst.
    exfalso; apply Hnotin, in_or_app; right; left; reflexivity.
  - inversion E; subst; inversion Hnd as [|? ? Hnotin _]; subst.
    exfalso; apply Hnotin, in_or_app; right; left; reflexivity.
  - inversion E; subst; inversion Hnd as [|? ? _ Hnd']; subst.
    destruct (IH l1' Hnd' H1) as [-> ->]; auto.
Qed.

Lemma before_split (l1 l2 : list NodeType) (x : NodeType) :
  NoDup (l1 ++ x :: l2) ->
  (forall p, before (l1 ++ x :: l2) p x -> In p l1)
  /\ (forall q, before (l1 ++ x :: l2) x q -> In q l2).
Proof.
  intros Hnd; split.
  - intros p [a [b [c E]]].
    change (a ++ p :: b ++ x :: c)%list with (a ++ (p :: b) ++ x :: c)%list in E.
    rewrite app_assoc in E.
    destruct (NoDup_split_eq _ _ _ _ _ Hnd E) as [-> _].
    apply in_or_app; right; left; reflexivity.
  - intros q [a [b [c E]]].
    destruct (NoDup_split_eq _ _ _ _ _ Hnd E) as [_ ->].
    apply in_or_app; right; left; reflexivity.
Qed.

Lemma entities_at_one (Q : BroadcastEntity -> Prop) (b : BroadcastEntityMapType)
  (key : NodeType * string) (be : BroadcastEntity) :
  entities_at b key = [be] -> Q be -> one_broadcast_entity Q b key.
Proof.
  intros H HQ; split.
  - unfold count_broadcast; unfold entities_at in H.
    rewrite <- (length_map snd), H; reflexivity.
  - intros e Hin Hk.
    assert (He : In (snd e) (entities_at b key)).
    { unfold entities_at; apply in_map, filter_In; auto. }
    rewrite H in He; destruct He as [<- | []]; exact HQ.
Qed.

Lemma add_transmitters_spec (txs : list BroadcastTransmitter) :
  forall be : BroadcastEntity,
    be_transmitters (fold_left add_transmitter txs be) = (be_transmitters be ++ txs)%list
    /\ forall io, receiver_replicates io be ->
                  receiver_replicates io (fold_left add_transmitter txs be).
Proof.
  induction txs as [|t txs IH]; intros be; cbn [fold_left].
  - rewrite app_nil_r; auto.
  - destruct (IH (add_transmitter be t)) as [E R]; split.
    + rewrite E; cbn; rewrite <- app_assoc; reflexivity.
    + intros io H; apply R; exact H.
Qed.

Lemma destinations_nil (f : Fragment) (u : NodeType) (s : string) (l : list NodeType) :
  (forall n, In n l -> ~ In (u, n) (succ_ (graph f))) -> destinations f u s l = nil.
Proof.
  induction l as [|n l IH]; intros H; [reflexivity|].
  unfold destinations; cbn [flat_map]; fold (destinations f u s l).
  rewrite IH by (intros m Hm; apply H; right; exact Hm).
  rewrite app_nil_r; unfold targets_in.
  destruct (has_edge (graph f) u n) eqn:E; [|reflexivity].
  apply has_edge_In in E; contradiction (H n (or_introl eq_refl)).
Qed.

Section BroadcastTraversal.

Variable env : Environment.
Variable u : NodeType.
Variable s : string.
Variable f0 : Fragment.
Hypothesis Hsucc : NoDup (succ_ (graph f0)).

Local Abbreviation P := (only_to_broadcast u s).
Local Abbreviation src := (cid_port u kOutput s).

(** The visits before [u], of operators that [u] has no edge to. *)
Lemma visits_before :
  forall (l : list NodeType) (ex : Executor) (visited : list NodeType) (ex' : Executor),
    visit_in_order env ex visited l = Ok ex' ->
    graph (fragment_ ex) = graph f0 ->
    ~ In u l ->
    (forall n, In n l -> ~ In (u, n) (succ_ (graph f0))) ->
    graph (fragment_ ex') = graph f0
    /\ (forall m, ~ In m l -> the_op ex' m = the_op ex m)
    /\ (forall m, operator_type (the_op ex' m) = operator_type (the_op ex m))
    /\ executor_ids ex' = executor_ids ex
    /\ (exists added, connections_entity_ ex' = (connections_entity_ ex ++ added)%list
                      /\ Forall P added)
    /\ (forall b, ~ In b l -> lookup s (edge_data (fragment_ ex') u b)
                              = lookup s (edge_data (fragment_ ex) u b)).
Proof.
  induction l as [|v l IH]; intros ex visited ex' H Hg Hu Hedge; cbn [visit_in_order] in H.
  - inversion H; subst; split; [exact Hg|]; repeat split; auto.
    exists nil; rewrite app_nil_r; auto.
  - apply bind_Ok in H; destruct H as [ex1 [Hv H]].
    assert (Hne : v <> u) by (intros ->; apply Hu; left; reflexivity).
    assert (Hnot : ~ In u (get_previous_nodes (graph (fragment_ ex)) v)).
    { rewrite Hg; intros Hc; apply In_get_previous_nodes in Hc.
      exact (Hedge v (or_introl eq_refl) Hc). }
    destruct (visit_other env u s ex ex1 (v :: visited) v Hne) as
      [Hg1 [Hop1 [Ht1 [Hi1 [[a1 [Ha1 HP1]] [He1 _]]]]]];
      [rewrite Hg; apply NoDup_get_previous_nodes; exact Hsucc
      | intros Hc; contradiction | exact Hv |].
    destruct (IH ex1 (v :: visited) ex' H) as
      [Hg2 [Hop2 [Ht2 [Hi2 [[a2 [Ha2 HP2]] He2]]]]];
      [rewrite Hg1; exact Hg | intros Hc; apply Hu; right; exact Hc
      | intros n Hn; apply Hedge; right; exact Hn |].
    split; [exact Hg2|]; split; [|split; [|split; [|split]]].
    + intros m Hm; rewrite Hop2 by (intros Hc; apply Hm; right; exact Hc).
      apply Hop1; intros ->; apply Hm; left; reflexivity.
    + intros m; rewrite Ht2; apply Ht1.
    + congruence.
    + exists (a1 ++ a2)%list; rewrite Ha2, Ha1, app_assoc; split; [reflexivity|].
      apply Forall_app; auto.
    + intros b Hb; rewrite He2 by (intros Hc; apply Hb; right; exact Hc).
      apply He1; intros ->; apply Hb; left; reflexivity.
Qed.

(** The visits after [u]: the broadcast entity of the port gets one
    output for every destination of the port in the operators visited, in
    the order of the visits. *)
Lemma visits_after (io : IOSpec) :
  forall (l : list NodeType) (ex : Executor) (visited : list NodeType) (ex' : Executor)
         (be : BroadcastEntity) (done : list TargetPort),
    visit_in_order env ex visited l = Ok ex' ->
    graph (fragment_ ex) = graph f0 ->
    ~ In u l -> NoDup l ->
    lookup s (outputs (the_op ex u)) = Some io ->
    (forall b, In b l -> lookup s (edge_data (fragment_ ex) u b)
                         = lookup s (edge_data f0 u b)) ->
    entities_at (broadcast_entities ex) (u, s) = [be] ->
    receiver_replicates io be ->
    Forall2 (serves ex io s) (be_transmitters be) done ->
    (forall d, In d done -> ~ In (fst d) l) ->
    Forall P (connections_entity_ ex) ->
    exists be',
      entities_at (broadcast_entities ex') (u, s) = [be']
      /\ receiver_replicates io be'
      /\ Forall2 (serves ex' io s) (be_transmitters be')
                 (done ++ destinations f0 u s l)%list
      /\ the_op ex' u = the_op ex u
      /\ Forall P (connections_entity_ ex')
      /\ (forall c, In c (connections_entity_ ex) -> In c (connections_entity_ ex')).
Proof.
  induction l as [|v l IH];
    intros ex visited ex' be done H Hg Hu Hnd Hio Hedges Hbe Hr Hdone Hfst HP;
    cbn [visit_in_order] in H.
  - inversion H; subst; exists be; cbn [destinations flat_map]; rewrite app_nil_r.
    split; [exact Hbe|]; split; [exact Hr|]; split; [exact Hdone|].
    split; [reflexivity|]; split; [exact HP | auto].
  - apply bind_Ok in H; destruct H as [ex1 [Hv H]].
    assert (Hne : v <> u) by (intros ->; apply Hu; left; reflexivity).
    inversion Hnd as [|? ? Hvl Hnd']; subst.
    destruct (visit_other env u s ex ex1 (v :: visited) v Hne) as
      [Hg1 [Hop1 [Ht1 [Hi1 [[a1 [Ha1 HP1]] [He1 [txs [Hb1 Hs1]]]]]]]];
      [rewrite Hg; apply NoDup_get_previous_nodes; exact Hsucc
      | intros _; exists be; exact Hbe | exact Hv |].
    rewrite Hbe in Hb1; cbn [map] in Hb1.
    destruct (add_transmitters_spec txs be) as [Etx Hr1].
    assert (Et : targets_in (fragment_ ex) u s v = targets_in f0 u s v).
    { unfold targets_in; rewrite Hg, (Hedges v (or_introl eq_refl)); reflexivity. }
    assert (Hin1 : forall c, In c (connections_entity_ ex) -> In c (connections_entity_ ex1))
      by (intros c Hc; rewrite Ha1; apply in_or_app; left; exact Hc).
    destruct (IH ex1 (v :: visited) ex' (fold_left add_transmitter txs be)
                (done ++ targets_in f0 u s v)%list H) as
      [be' [Hbe' [Hr' [Hs' [Hop' [HP' Hin']]]]]].
    + rewrite Hg1; exact Hg.
    + intros Hc; apply Hu; right; exact Hc.
    + exact Hnd'.
    + rewrite (Hop1 u) by congruence; exact Hio.
    + intros b Hb; rewrite He1 by (intros ->; contradiction).
      apply Hedges; right; exact Hb.
    + exact Hb1.
    + apply Hr1; exact Hr.
    + rewrite Etx; apply Forall2_app.
      * revert Hdone; apply Forall2_impl_In.
        intros tx d Hd; apply serves_mono; [|exact Hin1].
        apply Hop1; intros Hc; apply (Hfst d Hd); left; symmetry; exact Hc.
      * rewrite <- Et; apply Hs1; exact Hio.
    + intros d Hd; apply in_app_or in Hd; destruct Hd as [Hd | Hd].
      * intros Hc; apply (Hfst d Hd); right; exact Hc.
      * apply In_targets_in in Hd; destruct Hd as [_ [tg [_ [Hd _]]]].
        rewrite Hd; cbn [fst]; exact Hvl.
    + rewrite Ha1; apply Forall_app; auto.
    + exists be'; split; [exact Hbe'|]; split; [exact Hr'|]; split; [|split; [|split]].
      * unfold destinations; cbn [flat_map]; fold (destinations f0 u s l).
        rewrite app_assoc; exact Hs'.
      * rewrite Hop'; apply Hop1; congruence.
      * exact HP'.
      * auto.
Qed.

End BroadcastTraversal.

Lemma NoDup_app_disjoint {A : Type} (l1 l2 : list A) (a : A) :
  NoDup (l1 ++ l2) -> In a l1 -> In a l2 -> False.
Proof.
  induction l1 as [|x l1 IH]; intros Hnd H1 H2; [destruct H1|].
  cbn [app] in Hnd; inversion Hnd as [|? ? Hnotin Hnd']; subst.
  destruct H1 as [-> | H1]; [apply Hnotin, in_or_app; right; exact H2 | auto].
Qed.

Lemma targets_in_eq (f1 f2 : Fragment) (u : NodeType) (p : string) (v : NodeType) :
  graph f1 = graph f2 ->
  lookup p (edge_data f1 u v) = lookup p (edge_data f2 u v) ->
  targets_in f1 u p v = targets_in f2 u p v.
Proof. intros Hg Hl; unfold targets_in; rewrite Hg, Hl; reflexivity. Qed.

(** The order of the visits of an acyclic graph. *)
Lemma acyclic_traversal_order (env : Environment) (ex : Executor) (fuel : nat)
  (w' : Worklist) (ex' : Executor) :
  let g := graph (fragment_ ex) in
  wf_fragment (fragment_ ex) -> acyclic g ->
  (List.length (get_nodes g) < fuel)%nat ->
  initialize_loop env fuel (get_nodes g) (init_worklist g) ex = Ok (w', ex') ->
  NoDup (initialization_order w')
  /\ Permutation (initialization_order w') (get_nodes g)
  /\ (forall a b, edge g a b -> before (initialization_order w') a b)
  /\ visit_in_order env ex nil (initialization_order w') = Ok ex'.
Proof.
  intros g Hwf Hacyclic Hfuel Hrun; unfold get_nodes in *.
  pose proof (wf_nodes _ Hwf) as Hnodes; pose proof (wf_succ _ Hwf) as Hsucc.
  pose proof (wf_endpoints _ Hwf) as Hend; fold g in Hnodes, Hsucc, Hend.
  pose proof (sched_inv_init g Hnodes) as Hinit.
  assert (Hvis0 : visited_nodes (init_worklist g) = nil).
  { unfold init_worklist.
    destruct (init_worklist_fold g (get_nodes g) (mkWorklist nil (fun _ => 0) nil))
      as [_ [Hv _]]; exact Hv. }
  destruct (initialize_loop_acyclic env g Hnodes Hsucc Hend Hacyclic fuel
              (init_worklist g) ex Hinit eq_refl) as [Hok | Hfail].
  - rewrite Hvis0; cbn [List.length]; lia.
  - destruct Hok as [w1 [ex1 [Hrun1 [Hinv [Hw _]]]]].
    rewrite Hrun in Hrun1; inversion Hrun1; subst w1 ex1; clear Hrun1.
    pose proof (inv_nodup g w' Hinv) as Hnd; rewrite Hw, app_nil_r in Hnd.
    assert (Hincl : incl (visited_nodes w') (ordered_nodes g)).
    { intros x Hx; apply (inv_nodes g w' Hinv), in_app_iff; left; exact Hx. }
    pose proof (sched_inv_done g Hnodes Hend Hacyclic w' Hinv Hw) as Hlen.
    assert (Hperm : Permutation (visited_nodes w') (ordered_nodes g)).
    { apply NoDup_Permutation_bis; [exact Hnd | lia | exact Hincl]. }
    destruct (initialize_loop_visits _ _ _ _ _ _ _ Hrun) as [l [Hl Hvisits]].
    rewrite Hvis0, app_nil_r in Hl; rewrite Hvis0 in Hvisits.
    assert (Horder : initialization_order w' = l)
      by (unfold initialization_order; rewrite Hl; apply rev_involutive).
    split; [unfold initialization_order; apply NoDup_rev; exact Hnd|].
    split; [|split].
    + unfold initialization_order.
      eapply Permutation_trans; [apply Permutation_sym, Permutation_rev | exact Hperm].
    + intros a b Hab.
      assert (Hb : In b (visited_nodes w')).
      { apply (Permutation_in _ (Permutation_sym Hperm)), (Hend a b Hab). }
      apply in_split in Hb; destruct Hb as [l1 [l2 Heq]].
      apply (before_rev _ a b l1 l2 Heq), (inv_topo g w' Hinv l1 b l2 Heq a Hab).
    + rewrite Horder; exact Hvisits.
  - exfalso; destruct Hfail as [l [n [ex0 [_ [_ [_ Hfail]]]]]].
    rewrite Hrun in Hfail; inversion Hfail.
Qed.

(** The plan of a source port with two destinations or more, of an
    operator with a UCX target, when the operators are visited in a
    topological order. *)
Lemma broadcast_plan (env : Environment) (ex ex' : Executor) (l : list NodeType)
  (u : NodeType) (s : string) (d1 d2 : TargetPort) :
  let f := fragment_ ex in
  let g := graph f in
  wf_fragment f ->
  (forall n, In n (get_nodes g) -> declared_operator (op_heap f n)) ->
  op_eid_ (executor_ids ex) = 0 ->
  connections_entity_ ex = nil ->
  NoDup l -> (forall n, In n l <-> In n (get_nodes g)) ->
  (forall a b, edge g a b -> before l a b) ->
  visit_in_order env ex nil l = Ok ex' ->
  operator_type (op_heap f u) <> kVirtual ->
  has_ucx_target f u ->
  d1 <> d2 ->
  In d1 (destinations f u s (get_nodes g)) -> In d2 (destinations f u s (get_nodes g)) ->
  exists io be,
    lookup s (outputs (the_op ex' u)) = Some io
    /\ entities_at (broadcast_entities ex') (u, s) = [be]
    /\ receiver_replicates io be
    /\ Forall2 (serves ex' io s) (be_transmitters be) (destinations f u s l)
    /\ In (cid_port u kOutput s, cid_broadcast_rx u s) (connections_entity_ ex')
    /\ Forall (only_to_broadcast u s) (connections_entity_ ex').
Proof.
  intros f g Hwf Hdecl Heid Hconn Hnd Hl Hbefore Hrun Hv Hucx Hd Hd1 Hd2.
  unfold get_nodes in *.
  pose proof (wf_succ _ Hwf) as Hsucc; pose proof (wf_endpoints _ Hwf) as Hend.
  fold g in Hsucc, Hend.
  assert (Hdest : forall d, In d (destinations f u s (ordered_nodes g)) ->
                            In (u, fst d) (succ_ g) /\ In d (targets_in f u s (fst d))).
  { intros d Hin; unfold destinations in Hin; apply in_flat_map in Hin.
    destruct Hin as [v [_ Hin]].
    destruct (In_targets_in _ _ _ _ _ Hin) as [Hedge [tg [_ [E _]]]].
    rewrite E; cbn [fst]; rewrite <- E; auto. }
  destruct (Hdest d1 Hd1) as [He1 Ht1]; destruct (Hdest d2 Hd2) as [He2 Ht2].
  assert (Hu : In u l) by (apply Hl, (Hend u (fst d1) He1)).
  apply in_split in Hu; destruct Hu as [l1 [l2 El]]; subst l.
  destruct (before_split l1 l2 u Hnd) as [Hpre Hpost].
  assert (Hu1 : ~ In u l1).
  { intros Hc; apply (NoDup_app_disjoint _ _ u Hnd Hc); left; reflexivity. }
  assert (Hnd2 : NoDup (u :: l2)) by (apply NoDup_app_remove_l in Hnd; exact Hnd).
  assert (Hu2 : ~ In u l2) by (inversion Hnd2; assumption).
  assert (Hnext : forall n, In (u, n) (succ_ g) -> In n l2 /\ ~ In n l1 /\ n <> u).
  { intros n Hn; pose proof (Hpost n (Hbefore u n Hn)) as H2.
    split; [exact H2|]; split.
    - intros Hc; apply (NoDup_app_disjoint _ _ n Hnd Hc); right; exact H2.
    - intros ->; contradiction. }
  rewrite visit_in_order_app in Hrun.
  apply bind_Ok in Hrun; destruct Hrun as [exA [HA Hrun]].
  cbn [visit_in_order] in Hrun.
  apply bind_Ok in Hrun; destruct Hrun as [exB [HB Hrun]].
  assert (Hbefore1 : forall n, In n l1 -> ~ In (u, n) (succ_ (graph f))).
  { intros n Hn Hc; destruct (Hnext n Hc) as [_ [Hnot _]]; contradiction. }
  assert (HphaseB : forall p,
             graph (fragment_ exA) = graph f
             /\ (forall m, ~ In m l1 -> the_op exA m = the_op ex m)
             /\ (forall m, operator_type (the_op exA m) = operator_type (the_op ex m))
             /\ executor_ids exA = executor_ids ex
             /\ (exists added,
                    connections_entity_ exA = (connections_entity_ ex ++ added)%list
                    /\ Forall (only_to_broadcast u p) added)
             /\ (forall b, ~ In b l1 -> lookup p (edge_data (fragment_ exA) u b)
                                        = lookup p (edge_data f u b)))
    by (intros p; apply (visits_before env u p f Hsucc l1 ex nil exA HA eq_refl Hu1 Hbefore1)).
  destruct (HphaseB s) as [HgA [HopA [HtA [HiA [[aA [HaA HPA]] HeA]]]]].
  assert (HtargetsA : forall p v, In (u, v) (succ_ g) ->
                                  targets_in (fragment_ exA) u p v = targets_in f u p v).
  { intros p v Hedge; apply targets_in_eq; [exact HgA|].
    destruct (HphaseB p) as [_ [_ [_ [_ [_ HeAp]]]]].
    apply HeAp; apply (Hnext v Hedge). }
  destruct (visit_source env u s exA exB (u :: rev l1 ++ nil) d1 d2 HB)
    as [HgB [HopB [HtB [HiB [[aB [HaB HPB]] [Hrx [HeB [io [be [Hio [Hbe [Hr Htx]]]]]]]]]]]].
  - rewrite HiA; exact Heid.
  - rewrite HopA by exact Hu1; apply Hdecl, (Hend u (fst d1) He1).
  - rewrite HtA; exact Hv.
  - intros p Hp; rewrite HgA in Hp; apply In_get_previous_nodes in Hp.
    pose proof (Hpre p (Hbefore p u Hp)) as Hp1.
    split; [intros ->; contradiction|].
    right; apply in_or_app; left; apply -> in_rev; exact Hp1.
  - intros n Hn; rewrite HgA in Hn; apply In_get_next_nodes in Hn.
    rewrite HopA by (apply (Hnext n Hn)).
    apply Hdecl, (Hend u n Hn).
  - destruct Hucx as [[v [Hedge Hvirt]] | [p [io0 [v [Hne [Hio0 Hk]]]]]].
    + left; exists v; split; [unfold edge; rewrite HgA; exact Hedge|].
      change (op_heap (fragment_ exA) v) with (the_op exA v); rewrite HtA; exact Hvirt.
    + right; exists p, io0, v.
      assert (Hedge : In (u, v) (succ_ g)).
      { destruct (targets_in f u p v) as [|d tl] eqn:Et; [contradiction Hne; reflexivity|].
        assert (Hin : In d (targets_in f u p v)) by (rewrite Et; left; reflexivity).
        apply (In_targets_in _ _ _ _ _ Hin). }
      rewrite (HtargetsA p v Hedge); split; [exact Hne|]; split; [|exact Hk].
      change (op_heap (fragment_ exA) u) with (the_op exA u).
      rewrite HopA by exact Hu1; exact Hio0.
  - exact Hd.
  - rewrite (HtargetsA s _ He1); exact Ht1.
  - rewrite (HtargetsA s _ He2); exact Ht2.
  - destruct (visits_after env u s f Hsucc io l2 exB (u :: rev l1 ++ nil) ex' be nil Hrun)
      as [be' [Hbe' [Hr' [Hs' [Hop' [HP' Hin']]]]]].
    + rewrite HgB; exact HgA.
    + exact Hu2.
    + inversion Hnd2; assumption.
    + exact Hio.
    + intros b Hb; rewrite HeB; apply HeA.
      intros Hc; apply (NoDup_app_disjoint _ _ b Hnd Hc); right; exact Hb.
    + exact Hbe.
    + exact Hr.
    + rewrite Htx; constructor.
    + intros d [].
    + rewrite HaB, HaA, Hconn; cbn [app]; apply Forall_app; auto.
    + exists io, be'; split; [rewrite Hop'; exact Hio|]; split; [exact Hbe'|].
      split; [exact Hr'|]; split; [|split; [apply Hin'; exact Hrx | exact HP']].
      cbn [app] in Hs'.
      assert (E : destinations f u s (l1 ++ u :: l2) = destinations f u s l2).
      { change (l1 ++ u :: l2)%list with (l1 ++ [u] ++ l2)%list.
        rewrite app_assoc; unfold destinations; rewrite flat_map_app.
        fold (destinations f u s (l1 ++ [u])); fold (destinations f u s l2).
        rewrite destinations_nil; [reflexivity|].
        intros n Hn Hc; destruct (Hnext n Hc) as [_ [Hn1 Hn2]].
        apply in_app_or in Hn; destruct Hn as [Hn | [Hn | []]]; [contradiction|].
        congruence. }
      rewrite E; exact Hs'.
Qed.

Lemma lookup_of_In {A : Type} (k : string) (v : A) (m : list (string * A)) :
  NoDup (map fst m) -> In (k, v) m -> lookup k m = Some v.
Proof.
  induction m as [|[k' v'] m IH]; intros Hnd Hin; [destruct Hin|].
  cbn [map fst] in Hnd; inversion Hnd as [|? ? Hnotin Hnd']; subst.
  cbn [lookup]; destruct Hin as [E | Hin].
  - inversion E; subst; rewrite String.eqb_refl; reflexivity.
  - destruct (String.eqb k k') eqn:Ek; [|apply IH; assumption].
    apply String.eqb_eq in Ek; subst k'.
    exfalso; apply Hnotin, in_map_iff; exists (k, v); auto.
Qed.

Lemma In_destinations (f : Fragment) (u : NodeType) (s : string) (l : list NodeType)
  (v : NodeType) (t : string) :
  In (v, t) (destinations f u s l) <-> In v l /\ In (v, t) (targets_in f u s v).
Proof.
  unfold destinations; rewrite in_flat_map; split.
  - intros [n [Hn Hin]].
    destruct (In_targets_in _ _ _ _ _ Hin) as [_ [tg [_ [E _]]]].
    inversion E; subst n; auto.
  - intros [Hv Hin]; exists v; auto.
Qed.

(** The destinations of a source port are the targets of its port-level
    edges, each once. *)
Lemma destinations_port_edges (f : Fragment) (u : NodeType) (s : string)
  (l : list NodeType) :
  wf_fragment f -> (forall n, In n l <-> In n (get_nodes (graph f))) ->
  forall v t, In (v, t) (destinations f u s l) <-> In (u, s, v, t) (port_edges f).
Proof.
  intros Hwf Hl v t; rewrite In_destinations, In_port_edges; split.
  - intros [_ Hin].
    destruct (In_targets_in _ _ _ _ _ Hin) as [Hedge [tg [Hlk [_ Ht]]]].
    split; [exact Hedge|]; exists tg; split; [apply lookup_In; exact Hlk | exact Ht].
  - intros [Hedge [tg [Hin Ht]]]; split.
    + apply Hl, (wf_endpoints _ Hwf u v Hedge).
    + unfold targets_in; rewrite (proj2 (has_edge_In _ _ _) Hedge).
      rewrite (lookup_of_In s tg _ (proj1 (wf_port_maps _ Hwf u v Hedge)) Hin).
      apply in_map; exact Ht.
Qed.

Lemma NoDup_destinations (f : Fragment) (u : NodeType) (s : string) (l : list NodeType) :
  wf_fragment f -> NoDup l -> NoDup (destinations f u s l).
Proof.
  intros Hwf Hnd; unfold destinations; apply NoDup_flat_map; [exact Hnd | |].
  - intros v _; unfold targets_in.
    destruct (has_edge (graph f) u v) eqn:E; [|constructor].
    destruct (lookup s (edge_data f u v)) as [tg|] eqn:El; [|constructor].
    apply NoDup_map_injective; [intros x y _ _ H; congruence|].
    apply (wf_port_map_lookup s tg (edge_data f u v)); [|exact El].
    apply (wf_port_maps _ Hwf), has_edge_In, E.
  - intros x y b _ _ Hx Hy.
    destruct (In_targets_in _ _ _ _ _ Hx) as [_ [_ [_ [Ex _]]]].
    destruct (In_targets_in _ _ _ _ _ Hy) as [_ [_ [_ [Ey _]]]].
    congruence.
Qed.

(** C1 (amended).  Broadcast entities are inserted only for an operator
    that has a target with a UCX connector (a virtual next operator, or a
    connected output port of the connector type kUCX).

    The downstream pass of the visit of an operator without such a target
    creates no broadcast entity, whatever the fan-out; with one, it gives
    every source port with two or more distinct targets exactly one
    broadcast entity, connected to the source port, whose input replicates
    the capacity and the policy of the source's transmitter and the
    min_size of its downstream-affordable condition.

    In the plan of an acyclic fragment of declared operators, the output
    port [s] of an operator [u] that is not virtual and has a UCX target,
    with two distinct destinations or more (port-level edges from the
    port), has exactly one broadcast entity.  Its input replicates the
    source output, and its outputs are, in the order in which the
    destinations are initialized, one for each port-level edge from the
    port: towards an operator of the fragment (the source port
    not being a UCX port) a double-buffer transmitter that replicates the
    capacity and the policy of the source's connector, carries a scheduling
    term with the min_size of the source's downstream-affordable condition
    and is connected to the receiver of the destination port; towards a
    virtual operator a UCX transmitter with the arguments of the virtual
    operator.  The output port is connected to the broadcast entity and to
    nothing else.

    In the plan of a fragment of local operators (no virtual operator, no
    UCX connector) there is no broadcast entity, and the connections are the
    direct ones, one for each port-level edge. *)
Theorem broadcast_only_with_a_ucx_target (env : Environment) :
  (forall (ex ex' : Executor) (op_n : NodeType) (connections : TargetConnectionsMapType),
     connect_next_ops env ex op_n connections = Ok ex' ->
     (has_remote_target ex op_n connections = false ->
      broadcast_entities ex' = broadcast_entities ex)
     /\ (has_remote_target ex op_n connections = true ->
         forall source_cid source_cname conn_type target_ports,
           In (source_cid, (source_cname, conn_type, target_ports)) connections ->
           (2 <= List.length target_ports)%nat ->
           exists io,
             lookup source_cname (outputs (the_op ex op_n)) = Some io
             /\ one_broadcast_entity (receiver_replicates io) (broadcast_entities ex')
                                     (op_n, source_cname)
             /\ In (source_cid, cid_broadcast_rx op_n source_cname)
                   (connections_entity_ ex')))
  /\ (forall (fuel : nat) (ex : Executor) (w' : Worklist) (ex' : Executor)
             (u : NodeType) (s : string) (v1 v2 : NodeType) (t1 t2 : string),
        let f := fragment_ ex in
        let g := graph f in
        wf_fragment f -> acyclic g ->
        (forall n, In n (get_nodes g) -> declared_operator (op_heap f n)) ->
        op_eid_ (executor_ids ex) = 0 ->
        connections_entity_ ex = nil ->
        (List.length (get_nodes g) < fuel)%nat ->
        initialize_loop env fuel (get_nodes g) (init_worklist g) ex = Ok (w', ex') ->
        operator_type (op_heap f u) <> kVirtual ->
        has_ucx_target f u ->
        In (u, s, v1, t1) (port_edges f) ->
        In (u, s, v2, t2) (port_edges f) ->
        (v1, t1) <> (v2, t2) ->
        exists io,
          lookup s (outputs (the_op ex' u)) = Some io
          /\ one_broadcast_entity
               (fun be => receiver_replicates io be
                          /\ Forall2 (serves ex' io s) (be_transmitters be)
                                     (destinations f u s (initialization_order w')))
               (broadcast_entities ex') (u, s)
          /\ NoDup (destinations f u s (initialization_order w'))
          /\ (forall v t, In (v, t) (destinations f u s (initialization_order w'))
                          <-> In (u, s, v, t) (port_edges f))
          /\ In (cid_port u kOutput s, cid_broadcast_rx u s) (connections_entity_ ex')
          /\ forall c, In (cid_port u kOutput s, c) (connections_entity_ ex') ->
                       c = cid_broadcast_rx u s)
  /\ (forall (fuel : nat) (ex : Executor) (w' : Worklist) (ex' : Executor),
        let f := fragment_ ex in
        let g := graph f in
        wf_fragment f ->
        env_kAnySize env <> kSizeOne ->
        (forall n, In n (get_nodes g) -> local_operator env (op_heap f n)) ->
        executor_ids ex = mkExecutorIds 0 0 ->
        connections_entity_ ex = nil ->
        broadcast_entities ex = nil ->
        (List.length (get_nodes g) < fuel)%nat ->
        initialize_loop env fuel (get_nodes g) (init_worklist g) ex = Ok (w', ex') ->
        broadcast_entities ex' = nil
        /\ NoDup (connections_entity_ ex')
        /\ forall c, In c (connections_entity_ ex')
                     <-> exists e, In e (port_edges f) /\ c = connection_of e).
Proof.
  split; [intros ex ex' op_n connections; apply connect_next_ops_broadcast|].
  split.
  - intros fuel ex w' ex' u s v1 v2 t1 t2 f g Hwf Hacyclic Hdecl Heid Hconn Hfuel Hrun
           Hv Hucx He1 He2 Hd.
    destruct (acyclic_traversal_order env ex fuel w' ex' Hwf Hacyclic Hfuel Hrun)
      as [Hnd [Hperm [Hbefore Hvisits]]].
    assert (Hl : forall n, In n (initialization_order w') <-> In n (get_nodes g)).
    { intros n; split; apply Permutation_in;
        [exact Hperm | apply Permutation_sym; exact Hperm]. }
    assert (Hall : forall n, In n (get_nodes g) <-> In n (get_nodes (graph f)))
      by (intros n; reflexivity).
    destruct (broadcast_plan env ex ex' (initialization_order w') u s (v1, t1) (v2, t2)
                Hwf Hdecl Heid Hconn Hnd Hl) as [io [be [Hio [Hbe [Hr [Hs [Hrx HP]]]]]]];
      try assumption.
    + apply (destinations_port_edges f u s (get_nodes g) Hwf Hall); exact He1.
    + apply (destinations_port_edges f u s (get_nodes g) Hwf Hall); exact He2.
    + exists io; split; [exact Hio|]; split; [|split; [|split; [|split; [exact Hrx|]]]].
      * apply (entities_at_one _ _ _ be Hbe); auto.
      * apply NoDup_destinations; assumption.
      * apply (destinations_port_edges f u s _ Hwf Hl).
      * intros c Hc; rewrite Forall_forall in HP.
        apply (HP _ Hc); reflexivity.
  - intros fuel ex w' ex' f g Hwf Hany Hlocal Hids Hconns Hb Hfuel Hrun.
    destruct (initialize_loop_ends env ex fuel Hwf Hfuel) as [[Hok | Hfail] _].
    + destruct Hok as [w1 [ex1 [Hrun1 [_ [Hin _]]]]].
      fold f in Hrun1; fold g in Hrun1; rewrite Hrun in Hrun1.
      inversion Hrun1; subst w1 ex1.
      destruct (local_fragment_plan env ex fuel w' ex' Hwf Hany Hlocal Hids Hconns Hb
                  Hrun Hin) as [Hnodup [Hc [Hnil _]]].
      auto.
    + exfalso; destruct Hfail as [l [n [ex0 [_ [_ [_ Hfail]]]]]].
      fold f in Hfail; fold g in Hfail; rewrite Hrun in Hfail; inversion Hfail.
Qed.

Lemma wf_local_and_remote : wf_fragment Examples.local_and_remote.
Proof.
  constructor.
  - vm_compute; solve_NoDup.
  - vm_compute; solve_NoDup.
  - intros u v H; vm_compute in H.
    destruct H as [H | [H | []]]; inversion H; subst; vm_compute; auto.
  - intros u v H; vm_compute in H.
    destruct H as [H | [H | []]]; inversion H; subst; split; vm_compute;
      [solve_NoDup | repeat constructor; intuition
      | solve_NoDup | repeat constructor; intuition].
Defined.

Lemma declared_local_and_remote (n : NodeType) :
  In n (get_nodes (graph Examples.local_and_remote)) ->
  declared_operator (op_heap Examples.local_and_remote n).
Proof.
  intros H; vm_compute in H.
  destruct H as [<- | [<- | [<- | []]]]; constructor; try reflexivity;
    intros p io Hin; vm_compute in Hin;
    try (destruct Hin as [E | []]; inversion E; subst; split; reflexivity);
    destruct Hin.
Defined.

(** In [Examples.local_and_remote] the output of "tx" has a destination in
    the fragment and one in another fragment.  The downstream pass of "tx"
    creates one broadcast entity for it; in the plan the entity has one
    output for each of the two destinations, and the output of "tx" is
    connected to the entity only. *)
Lemma broadcast_only_with_a_ucx_target_witness :
  (exists io,
     lookup "out" (outputs (the_op Examples.local_and_remote_initialized 0%nat)) = Some io
     /\ one_broadcast_entity (receiver_replicates io)
          (broadcast_entities Examples.local_and_remote_wired) (0%nat, "out")
     /\ In (cid_port 0 kOutput "out", cid_broadcast_rx 0 "out")
           (connections_entity_ Examples.local_and_remote_wired))
  /\ exists w' ex' io,
       initialize_loop Examples.env 4 (get_nodes (graph Examples.local_and_remote))
         (init_worklist (graph Examples.local_and_remote))
         (Examples.executor_of Examples.local_and_remote) = Ok (w', ex')
       /\ lookup "out" (outputs (the_op ex' 0%nat)) = Some io
       /\ one_broadcast_entity
            (fun be => receiver_replicates io be
                       /\ Forall2 (serves ex' io "out") (be_transmitters be)
                                  (destinations Examples.local_and_remote 0%nat "out"
                                     (initialization_order w')))
            (broadcast_entities ex') (0%nat, "out")
       /\ In (cid_port 0 kOutput "out", cid_broadcast_rx 0 "out") (connections_entity_ ex')
       /\ forall c, In (cid_port 0 kOutput "out", c) (connections_entity_ ex') ->
                    c = cid_broadcast_rx 0 "out".
Proof.
  destruct (broadcast_only_with_a_ucx_target Examples.env) as [Hnext [Hplan _]]; split.
  - destruct (Hnext Examples.local_and_remote_initialized Examples.local_and_remote_wired
                0%nat Examples.local_and_remote_connections) as [_ Hremote];
      [vm_compute; reflexivity|].
    assert (E : has_remote_target Examples.local_and_remote_initialized 0%nat
                  Examples.local_and_remote_connections = true)
      by (vm_compute; reflexivity).
    apply (Hremote E (cid_port 0 kOutput "out") "out" kDefault
             [(1%nat, "in"); (2%nat, "out")]).
    + vm_compute; left; reflexivity.
    + cbn; lia.
  - destruct (initialize_loop Examples.env 4 (get_nodes (graph Examples.local_and_remote))
                (init_worklist (graph Examples.local_and_remote))
                (Examples.executor_of Examples.local_and_remote))
      as [[w' ex']| | | |] eqn:Hrun;
      try (exfalso; vm_compute in Hrun; discriminate Hrun).
    exists w', ex'.
    destruct (Hplan 4%nat (Examples.executor_of Examples.local_and_remote) w' ex' 0%nat
                "out" 1%nat 2%nat "in" "out" wf_local_and_remote)
      as [io [Hio [Hone [_ [_ [Hrx Honly]]]]]].
    + apply (ranked_graph_is_acyclic _ (fun n => n)).
      intros u v H; vm_compute in H.
      destruct H as [H | [H | []]]; inversion H; subst; lia.
    + exact declared_local_and_remote.
    + reflexivity.
    + reflexivity.
    + vm_compute; lia.
    + exact Hrun.
    + vm_compute; discriminate.
    + left; exists 2%nat; split; [vm_compute; right; left; reflexivity | reflexivity].
    + vm_compute; left; reflexivity.
    + vm_compute; right; left; reflexivity.
    + discriminate.
    + exists io; auto.
Defined.

(** The plan of [Examples.local_and_remote]: the broadcast entity of the
    output of "tx" has the double-buffer output "btx_0", connected to the
    input of "rx", and a UCX output towards the virtual operator. *)
Lemma local_and_remote_plan :
  match initialize_loop Examples.env 4 (get_nodes (graph Examples.local_and_remote))
          (init_worklist (graph Examples.local_and_remote))
          (Examples.executor_of Examples.local_and_remote) with
  | Ok (w, ex) =>
      initialization_order w = [0; 1; 2]%nat
      /\ connections_entity_ ex
         = [(cid_port 0 kOutput "out", cid_broadcast_rx 0 "out");
            (cid_btx 0, cid_port 1 kInput "in")]
      /\ map (fun e => (fst e, map (fun t => (btx_name t, btx_class t))
                                   (be_transmitters (snd e))))
             (broadcast_entities ex)
         = [((0%nat, "out"),
             [("btx_0", DoubleBufferTransmitter);
              ("virtual_tx_out_0_out", UcxTransmitter)])]
  | _ => False
  end.
Proof. vm_compute; repeat split. Qed.
